(** * ch2ts: ClickHouse DDL to TypeScript — a shallow embedding of the core

    The development follows the pipeline of [packages/core]:
    tokens.ts (lexer) -> parser.ts (recursive descent parser) -> index.ts
    (statement filter and driver) -> mapping.ts (type resolution and
    mapping) -> json-schema.ts (JSON-Schema renderer).

    JavaScript strings are modelled as Rocq [string]s, i.e. sequences of
    8-bit code units; every character the lexer keeps inside a token is
    ASCII.  Exceptions are modelled by the [result] type. *)

From Stdlib Require Import String Ascii List ZArith Lia Bool Arith.
From stdpp Require Import base option strings gmap list.
Import ListNotations.

Set Warnings "-register-all".
Local Open Scope string_scope.

(* ================================================================== *)
(** * Errors *)
(* ================================================================== *)

(** The [Error]s thrown by the core.  [TsMorphError] stands for any error
    thrown inside a call of the ts-morph library.  [OutOfFuel] is not an
    error of the program: it marks the exhaustion of the recursion budget
    of a Rocq [Fixpoint] and is shown unreachable where it matters. *)
Inductive error : Type :=
| DepthExceeded                 (* "Type mapping depth exceeded 20" *)
| SchemaDepthExceeded           (* "JSON Schema generation depth exceeded 20" *)
| AssertionFailed (msg : string)   (* ast-utils.ts [assert] *)
| UnknownTypeError (name : string) (* "Unknown type: <name>" *)
| LexingFailed                  (* "Lexing failed" *)
| ParseError (msg : string) (position : nat)
| TsMorphError
| OutOfFuel.

Inductive result (A : Type) : Type :=
| Ok (a : A)
| Err (e : error).
Arguments Ok {A} a.
Arguments Err {A} e.

Definition rbind {A B} (r : result A) (k : A -> result B) : result B :=
  match r with
  | Ok a => k a
  | Err e => Err e
  end.

Notation "'let*' x ':=' r 'in' k" := (rbind r (fun x => k))
  (at level 10, x pattern, r at level 100, k at level 200).

(** ast-utils.ts: [assert(condition, message)]. *)
Definition assert (condition : bool) (message : string) : result unit :=
  if condition then Ok tt else Err (AssertionFailed message).

Definition isOk {A} (r : result A) : bool :=
  match r with Ok _ => true | Err _ => false end.

(* ================================================================== *)
(** * JavaScript string primitives *)
(* ================================================================== *)

Module Js.

Definition code (c : ascii) : nat := nat_of_ascii c.

Definition inRange (lo hi : nat) (c : ascii) : bool :=
  Nat.leb lo (code c) && Nat.leb (code c) hi.

(** The regular-expression class [\s] (and the characters removed by
    [String.prototype.trim]) on code units below 256: TAB, LF, VT, FF, CR,
    SPACE and NO-BREAK SPACE. *)
Definition isSpace (c : ascii) : bool :=
  inRange 9 13 c || Nat.eqb (code c) 32 || Nat.eqb (code c) 160.

Definition isUpper (c : ascii) : bool := inRange 65 90 c.
Definition isLower (c : ascii) : bool := inRange 97 122 c.
Definition isDigit (c : ascii) : bool := inRange 48 57 c.
Definition isAlpha (c : ascii) : bool := isUpper c || isLower c.
Definition isAlnum (c : ascii) : bool := isAlpha c || isDigit c.
(** The class [\w] of a regular expression without the unicode flag. *)
Definition isWord (c : ascii) : bool := isAlnum c || Nat.eqb (code c) 95.
(** Line terminators below 256 (what [.] does not match). *)
Definition isLineTerminator (c : ascii) : bool :=
  Nat.eqb (code c) 10 || Nat.eqb (code c) 13.

(** [toLowerCase] on one code unit: ASCII letters and the Latin-1 capitals
    U+00C0..U+00DE (except the multiplication sign U+00D7). *)
Definition lowerChar (c : ascii) : ascii :=
  if isUpper c || (inRange 192 222 c && negb (Nat.eqb (code c) 215))
  then ascii_of_nat (code c + 32) else c.

(** [toUpperCase] on one code unit: ASCII letters and the Latin-1 small
    letters U+00E0..U+00FE (except the division sign U+00F7).  U+00B5,
    U+00DF and U+00FF, whose upper case lies outside this model, are left
    unchanged. *)
Definition upperChar (c : ascii) : ascii :=
  if isLower c || (inRange 224 254 c && negb (Nat.eqb (code c) 247))
  then ascii_of_nat (code c - 32) else c.

Fixpoint mapChars (f : ascii -> ascii) (s : string) : string :=
  match s with
  | EmptyString => EmptyString
  | String c s' => String (f c) (mapChars f s')
  end.

Definition toLowerCase : string -> string := mapChars lowerChar.
Definition toUpperCase : string -> string := mapChars upperChar.

Fixpoint trimStart (s : string) : string :=
  match s with
  | EmptyString => EmptyString
  | String c s' => if isSpace c then trimStart s' else s
  end.

Fixpoint trimEnd (s : string) : string :=
  match s with
  | EmptyString => EmptyString
  | String c s' =>
      match trimEnd s' with
      | EmptyString => if isSpace c then EmptyString else String c EmptyString
      | t => String c t
      end
  end.

Definition trim (s : string) : string := trimEnd (trimStart s).

(** Truthiness of a string: [!s] is true exactly for the empty string. *)
Definition nonEmpty (s : string) : bool :=
  match s with EmptyString => false | String _ _ => true end.

(** Truthiness of [string | undefined]. *)
Definition truthy (o : option string) : bool :=
  match o with Some s => nonEmpty s | None => false end.

Definition startsWith (s p : string) : bool := String.prefix p s.

Fixpoint lastChar (s : string) : option ascii :=
  match s with
  | EmptyString => None
  | String c EmptyString => Some c
  | String _ s' => lastChar s'
  end.

Fixpoint endsWith (s p : string) : bool :=
  String.eqb s p ||
  match s with
  | EmptyString => false
  | String _ s' => endsWith s' p
  end.

(** [s.slice(0, n)]. *)
Fixpoint take (n : nat) (s : string) : string :=
  match n, s with
  | S n', String c s' => String c (take n' s')
  | _, _ => EmptyString
  end.

(** [parts.join(sep)]. *)
Fixpoint join (sep : string) (parts : list string) : string :=
  match parts with
  | [] => EmptyString
  | [p] => p
  | p :: ps => p +:+ sep +:+ join sep ps
  end.

(** [s.split(c)] for a one-character separator: never returns the empty
    list, and [""] splits into [[""]]. *)
Fixpoint split (sep : ascii) (s : string) : list string :=
  match s with
  | EmptyString => [EmptyString]
  | String c s' =>
      if Ascii.eqb c sep then EmptyString :: split sep s'
      else match split sep s' with
           | h :: t => String c h :: t
           | [] => [String c EmptyString]
           end
  end.

(** [s.replace(/'/g, "\\'")]: a backslash before every single quote. *)
Fixpoint escapeQuotes (s : string) : string :=
  match s with
  | EmptyString => EmptyString
  | String c s' =>
      if Ascii.eqb c "'" then String "\" (String "'" (escapeQuotes s'))
      else String c (escapeQuotes s')
  end.

(** [s.replace(/\\'/g, "'")]: every backslash-quote pair becomes a quote. *)
Fixpoint unescapeQuotes (s : string) : string :=
  match s with
  | String "\" (String "'" s') => String "'" (unescapeQuotes s')
  | String c s' => String c (unescapeQuotes s')
  | EmptyString => EmptyString
  end.

(** Decimal rendering of an array index ([`_${i}`]). *)
Definition digitChar (n : nat) : ascii := ascii_of_nat (48 + n).

Fixpoint natToStringAux (fuel n : nat) (acc : string) : string :=
  match fuel with
  | 0 => acc
  | S fuel' =>
      let acc' := String (digitChar (n mod 10)) acc in
      if Nat.eqb (n / 10) 0 then acc' else natToStringAux fuel' (n / 10) acc'
  end.

Definition natToString (n : nat) : string := natToStringAux (S n) n EmptyString.

(** The value of a decimal numeral. *)
Fixpoint digitsValue (acc : N) (s : string) : N :=
  match s with
  | EmptyString => acc
  | String c s' => digitsValue (10 * acc + N.of_nat (code c - 48))%N s'
  end.

Definition decimalValue (s : string) : N := digitsValue 0%N s.

End Js.

(* ================================================================== *)
(** * types.ts: the data model *)
(* ================================================================== *)

(** The numbers of the data model are the values [Number] gives to the
    integer literals of the DDL: a natural number that a double holds, or
    [Infinity]. *)
Inductive JsNumber : Type :=
| Finite (n : N)
| Infinity.

(** [TypeAst = { name, args }] and
    [TypeArg = TypeAst | number | string | EnumMember]. *)
Inductive TypeAst : Type :=
| mkTypeAst (name : string) (args : list TypeArg)
with TypeArg : Type :=
| ArgType (t : TypeAst)
| ArgNumber (n : JsNumber)
| ArgString (s : string)
| ArgEnum (key : string) (value : JsNumber).

Definition name (t : TypeAst) : string :=
  match t with mkTypeAst n _ => n end.
Definition args (t : TypeAst) : list TypeArg :=
  match t with mkTypeAst _ a => a end.

(** The placeholder [{ name: "Unknown", args: [] }]. *)
Definition UnknownType : TypeAst := mkTypeAst "Unknown" [].
Definition leafType (n : string) : TypeAst := mkTypeAst n [].

Record ColumnAst : Type := mkColumnAst {
  col_name : string;
  col_type : TypeAst;
  col_rawType : string;
  col_comment : option string;
  col_default : option string
}.

(** An item of a SELECT list: [{ name, alias?, srcName?, func? }]. *)
Record SelectItem : Type := mkSelectItem {
  item_name : string;
  item_alias : option string;
  item_srcName : option string;
  item_func : option string
}.

Record MvCte : Type := mkMvCte {
  cte_name : string;
  cte_src : option string;
  cte_columns : list SelectItem
}.

Record TableAst : Type := mkTableAst {
  tbl_name : string;
  tbl_columns : list ColumnAst;
  tbl_partitionBy : option string;
  tbl_orderBy : option string;
  tbl_mvFrom : option string;
  tbl_mvSelect : option (list SelectItem);
  tbl_mvCte : option MvCte
}.

(** A mapping plugin: [mapType(type, ctx)] returns a string or undefined. *)
Definition MappingPlugin : Type := TypeAst -> option string.

Record MappingOptions : Type := mkMappingOptions {
  int64As : string;       (* 'bigint' | 'string' *)
  decimal : string;       (* 'string' | 'decimal.js' *)
  datetimeAs : string;    (* 'string' | 'Date' *)
  camelCase : bool;
  failOnUnknown : bool;   (* optional, absent = false *)
  plugins : option (list MappingPlugin)
}.

Record MappedColumn : Type := mkMappedColumn {
  mc_name : string;
  mc_tsType : string;
  mc_chType : string;
  mc_typeAst : TypeAst;
  mc_comment : option string
}.

Record MappedTable : Type := mkMappedTable {
  interfaceName : string;
  mt_columns : list MappedColumn;
  meta_partitionBy : option string;
  meta_orderBy : option string
}.

(** [toCamelCase]:
    [input.replace(/[_-]+([a-zA-Z0-9])/g, (_, c) => c.toUpperCase())
          .replace(/^[A-Z]/, (c) => c.toLowerCase())].
    [pending] holds the run of [_]/[-] read so far; the run disappears when
    an alphanumeric character follows it and is kept otherwise. *)
Definition isSeparator (c : ascii) : bool :=
  Ascii.eqb c "_" || Ascii.eqb c "-".

Fixpoint camelReplace (pending : string) (s : string) : string :=
  match s with
  | EmptyString => pending
  | String c s' =>
      if isSeparator c then camelReplace (pending +:+ String c EmptyString) s'
      else if Js.nonEmpty pending && Js.isAlnum c
           then String (Js.upperChar c) (camelReplace EmptyString s')
           else pending +:+ String c (camelReplace EmptyString s')
  end.

Definition lowerFirstUpper (s : string) : string :=
  match s with
  | String c s' => if Js.isUpper c then String (Js.lowerChar c) s' else s
  | EmptyString => EmptyString
  end.

Definition toCamelCase (input : string) : string :=
  lowerFirstUpper (camelReplace EmptyString input).

(** [toPascalCase]: [camel.charAt(0).toUpperCase() + camel.slice(1)]. *)
Definition toPascalCase (input : string) : string :=
  match toCamelCase input with
  | String c s' => String (Js.upperChar c) s'
  | EmptyString => EmptyString
  end.

(** ast-utils.ts *)
Definition toTypeOrUnknown (arg : option TypeArg) : TypeAst :=
  match arg with
  | Some (ArgType t) => t
  | _ => UnknownType
  end.

Definition firstTypeArg (t : TypeAst) : TypeAst := toTypeOrUnknown (nth_error (args t) 0).
Definition secondTypeArg (t : TypeAst) : TypeAst := toTypeOrUnknown (nth_error (args t) 1).

(** Monadic traversal of a list, left to right, stopping at the first
    exception (a [for] loop whose body may throw). *)
Fixpoint mapM {A B} (f : A -> result B) (l : list A) : result (list B) :=
  match l with
  | [] => Ok []
  | x :: l' =>
      let* y := f x in
      let* ys := mapM f l' in
      Ok (y :: ys)
  end.

(* ================================================================== *)
(** * mapping.ts: type mapping and materialized-view type resolution *)
(* ================================================================== *)

Module Mapping.

Definition MAX_TYPE_DEPTH : nat := 20.
Definition MAX_ENUM_KEYS : nat := 1000.
Definition MAX_TUPLE_ELEMENTS : nat := 100.

(** [validateTypeAst]; the shape tests ([typeof type.name === "string"],
    [Array.isArray(type.args)]) hold by typing. *)
Definition validateTypeAst (type : TypeAst) : result unit :=
  let* _ := assert (Js.nonEmpty (name type)) "TypeAst name cannot be empty" in
  assert (Nat.leb (length (args type)) MAX_TUPLE_ELEMENTS)
         ("Too many type args: " +:+ Js.natToString (length (args type))).

Definition validateMappingOptions (options : MappingOptions) : result unit :=
  let* _ := assert (String.eqb (int64As options) "bigint" || String.eqb (int64As options) "string")
                   "MappingOptions.int64As must be 'bigint' or 'string'" in
  let* _ := assert (String.eqb (decimal options) "string" || String.eqb (decimal options) "decimal.js")
                   "MappingOptions.decimal must be 'string' or 'decimal.js'" in
  assert (String.eqb (datetimeAs options) "string" || String.eqb (datetimeAs options) "Date")
         "MappingOptions.datetimeAs must be 'string' or 'Date'".

(** The first plugin (among the first 50) that returns a string wins. *)
Fixpoint firstPluginResult (ps : list MappingPlugin) (type : TypeAst) : option string :=
  match ps with
  | [] => None
  | p :: ps' =>
      match p type with
      | Some r => Some r
      | None => firstPluginResult ps' type
      end
  end.

Definition tryPluginMapping (type : TypeAst) (options : MappingOptions) : option string :=
  match plugins options with
  | None => None
  | Some ps => firstPluginResult (firstn 50 ps) type
  end.

(** The cases of the [switch] of [mapCoreType]. *)
Inductive TypeKind : Type :=
| KNullable | KLowCardinality | KArray | KTuple | KMap | KEnum | KDecimal
| KNumber | KBigInt | KString | KDateTime | KOther.

Definition isOneOf (s : string) (l : list string) : bool :=
  existsb (String.eqb s) l.

Definition typeKind (n : string) : TypeKind :=
  if String.eqb n "Nullable" then KNullable
  else if String.eqb n "LowCardinality" then KLowCardinality
  else if String.eqb n "Array" then KArray
  else if String.eqb n "Tuple" then KTuple
  else if String.eqb n "Map" then KMap
  else if isOneOf n ["Enum8"; "Enum16"] then KEnum
  else if String.eqb n "Decimal" then KDecimal
  else if isOneOf n ["Float32"; "Float64"; "Int8"; "Int16"; "Int32"; "UInt8"; "UInt16"; "UInt32"] then KNumber
  else if isOneOf n ["Int64"; "UInt64"] then KBigInt
  else if isOneOf n ["String"; "UUID"; "FixedString"; "IPv4"; "IPv6"] then KString
  else if isOneOf n ["Date"; "DateTime"; "DateTime64"] then KDateTime
  else KOther.

(** [extractEnumKeys]: the keys of the enum members among the first
    [MAX_ENUM_KEYS] arguments, empty keys skipped. *)
Fixpoint enumKeysOf (l : list TypeArg) : list string :=
  match l with
  | [] => []
  | ArgEnum key _ :: l' => if Js.nonEmpty key then key :: enumKeysOf l' else enumKeysOf l'
  | _ :: l' => enumKeysOf l'
  end.

Definition extractEnumKeys (l : list TypeArg) : list string :=
  enumKeysOf (firstn MAX_ENUM_KEYS l).

Definition escapeStringLiteral (str : string) : string := Js.escapeQuotes str.

Definition mapEnumType (type : TypeAst) : string :=
  match extractEnumKeys (args type) with
  | [] => "string"
  | keys => Js.join " | " (map (fun key => "'" +:+ escapeStringLiteral key +:+ "'") keys)
  end.

Definition mapDecimalType (options : MappingOptions) : string :=
  if String.eqb (decimal options) "decimal.js" then "Decimal" else "string".

Definition mapBigIntType (options : MappingOptions) : string :=
  if String.eqb (int64As options) "bigint" then "bigint" else "string".

Definition mapDateTimeType (options : MappingOptions) : string :=
  if String.eqb (datetimeAs options) "Date" then "Date" else "string".

Definition handleUnknownType (n : string) (options : MappingOptions) : result string :=
  if failOnUnknown options then Err (UnknownTypeError n) else Ok "unknown".

(** The loop of [mapTupleType]: element [i] becomes [_i: <type>;]. *)
Fixpoint tupleParts (rec : TypeAst -> result string) (i : nat) (l : list TypeArg)
  : result (list string) :=
  match l with
  | [] => Ok []
  | arg :: l' =>
      let* argType := rec (toTypeOrUnknown (Some arg)) in
      let* rest := tupleParts rec (S i) l' in
      Ok (("_" +:+ Js.natToString i +:+ ": " +:+ argType +:+ ";") :: rest)
  end.

(** [mapTypeAstToTs(type, options, depth)] with [mapCoreType] and its
    handlers ([mapNullableType], [mapLowCardinalityType], [mapArrayType],
    [mapTupleType], [mapMapType]) inlined.  The recursion of the source is
    bounded by its depth test; [fuel] only tells Rocq so. *)
Fixpoint mapTypeAstToTs_rec (fuel : nat) (type : TypeAst) (options : MappingOptions)
    (depth : nat) : result string :=
  match fuel with
  | 0 => Err OutOfFuel
  | S fuel' =>
      if Nat.ltb MAX_TYPE_DEPTH depth then Err DepthExceeded else
      let* _ := validateTypeAst type in
      let* _ := validateMappingOptions options in
      match tryPluginMapping type options with
      | Some (String c r) => Ok (String c r)   (* [if (pluginResult) return pluginResult] *)
      | _ =>
          let self := fun t => mapTypeAstToTs_rec fuel' t options (depth + 1) in
          match typeKind (name type) with
          | KNullable =>
              let* innerTs := self (firstTypeArg type) in
              Ok (innerTs +:+ " | null")
          | KLowCardinality => self (firstTypeArg type)
          | KArray =>
              let* innerTs := self (firstTypeArg type) in
              Ok (innerTs +:+ "[]")
          | KTuple =>
              let* parts := tupleParts self 0 (firstn MAX_TUPLE_ELEMENTS (args type)) in
              Ok ("{ " +:+ Js.join " " parts +:+ " }")
          | KMap =>
              let* valueTs := self (secondTypeArg type) in
              Ok ("Record<string, " +:+ valueTs +:+ ">")
          | KEnum => Ok (mapEnumType type)
          | KDecimal => Ok (mapDecimalType options)
          | KNumber => Ok "number"
          | KBigInt => Ok (mapBigIntType options)
          | KString => Ok "string"
          | KDateTime => Ok (mapDateTimeType options)
          | KOther => handleUnknownType (name type) options
          end
      end
  end.

(** [mapTypeAstToTs(type, options)] ([depth = 0]). *)
Definition mapTypeAstToTs (type : TypeAst) (options : MappingOptions) : result string :=
  mapTypeAstToTs_rec (MAX_TYPE_DEPTH + 2) type options 0.

(** ** Materialized-view resolution *)

Definition MAX_TABLES : nat := 1000.
Definition MAX_COLUMNS_PER_TABLE : N := 10000.
Definition MAX_SELECT_ITEMS : nat := 1000.
Definition MAX_CTE_COLUMNS : nat := 1000.

(** The values of [mvInfoMap] and [cteAliasMap]: [{ func?, src? }]. *)
Record FuncSrc : Type := mkFuncSrc {
  fs_func : option string;
  fs_src : option string
}.

Record MappingContext : Type := mkMappingContext {
  sourceTable : option TableAst;
  aliasMap : gmap string string;
  mvInfoMap : gmap string FuncSrc;
  cteAliasMap : gmap string FuncSrc;
  cteSourceTable : option TableAst
}.

Definition orElse {A} (o : option A) (d : A) : A :=
  match o with Some a => a | None => d end.

(** [findTableByName]: exact match, then [toPascalCase]-normalized match. *)
Definition findTableByName (tables : list TableAst) (n : string) : result (option TableAst) :=
  let* _ := assert (Js.nonEmpty n) "Table name cannot be empty" in
  match find (fun table => String.eqb (tbl_name table) n) tables with
  | Some exactMatch => Ok (Some exactMatch)
  | None =>
      let normalizedName := toPascalCase n in
      Ok (find (fun table => String.eqb (toPascalCase (tbl_name table)) normalizedName) tables)
  end.

(** [findColumnByName]: exact match, then [toCamelCase]-normalized match. *)
Definition findColumnByName (table : TableAst) (n : string) : result (option ColumnAst) :=
  let* _ := assert (Js.nonEmpty n) "Column name cannot be empty" in
  match find (fun column => String.eqb (col_name column) n) (tbl_columns table) with
  | Some exactMatch => Ok (Some exactMatch)
  | None =>
      let normalizedName := toCamelCase n in
      Ok (find (fun column => String.eqb (toCamelCase (col_name column)) normalizedName)
               (tbl_columns table))
  end.

Definition buildAliasMap (table : TableAst) : gmap string string :=
  match tbl_mvSelect table with
  | None => ∅
  | Some items =>
      fold_left (fun (aliasMap : gmap string string) item =>
                   match item_alias item with
                   | Some (String c r as a) =>
                       <[ a := orElse (item_srcName item) (item_name item) ]> aliasMap
                   | _ => aliasMap
                   end)
                (firstn MAX_SELECT_ITEMS items) ∅
  end.

Definition buildMvInfoMap (table : TableAst) : gmap string FuncSrc :=
  match tbl_mvSelect table with
  | None => ∅
  | Some items =>
      fold_left (fun (infoMap : gmap string FuncSrc) item =>
                   let key := orElse (item_alias item) (item_name item) in
                   if Js.nonEmpty key
                   then <[ key := mkFuncSrc (item_func item) (item_srcName item) ]> infoMap
                   else infoMap)
                (firstn MAX_SELECT_ITEMS items) ∅
  end.

Definition buildCteAliasMap (table : TableAst) : gmap string FuncSrc :=
  match tbl_mvCte table with
  | None => ∅
  | Some cte =>
      fold_left (fun (cteMap : gmap string FuncSrc) column =>
                   let key := orElse (item_alias column) (item_name column) in
                   if Js.nonEmpty key
                   then <[ key := mkFuncSrc (item_func column)
                                            (Some (orElse (item_srcName column) (item_name column))) ]> cteMap
                   else cteMap)
                (firstn MAX_CTE_COLUMNS (cte_columns cte)) ∅
  end.

Definition createMappingContext (table : TableAst) (allTables : list TableAst)
  : result MappingContext :=
  let* src :=
    match tbl_mvFrom table with
    | Some (String c r as from) => findTableByName allTables from
    | _ => Ok None
    end in
  let* cteSrc :=
    match tbl_mvCte table with
    | Some cte =>
        match cte_src cte with
        | Some (String c r as from) => findTableByName allTables from
        | _ => Ok None
        end
    | None => Ok None
    end in
  Ok (mkMappingContext src (buildAliasMap table) (buildMvInfoMap table)
                       (buildCteAliasMap table) cteSrc).

(** [mapFuncToType]: conversion functions with a predictable result. *)
Definition mapFuncToType (funcName : string) : result TypeAst :=
  let* _ := assert (Js.nonEmpty funcName) "Function name cannot be empty" in
  let normalizedFunc := Js.trim (Js.toLowerCase funcName) in
  if Js.startsWith normalizedFunc "tofloat" then Ok (leafType "Float64")
  else if Js.startsWith normalizedFunc "toint" then Ok (leafType "Int64")
  else if Js.startsWith normalizedFunc "touint" then Ok (leafType "UInt64")
  else if Js.startsWith normalizedFunc "todecimal" then Ok (leafType "Decimal")
  else if String.eqb normalizedFunc "tostartofday" then Ok (leafType "DateTime")
  else Ok UnknownType.

Definition isNumericAggregate (funcName : string) : bool :=
  Js.startsWith funcName "sum" || Js.startsWith funcName "avg" || Js.startsWith funcName "count".

Definition isStatePreservingAggregate (funcName : string) : bool :=
  Js.startsWith funcName "anylast" || Js.startsWith funcName "anystate" ||
  Js.startsWith funcName "max" || Js.startsWith funcName "min" ||
  Js.startsWith funcName "argmin" || Js.startsWith funcName "argmax".

(** [resolveAggReturnType(funcName, baseType)]. *)
Definition resolveAggReturnType (funcName : option string) (baseType : option TypeAst)
  : result (option TypeAst) :=
  match funcName with
  | Some (String c r as fn) =>
      let* _ := assert (Js.nonEmpty fn) "Function name cannot be empty" in
      let normalizedFunc := Js.trim (Js.toLowerCase fn) in
      if String.eqb normalizedFunc "tostartofday" then Ok (Some (leafType "DateTime"))
      else if isNumericAggregate normalizedFunc then Ok (Some (leafType "Float64"))
      else if isStatePreservingAggregate normalizedFunc
           then Ok (Some (orElse baseType (leafType "Float64")))
           else Ok baseType
  | _ => Ok baseType      (* [if (!funcName) return baseType] *)
  end.

(** [resolveCTEBaseType(cteInfo, context)]. *)
Definition resolveCTEBaseType (cteInfo : FuncSrc) (context : MappingContext)
  : result (option TypeAst) :=
  let* fromFunc :=
    match fs_func cteInfo with
    | Some (String c r as fn) =>
        let* funcType := mapFuncToType fn in
        if negb (String.eqb (name funcType) "Unknown") then Ok (Some funcType) else Ok None
    | _ => Ok None
    end in
  match fromFunc with
  | Some funcType => Ok (Some funcType)
  | None =>
      match fs_src cteInfo, cteSourceTable context with
      | Some (String c r as src), Some table =>
          let* sourceColumn := findColumnByName table src in
          Ok (option_map col_type sourceColumn)
      | _, _ => Ok None
      end
  end.

(** The result of a resolution: [{ type, rawType } | undefined]. *)
Definition Resolved : Type := option (TypeAst * string).

Definition resolveFromSourceTable (column : ColumnAst) (context : MappingContext)
  : result Resolved :=
  match sourceTable context with
  | None => Ok None
  | Some table =>
      let sourceName :=
        match aliasMap context !! col_name column with
        | Some (String c r as aliasedName) => aliasedName
        | _ => col_name column
        end in
      let* sourceColumn := findColumnByName table sourceName in
      match sourceColumn with
      | Some sc => Ok (Some (col_type sc, col_rawType sc))
      | None => Ok None
      end
  end.

(** The base type of a projection item of the final SELECT
    ([cteInfo] and [baseType] in [resolveFromCTE]). *)
Definition lookupBaseType (mvInfo : FuncSrc) (context : MappingContext)
  : result (option TypeAst) :=
  let cteInfo :=
    match fs_src mvInfo with
    | Some (String c r as src) => cteAliasMap context !! src
    | _ => None
    end in
  match cteInfo with
  | Some ci => resolveCTEBaseType ci context
  | None => Ok None
  end.

Definition resolveFromCTE (column : ColumnAst) (context : MappingContext)
  : result Resolved :=
  match mvInfoMap context !! col_name column with
  | None => Ok (Some (leafType "String", "String"))   (* no info: fallback to string *)
  | Some mvInfo =>
      let* baseType := lookupBaseType mvInfo context in
      let* resolvedType := resolveAggReturnType (fs_func mvInfo) baseType in
      match resolvedType with
      | Some ty => Ok (Some (ty, name ty))
      | None =>
          if negb (Js.truthy (fs_func mvInfo))
          then Ok (Some (leafType "String", "String"))  (* plain identifiers *)
          else Ok None
      end
  end.

Definition resolveUnknownType (column : ColumnAst) (context : MappingContext)
  : result Resolved :=
  match sourceTable context with
  | Some _ => resolveFromSourceTable column context
  | None => resolveFromCTE column context
  end.

Definition validateColumn (column : ColumnAst) : result unit :=
  assert (Js.nonEmpty (col_name column)) "Column name cannot be empty".

(** The type and raw type of a column after resolution (first half of
    [mapSingleColumn]). *)
Definition resolveColumnType (column : ColumnAst) (context : MappingContext)
  : result (TypeAst * string) :=
  if String.eqb (name (col_type column)) "Unknown" then
    let* resolved := resolveUnknownType column context in
    match resolved with
    | Some r => Ok r
    | None => Ok (col_type column, col_rawType column)
    end
  else Ok (col_type column, col_rawType column).

Definition mapSingleColumn (column : ColumnAst) (context : MappingContext)
    (options : MappingOptions) : result MappedColumn :=
  let* resolved := resolveColumnType column context in
  let resolvedType := fst resolved in
  let rawType := snd resolved in
  let chType := Js.trim rawType in
  let* tsType := mapTypeAstToTs resolvedType options in
  Ok (mkMappedColumn
        (if camelCase options then toCamelCase (col_name column) else col_name column)
        tsType chType resolvedType (col_comment column)).

Definition mapTableColumns (table : TableAst) (context : MappingContext)
    (options : MappingOptions) : result (list MappedColumn) :=
  mapM (fun column =>
          let* _ := validateColumn column in
          mapSingleColumn column context options)
       (tbl_columns table).

Definition mapSingleTable (table : TableAst) (allTables : list TableAst)
    (options : MappingOptions) : result MappedTable :=
  let* context := createMappingContext table allTables in
  let* columns := mapTableColumns table context options in
  Ok (mkMappedTable (toPascalCase (tbl_name table)) columns
                    (tbl_partitionBy table) (tbl_orderBy table)).

Definition validateTableArray (tables : list TableAst) : result unit :=
  let* _ := mapM (fun table =>
                    let* _ := assert (Js.nonEmpty (tbl_name table)) "Table name cannot be empty" in
                    assert (N.leb (N.of_nat (length (tbl_columns table))) MAX_COLUMNS_PER_TABLE)
                           ("Too many columns in table " +:+ tbl_name table +:+ ": " +:+
                            Js.natToString (length (tbl_columns table))))
                 tables in
  Ok tt.

(** [map(tables, options)]. *)
Definition map (tables : list TableAst) (options : MappingOptions)
  : result (list MappedTable) :=
  let* _ := assert (Nat.leb (length tables) MAX_TABLES)
                   ("Too many tables: " +:+ Js.natToString (length tables)) in
  let* _ := validateTableArray tables in
  mapM (fun table => mapSingleTable table tables options) tables.

End Mapping.

(* ================================================================== *)
(** * tokens.ts: the lexer *)
(* ================================================================== *)

Module Tokens.

Inductive TokenType : Type :=
| LineComment | BlockComment | WhiteSpace
| LParen | RParen | Comma | Dot | Eq | Semi
| Create | Table | Materialized | View | If | Not | Exists | Comment
| Default | Codec | Partition | Order | By | Engine | As | With | Select
| From | To | For
| StringLiteral | Integer | Identifier
| Unknown.

Definition TokenType_eq_dec (a b : TokenType) : {a = b} + {a <> b}.
Proof. decide equality. Defined.

Definition tokenTypeEqb (a b : TokenType) : bool :=
  if TokenType_eq_dec a b then true else false.

(** [group: Lexer.SKIPPED]. *)
Definition skipped (ty : TokenType) : bool :=
  match ty with
  | LineComment | BlockComment | WhiteSpace | Semi | Unknown => true
  | _ => false
  end.

(** The text of a keyword token ([/\bCREATE\b/i] and the like). *)
Definition keywordText (ty : TokenType) : option string :=
  match ty with
  | Create => Some "CREATE" | Table => Some "TABLE"
  | Materialized => Some "MATERIALIZED" | View => Some "VIEW"
  | If => Some "IF" | Not => Some "NOT" | Exists => Some "EXISTS"
  | Comment => Some "COMMENT" | Default => Some "DEFAULT" | Codec => Some "CODEC"
  | Partition => Some "PARTITION" | Order => Some "ORDER" | By => Some "BY"
  | Engine => Some "ENGINE" | As => Some "AS" | With => Some "WITH"
  | Select => Some "SELECT" | From => Some "FROM" | To => Some "TO" | For => Some "FOR"
  | _ => None
  end.

(** Length of the longest prefix of [s] whose characters satisfy [p]. *)
Fixpoint spanLen (p : ascii -> bool) (s : string) : nat :=
  match s with
  | String c s' => if p c then S (spanLen p s') else 0
  | EmptyString => 0
  end.

Definition positive (n : nat) : option nat :=
  match n with 0 => None | S _ => Some n end.

(** Case-insensitive match of the keyword [kw] at the head of [s], followed
    by a word boundary; returns the length of the keyword. *)
Fixpoint keywordPrefix (kw s : string) : option nat :=
  match kw with
  | EmptyString =>
      match s with
      | String c _ => if Js.isWord c then None else Some 0
      | EmptyString => Some 0
      end
  | String k kw' =>
      match s with
      | String c s' =>
          if Ascii.eqb (Js.upperChar c) k then option_map S (keywordPrefix kw' s') else None
      | EmptyString => None
      end
  end.

(** [/\bKW\b/i] at the current offset; [prev] is the character before it. *)
Definition matchKeyword (kw : string) (prev : option ascii) (s : string) : option nat :=
  match prev with
  | Some p => if Js.isWord p then None else keywordPrefix kw s
  | None => keywordPrefix kw s
  end.

Definition matchChar (ch : ascii) (s : string) : option nat :=
  match s with
  | String c _ => if Ascii.eqb c ch then Some 1 else None
  | EmptyString => None
  end.

(** [/--[^\n]*/] *)
Definition matchLineComment (s : string) : option nat :=
  match s with
  | String c (String d s') =>
      if Ascii.eqb c "-" && Ascii.eqb d "-"
      then Some (2 + spanLen (fun x => negb (Nat.eqb (Js.code x) 10)) s')
      else None
  | _ => None
  end.

(** Offset just after the first [*/] of [s]. *)
Fixpoint findBlockEnd (s : string) : option nat :=
  match s with
  | EmptyString => None
  | String c s' =>
      match s' with
      | String d _ =>
          if Ascii.eqb c "*" && Ascii.eqb d "/" then Some 2
          else option_map S (findBlockEnd s')
      | EmptyString => None
      end
  end.

(** [/\/\*[\s\S]*?\*\//] *)
Definition matchBlockComment (s : string) : option nat :=
  match s with
  | String c (String d s') =>
      if Ascii.eqb c "/" && Ascii.eqb d "*"
      then option_map (fun n => 2 + n) (findBlockEnd s')
      else None
  | _ => None
  end.

(** [/[ \t\n\r\f]+/] *)
Definition isLexerSpace (c : ascii) : bool :=
  let n := Js.code c in
  Nat.eqb n 32 || Nat.eqb n 9 || Nat.eqb n 10 || Nat.eqb n 13 || Nat.eqb n 12.

Definition matchWhiteSpace (s : string) : option nat := positive (spanLen isLexerSpace s).

(** The body of [/'(?:[^'\\]|\\.)*'/] after the opening quote: the length
    up to and including the closing quote. *)
Fixpoint stringBodyLen (s : string) : option nat :=
  match s with
  | EmptyString => None
  | String c s' =>
      if Ascii.eqb c "'" then Some 1
      else if Ascii.eqb c "\" then
        match s' with
        | String d s'' =>
            if Js.isLineTerminator d then None
            else option_map (fun n => S (S n)) (stringBodyLen s'')
        | EmptyString => None
        end
      else option_map S (stringBodyLen s')
  end.

Definition matchStringLiteral (s : string) : option nat :=
  match s with
  | String c s' => if Ascii.eqb c "'" then option_map S (stringBodyLen s') else None
  | EmptyString => None
  end.

(** [/\d+/] *)
Definition matchInteger (s : string) : option nat := positive (spanLen Js.isDigit s).

(** [/[A-Za-z_][A-Za-z0-9_]*/] *)
Definition matchIdentifier (s : string) : option nat :=
  match s with
  | String c s' =>
      if Js.isAlpha c || Ascii.eqb c "_" then Some (S (spanLen Js.isWord s')) else None
  | EmptyString => None
  end.

(** [/[^\s]/] *)
Definition matchUnknown (s : string) : option nat :=
  match s with
  | String c _ => if Js.isSpace c then None else Some 1
  | EmptyString => None
  end.

(** The pattern of each token type, tried at the current offset. *)
Definition matchToken (ty : TokenType) (prev : option ascii) (s : string) : option nat :=
  match ty with
  | LineComment => matchLineComment s
  | BlockComment => matchBlockComment s
  | WhiteSpace => matchWhiteSpace s
  | LParen => matchChar "(" s
  | RParen => matchChar ")" s
  | Comma => matchChar "," s
  | Dot => matchChar "." s
  | Eq => matchChar "=" s
  | Semi => matchChar ";" s
  | StringLiteral => matchStringLiteral s
  | Integer => matchInteger s
  | Identifier => matchIdentifier s
  | Unknown => matchUnknown s
  | kw => match keywordText kw with
          | Some text => matchKeyword text prev s
          | None => None
          end
  end.

(** The token types in the order given to [new Lexer([...])]: the first
    pattern that matches wins. *)
Definition allTokens : list TokenType :=
  [ LineComment; BlockComment; WhiteSpace;
    LParen; RParen; Comma; Dot; Eq; Semi;
    Create; Table; Materialized; View; If; Not; Exists; Comment; Default;
    Codec; Partition; Order; By; Engine; As; With; Select; From; To; For;
    StringLiteral; Integer; Identifier; Unknown ].

Fixpoint firstMatch (types : list TokenType) (prev : option ascii) (s : string)
  : option (TokenType * nat) :=
  match types with
  | [] => None
  | ty :: types' =>
      match matchToken ty prev s with
      | Some len => Some (ty, len)
      | None => firstMatch types' prev s
      end
  end.

Record IToken : Type := mkToken {
  tokenType : TokenType;
  image : string;
  startOffset : nat
}.

(** A lexing error: the offset of a run of characters that no pattern
    matches (the lexer drops them and resumes). *)
Record LexError : Type := mkLexError { errorOffset : nat }.

Record LexResult : Type := mkLexResult {
  tokens : list IToken;
  errors : list LexError
}.

Definition addToken (t : IToken) (r : LexResult) : LexResult :=
  mkLexResult (t :: tokens r) (errors r).
Definition addError (e : LexError) (r : LexResult) : LexResult :=
  mkLexResult (tokens r) (e :: errors r).

(** [ddlLexer.tokenize]: at each offset the first matching pattern yields
    a token (kept unless its group is SKIPPED) and the scan resumes after
    it; where nothing matches an error is recorded and one character is
    dropped.  [skip] counts the characters of the current token still to
    be passed over, [inError] tells whether the previous character was
    dropped (one error per run). *)
Fixpoint lexFrom (s : string) (prev : option ascii) (offset skip : nat) (inError : bool)
  : LexResult :=
  match s with
  | EmptyString => mkLexResult [] []
  | String c s' =>
      match skip with
      | S skip' => lexFrom s' (Some c) (S offset) skip' false
      | 0 =>
          match firstMatch allTokens prev s with
          | Some (ty, len) =>
              let rest := lexFrom s' (Some c) (S offset) (len - 1) false in
              if skipped ty then rest
              else addToken (mkToken ty (Js.take len s) offset) rest
          | None =>
              let rest := lexFrom s' (Some c) (S offset) 0 true in
              if inError then rest else addError (mkLexError offset) rest
          end
      end
  end.

Definition tokenize (text : string) : LexResult := lexFrom text None 0 0 false.

End Tokens.

(* ================================================================== *)
(** * parser.ts: the recursive-descent parser *)
(* ================================================================== *)

Module Parser.
Import Tokens.

(** The parser state.  The source keeps [{ tokens, position, maxTokens }];
    here [rest] is [tokens.slice(position)], so that [isAtEnd] is
    [rest = []] and [peekToken(state, k)] is the [k]-th element of [rest]. *)
Record ParserState : Type := mkState {
  rest : list IToken;
  position : nat
}.

(** A parsing action: it may throw, and it mutates the state in both
    cases. *)
Definition Parser (A : Type) : Type := ParserState -> result A * ParserState.

Definition ret {A} (a : A) : Parser A := fun st => (Ok a, st).
Definition throw {A} (e : error) : Parser A := fun st => (Err e, st).
Definition bind {A B} (p : Parser A) (k : A -> Parser B) : Parser B :=
  fun st =>
    match p st with
    | (Ok a, st') => k a st'
    | (Err e, st') => (Err e, st')
    end.

Notation "'do*' x '<-' p ';;' k" := (bind p (fun x => k))
  (at level 10, x name, p at level 99, k at level 200).
Notation "'run*' p ';;' k" := (bind p (fun _ => k))
  (at level 10, p at level 99, k at level 200).

Definition createParserState (toks : list IToken) : result ParserState :=
  let* _ := assert (N.leb (N.of_nat (length toks)) 10000) "Token count exceeds safety limit" in
  Ok (mkState toks 0).

Definition isAtEnd (st : ParserState) : bool :=
  match rest st with [] => true | _ :: _ => false end.

Definition peekToken (st : ParserState) (offset : nat) : option IToken :=
  nth_error (rest st) offset.

Definition peekType (st : ParserState) (offset : nat) : option TokenType :=
  option_map tokenType (peekToken st offset).

Definition isType (ty : TokenType) (t : IToken) : bool := tokenTypeEqb (tokenType t) ty.

(** [state.position++] *)
Definition advance (st : ParserState) : ParserState :=
  mkState (tl (rest st)) (S (position st)).

Definition tryMatch (ty : TokenType) : Parser bool :=
  fun st =>
    match rest st with
    | t :: _ => if isType ty t then (Ok true, advance st) else (Ok false, st)
    | [] => (Ok false, st)
    end.

Definition consumeToken (ty : TokenType) (expected : string) : Parser IToken :=
  fun st =>
    match rest st with
    | t :: _ =>
        if isType ty t then (Ok t, advance st)
        else (Err (ParseError ("Expected " +:+ expected) (position st)), st)
    | [] => (Err (ParseError ("Expected " +:+ expected) (position st)), st)
    end.

Definition parseError {A} (msg : string) : Parser A :=
  fun st => (Err (ParseError msg (position st)), st).

(** [skipToToken]: drop tokens up to and including the next [target]. *)
Fixpoint skipToToken_loop (target : TokenType) (startPos : nat) (r : list IToken) (pos : nat)
  : result unit * ParserState :=
  match r with
  | [] => (Ok tt, mkState [] pos)
  | t :: r' =>
      if isType target t then (Ok tt, mkState r' (S pos))
      else if Nat.ltb 1000 (S pos - startPos)
           then (Err (ParseError "Skip limit exceeded - possible infinite loop" (S pos)),
                 mkState r' (S pos))
           else skipToToken_loop target startPos r' (S pos)
  end.

Definition skipToToken (target : TokenType) : Parser unit :=
  fun st => skipToToken_loop target (position st) (rest st) (position st).

(** The loop shared by [skipBalancedParens], [parseCTEBlock] and
    [parseCTEBlockOnly]: skip to the parenthesis that closes the one just
    consumed, giving up after [limit] tokens. *)
Fixpoint skipBalanced_loop (limit : nat) (msg : string) (startPos : nat) (depth : nat)
    (r : list IToken) (pos : nat) : result unit * ParserState :=
  match depth, r with
  | 0, _ => (Ok tt, mkState r pos)
  | _, [] => (Ok tt, mkState [] pos)
  | S d, t :: r' =>
      let depth' := if isType LParen t then S depth
                    else if isType RParen t then d else depth in
      if Nat.ltb limit (S pos - startPos)
      then (Err (ParseError msg (S pos)), mkState r' (S pos))
      else skipBalanced_loop limit msg startPos depth' r' (S pos)
  end.

Definition skipBalancedParens : Parser unit :=
  fun st => skipBalanced_loop 1000 "Parentheses depth limit exceeded"
                              (position st) 1 (rest st) (position st).

(** [canonicalTypeName] *)
Definition canonicalTypeName (n : string) : string :=
  let l := Js.toLowerCase n in
  if String.eqb l "nullable" then "Nullable"
  else if String.eqb l "lowcardinality" then "LowCardinality"
  else if String.eqb l "array" then "Array"
  else if String.eqb l "tuple" then "Tuple"
  else if String.eqb l "map" then "Map"
  else if String.eqb l "enum8" then "Enum8"
  else if String.eqb l "enum16" then "Enum16"
  else if String.eqb l "decimal" then "Decimal"
  else if String.eqb l "fixedstring" then "FixedString"
  else if String.eqb l "datetime" then "DateTime"
  else if String.eqb l "datetime64" then "DateTime64"
  else match n with
       | String c n' => if Js.isUpper c then n else String (Js.upperChar c) n'
       | EmptyString => EmptyString
       end.

(** [s.slice(1, -1)] *)
Fixpoint dropLast (s : string) : string :=
  match s with
  | EmptyString => EmptyString
  | String _ EmptyString => EmptyString
  | String c s' => String c (dropLast s')
  end.

Definition unquote (s : string) : string :=
  match s with
  | String c s' =>
      if Ascii.eqb c "'" && (match Js.lastChar s with
                            | Some l => Ascii.eqb l "'"
                            | None => false
                            end)
      then Js.unescapeQuotes (dropLast s')
      else s
  | EmptyString => EmptyString
  end.

(** The IEEE 754 double nearest to the natural number [n] (ties to the even
    significand), and [Infinity] from 2^1024 - 2^970 on.  (Beyond 20
    significant digits ECMAScript lets an engine round a truncated value;
    V8 rounds the exact one.) *)
Definition roundToDouble (n : N) : JsNumber :=
  let bits := N.size n in
  if (bits <=? 53)%N then Finite n
  else
    let shift := (bits - 53)%N in
    let q := N.shiftr n shift in
    let r := (n - N.shiftl q shift)%N in
    let half := N.shiftl 1 (shift - 1) in
    let q' := if (r <? half)%N then q
              else if (half <? r)%N then (q + 1)%N
              else if N.even q then q else (q + 1)%N in
    let m := N.shiftl q' shift in
    if (N.shiftl 1 1024 <=? m)%N then Infinity else Finite m.

(** [Number(image)] for the image of an [Integer] token: a double. *)
Definition numberOf (img : string) : JsNumber := roundToDouble (Js.decimalValue img).

(** [parseQualifiedName]: [name] or [schema.name]; the final component is
    returned. *)
Definition parseQualifiedName : Parser string :=
  do* first <- consumeToken Identifier "identifier" ;;
  do* dot <- tryMatch Dot ;;
  if dot then
    do* second <- consumeToken Identifier "identifier" ;;
    ret (image second)
  else ret (image first).

Definition parseTableType : Parser bool :=
  do* mv <- tryMatch Materialized ;;
  if mv then run* consumeToken View "VIEW" ;; ret true
  else run* consumeToken Table "TABLE" ;; ret false.

Definition parseOptionalIfNotExists : Parser unit :=
  do* i <- tryMatch If ;;
  if i then run* tryMatch Not ;; run* tryMatch Exists ;; ret tt
  else ret tt.

(** [;\s*$] removed from the end of a captured expression. *)
Fixpoint allSpace (s : string) : bool :=
  match s with
  | EmptyString => true
  | String c s' => Js.isSpace c && allSpace s'
  end.

Fixpoint stripTrailingSemi (s : string) : string :=
  match s with
  | EmptyString => EmptyString
  | String c s' =>
      if Ascii.eqb c ";" && allSpace s' then EmptyString
      else String c (stripTrailingSemi s')
  end.

(** The loop of [captureExpressionUntil]. *)
Fixpoint captureExpression_loop (stoppers : list TokenType) (startPos : nat)
    (r : list IToken) (pos : nat) : result (list string) * ParserState :=
  match r with
  | [] => (Ok [], mkState [] pos)
  | t :: r' =>
      if existsb (tokenTypeEqb (tokenType t)) stoppers then (Ok [], mkState r pos)
      else if Nat.ltb 500 (S pos - startPos)
           then (Err (ParseError "Expression capture limit exceeded" (S pos)), mkState r' (S pos))
           else match captureExpression_loop stoppers startPos r' (S pos) with
                | (Ok parts, st') => (Ok (image t :: parts), st')
                | (Err e, st') => (Err e, st')
                end
  end.

Definition captureExpressionUntil (stoppers : list TokenType) : Parser string :=
  fun st =>
    match captureExpression_loop stoppers (position st) (rest st) (position st) with
    | (Ok parts, st') => (Ok (stripTrailingSemi (Js.trim (Js.join "" parts))), st')
    | (Err e, st') => (Err e, st')
    end.

Definition parseOptionalEngine : Parser unit :=
  do* e <- tryMatch Engine ;;
  if e then
    run* tryMatch Eq ;;
    run* (fun st => match peekType st 0 with
                    | Some Identifier => bind (consumeToken Identifier "engine") (fun _ => ret tt) st
                    | _ => ret tt st
                    end) ;;
    do* lp <- tryMatch LParen ;;
    if lp then skipBalancedParens else ret tt
  else ret tt.

Definition parseOptionalPartitionBy : Parser (option string) :=
  do* p <- tryMatch Partition ;;
  if p then
    run* consumeToken By "BY" ;;
    do* e <- captureExpressionUntil [Order] ;;
    ret (Some e)
  else ret None.

Definition parseOptionalOrderBy : Parser (option string) :=
  do* o <- tryMatch Order ;;
  if o then
    run* consumeToken By "BY" ;;
    do* e <- captureExpressionUntil [As] ;;
    ret (Some e)
  else ret None.

(** The loop of [parseFirstFunctionArg]: the first plain identifier among
    the arguments of a call whose opening parenthesis was just consumed.
    An identifier followed by [(] is a nested function name and is not
    recorded. *)
Fixpoint firstFunctionArg_loop (startPos : nat) (depth : nat) (srcName : option string)
    (r : list IToken) (pos : nat) : result (option string) * ParserState :=
  match depth, r with
  | 0, _ => (Ok srcName, mkState r pos)
  | _, [] => (Ok srcName, mkState [] pos)
  | S d, t :: r' =>
      if isType LParen t then firstFunctionArg_loop startPos (S depth) srcName r' (S pos)
      else if isType RParen t then firstFunctionArg_loop startPos d srcName r' (S pos)
      else if isType Identifier t then
        match r' with
        | t1 :: r'' =>
            if isType LParen t1 then firstFunctionArg_loop startPos depth srcName r' (S pos)
            else if isType Dot t1 then
              match r'' with
              | t2 :: r''' =>
                  if isType Identifier t2
                  then firstFunctionArg_loop startPos depth
                         (if Js.truthy srcName then srcName else Some (image t2))
                         r''' (S (S (S pos)))
                  else (Err (ParseError "Expected identifier" (S (S pos))), mkState r'' (S (S pos)))
              | [] => (Err (ParseError "Expected identifier" (S (S pos))), mkState [] (S (S pos)))
              end
            else firstFunctionArg_loop startPos depth
                   (if Js.truthy srcName then srcName else Some (image t)) r' (S pos)
        | [] => firstFunctionArg_loop startPos depth
                  (if Js.truthy srcName then srcName else Some (image t)) r' (S pos)
        end
      else if Nat.ltb 200 (S pos - startPos)
           then (Err (ParseError "Function argument parsing limit exceeded" (S pos)),
                 mkState r' (S pos))
           else firstFunctionArg_loop startPos depth srcName r' (S pos)
  end.

Definition parseFirstFunctionArg : Parser (option string) :=
  fun st => firstFunctionArg_loop (position st) 1 None (rest st) (position st).

(** [parseSelectItem]: [id], [qualifier.id] or [func(args)], with an
    optional [AS alias]. *)
Definition parseSelectItem : Parser SelectItem :=
  do* id1 <- consumeToken Identifier "identifier" ;;
  do* dot <- tryMatch Dot ;;
  do* n <- (if dot then
              do* id2 <- consumeToken Identifier "identifier" ;;
              ret (image id2)
            else ret (image id1)) ;;
  do* lp <- tryMatch LParen ;;
  do* fs <- (if lp then
               do* src <- parseFirstFunctionArg ;;
               ret (Some (image id1), src)
             else ret (None, None)) ;;
  do* as_ <- tryMatch As ;;
  do* alias <- (if as_ then
                  do* a <- consumeToken Identifier "alias" ;;
                  ret (Some (image a))
                else ret None) ;;
  ret (mkSelectItem n alias (Some (Mapping.orElse (snd fs) n)) (fst fs)).

(** The loop of [parseSelectList]; [fuel] bounds the number of iterations
    (each one consumes a token). *)
Fixpoint parseSelectList_loop (fuel : nat) (itemCount : nat) : Parser (list SelectItem) :=
  fun st =>
    match fuel with
    | 0 => (Err OutOfFuel, st)
    | S fuel' =>
        if Nat.ltb itemCount 100 then
          match rest st with
          | [] => (Ok [], st)
          | t :: _ =>
              if isType From t then (Ok [], st)
              else if isType Comma t then parseSelectList_loop fuel' itemCount (advance st)
              else if isType Identifier t then
                bind parseSelectItem
                     (fun item => bind (parseSelectList_loop fuel' (S itemCount))
                                       (fun items => ret (item :: items))) st
              else parseSelectList_loop fuel' itemCount (advance st)
          end
        else (Ok [], st)
    end.

Definition parseSelectList : Parser (list SelectItem) :=
  fun st => parseSelectList_loop (S (length (rest st))) 0 st.

(** [parseCTEBlockOnly]: the name of the named sub-query; its body is
    skipped. *)
Definition parseCTEBlockOnly : Parser MvCte :=
  do* cteName <- consumeToken Identifier "CTE name" ;;
  run* consumeToken As "AS" ;;
  run* consumeToken LParen "(" ;;
  run* (fun st => skipBalanced_loop 5000 "CTE content parsing limit exceeded"
                                    (position st) 1 (rest st) (position st)) ;;
  ret (mkMvCte (image cteName) None []).

(** The loop of [skipWithNamedExpressions]: stop in front of the first
    SELECT outside parentheses. *)
Fixpoint skipWith_loop (startPos : nat) (depth : nat) (r : list IToken) (pos : nat)
  : result unit * ParserState :=
  match r with
  | [] => (Ok tt, mkState [] pos)
  | t :: r' =>
      if isType LParen t then skipWith_loop startPos (S depth) r' (S pos)
      else if isType RParen t then skipWith_loop startPos (Nat.pred depth) r' (S pos)
      else if isType Select t && Nat.eqb depth 0 then (Ok tt, mkState r pos)
      else if Nat.ltb 2000 (S pos - startPos)
           then (Err (ParseError "WITH expressions parsing limit exceeded" (S pos)),
                 mkState r' (S pos))
           else skipWith_loop startPos depth r' (S pos)
  end.

Definition skipWithNamedExpressions : Parser unit :=
  fun st => skipWith_loop (position st) 0 (rest st) (position st).

(** [if (peekToken(state)?.tokenType === ty) state.position++] *)
Definition skipIf (ty : TokenType) : Parser unit :=
  fun st =>
    match peekType st 0 with
    | Some ty' => if tokenTypeEqb ty' ty then (Ok tt, advance st) else (Ok tt, st)
    | None => (Ok tt, st)
    end.

Definition peekIs (ty : TokenType) (offset : nat) (st : ParserState) : bool :=
  match peekType st offset with
  | Some ty' => tokenTypeEqb ty' ty
  | None => false
  end.

(** The WITH clause of a materialized view: a named sub-query when it has
    the shape [name AS ( ...], opaque named expressions otherwise. *)
Definition parseWithClause : Parser (option MvCte) :=
  fun st =>
    if peekIs With 0 st then
      let st1 := advance st in
      if peekIs Identifier 0 st1 && peekIs As 1 st1 && peekIs LParen 2 st1
      then bind parseCTEBlockOnly (fun cte => ret (Some cte)) st1
      else bind skipWithNamedExpressions (fun _ => ret None) st1
    else (Ok None, st).

(** [tryMatch(From) ? parseQualifiedName() : undefined] *)
Definition parseFromClause : Parser (option string) :=
  do* f <- tryMatch From ;;
  if f then
    do* n <- parseQualifiedName ;;
    ret (Some n)
  else ret None.

(** [parseMaterializedViewBody]: every item of the SELECT list becomes a
    column with the placeholder type. *)
Definition parseMaterializedViewBody (n : string) (partitionBy orderBy : option string)
  : Parser TableAst :=
  do* as_ <- tryMatch As ;;
  run* (if as_ then ret tt else skipToToken As) ;;
  do* cteInfo <- parseWithClause ;;
  run* (fun st => if peekIs Select 0 st then (Ok tt, st) else skipToToken Select st) ;;
  run* skipIf Select ;;
  do* selectCols <- parseSelectList ;;
  do* src <- parseFromClause ;;
  let columns :=
    List.map (fun sc => mkColumnAst (Mapping.orElse (item_alias sc) (item_name sc))
                                    UnknownType "Unknown" None None) selectCols in
  ret (mkTableAst n columns partitionBy orderBy src (Some selectCols) cteInfo).

(** [skipToColumnName] *)
Fixpoint skipToColumnName_loop (startPos : nat) (r : list IToken) (pos : nat)
  : result unit * ParserState :=
  match r with
  | [] => (Ok tt, mkState [] pos)
  | t :: r' =>
      if isType Identifier t || isType RParen t then (Ok tt, mkState r pos)
      else if Nat.ltb 100 (S pos - startPos)
           then (Err (ParseError "Column name search limit exceeded" (S pos)), mkState r' (S pos))
           else skipToColumnName_loop startPos r' (S pos)
  end.

Definition skipToColumnName : Parser unit :=
  fun st => skipToColumnName_loop (position st) (rest st) (position st).

Definition parseOptionalComment : Parser (option string) :=
  do* c <- tryMatch Comment ;;
  if c then
    do* s <- consumeToken StringLiteral "string" ;;
    ret (Some (unquote (image s)))
  else ret None.

(** The loop of [parseOptionalDefault]: the images up to the next comma or
    closing parenthesis. *)
Fixpoint default_loop (startPos : nat) (r : list IToken) (pos : nat)
  : result (list string) * ParserState :=
  match r with
  | [] => (Ok [], mkState [] pos)
  | t :: r' =>
      if isType Comma t || isType RParen t then (Ok [], mkState r pos)
      else if Nat.ltb 50 (S pos - startPos)
           then (Err (ParseError "Default value parsing limit exceeded" (S pos)), mkState r' (S pos))
           else match default_loop startPos r' (S pos) with
                | (Ok parts, st') => (Ok (image t :: parts), st')
                | (Err e, st') => (Err e, st')
                end
  end.

Definition parseOptionalDefault : Parser (option string) :=
  do* d <- tryMatch Default ;;
  if d then
    do* parts <- (fun st => default_loop (position st) (rest st) (position st)) ;;
    ret (Some (Js.trim (Js.join " " parts)))
  else ret None.

(** The loop of [parseOptionalCodec]. *)
Fixpoint codec_loop (startPos : nat) (r : list IToken) (pos : nat)
  : result unit * ParserState :=
  match r with
  | [] => (Err (ParseError "Unterminated CODEC" pos), mkState [] pos)
  | t :: r' =>
      if isType RParen t then (Ok tt, mkState r' (S pos))
      else if Nat.ltb 100 (S pos - startPos)
           then (Err (ParseError "CODEC parsing limit exceeded" (S pos)), mkState r' (S pos))
           else codec_loop startPos r' (S pos)
  end.

Definition parseOptionalCodec : Parser unit :=
  do* c <- tryMatch Codec ;;
  if c then
    run* consumeToken LParen "(" ;;
    (fun st => codec_loop (position st) (rest st) (position st))
  else ret tt.

(** [parseTypeArg], given the parser of nested type expressions. *)
Definition parseTypeArg_with (parseTypeExpr : Parser TypeAst) : Parser TypeArg :=
  fun st =>
    match rest st with
    | [] => (Err (ParseError "Unexpected EOF" (position st)), st)
    | t :: _ =>
        if isType Identifier t then bind parseTypeExpr (fun ty => ret (ArgType ty)) st
        else if isType StringLiteral t then
          bind (consumeToken StringLiteral "string")
               (fun k =>
                  let key := unquote (image k) in
                  do* eq <- tryMatch Eq ;;
                  if eq then
                    do* v <- consumeToken Integer "integer" ;;
                    ret (ArgEnum key (numberOf (image v)))
                  else ret (ArgString key)) st
        else if isType Integer t then
          bind (consumeToken Integer "integer") (fun v => ret (ArgNumber (numberOf (image v)))) st
        else (Ok (ArgString (image t)), advance st)
    end.

(** [parseTypeExpr] and the loop
    [do { args.push(parseTypeArg(name)) } while (tryMatch(Comma))]. *)
Fixpoint parseTypeExpr_rec (fuel : nat) : Parser TypeAst :=
  match fuel with
  | 0 => throw OutOfFuel
  | S fuel' =>
      do* id <- consumeToken Identifier "type identifier" ;;
      let n := canonicalTypeName (image id) in
      do* lp <- tryMatch LParen ;;
      if lp then
        do* rp <- tryMatch RParen ;;
        if rp then ret (mkTypeAst n [])
        else
          do* args <- parseTypeArgs_rec fuel' ;;
          run* consumeToken RParen ")" ;;
          ret (mkTypeAst n args)
      else ret (mkTypeAst n [])
  end
with parseTypeArgs_rec (fuel : nat) : Parser (list TypeArg) :=
  match fuel with
  | 0 => throw OutOfFuel
  | S fuel' =>
      do* arg <- parseTypeArg_with (parseTypeExpr_rec fuel') ;;
      do* more <- tryMatch Comma ;;
      if more then
        do* args <- parseTypeArgs_rec fuel' ;;
        ret (arg :: args)
      else ret [arg]
  end.

Definition parseTypeExpr : Parser TypeAst :=
  fun st => parseTypeExpr_rec (2 * length (rest st) + 1) st.

(** [parseColumnDef]; [rawType] joins the images of the tokens of the type
    ([tokens.slice(typeStart, typeEnd)]). *)
Definition parseColumnDef : Parser ColumnAst :=
  run* skipToColumnName ;;
  do* nameTok <- consumeToken Identifier "column name" ;;
  fun typeStart =>
    (do* type <- parseTypeExpr ;;
     fun typeEnd =>
       (do* comment <- parseOptionalComment ;;
        do* defaultValue <- parseOptionalDefault ;;
        run* parseOptionalCodec ;;
        let rawType :=
          Js.join "" (List.map image
                        (firstn (position typeEnd - position typeStart) (rest typeStart))) in
        ret (mkColumnAst (image nameTok) type rawType comment defaultValue)) typeEnd) typeStart.

(** [do { columns.push(parseColumnDef()) } while (tryMatch(Comma))] *)
Fixpoint parseColumns_loop (fuel : nat) : Parser (list ColumnAst) :=
  match fuel with
  | 0 => throw OutOfFuel
  | S fuel' =>
      do* column <- parseColumnDef ;;
      do* more <- tryMatch Comma ;;
      if more then
        do* columns <- parseColumns_loop fuel' ;;
        ret (column :: columns)
      else ret [column]
  end.

Definition parseOptionalColumns : Parser (list ColumnAst) :=
  do* lp <- tryMatch LParen ;;
  if lp then
    do* rp <- tryMatch RParen ;;
    if rp then ret []
    else
      do* columns <- (fun st => parseColumns_loop (S (length (rest st))) st) ;;
      do* closed <- tryMatch RParen ;;
      run* (if closed then ret tt else skipToToken RParen) ;;
      ret columns
  else ret [].

(** [createTable]: one CREATE TABLE or CREATE MATERIALIZED VIEW statement. *)
Definition createTable : Parser TableAst :=
  run* consumeToken Create "CREATE" ;;
  do* isMV <- parseTableType ;;
  run* parseOptionalIfNotExists ;;
  do* n <- parseQualifiedName ;;
  do* columns <- parseOptionalColumns ;;
  run* parseOptionalEngine ;;
  do* partitionBy <- parseOptionalPartitionBy ;;
  do* orderBy <- parseOptionalOrderBy ;;
  if isMV && Nat.eqb (length columns) 0
  then parseMaterializedViewBody n partitionBy orderBy
  else ret (mkTableAst n columns partitionBy orderBy None None None).

(** [while (!p.isAtEnd() && peekToken(state)?.tokenType !== Create) state.position++] *)
Fixpoint skipToCreate (r : list IToken) (pos : nat) : ParserState :=
  match r with
  | [] => mkState [] pos
  | t :: r' => if isType Create t then mkState r pos else skipToCreate r' (S pos)
  end.

(** The loop of [parse]: every CREATE statement of the token stream; a
    statement that fails to parse is skipped. *)
Fixpoint parse_loop (fuel : nat) (tableCount : nat) (st : ParserState) : result (list TableAst) :=
  match fuel with
  | 0 => Err OutOfFuel
  | S fuel' =>
      if negb (isAtEnd st) && Nat.ltb tableCount 50 then
        let st1 := skipToCreate (rest st) (position st) in
        if negb (isAtEnd st1) then
          match createTable st1 with
          | (Ok table, st2) =>
              let* tables := parse_loop fuel' (S tableCount) st2 in
              Ok (table :: tables)
          | (Err _, st2) =>
              parse_loop fuel' tableCount (skipToCreate (rest st2) (position st2))
          end
        else Ok []
      else Ok []
  end.

(** [parse(ddl)] of parser.ts. *)
Definition parse (ddl : string) : result (list TableAst) :=
  let lex := tokenize ddl in
  match errors lex with
  | _ :: _ => Err LexingFailed
  | [] =>
      let* state := createParserState (tokens lex) in
      parse_loop (S (length (tokens lex))) 0 state
  end.

End Parser.

(* ================================================================== *)
(** * index.ts: statement filter and top-level driver *)
(* ================================================================== *)

Module Index.

(** [s] without its prefix [p], when it has it. *)
Fixpoint dropPrefix (p s : string) : option string :=
  match p with
  | EmptyString => Some s
  | String a p' =>
      match s with
      | String c s' => if Ascii.eqb a c then dropPrefix p' s' else None
      | EmptyString => None
      end
  end.

(** [\s+] at the head of [s]: what follows the white space. *)
Definition dropSpaces1 (s : string) : option string :=
  match s with
  | String c s' => if Js.isSpace c then Some (Js.trimStart s') else None
  | EmptyString => None
  end.

(** [/^create\s+materialized\s+view/.test(head)] *)
Definition isCreateMaterializedView (head : string) : bool :=
  match dropPrefix "create" head with
  | Some r1 =>
      match dropSpaces1 r1 with
      | Some r2 =>
          match dropPrefix "materialized" r2 with
          | Some r3 =>
              match dropSpaces1 r3 with
              | Some r4 => Js.startsWith r4 "view"
              | None => false
              end
          | None => false
          end
      | None => false
      end
  | None => false
  end.

(** [/^create\s+view/.test(head)] *)
Definition isCreateView (head : string) : bool :=
  match dropPrefix "create" head with
  | Some r1 =>
      match dropSpaces1 r1 with
      | Some r2 => Js.startsWith r2 "view"
      | None => false
      end
  | None => false
  end.

(** [/(\s|\))kw\s+/.test(lower)] for [kw] = [to] or [for]. *)
Fixpoint hasRoutingWord (kw : string) (lower : string) : bool :=
  match lower with
  | EmptyString => false
  | String c s' =>
      ((Js.isSpace c || Ascii.eqb c ")") &&
       match dropPrefix kw s' with
       | Some (String d _) => Js.isSpace d
       | _ => false
       end)
      || hasRoutingWord kw s'
  end.

(** The body of the loop of [filterStatements]: is the statement kept? *)
Definition keepStatement (s : string) : bool :=
  let head := Js.toLowerCase (Js.take 200 s) in
  if isCreateMaterializedView head &&
     (let lower := Js.toLowerCase s in
      hasRoutingWord "to" lower || hasRoutingWord "for" lower)
  then false
  else if isCreateView head then false
  else true.

(** [input.split(/;/).map((s) => s.trim()).filter((s) => s.length > 0)] *)
Definition statementsOf (input : string) : list string :=
  List.filter Js.nonEmpty (List.map Js.trim (Js.split ";" input)).

Definition newline : string := String (ascii_of_nat 10) EmptyString.

Definition filterStatements (input : string) : string :=
  match List.filter keepStatement (statementsOf input) with
  | [] => EmptyString
  | kept => Js.join (";" +:+ newline) kept +:+ ";"
  end.

Definition splitStatements (input : string) : list string :=
  List.map (fun s => s +:+ ";") (statementsOf input).

(** The loop of [parse]: a statement whose parse throws is skipped. *)
Fixpoint parseStatements (_parse : string -> result (list TableAst)) (parts : list string)
  : list TableAst :=
  match parts with
  | [] => []
  | stmt :: parts' =>
      match _parse stmt with
      | Ok arr => arr ++ parseStatements _parse parts'
      | Err _ => parseStatements _parse parts'
      end
  end.

(** [parse(ddl)] of index.ts, over the parser [_parse] of parser.ts. *)
Definition parseWith (_parse : string -> result (list TableAst)) (ddl : string) : list TableAst :=
  parseStatements _parse (splitStatements (filterStatements ddl)).

Definition parse (ddl : string) : list TableAst := parseWith Parser.parse ddl.

Definition map := Mapping.map.

End Index.

(* ================================================================== *)
(** * json-schema.ts: the JSON-Schema renderer *)
(* ================================================================== *)

Module JsonSchema.

(** The JavaScript values the renderer builds.  An object is the list of
    its own properties in the order JavaScript enumerates them (and
    [JSON.stringify] prints them): the keys that are array indices in
    ascending order, then the other keys in the order of their creation. *)
Inductive Json : Type :=
| JString (s : string)
| JBool (b : bool)
| JArray (items : list Json)
| JObject (fields : list (string * Json)).

(** The own property of an object under [key]. *)
Fixpoint getProperty (key : string) (fields : list (string * Json)) : option Json :=
  match fields with
  | [] => None
  | (k, v) :: fields' => if String.eqb k key then Some v else getProperty key fields'
  end.

Definition hasProperty (key : string) (fields : list (string * Json)) : bool :=
  match getProperty key fields with Some _ => true | None => false end.

Fixpoint allDigits (s : string) : bool :=
  match s with
  | EmptyString => true
  | String c s' => Js.isDigit c && allDigits s'
  end.

(** [key] as an array index: the canonical decimal numeral of a number
    below 2^32 - 1. *)
Definition arrayIndex (key : string) : option N :=
  match key with
  | EmptyString => None
  | String c rest =>
      if allDigits key && Nat.leb (String.length key) 10 &&
         (negb (Ascii.eqb c "0") || negb (Js.nonEmpty rest)) &&
         (Js.decimalValue key <=? 4294967294)%N
      then Some (Js.decimalValue key) else None
  end.

(** A new property under the array index [n]: after the smaller indices. *)
Fixpoint insertIndex (n : N) (key : string) (value : Json) (fields : list (string * Json))
  : list (string * Json) :=
  match fields with
  | [] => [(key, value)]
  | (k, v) :: fields' =>
      match arrayIndex k with
      | Some m => if (m <? n)%N then (k, v) :: insertIndex n key value fields'
                  else (key, value) :: fields
      | None => (key, value) :: fields
      end
  end.

Fixpoint replaceProperty (key : string) (value : Json) (fields : list (string * Json))
  : list (string * Json) :=
  match fields with
  | [] => []
  | (k, v) :: fields' =>
      if String.eqb k key then (k, value) :: fields'
      else (k, v) :: replaceProperty key value fields'
  end.

(** [obj[key] = value] on an object created by a literal, for a [value]
    that is an object.  The key [__proto__] is the accessor of
    [Object.prototype]: the assignment sets the prototype of [obj] and
    creates no property.  Any other key is an own property afterwards: the
    one it already was, or a new one. *)
Definition setProperty (key : string) (value : Json) (fields : list (string * Json))
  : list (string * Json) :=
  if String.eqb key "__proto__" then fields
  else if hasProperty key fields then replaceProperty key value fields
  else match arrayIndex key with
       | Some n => insertIndex n key value fields
       | None => fields ++ [(key, value)]
       end.

Definition MAX_TABLES : nat := 100.
Definition MAX_COLUMNS : nat := 1000.
Definition MAX_SCHEMA_DEPTH : nat := 20.
Definition MAX_TUPLE_ELEMENTS : nat := 100.
Definition MAX_ENUM_KEYS : nat := 1000.

Definition validateTypeInput (type : TypeAst) : result unit :=
  assert (Js.nonEmpty (name type)) "Type name cannot be empty".

(** [/\bword\b/.test(s)] for a [word] made of word characters. *)
Fixpoint containsWord (word : string) (prev : option ascii) (s : string) : bool :=
  match s with
  | EmptyString => false
  | String c s' =>
      (negb (match prev with Some p => Js.isWord p | None => false end) &&
       match Index.dropPrefix word s with
       | Some (String d _) => negb (Js.isWord d)
       | Some EmptyString => true
       | None => false
       end)
      || containsWord word (Some c) s'
  end.

Definition createStringSchema : Json := JObject [("type", JString "string")].
Definition createNumberSchema : Json := JObject [("type", JString "number")].
Definition createUnknownSchema : Json := JObject [].
Definition nullSchema : Json := JObject [("type", JString "null")].

Definition mapBigIntSchema (resolvedTs : string) : Json :=
  if containsWord "bigint" None resolvedTs
  then JObject [("type", JString "integer")]
  else JObject [("type", JString "string")].

Definition mapDateTimeSchema (resolvedTs : string) : Json :=
  if containsWord "Date" None resolvedTs
  then JObject [("type", JString "string"); ("format", JString "date-time")]
  else JObject [("type", JString "string")].

Definition extractEnumKeysForSchema (l : list TypeArg) : list string :=
  Mapping.enumKeysOf (firstn MAX_ENUM_KEYS l).

Definition mapEnumSchema (type : TypeAst) : Json :=
  match extractEnumKeysForSchema (args type) with
  | [] => createStringSchema
  | keys => JObject [("type", JString "string"); ("enum", JArray (List.map JString keys))]
  end.

(** The loop of [mapTupleSchema]: [properties[`_${i}`] = ...]. *)
Fixpoint tupleProperties (rec : TypeAst -> result Json) (i : nat) (l : list TypeArg)
    (properties : list (string * Json)) : result (list (string * Json)) :=
  match l with
  | [] => Ok properties
  | arg :: l' =>
      let* schema := rec (toTypeOrUnknown (Some arg)) in
      tupleProperties rec (S i) l' (setProperty ("_" +:+ Js.natToString i) schema properties)
  end.

(** [jsonSchemaForType(type, resolvedTs, depth)] with [mapTypeToJsonSchema]
    and its handlers inlined; [fuel] as in [Mapping.mapTypeAstToTs_rec]. *)
Fixpoint jsonSchemaForType_rec (fuel : nat) (type : TypeAst) (resolvedTs : string)
    (depth : nat) : result Json :=
  match fuel with
  | 0 => Err OutOfFuel
  | S fuel' =>
      if Nat.ltb MAX_SCHEMA_DEPTH depth then Err SchemaDepthExceeded else
      let* _ := validateTypeInput type in
      let self := fun t => jsonSchemaForType_rec fuel' t resolvedTs (depth + 1) in
      match Mapping.typeKind (name type) with
      | Mapping.KNullable =>
          let* innerSchema := self (firstTypeArg type) in
          Ok (JObject [("anyOf", JArray [innerSchema; nullSchema])])
      | Mapping.KLowCardinality => self (firstTypeArg type)
      | Mapping.KArray =>
          let* itemsSchema := self (firstTypeArg type) in
          Ok (JObject [("type", JString "array"); ("items", itemsSchema)])
      | Mapping.KTuple =>
          let* properties := tupleProperties self 0 (firstn MAX_TUPLE_ELEMENTS (args type)) [] in
          Ok (JObject [("type", JString "object"); ("properties", JObject properties);
                       ("additionalProperties", JBool false)])
      | Mapping.KMap =>
          let* valueSchema := self (secondTypeArg type) in
          Ok (JObject [("type", JString "object"); ("additionalProperties", valueSchema)])
      | Mapping.KEnum => Ok (mapEnumSchema type)
      | Mapping.KDecimal => Ok createStringSchema
      | Mapping.KNumber => Ok createNumberSchema
      | Mapping.KBigInt => Ok (mapBigIntSchema resolvedTs)
      | Mapping.KString => Ok createStringSchema
      | Mapping.KDateTime => Ok (mapDateTimeSchema resolvedTs)
      | Mapping.KOther => Ok createUnknownSchema
      end
  end.

Definition jsonSchemaForType (type : TypeAst) (resolvedTs : string) : result Json :=
  jsonSchemaForType_rec (MAX_SCHEMA_DEPTH + 2) type resolvedTs 0.

Definition validateMappedTablesInput (tables : list MappedTable) : result unit :=
  assert (Nat.leb (length tables) MAX_TABLES)
         ("Too many tables: " +:+ Js.natToString (length tables)).

Definition validateColumnStructure (column : MappedColumn) : result unit :=
  assert (Js.nonEmpty (mc_name column)) "Column name cannot be empty".

Definition validateTableStructure (table : MappedTable) : result unit :=
  let* _ := assert (Js.nonEmpty (interfaceName table)) "Table interfaceName cannot be empty" in
  let* _ := assert (Nat.leb (length (mt_columns table)) MAX_COLUMNS)
                   ("Too many columns: " +:+ Js.natToString (length (mt_columns table))) in
  let* _ := mapM validateColumnStructure (mt_columns table) in
  Ok tt.

(** *** [JSON.stringify(value, null, 2)] *)

Definition doubleQuote : ascii := ascii_of_nat 34.
Definition backslash : ascii := ascii_of_nat 92.

Definition hexDigit (n : nat) : ascii :=
  if Nat.ltb n 10 then ascii_of_nat (48 + n) else ascii_of_nat (87 + n).

(** One code unit inside a JSON string: the quote and the backslash are
    escaped, the control characters are written [\b], [\t], [\n], [\f],
    [\r] or [\u00xx]. *)
Definition escapeJsonChar (c : ascii) : string :=
  let n := Js.code c in
  if Nat.eqb n 34 then String backslash (String doubleQuote EmptyString)
  else if Nat.eqb n 92 then String backslash (String backslash EmptyString)
  else if Nat.eqb n 8 then String backslash "b"
  else if Nat.eqb n 9 then String backslash "t"
  else if Nat.eqb n 10 then String backslash "n"
  else if Nat.eqb n 12 then String backslash "f"
  else if Nat.eqb n 13 then String backslash "r"
  else if Nat.ltb n 32
       then String backslash ("u00" +:+ String (hexDigit (n / 16))
                                              (String (hexDigit (n mod 16)) EmptyString))
       else String c EmptyString.

Fixpoint escapeJson (s : string) : string :=
  match s with
  | EmptyString => EmptyString
  | String c s' => escapeJsonChar c +:+ escapeJson s'
  end.

(** [JSON.stringify(s)] for a string. *)
Definition quoteJson (s : string) : string :=
  String doubleQuote (escapeJson s +:+ String doubleQuote EmptyString).

(** The members of an array or object, one per line at [indent]. *)
Definition jsonLines (indent : string) (members : list string) : string :=
  Js.join ("," +:+ Index.newline +:+ indent) members.

(** [JSON.stringify(value, null, 2)] at the indentation [indent]. *)
Fixpoint stringifyAt (indent : string) (value : Json) : string :=
  match value with
  | JString s => quoteJson s
  | JBool b => if b then "true" else "false"
  | JArray items =>
      match items with
      | [] => "[]"
      | _ =>
          let inner := indent +:+ "  " in
          "[" +:+ Index.newline +:+ inner +:+
          jsonLines inner (List.map (stringifyAt inner) items) +:+
          Index.newline +:+ indent +:+ "]"
      end
  | JObject fields =>
      match fields with
      | [] => "{}"
      | _ =>
          let inner := indent +:+ "  " in
          "{" +:+ Index.newline +:+ inner +:+
          jsonLines inner
            (List.map (fun kv => match kv with
                                 | (k, v) => quoteJson k +:+ ": " +:+ stringifyAt inner v
                                 end) fields) +:+
          Index.newline +:+ indent +:+ "}"
      end
  end.

Definition stringify (value : Json) : string := stringifyAt EmptyString value.

(** *** [formatJsonSchema] *)

(** The text ["required":]. *)
Definition requiredKey : string := quoteJson "required" +:+ ":".

(** The first square bracket of [s]: its offset, and whether it is the
    closing one. *)
Fixpoint firstBracket (s : string) : option (nat * bool) :=
  match s with
  | EmptyString => None
  | String c s' =>
      if Ascii.eqb c "]" then Some (0, true)
      else if Ascii.eqb c "[" then Some (0, false)
      else match firstBracket s' with
           | Some (k, closing) => Some (S k, closing)
           | None => None
           end
  end.

(** A match of [/"required":\s*\[\s*([^[\]]*?)\s*\]/s] at the head of [s]:
    its length and the text of the group.  After the key and the opening
    bracket, the characters that are no bracket must run up to a closing
    bracket; the group is what lies between the brackets, without the
    white space at its ends. *)
Definition matchRequired (s : string) : option (nat * string) :=
  match Index.dropPrefix requiredKey s with
  | Some afterKey =>
      match Js.trimStart afterKey with
      | String c inner =>
          if Ascii.eqb c "[" then
            match firstBracket inner with
            | Some (k, true) =>
                Some (String.length s - String.length inner + k + 1,
                      Js.trim (Js.take k inner))
            | _ => None
            end
          else None
      | EmptyString => None
      end
  | None => None
  end.

(** The replacement: the items of the group, split at the commas, trimmed,
    the empty ones dropped, on one line. *)
Definition inlineRequired (content : string) : string :=
  let items := List.filter Js.nonEmpty (List.map Js.trim (Js.split "," content)) in
  quoteJson "required" +:+ ": [" +:+ Js.join ", " items +:+ "]".

(** [jsonString.replace(/.../gs, ...)]: every match, from left to right, is
    replaced; [skip] counts the characters of the current match still to be
    passed over. *)
Fixpoint replaceRequired (s : string) (skip : nat) : string :=
  match s with
  | EmptyString => EmptyString
  | String c s' =>
      match skip with
      | S skip' => replaceRequired s' skip'
      | 0 =>
          match matchRequired s with
          | Some (len, content) => inlineRequired content +:+ replaceRequired s' (len - 1)
          | None => String c (replaceRequired s' 0)
          end
      end
  end.

Definition formatJsonSchema (schema : Json) : string :=
  replaceRequired (stringify schema) 0.

Definition createEmptySchema : string := stringify (JObject []).

Definition createBaseSchema (table : MappedTable) : list (string * Json) :=
  [("$schema", JString "https://json-schema.org/draft/2020-12/schema");
   ("title", JString (interfaceName table));
   ("type", JString "object")].

Fixpoint columnProperties_loop (columns : list MappedColumn) (properties : list (string * Json))
  : result (list (string * Json)) :=
  match columns with
  | [] => Ok properties
  | column :: columns' =>
      if Js.nonEmpty (mc_name column) then
        let* schema := jsonSchemaForType (mc_typeAst column) (mc_tsType column) in
        columnProperties_loop columns' (setProperty (mc_name column) schema properties)
      else columnProperties_loop columns' properties
  end.

Definition generateColumnProperties (columns : list MappedColumn)
  : result (list (string * Json)) :=
  columnProperties_loop (firstn MAX_COLUMNS columns) [].

Definition extractRequiredFields (columns : list MappedColumn) : list string :=
  List.filter Js.nonEmpty (List.map mc_name (firstn MAX_COLUMNS columns)).

(** [{ ...schema, properties, additionalProperties: false, required }] *)
Definition completeSchema (table : MappedTable) (properties : list (string * Json))
    (requiredFields : list string) : Json :=
  JObject (createBaseSchema table ++
           [("properties", JObject properties);
            ("additionalProperties", JBool false);
            ("required", JArray (List.map JString requiredFields))]).

Definition generateTableSchema (table : MappedTable) : result string :=
  let* properties := generateColumnProperties (mt_columns table) in
  let requiredFields := extractRequiredFields (mt_columns table) in
  Ok (formatJsonSchema (completeSchema table properties requiredFields)).

(** [emitJsonSchema(mappedTables)]: the schema of the first table. *)
Definition emitJsonSchema (mappedTables : list MappedTable) : result string :=
  let* _ := validateMappedTablesInput mappedTables in
  match mappedTables with
  | [] => Ok createEmptySchema
  | table :: _ =>
      let* _ := validateTableStructure table in
      generateTableSchema table
  end.

End JsonSchema.

(* ================================================================== *)
(** * emitter.ts: interfaces and Zod schemas *)
(* ================================================================== *)

Module Emitter.

Definition MAX_TABLES : nat := 1000.
Definition MAX_COLUMNS : nat := 1000.
Definition MAX_ONELINER_PROPS : nat := 8.
Definition MAX_ONELINER_LENGTH : nat := 120.
Definition MAX_ZOD_DEPTH : nat := 20.
Definition MAX_ENUM_KEYS : nat := 1000.
Definition MAX_TUPLE_ELEMENTS : nat := 100.

Record EmissionOptions : Type := mkEmissionOptions { emitZod : bool }.

Record EmissionDependencies : Type := mkDependencies {
  needsIPv4 : bool;
  needsIPv6 : bool;
  needsDecimal : bool;
  needsZod : bool
}.

(** The structures handed to ts-morph.  [emit] returns the text ts-morph
    prints for them ([sourceFile.getFullText()]); here its result is the
    list of the statements added to the source file, in order. *)
Record PropertySignature : Type := mkProperty {
  prop_name : string;
  prop_type : string;
  prop_docs : list string;
  hasQuestionToken : bool
}.

Inductive Statement : Type :=
| FileHeader (options : EmissionOptions)
| ImportDeclaration (moduleSpecifier : string) (isTypeOnly : bool) (namedImports : list string)
| TypeAlias (aliasName aliasType : string)
| InterfaceDeclaration (interface : string) (properties : list PropertySignature)
| VariableStatement (variable initializer : string).

Definition validateColumnForEmission (column : MappedColumn) : result unit :=
  assert (Js.nonEmpty (mc_name column)) "Column name cannot be empty".

Definition validateTableForEmission (table : MappedTable) : result unit :=
  let* _ := assert (Js.nonEmpty (interfaceName table)) "Table interfaceName cannot be empty" in
  let* _ := assert (Nat.leb (length (mt_columns table)) MAX_COLUMNS)
                   ("Too many columns: " +:+ Js.natToString (length (mt_columns table))) in
  let* _ := mapM validateColumnForEmission (mt_columns table) in
  Ok tt.

Definition validateEmissionInput (tables : list MappedTable) (options : EmissionOptions)
  : result unit :=
  let* _ := assert (Nat.leb (length tables) MAX_TABLES)
                   ("Too many tables: " +:+ Js.natToString (length tables)) in
  let* _ := mapM validateTableForEmission tables in
  Ok tt.

(** [analyzeDependencies]: the flags are raised by a column whose type
    text is exactly [IPv4], [IPv6] or [Decimal]. *)
Definition analyzedColumns (tables : list MappedTable) : list MappedColumn :=
  flat_map (fun table => firstn MAX_COLUMNS (mt_columns table)) (firstn MAX_TABLES tables).

Definition hasTsType (ts : string) (columns : list MappedColumn) : bool :=
  existsb (fun column => String.eqb (mc_tsType column) ts) columns.

Definition analyzeDependencies (tables : list MappedTable) (options : EmissionOptions)
  : EmissionDependencies :=
  let columns := analyzedColumns tables in
  mkDependencies (hasTsType "IPv4" columns) (hasTsType "IPv6" columns)
                 (hasTsType "Decimal" columns) (emitZod options).

(** [createPropertyDocumentation]: [Original: <chType>], followed by the
    comment of the column when it has one. *)
Definition createPropertyDocumentation (column : MappedColumn) : string :=
  let baseDoc := "Original: " +:+ mc_chType column in
  match mc_comment column with
  | Some (String c r as comment) => baseDoc +:+ " — " +:+ comment
  | _ => baseDoc
  end.

Definition createInterfaceProperties (table : MappedTable) : list PropertySignature :=
  List.map (fun column =>
              mkProperty (mc_name column) (mc_tsType column)
                         [createPropertyDocumentation column] false)
           (firstn MAX_COLUMNS (mt_columns table)).

(** ** Zod schemas *)

Definition zodDepthExceeded : error :=
  AssertionFailed "Zod schema generation depth exceeded 20".

Definition validateZodTypeInput (type : TypeAst) : result unit :=
  assert (Js.nonEmpty (name type)) "Type name cannot be empty".

Definition createStringZodSchema : string := "z.string()".
Definition createNumberZodSchema : string := "z.number()".
Definition createAnyZodSchema : string := "z.any()".

Definition mapBigIntZodSchema (resolvedTsType : string) : string :=
  if JsonSchema.containsWord "bigint" None resolvedTsType then "z.bigint()" else "z.string()".

Definition mapDateTimeZodSchema (resolvedTsType : string) : string :=
  if JsonSchema.containsWord "Date" None resolvedTsType then "z.date()" else "z.string()".

Definition escapeZodEnumKey (key : string) : string :=
  "'" +:+ Js.escapeQuotes key +:+ "'".

Definition extractEnumKeysForZod (l : list TypeArg) : list string :=
  Mapping.enumKeysOf (firstn MAX_ENUM_KEYS l).

Definition mapEnumZodSchema (type : TypeAst) : string :=
  match extractEnumKeysForZod (args type) with
  | [] => createStringZodSchema
  | keys => "z.enum(" +:+ ("[" +:+ Js.join ", " (List.map escapeZodEnumKey keys) +:+ "]") +:+ ")"
  end.

(** The loop of [mapTupleZodSchema]: element [i] becomes [_i: <schema>]. *)
Fixpoint zodTupleEntries (rec : TypeAst -> result string) (i : nat) (l : list TypeArg)
  : result (list string) :=
  match l with
  | [] => Ok []
  | arg :: l' =>
      let* argSchema := rec (toTypeOrUnknown (Some arg)) in
      let* rest := zodTupleEntries rec (S i) l' in
      Ok (("_" +:+ Js.natToString i +:+ ": " +:+ argSchema) :: rest)
  end.

(** [zodForTypeAst(type, resolvedTsType, depth)] with [mapTypeToZodSchema]
    and its handlers inlined; [fuel] as in [Mapping.mapTypeAstToTs_rec]. *)
Fixpoint zodForTypeAst_rec (fuel : nat) (type : TypeAst) (resolvedTsType : string)
    (depth : nat) : result string :=
  match fuel with
  | 0 => Err OutOfFuel
  | S fuel' =>
      if Nat.ltb MAX_ZOD_DEPTH depth then Err zodDepthExceeded else
      let* _ := validateZodTypeInput type in
      let self := fun t => zodForTypeAst_rec fuel' t resolvedTsType (depth + 1) in
      match Mapping.typeKind (name type) with
      | Mapping.KNullable =>
          let* innerSchema := self (firstTypeArg type) in
          Ok (innerSchema +:+ ".nullable()")
      | Mapping.KLowCardinality => self (firstTypeArg type)
      | Mapping.KArray =>
          let* innerSchema := self (firstTypeArg type) in
          Ok ("z.array(" +:+ innerSchema +:+ ")")
      | Mapping.KTuple =>
          let* entries := zodTupleEntries self 0 (firstn MAX_TUPLE_ELEMENTS (args type)) in
          Ok ("z.object({ " +:+ Js.join ", " entries +:+ " })")
      | Mapping.KMap =>
          let* valueSchema := self (secondTypeArg type) in
          Ok ("z.record(z.string(), " +:+ valueSchema +:+ ")")
      | Mapping.KEnum => Ok (mapEnumZodSchema type)
      | Mapping.KDecimal => Ok createStringZodSchema
      | Mapping.KNumber => Ok createNumberZodSchema
      | Mapping.KBigInt => Ok (mapBigIntZodSchema resolvedTsType)
      | Mapping.KString => Ok createStringZodSchema
      | Mapping.KDateTime => Ok (mapDateTimeZodSchema resolvedTsType)
      | Mapping.KOther => Ok createAnyZodSchema
      end
  end.

Definition zodForTypeAst (type : TypeAst) (resolvedTsType : string) : result string :=
  zodForTypeAst_rec (MAX_ZOD_DEPTH + 2) type resolvedTsType 0.

Definition createZodPropertyEntries (table : MappedTable) : result (list string) :=
  mapM (fun column =>
          let* zodType := zodForTypeAst (mc_typeAst column) (mc_tsType column) in
          Ok (mc_name column +:+ ": " +:+ zodType))
       (firstn MAX_COLUMNS (mt_columns table)).

Definition formatZodInitializer (entries : list string) : string :=
  let oneLiner := "z.object({ " +:+ Js.join ", " entries +:+ " })" in
  let shouldMultiline :=
    Nat.ltb MAX_ONELINER_PROPS (length entries) ||
    Nat.ltb MAX_ONELINER_LENGTH (String.length oneLiner) in
  if negb shouldMultiline then oneLiner
  else Js.join Index.newline
         (["z.object({"] ++ List.map (fun entry => "  " +:+ entry +:+ ",") entries ++ ["})"]).

(** ** The source file *)

Section TsMorph.

(** ts-morph is a library outside this development.  [tsMorph file
    statement] tells whether it accepts the call that adds [statement] to a
    source file holding the statements [file]; when it does not, the call
    throws. *)
Variable tsMorph : list Statement -> Statement -> bool.

(** [sourceFile.addStatements], [addImportDeclaration], [addTypeAlias],
    [addInterface] and [addVariableStatement]. *)
Definition sourceFileAdd (file : list Statement) (statement : Statement)
  : result (list Statement) :=
  if tsMorph file statement then Ok (file ++ [statement])%list else Err TsMorphError.

Definition addFileHeader (options : EmissionOptions) (file : list Statement)
  : result (list Statement) :=
  sourceFileAdd file (FileHeader options).

Definition addImports (dependencies : EmissionDependencies) (file : list Statement)
  : result (list Statement) :=
  let* file :=
    if needsZod dependencies
    then sourceFileAdd file (ImportDeclaration "zod" false ["z"]) else Ok file in
  if needsDecimal dependencies
  then sourceFileAdd file (ImportDeclaration "decimal.js" true ["Decimal"]) else Ok file.

Definition addTypeAliases (dependencies : EmissionDependencies) (file : list Statement)
  : result (list Statement) :=
  let* file :=
    if needsIPv4 dependencies
    then sourceFileAdd file (TypeAlias "IPv4" "string & { readonly __brand: 'IPv4' }")
    else Ok file in
  if needsIPv6 dependencies
  then sourceFileAdd file (TypeAlias "IPv6" "string & { readonly __brand: 'IPv6' }")
  else Ok file.

Definition addSingleTableInterface (table : MappedTable) (file : list Statement)
  : result (list Statement) :=
  let properties := createInterfaceProperties table in
  sourceFileAdd file (InterfaceDeclaration (interfaceName table) properties).

Definition addSingleTableZodSchema (table : MappedTable) (file : list Statement)
  : result (list Statement) :=
  let* zodEntries := createZodPropertyEntries table in
  let initializer := formatZodInitializer zodEntries in
  sourceFileAdd file (VariableStatement (interfaceName table +:+ "Schema") initializer).

(** The loop of [addTableInterfaces]: the interface of each table, followed
    by its schema when Zod is asked for. *)
Fixpoint addTableInterfaces_loop (dependencies : EmissionDependencies)
    (tables : list MappedTable) (file : list Statement) : result (list Statement) :=
  match tables with
  | [] => Ok file
  | table :: tables' =>
      let* file := addSingleTableInterface table file in
      let* file :=
        if needsZod dependencies then addSingleTableZodSchema table file else Ok file in
      addTableInterfaces_loop dependencies tables' file
  end.

Definition addTableInterfaces (dependencies : EmissionDependencies)
    (tables : list MappedTable) (file : list Statement) : result (list Statement) :=
  addTableInterfaces_loop dependencies (firstn MAX_TABLES tables) file.

(** [generateSourceContent(context, tables)] on the empty source file of
    the context. *)
Definition generateSourceContent (options : EmissionOptions)
    (dependencies : EmissionDependencies) (tables : list MappedTable)
  : result (list Statement) :=
  let* file := addFileHeader options [] in
  let* file := addImports dependencies file in
  let* file := addTypeAliases dependencies file in
  addTableInterfaces dependencies tables file.

(** [emit(mappedTables, options)]. *)
Definition emit (mappedTables : list MappedTable) (options : EmissionOptions)
  : result (list Statement) :=
  let* _ := validateEmissionInput mappedTables options in
  let dependencies := analyzeDependencies mappedTables options in
  generateSourceContent options dependencies mappedTables.

End TsMorph.

End Emitter.

(* ================================================================== *)
(** * index.ts: the pipeline *)
(* ================================================================== *)

(** [generateSource(ddl, mapping, emission)]: [parse], [map] and [emit] of
    index.ts are the parser's, the mapper's and the emitter's. *)
Definition generateSource (tsMorph : list Emitter.Statement -> Emitter.Statement -> bool)
    (ddl : string) (mapping : MappingOptions) (emission : Emitter.EmissionOptions)
  : result (list Emitter.Statement) :=
  let ast := Index.parse ddl in
  let* mapped := Index.map ast mapping in
  Emitter.emit tsMorph mapped emission.

(* ================================================================== *)
(** * Vocabulary of the specification and example inputs *)
(* ================================================================== *)

(** [funcName.toLowerCase().trim()], the form in which function names are
    compared. *)
Definition normalized (funcName : string) : string := Js.trim (Js.toLowerCase funcName).

Definition startsWithAny (s : string) (ps : list string) : bool :=
  existsb (Js.startsWith s) ps.

Definition Float64 : TypeAst := leafType "Float64".
Definition DateTime : TypeAst := leafType "DateTime".
Definition StringType : TypeAst := leafType "String".
Definition UInt64 : TypeAst := leafType "UInt64".

(** The function names of the return-type policy, as prefixes of the
    lower-cased and trimmed name. *)
Definition numericPrefixes : list string := ["sum"; "avg"; "count"].
Definition statePreservingPrefixes : list string :=
  ["anylast"; "anystate"; "max"; "min"; "argmin"; "argmax"].

(** The return-type policy, case by case on the function name: what the
    function name [func] of a projection item makes of the base type. *)
Definition policyOf (func : option string) (base : option TypeAst) : option TypeAst :=
  match func with
  | Some (String c r as fn) =>
      if String.eqb (normalized fn) "tostartofday" then Some DateTime
      else if startsWithAny (normalized fn) numericPrefixes then Some Float64
      else if startsWithAny (normalized fn) statePreservingPrefixes
           then Some (match base with Some b => b | None => Float64 end)
           else base
  | _ => base
  end.

Definition defaultOptions : MappingOptions :=
  mkMappingOptions "bigint" "string" "string" false false None.

Definition unknownColumn (n : string) : ColumnAst :=
  mkColumnAst n UnknownType "Unknown" None None.

(** [CREATE MATERIALIZED VIEW mv AS
       WITH c AS (SELECT toFloat64(x) AS v FROM base) SELECT v FROM c]
    with the projection of the named sub-query recorded: the final item
    [v] has no function name, its base type comes from [toFloat64]. *)
Definition passthroughItem : SelectItem := mkSelectItem "v" None (Some "v") None.

Definition cteView : TableAst :=
  mkTableAst "mv" [unknownColumn "v"] None None (Some "c")
             (Some [passthroughItem])
             (Some (mkMvCte "c" (Some "base")
                            [mkSelectItem "x" (Some "v") (Some "x") (Some "toFloat64")])).

(** The nesting depth of a type expression: the number of levels below
    its root. *)
Fixpoint typeDepth (t : TypeAst) : nat :=
  match t with
  | mkTypeAst _ l =>
      (fix argsDepth (l : list TypeArg) : nat :=
         match l with
         | [] => 0
         | ArgType t' :: l' => Nat.max (S (typeDepth t')) (argsDepth l')
         | _ :: l' => argsDepth l'
         end) l
  end.

(** The type expression the mapping visits for a tuple element. *)
Definition elemType (a : TypeArg) : TypeAst := toTypeOrUnknown (Some a).

(** The nesting depth along the paths the mapping walks: the first
    argument of Nullable, LowCardinality and Array, every argument of
    Tuple, the second argument of Map.  The arguments of any other type are
    not walked. *)
Fixpoint walkDepth (t : TypeAst) : nat :=
  match t with
  | mkTypeAst n l =>
      match Mapping.typeKind n with
      | Mapping.KNullable | Mapping.KLowCardinality | Mapping.KArray =>
          S (match l with ArgType t' :: _ => walkDepth t' | _ => 0 end)
      | Mapping.KMap =>
          S (match l with _ :: ArgType t' :: _ => walkDepth t' | _ => 0 end)
      | Mapping.KTuple =>
          (fix elems (l : list TypeArg) : nat :=
             match l with
             | [] => 0
             | a :: l' =>
                 Nat.max (S (match a with ArgType t' => walkDepth t' | _ => 0 end)) (elems l')
             end) l
      | _ => 0
      end
  end.

(** Every node on a walked path passes [validateTypeAst]: a non-empty name
    and at most [MAX_TUPLE_ELEMENTS] arguments. *)
Fixpoint walkValid (t : TypeAst) : bool :=
  match t with
  | mkTypeAst n l =>
      Js.nonEmpty n && Nat.leb (length l) Mapping.MAX_TUPLE_ELEMENTS &&
      match Mapping.typeKind n with
      | Mapping.KNullable | Mapping.KLowCardinality | Mapping.KArray =>
          match l with ArgType t' :: _ => walkValid t' | _ => true end
      | Mapping.KMap =>
          match l with _ :: ArgType t' :: _ => walkValid t' | _ => true end
      | Mapping.KTuple =>
          (fix elems (l : list TypeArg) : bool :=
             match l with
             | [] => true
             | a :: l' =>
                 (match a with ArgType t' => walkValid t' | _ => true end) && elems l'
             end) l
      | _ => true
      end
  end.

(** [wrap n w t]: [t] inside [n] levels of the wrapper [w]. *)
Fixpoint wrap (n : nat) (w : string) (t : TypeAst) : TypeAst :=
  match n with
  | 0 => t
  | S n' => mkTypeAst w [ArgType (wrap n' w t)]
  end.

(** [Map(Nullable(Nullable(... String ...)), String)] with 21 levels of
    Nullable in the key. *)
Definition deepKeyMap : TypeAst :=
  mkTypeAst "Map" [ArgType (wrap 21 "Nullable" StringType); ArgType StringType].

(** [Nullable(... String ...)] with 20 and with 21 levels of Nullable. *)
Definition nullable20 : TypeAst := wrap 20 "Nullable" StringType.
Definition nullable21 : TypeAst := wrap 21 "Nullable" StringType.

Definition strictOptions : MappingOptions :=
  mkMappingOptions "bigint" "string" "string" false true None.

(** What one call of the mapping at depth [d] yields, in terms of the walked
    depth of its argument. *)
Definition mapsWithin (options : MappingOptions) (fuel : nat) (t : TypeAst) (d : nat) : Prop :=
  (walkDepth t + d <= Mapping.MAX_TYPE_DEPTH ->
   exists s, Mapping.mapTypeAstToTs_rec fuel t options d = Ok s) /\
  (Mapping.MAX_TYPE_DEPTH < walkDepth t + d ->
   Mapping.mapTypeAstToTs_rec fuel t options d = Err DepthExceeded).

(** ** The direct-source path, in the words of the specification *)

(** "Alias -> original name": the source name recorded by the last
    projection item that carries the alias [columnName]. *)
Definition carriesAlias (columnName : string) (item : SelectItem) : bool :=
  match item_alias item with
  | Some a => Js.nonEmpty a && String.eqb a columnName
  | None => false
  end.

Definition originalName (item : SelectItem) : string :=
  Mapping.orElse (item_srcName item) (item_name item).

Definition recordedAlias (items : list SelectItem) (columnName : string) : option string :=
  option_map originalName (find (carriesAlias columnName) (rev items)).

(** "...defaulting to the column's own name when no alias was recorded". *)
Definition trueSourceName (table : TableAst) (columnName : string) : string :=
  match tbl_mvSelect table with
  | Some items =>
      match recordedAlias (firstn Mapping.MAX_SELECT_ITEMS items) columnName with
      | Some (String c r as original) => original
      | _ => columnName
      end
  | None => columnName
  end.

(** "Find that column in the source table by exact name match, falling
    back to a casing-normalized match." *)
Definition sourceColumn (src : TableAst) (n : string) : option ColumnAst :=
  match find (fun column => String.eqb (col_name column) n) (tbl_columns src) with
  | Some exact => Some exact
  | None =>
      find (fun column => String.eqb (toCamelCase (col_name column)) (toCamelCase n))
           (tbl_columns src)
  end.

(** Scenario C. *)
Definition scenarioC : string :=
  "CREATE TABLE base (id UInt64, name String, ts DateTime); " +:+
  "CREATE MATERIALIZED VIEW mv AS SELECT id, name AS label, ts FROM base".

Definition columnTypes (t : TableAst) : list (string * TypeAst) :=
  List.map (fun c => (col_name c, col_type c)) (tbl_columns t).

Definition mappedTypes (t : MappedTable) : list (string * TypeAst) :=
  List.map (fun c => (mc_name c, mc_typeAst c)) (mt_columns t).

(** The two tables of Scenario C, as the parser produces them. *)
Definition baseC : TableAst :=
  mkTableAst "base"
    [mkColumnAst "id" UInt64 "UInt64" None None;
     mkColumnAst "name" StringType "String" None None;
     mkColumnAst "ts" DateTime "DateTime" None None]
    None None None None None.

Definition mvC : TableAst :=
  mkTableAst "mv" [unknownColumn "id"; unknownColumn "label"; unknownColumn "ts"]
    None None (Some "base")
    (Some [mkSelectItem "id" None (Some "id") None;
           mkSelectItem "name" (Some "label") (Some "name") None;
           mkSelectItem "ts" None (Some "ts") None])
    None.

(** ** Columns left unresolved *)

(** The source column name [resolveFromSourceTable] looks for. *)
Definition sourceNameOf (context : Mapping.MappingContext) (column : ColumnAst) : string :=
  match Mapping.aliasMap context !! col_name column with
  | Some (String c r as aliasedName) => aliasedName
  | _ => col_name column
  end.

(** Direct-source path: the source table lacks the column, or records it
    with the placeholder type itself. *)
Definition directUnresolved (column : ColumnAst) (context : Mapping.MappingContext) : Prop :=
  exists src,
    Mapping.sourceTable context = Some src /\
    match sourceColumn src (sourceNameOf context column) with
    | None => True
    | Some sc => name (col_type sc) = "Unknown"
    end.

(** The policy passes the base type on: there is no function name, or the
    name is neither [tostartofday] nor one that starts with [sum], [avg]
    or [count]. *)
Definition passesBase (func : option string) : Prop :=
  match func with
  | Some (String c r as fn) =>
      normalized fn <> "tostartofday" /\
      startsWithAny (normalized fn) numericPrefixes = false
  | _ => True
  end.

(** A function name the policy knows nothing about. *)
Definition otherFunction (func : option string) : Prop :=
  exists fn, func = Some fn /\ Js.nonEmpty fn = true /\
    normalized fn <> "tostartofday" /\
    startsWithAny (normalized fn) numericPrefixes = false /\
    startsWithAny (normalized fn) statePreservingPrefixes = false.

(** Named-sub-query path: the column has a projection record, and either
    the base type of the record is the placeholder and the policy passes it
    on, or no base type resolves and the function name is one the policy
    does not know. *)
Definition cteUnresolved (column : ColumnAst) (context : Mapping.MappingContext) : Prop :=
  Mapping.sourceTable context = None /\
  exists mvInfo baseType,
    Mapping.mvInfoMap context !! col_name column = Some mvInfo /\
    Mapping.lookupBaseType mvInfo context = Ok baseType /\
    match baseType with
    | Some b => name b = "Unknown" /\ passesBase (Mapping.fs_func mvInfo)
    | None => otherFunction (Mapping.fs_func mvInfo)
    end.

(** A materialized view whose SELECT names a column its source lacks. *)
Definition missingColumnDdl : string :=
  "CREATE TABLE base (id UInt64); CREATE MATERIALIZED VIEW mv AS SELECT foo FROM base".

(** The context of that view: the source table [base] has the column [id]
    only. *)
Definition missingContext : Mapping.MappingContext :=
  Mapping.mkMappingContext
    (Some (mkTableAst "base" [mkColumnAst "id" UInt64 "UInt64" None None]
                      None None None None None))
    ∅ ∅ ∅ None.

(** A context without source table and without projection record. *)
Definition emptyContext : Mapping.MappingContext :=
  Mapping.mkMappingContext None ∅ ∅ ∅ None.

(** ** Reading the rendered forms *)

(** The interface renders a column as nullable when its type text is a
    union ending in [| null]. *)
Definition isNullableTs (tsType : string) : bool := Js.endsWith tsType " | null".

Definition isNullSchema (j : JsonSchema.Json) : bool :=
  match j with
  | JsonSchema.JObject [(k, JsonSchema.JString v)] => String.eqb k "type" && String.eqb v "null"
  | _ => false
  end.

(** The JSON-Schema property is an [anyOf] union that includes the null
    type. *)
Definition isAnyOfNull (j : JsonSchema.Json) : bool :=
  match j with
  | JsonSchema.JObject fields =>
      match JsonSchema.getProperty "anyOf" fields with
      | Some (JsonSchema.JArray items) => existsb isNullSchema items
      | _ => false
      end
  | _ => false
  end.







(** A table the JSON-Schema renderer accepts: a non-empty interface name
    and at most [MAX_COLUMNS] columns, each with a non-empty name. *)
Definition validMappedTable (table : MappedTable) : Prop :=
  Js.nonEmpty (interfaceName table) = true /\
  length (mt_columns table) <= JsonSchema.MAX_COLUMNS /\
  Forall (fun c => Js.nonEmpty (mc_name c) = true) (mt_columns table).

(** The column names and resolved types of the tables of a [map] result. *)
Definition resolvedTypes (r : result (list MappedTable))
  : option (list (list (string * TypeAst))) :=
  match r with
  | Ok tables => Some (List.map mappedTypes tables)
  | Err _ => None
  end.





(** ** Statements *)

Fixpoint hasChar (ch : ascii) (s : string) : bool :=
  match s with
  | EmptyString => false
  | String c s' => Ascii.eqb c ch || hasChar ch s'
  end.

(** A statement as the splitter produces it: not empty, trimmed, and
    without the terminator. *)
Definition cleanStatement (s : string) : Prop :=
  Js.nonEmpty s = true /\ Js.trim s = s /\ hasChar ";" s = false.

(** What a statement contributes to the result of [parse]: its tables, or
    nothing when its parse fails. *)
Definition tablesOrNone (_parse : string -> result (list TableAst)) (stmt : string)
  : list TableAst :=
  match _parse stmt with
  | Ok arr => arr
  | Err _ => []
  end.

(** The statements [parse] hands to the parser, one by one. *)
Definition keptStatements (ddl : string) : list string :=
  List.filter Index.keepStatement (Index.statementsOf ddl).

(** U+000B, the vertical tab: white space for [\s], not for the lexer's
    [WhiteSpace] pattern. *)
Definition verticalTab : string := String (ascii_of_nat 11) EmptyString.

(** U+00A0, the no-break space: likewise. *)
Definition noBreakSpace : string := String (ascii_of_nat 160) EmptyString.

(** A statement the parser of parser.ts throws on. *)
Definition throwingStatement : string :=
  "CREATE TABLE t" +:+ verticalTab +:+ "(a String)".

Definition threeStatements : string :=
  "CREATE TABLE a (x String); " +:+ throwingStatement +:+ "; CREATE TABLE b (y Int8);".

(** A text that does not begin with white space. *)
Definition startsClean (s : string) : Prop :=
  match s with
  | EmptyString => True
  | String c _ => Js.isSpace c = false
  end.

(** The separator [filterStatements] joins the kept statements with. *)
Definition separator : string := ";" +:+ Index.newline.

(** ** Lexing *)

(** A character that [\s] takes for white space and the lexer's
    [WhiteSpace] pattern does not: neither that pattern nor the catch-all
    [Unknown] matches it. *)
Definition lexerGap (c : ascii) : bool :=
  Js.isSpace c && negb (Tokens.isLexerSpace c).

Fixpoint allChars (p : ascii -> bool) (s : string) : bool :=
  match s with
  | EmptyString => true
  | String c s' => p c && allChars p s'
  end.

(** A text without such a character. *)
Definition gapFree (s : string) : bool := allChars (fun c => negb (lexerGap c)) s.

(** [throwingStatement] with a blank for the vertical tab. *)
Definition blankStatement : string := "CREATE TABLE t (a String)".

(** ** Qualified names *)




(** A table and a view over it, each named with a qualifier of its own. *)
Definition qualifiedDdl : string :=
  "CREATE TABLE db1.events (id UInt64, label String); " +:+
  "CREATE MATERIALIZED VIEW IF NOT EXISTS db2.mv AS SELECT id, label FROM other_db.events;".





(** ** The bounds of the parser's loops *)

(** The number of tokens still to be read. *)
Definition size (st : Parser.ParserState) : nat := length (Parser.rest st).

(** At [st] the action [p] hands back no more tokens than it was given,
    and does not stop for want of fuel. *)
Definition tameAt {A} (p : Parser.Parser A) (st : Parser.ParserState) : Prop :=
  size (snd (p st)) <= size st /\ fst (p st) <> Err OutOfFuel.

Definition tame {A} (p : Parser.Parser A) : Prop := forall st, tameAt p st.

(** At [st] the action [p], when it succeeds, has read a token at least. *)
Definition consumingAt {A} (p : Parser.Parser A) (st : Parser.ParserState) : Prop :=
  forall a st', p st = (Ok a, st') -> size st' < size st.

Definition consuming {A} (p : Parser.Parser A) : Prop := forall st, consumingAt p st.

(** The outcome [x] of a loop that was given [n] tokens. *)
Definition bounded {A} (x : result A * Parser.ParserState) (n : nat) : Prop :=
  size (snd x) <= n /\ fst x <> Err OutOfFuel.

(** ** The shape of a mapping result *)

(** The name a column gets in the interface. *)
Definition emittedName (options : MappingOptions) (column : ColumnAst) : string :=
  if camelCase options then toCamelCase (col_name column) else col_name column.

(** [m] is the image of [table]: same table, same columns, in order. *)
Definition sameShape (options : MappingOptions) (table : TableAst) (m : MappedTable) : Prop :=
  interfaceName m = toPascalCase (tbl_name table) /\
  meta_partitionBy m = tbl_partitionBy table /\
  meta_orderBy m = tbl_orderBy table /\
  List.map mc_name (mt_columns m) = List.map (emittedName options) (tbl_columns table) /\
  List.map mc_comment (mt_columns m) = List.map col_comment (tbl_columns table).

Definition camelOptions : MappingOptions :=
  mkMappingOptions "bigint" "string" "string" true false None.

Definition snakeDdl : string :=
  "CREATE TABLE user_events (user_id UInt64 COMMENT 'who', event_time DateTime) ORDER BY user_id;".

(** ** Wrappers *)

Definition lowCardinality (t : TypeAst) : TypeAst := mkTypeAst "LowCardinality" [ArgType t].
Definition nullableOf (t : TypeAst) : TypeAst := mkTypeAst "Nullable" [ArgType t].
Definition arrayOf (t : TypeAst) : TypeAst := mkTypeAst "Array" [ArgType t].

(** ** camelCase *)

(** No run of [_]/[-] of [s] is followed by a letter or digit; [afterRun]
    tells whether such a run has just been read. *)
Fixpoint noCamelBreak (afterRun : bool) (s : string) : bool :=
  match s with
  | EmptyString => true
  | String c s' =>
      if isSeparator c then noCamelBreak true s'
      else negb (afterRun && Js.isAlnum c) && noCamelBreak false s'
  end.

Fixpoint allSeparators (s : string) : bool :=
  match s with
  | EmptyString => true
  | String c s' => isSeparator c && allSeparators s'
  end.

Definition eventsBySnake : TableAst :=
  mkTableAst "events"
    [mkColumnAst "user_id" UInt64 "UInt64" None None;
     mkColumnAst "event-time" DateTime "DateTime" None None] None None None None None.

(** ** Quoting *)

Definition startsWithQuote (s : string) : bool :=
  match s with
  | String c _ => Ascii.eqb c "'"
  | EmptyString => false
  end.

(** The literal the type mapper prints for the enum key [key]. *)
Definition quoted (key : string) : string :=
  "'" +:+ Mapping.escapeStringLiteral key +:+ "'".

(** The names [canonicalTypeName] knows, in lower case. *)
Definition specialNames : list string :=
  ["nullable"; "lowcardinality"; "array"; "tuple"; "map"; "enum8"; "enum16";
   "decimal"; "fixedstring"; "datetime"; "datetime64"].

Definition mixedCaseDdl : string :=
  "CREATE TABLE t (a uint64, b NULLABLE(string), c Enum8('it\'s' = 1, 'b' = 2));".

(** ** Plugins *)

(** A plugin that overrides [Int64], and one that answers every type with
    the empty text. *)
Definition int64Plugin : MappingPlugin :=
  fun type => if String.eqb (name type) "Int64" then Some "Long" else None.
Definition emptyPlugin : MappingPlugin := fun _ => Some EmptyString.

Definition withPlugins (ps : list MappingPlugin) : MappingOptions :=
  mkMappingOptions "bigint" "string" "string" false false (Some ps).

Definition Int64 : TypeAst := leafType "Int64".

(** The tables of a mapping result (none when the mapping failed). *)
Definition tablesOf (r : result (list MappedTable)) : list MappedTable :=
  match r with
  | Ok mapped => mapped
  | Err _ => []
  end.

Definition qualifiedMapped : list MappedTable :=
  tablesOf (Mapping.map (Index.parse qualifiedDdl) defaultOptions).

(** ** The emitted file *)

(** A Zod schema that accepts null. *)
Definition isNullableZod (schema : string) : bool := Js.endsWith schema ".nullable()".

Definition zodOptions : Emitter.EmissionOptions := Emitter.mkEmissionOptions true.
Definition plainOptions : Emitter.EmissionOptions := Emitter.mkEmissionOptions false.

(** The interfaces of a file: their names and, for each property, its name
    and type. *)
Definition propertyOf (p : Emitter.PropertySignature) : string * string :=
  (Emitter.prop_name p, Emitter.prop_type p).

Fixpoint interfacesOf (statements : list Emitter.Statement)
  : list (string * list (string * string)) :=
  match statements with
  | [] => []
  | Emitter.InterfaceDeclaration n properties :: rest =>
      (n, List.map propertyOf properties) :: interfacesOf rest
  | _ :: rest => interfacesOf rest
  end.

(** The names of the schema constants of a file. *)
Fixpoint schemasOf (statements : list Emitter.Statement) : list string :=
  match statements with
  | [] => []
  | Emitter.VariableStatement n _ :: rest => n :: schemasOf rest
  | _ :: rest => schemasOf rest
  end.

(** The branded aliases of a file. *)
Fixpoint aliasesOf (statements : list Emitter.Statement) : list string :=
  match statements with
  | [] => []
  | Emitter.TypeAlias n _ :: rest => n :: aliasesOf rest
  | _ :: rest => aliasesOf rest
  end.

(** The modules a file imports from. *)
Fixpoint importsOf (statements : list Emitter.Statement) : list string :=
  match statements with
  | [] => []
  | Emitter.ImportDeclaration m _ _ :: rest => m :: importsOf rest
  | _ :: rest => importsOf rest
  end.

(** What an interface must say for the mapped table [m]. *)
Definition interfaceFor (m : MappedTable) : string * list (string * string) :=
  (interfaceName m, List.map (fun c => (mc_name c, mc_tsType c)) (mt_columns m)).

Definition decimalOptions : MappingOptions :=
  mkMappingOptions "bigint" "decimal.js" "string" false false None.

Definition addressesDdl : string :=
  "CREATE TABLE hosts (ip IPv4, ip6 IPv6, price Nullable(Decimal(10, 2)));".

(** A table [emit] accepts. *)
Definition emittable (table : MappedTable) : Prop :=
  Js.nonEmpty (interfaceName table) = true /\
  length (mt_columns table) <= Emitter.MAX_COLUMNS /\
  Forall (fun column => Js.nonEmpty (mc_name column) = true) (mt_columns table).

Definition schemaName (m : MappedTable) : string := interfaceName m +:+ "Schema".

(** The statements of [statements] that are neither an interface nor a
    schema constant: header, imports and aliases. *)
Fixpoint preambleOf (statements : list Emitter.Statement) : list Emitter.Statement :=
  match statements with
  | [] => []
  | Emitter.InterfaceDeclaration _ _ :: rest => preambleOf rest
  | Emitter.VariableStatement _ _ :: rest => preambleOf rest
  | s :: rest => s :: preambleOf rest
  end.

(** A ts-morph that accepts every call. *)
Definition acceptAll : list Emitter.Statement -> Emitter.Statement -> bool :=
  fun _ _ => true.

(** The import declarations of a file with the dependencies
    [dependencies]: zod, then decimal.js. *)
Definition importsFor (dependencies : Emitter.EmissionDependencies)
  : list Emitter.Statement :=
  (if Emitter.needsZod dependencies
   then [Emitter.ImportDeclaration "zod" false ["z"]] else []) ++
  (if Emitter.needsDecimal dependencies
   then [Emitter.ImportDeclaration "decimal.js" true ["Decimal"]] else []).

(** Its branded aliases: IPv4, then IPv6. *)
Definition aliasesFor (dependencies : Emitter.EmissionDependencies)
  : list Emitter.Statement :=
  (if Emitter.needsIPv4 dependencies
   then [Emitter.TypeAlias "IPv4" "string & { readonly __brand: 'IPv4' }"] else []) ++
  (if Emitter.needsIPv6 dependencies
   then [Emitter.TypeAlias "IPv6" "string & { readonly __brand: 'IPv6' }"] else []).

(** The interface declared for [table]. *)
Definition interfaceStatement (table : MappedTable) : Emitter.Statement :=
  Emitter.InterfaceDeclaration (interfaceName table) (Emitter.createInterfaceProperties table).

(** The schema constant declared for [table]. *)
Definition schemaStatement (table : MappedTable) : result Emitter.Statement :=
  let* zodEntries := Emitter.createZodPropertyEntries table in
  Ok (Emitter.VariableStatement (interfaceName table +:+ "Schema")
                                (Emitter.formatZodInitializer zodEntries)).

(** The statements of one table: its interface and, when Zod is asked for,
    the schema constant right behind it. *)
Definition tableStatements (dependencies : Emitter.EmissionDependencies)
    (table : MappedTable) : result (list Emitter.Statement) :=
  if Emitter.needsZod dependencies then
    let* schema := schemaStatement table in
    Ok [interfaceStatement table; schema]
  else Ok [interfaceStatement table].

(** The statements of the tables, in the order of the tables. *)
Definition bodyStatements (dependencies : Emitter.EmissionDependencies)
    (tables : list MappedTable) : result (list Emitter.Statement) :=
  let* groups := mapM (tableStatements dependencies) (firstn Emitter.MAX_TABLES tables) in
  Ok (concat groups).

(** The property of an interface for [column]: required, under the name
    and the type text of the column, documented by its original type. *)
Definition propertyFor (column : MappedColumn) : Emitter.PropertySignature :=
  Emitter.mkProperty (mc_name column) (mc_tsType column)
                     [Emitter.createPropertyDocumentation column] false.

(** [block] is what a file holds for [table]: the interface with one
    property per column, in order, and right behind it, when Zod is asked
    for, the constant [<Interface>Schema] built from the Zod entries of
    the columns. *)
Definition tableBlock (withZod : bool) (table : MappedTable)
    (block : list Emitter.Statement) : Prop :=
  if withZod then
    exists entries,
      Emitter.createZodPropertyEntries table = Ok entries /\
      block = [Emitter.InterfaceDeclaration (interfaceName table)
                 (List.map propertyFor (mt_columns table));
               Emitter.VariableStatement (interfaceName table +:+ "Schema")
                 (Emitter.formatZodInitializer entries)]
  else
    block = [Emitter.InterfaceDeclaration (interfaceName table)
               (List.map propertyFor (mt_columns table))].

(** The statements of an emission result (none when it failed). *)
Definition fileOf (r : result (list Emitter.Statement)) : list Emitter.Statement :=
  match r with
  | Ok statements => statements
  | Err _ => []
  end.

Definition mixedMapped : list MappedTable :=
  tablesOf (Mapping.map (Index.parse mixedCaseDdl) defaultOptions).

Definition addressesMapped : list MappedTable :=
  tablesOf (Mapping.map (Index.parse addressesDdl) decimalOptions).

Definition mixedColumnB : MappedColumn :=
  mkMappedColumn "b" "string | null" "NULLABLE(string)" (nullableOf StringType) None.

Definition mixedTable : MappedTable :=
  mkMappedTable "T"
    [mkMappedColumn "a" "unknown" "uint64" (leafType "Uint64") None;
     mixedColumnB;
     mkMappedColumn "c" "'it\'s' | 'b'" "Enum8('it\'s'=1,'b'=2)"
                    (mkTypeAst "Enum8" [ArgEnum "it's" (Finite 1); ArgEnum "b" (Finite 2)]) None]
    None None.

(** ** The token stream *)

(** [s.slice(n)]. *)
Fixpoint dropChars (n : nat) (s : string) : string :=
  match n, s with
  | S n', String _ s' => dropChars n' s'
  | _, _ => s
  end.

(** The character in front of offset [n] of [text], if any. *)
Definition charBefore (text : string) (n : nat) : option ascii := Js.lastChar (Js.take n text).

(** The token [t] is what its pattern matches at its offset in [text]: its
    image is the matched text, which is not empty, and its type is the
    first one whose pattern matches there, a type that is not skipped. *)
Definition tokenAt (text : string) (t : Tokens.IToken) : Prop :=
  exists len,
    Tokens.firstMatch Tokens.allTokens (charBefore text (Tokens.startOffset t))
                      (dropChars (Tokens.startOffset t) text) =
      Some (Tokens.tokenType t, len) /\
    Tokens.image t = Js.take len (dropChars (Tokens.startOffset t) text) /\
    Js.nonEmpty (Tokens.image t) = true /\
    Tokens.skipped (Tokens.tokenType t) = false.

(** The tokens [ts] lie in [text] from offset [from] on, in order and
    without overlap. *)
Fixpoint tokensFrom (text : string) (from : nat) (ts : list Tokens.IToken) : Prop :=
  match ts with
  | [] => True
  | t :: ts' =>
      from <= Tokens.startOffset t /\ tokenAt text t /\
      tokensFrom text (Tokens.startOffset t + String.length (Tokens.image t)) ts'
  end.

(** ** The names the parser records *)

Definition namedToken (t : Tokens.IToken) : Prop := Js.nonEmpty (Tokens.image t) = true.

(** Every token still to be read has an image. *)
Definition named (st : Parser.ParserState) : Prop := Forall namedToken (Parser.rest st).

(** The action [p] reads tokens and never puts any back: what is left to
    be read afterwards was there before. *)
Definition calm {A} (p : Parser.Parser A) : Prop :=
  forall st, List.incl (Parser.rest (snd (p st))) (Parser.rest st).

(** The outcome [x] of a loop that was given the tokens [r]. *)
Definition leaves {A} (x : result A * Parser.ParserState) (r : list Tokens.IToken) : Prop :=
  List.incl (Parser.rest (snd x)) r.

(** The name a select item gives its column. *)
Definition itemColumnName (item : SelectItem) : string :=
  Mapping.orElse (item_alias item) (item_name item).

Definition namedTable (table : TableAst) : Prop :=
  Js.nonEmpty (tbl_name table) = true /\
  Forall (fun column => Js.nonEmpty (col_name column) = true) (tbl_columns table).

(** A table the parser returns is a plain table, or a view whose columns
    are the placeholders of its select items. *)
Definition placeholderColumn (item : SelectItem) : ColumnAst :=
  mkColumnAst (itemColumnName item) UnknownType "Unknown" None None.

Definition parsedShape (table : TableAst) : Prop :=
  match tbl_mvSelect table with
  | None => tbl_mvFrom table = None /\ tbl_mvCte table = None
  | Some items => tbl_columns table = List.map placeholderColumn items
  end.

Definition viewDdl : string :=
  "CREATE TABLE src (id UInt64, v Float64); " +:+
  "CREATE MATERIALIZED VIEW mv AS SELECT id, sum(v) AS total FROM src;".

(** The failures of the type mapper: invalid options, a nesting deeper
    than [MAX_TYPE_DEPTH], a type without name or with more than
    [MAX_TUPLE_ELEMENTS] arguments, an unknown type under [failOnUnknown]. *)
Definition typeFailure (options : MappingOptions) (e : error) : Prop :=
  Mapping.validateMappingOptions options = Err e \/
  e = DepthExceeded \/
  (exists t, Mapping.validateTypeAst t = Err e) \/
  (failOnUnknown options = true /\ exists n, e = UnknownTypeError n).

(** What [map] rejects in a table before it maps a type. *)
Definition rejectedTable (table : TableAst) : Prop :=
  tbl_name table = EmptyString \/
  (Mapping.MAX_COLUMNS_PER_TABLE < N.of_nat (length (tbl_columns table)))%N \/
  Exists (fun column => col_name column = EmptyString) (tbl_columns table).

Definition unknownTypeDdl : string :=
  "CREATE TABLE t (id UInt64, shape Polygon);".

(** A Decimal that the mapper renders under its own name: bare, or under
    LowCardinality, which is transparent. *)
Inductive bareDecimal : TypeAst -> Prop :=
| bare_decimal (t : TypeAst) :
    Mapping.typeKind (name t) = Mapping.KDecimal -> bareDecimal t
| bare_lowCardinality (t : TypeAst) :
    Mapping.typeKind (name t) = Mapping.KLowCardinality ->
    bareDecimal (firstTypeArg t) -> bareDecimal t.

(** The property [p] (name, type text) of an interface is that of the
    declared column [column]. *)
Definition propertyOfColumn (options : MappingOptions) (column : ColumnAst)
    (p : string * string) : Prop :=
  fst p = emittedName options column /\
  (String.eqb (name (col_type column)) "Unknown" = false ->
   Mapping.mapTypeAstToTs (col_type column) options = Ok (snd p)).

(** The interface [i] (name, properties) is that of the parsed table
    [table]. *)
Definition interfaceOfTable (options : MappingOptions) (table : TableAst)
    (i : string * list (string * string)) : Prop :=
  fst i = toPascalCase (tbl_name table) /\
  Forall2 (propertyOfColumn options) (tbl_columns table) (snd i).

(** ** The text of the JSON-Schema document *)





















(* ================================================================== *)
(** * Properties *)
(* ================================================================== *)

(** Closed goals are settled by evaluation, conjunct by conjunct. *)
Ltac by_evaluation :=
  repeat match goal with |- _ /\ _ => split end; vm_compute; reflexivity.

(** ** The exception monad *)

Lemma rbind_inv {A B} (r : result A) (k : A -> result B) (b : B) :
  rbind r k = Ok b -> exists a, r = Ok a /\ k a = Ok b.
Proof.
  destruct r as [a|e]; [intros H; exists a; split; [reflexivity|exact H] | discriminate].
Qed.

(** ** Strings *)

Lemma prefix_eqb (p s : string) : String.eqb s p = true -> String.prefix p s = true.
Proof.
  intros H. apply String.eqb_eq in H. subst s.
  induction p as [|a p IH]; simpl; [reflexivity|].
  destruct (ascii_dec a a); [exact IH | congruence].
Qed.

(** Two prefixes of one string are comparable. *)
Lemma prefix_comparable (p q s : string) :
  String.prefix p s = true -> String.prefix q s = true ->
  String.prefix p q = true \/ String.prefix q p = true.
Proof.
  revert p q. induction s as [|c s IH]; intros p q Hp Hq.
  - destruct p; [left; destruct q; reflexivity | simpl in Hp; discriminate].
  - destruct p as [|a p]; [left; destruct q; reflexivity|].
    destruct q as [|b q]; [right; reflexivity|].
    simpl in Hp, Hq.
    destruct (ascii_dec a c) as [->|]; [|discriminate].
    destruct (ascii_dec b c) as [->|]; [|discriminate].
    destruct (IH p q Hp Hq) as [H|H]; [left|right]; simpl;
      destruct (ascii_dec c c); congruence.
Qed.

Lemma not_both_prefixes (p q s : string) :
  String.prefix p q = false -> String.prefix q p = false ->
  String.prefix p s = true -> String.prefix q s = false.
Proof.
  intros Hpq Hqp Hp. destruct (String.prefix q s) eqn:Hq; [|reflexivity].
  destruct (prefix_comparable p q s Hp Hq); congruence.
Qed.

(** ** The aggregate return-type policy (C2) *)

Section AggregatePolicy.
Import Mapping.

Lemma resolveAgg_unfold (fn : string) (base : option TypeAst) :
  Js.nonEmpty fn = true ->
  resolveAggReturnType (Some fn) base =
    if String.eqb (normalized fn) "tostartofday" then Ok (Some DateTime)
    else if isNumericAggregate (normalized fn) then Ok (Some Float64)
    else if isStatePreservingAggregate (normalized fn)
         then Ok (Some (orElse base Float64))
         else Ok base.
Proof. destruct fn; [discriminate|]. intros _. reflexivity. Qed.

Lemma startsWithAny_inv (nf : string) (ps : list string) :
  startsWithAny nf ps = true -> exists p, In p ps /\ String.prefix p nf = true.
Proof.
  unfold startsWithAny. intros H. apply existsb_exists in H.
  destruct H as [p [Hin Hp]]. exists p. split; assumption.
Qed.

Lemma numeric_prefixes (nf : string) :
  isNumericAggregate nf = startsWithAny nf numericPrefixes.
Proof.
  unfold isNumericAggregate, startsWithAny, numericPrefixes. cbn [existsb].
  rewrite orb_false_r, orb_assoc. reflexivity.
Qed.

Lemma statePreserving_prefixes (nf : string) :
  isStatePreservingAggregate nf = startsWithAny nf statePreservingPrefixes.
Proof.
  unfold isStatePreservingAggregate, startsWithAny, statePreservingPrefixes. cbn [existsb].
  rewrite orb_false_r, !orb_assoc. reflexivity.
Qed.

(** The classes of the policy do not overlap: their prefixes are pairwise
    incomparable, and none is a prefix of [tostartofday] or conversely. *)
Lemma statePreserving_class (nf : string) :
  startsWithAny nf statePreservingPrefixes = true ->
  String.eqb nf "tostartofday" = false /\ startsWithAny nf numericPrefixes = false.
Proof.
  intros H. destruct (startsWithAny_inv _ _ H) as [p [Hin Hp]].
  assert (Hno : forall q, String.prefix p q = false -> String.prefix q p = false ->
                          String.prefix q nf = false)
    by (intros q H1 H2; exact (not_both_prefixes p q nf H1 H2 Hp)).
  split.
  - destruct (String.eqb nf "tostartofday") eqn:E; [|reflexivity].
    apply prefix_eqb in E.
    rewrite Hno in E; [discriminate| |];
      simpl in Hin; intuition (subst; reflexivity).
  - unfold startsWithAny, numericPrefixes, Js.startsWith. cbn [existsb].
    rewrite !Hno; try reflexivity; simpl in Hin; intuition (subst; reflexivity).
Qed.

Lemma numeric_class (nf : string) :
  startsWithAny nf numericPrefixes = true -> String.eqb nf "tostartofday" = false.
Proof.
  intros H. destruct (startsWithAny_inv _ _ H) as [p [Hin Hp]].
  destruct (String.eqb nf "tostartofday") eqn:E; [|reflexivity].
  apply prefix_eqb in E.
  rewrite (not_both_prefixes p "tostartofday" nf) in E; [discriminate | | | exact Hp];
    simpl in Hin; intuition (subst; reflexivity).
Qed.

(** The policy of the code is [policyOf]. *)
Lemma resolveAgg_policy (func : option string) (base : option TypeAst) :
  resolveAggReturnType func base = Ok (policyOf func base).
Proof.
  destruct func as [[|c r]|]; try reflexivity.
  set (fn := String c r). rewrite (resolveAgg_unfold fn base eq_refl).
  unfold policyOf. fold fn.
  rewrite numeric_prefixes, statePreserving_prefixes.
  destruct (String.eqb (normalized fn) "tostartofday"); [reflexivity|].
  destruct (startsWithAny (normalized fn) numericPrefixes); [reflexivity|].
  destruct (startsWithAny (normalized fn) statePreservingPrefixes); reflexivity.
Qed.

(** C2 (amended): the policy applied to the function name of the final
    projection item, lower-cased and trimmed.  [tostartofday] gives
    DateTime; names starting with [sum], [avg] or [count] give Float64
    whatever the base type; names starting with [anylast], [anystate],
    [max], [min], [argmin] or [argmax] give the resolved base type when
    there is one and Float64 when there is none; any other name leaves the
    base type as it is, resolved or not; and without a function name (or
    with an empty one) the policy returns the base type, so that the column
    gets the resolved base type when there is one and the String fallback
    only when there is none. *)
Theorem C2_aggregate_policy (fn : string) (base : option TypeAst) :
  Js.nonEmpty fn = true ->
  (normalized fn = "tostartofday" ->
     resolveAggReturnType (Some fn) base = Ok (Some DateTime)) /\
  (startsWithAny (normalized fn) ["sum"; "avg"; "count"] = true ->
     resolveAggReturnType (Some fn) base = Ok (Some Float64)) /\
  (startsWithAny (normalized fn)
                 ["anylast"; "anystate"; "max"; "min"; "argmin"; "argmax"] = true ->
     resolveAggReturnType (Some fn) base =
       Ok (Some (match base with Some b => b | None => Float64 end))) /\
  (normalized fn <> "tostartofday" ->
   startsWithAny (normalized fn) ["sum"; "avg"; "count"] = false ->
   startsWithAny (normalized fn)
                 ["anylast"; "anystate"; "max"; "min"; "argmin"; "argmax"] = false ->
     resolveAggReturnType (Some fn) base = Ok base) /\
  resolveAggReturnType None base = Ok base /\
  resolveAggReturnType (Some EmptyString) base = Ok base /\
  (forall column context mvInfo,
     mvInfoMap context !! col_name column = Some mvInfo ->
     Js.truthy (fs_func mvInfo) = false ->
     lookupBaseType mvInfo context = Ok base ->
     resolveFromCTE column context =
       Ok (Some (match base with
                 | Some b => (b, name b)
                 | None => (StringType, "String")
                 end))).
Proof.
  intros Hfn. rewrite (resolveAgg_unfold fn base Hfn).
  rewrite numeric_prefixes, statePreserving_prefixes.
  change ["sum"; "avg"; "count"] with numericPrefixes.
  change ["anylast"; "anystate"; "max"; "min"; "argmin"; "argmax"]
    with statePreservingPrefixes.
  repeat split.
  - intros ->. reflexivity.
  - intros H. rewrite (numeric_class _ H), H. reflexivity.
  - intros H. destruct (statePreserving_class _ H) as [-> ->]. rewrite H.
    destruct base; reflexivity.
  - intros Hne Hnum Hsp.
    apply String.eqb_neq in Hne. rewrite Hne, Hnum, Hsp. reflexivity.
  - intros column context mvInfo Hinfo Hfunc Hbase.
    unfold resolveFromCTE. rewrite Hinfo, Hbase. simpl.
    assert (Hagg : resolveAggReturnType (fs_func mvInfo) base = Ok base).
    { destruct (fs_func mvInfo) as [[|c r]|]; try reflexivity. discriminate. }
    rewrite Hagg. simpl. rewrite Hfunc. destruct base; reflexivity.
Qed.

Lemma C2_aggregate_policy_witness :
  Js.nonEmpty "maxState" = true /\
  resolveAggReturnType (Some "maxState") (Some UInt64) = Ok (Some UInt64) /\
  resolveAggReturnType (Some "maxState") None = Ok (Some Float64).
Proof.
  split; [reflexivity|].
  destruct (C2_aggregate_policy "maxState" (Some UInt64) eq_refl) as [_ [_ [H1 _]]].
  destruct (C2_aggregate_policy "maxState" None eq_refl) as [_ [_ [H2 _]]].
  split; [apply H1 | apply H2]; reflexivity.
Defined.

(** C2 as stated fails twice.  The final item [v] of [cteView] has no
    function name, yet it does not get the String fallback: the policy
    hands back the base type of the named sub-query ([toFloat64] gives
    Float64).  And [anyState], which is none of the names the claim lists,
    does not leave an unresolved base type as it is: it gives Float64. *)
Lemma C2_counterexample :
  item_func passthroughItem = None /\
  resolveAggReturnType None (Some Float64) = Ok (Some Float64) /\
  (exists columns,
     Mapping.map [cteView] defaultOptions = Ok [mkMappedTable "Mv" columns None None] /\
     List.map mc_typeAst columns = [Float64] /\
     Float64 <> StringType) /\
  normalized "anyState" <> "tostartofday" /\
  startsWithAny (normalized "anyState") ["sum"; "avg"; "count"] = false /\
  startsWithAny (normalized "anyState") ["anylast"; "max"; "min"; "argmin"; "argmax"] = false /\
  resolveAggReturnType (Some "anyState") None = Ok (Some Float64).
Proof.
  split; [reflexivity|]. split; [reflexivity|]. split.
  - eexists. split; [vm_compute; reflexivity|].
    split; [reflexivity | discriminate].
  - split; [discriminate|]. repeat split; reflexivity.
Qed.

End AggregatePolicy.

(** ** Bounded recursion of the type mapping (C4) *)

Section MappingDepth.
Import Mapping.

Variable options : MappingOptions.
Hypothesis options_valid : validateMappingOptions options = Ok tt.
Hypothesis no_plugins : plugins options = None.
Hypothesis lenient : failOnUnknown options = false.

Lemma walk_first (t : TypeAst) :
  In (typeKind (name t)) [KNullable; KLowCardinality; KArray] ->
  walkDepth t = S (walkDepth (firstTypeArg t)) /\
  (walkValid t = true -> walkValid (firstTypeArg t) = true).
Proof.
  destruct t as [n l]. simpl name. intros Hk.
  assert (Hd : walkDepth (mkTypeAst n l) =
               S (match l with ArgType t' :: _ => walkDepth t' | _ => 0 end)).
  { simpl. simpl in Hk. destruct (typeKind n); try reflexivity; exfalso; intuition discriminate. }
  assert (Hv : walkValid (mkTypeAst n l) = true ->
               match l with ArgType t' :: _ => walkValid t' | _ => true end = true).
  { simpl. simpl in Hk. intros H. apply andb_prop in H. destruct H as [_ H].
    destruct (typeKind n); try exact H; exfalso; intuition discriminate. }
  rewrite Hd. unfold firstTypeArg. simpl args.
  destruct l as [|[t'| | |] l']; simpl; split; auto.
Qed.

Lemma walk_second (t : TypeAst) :
  typeKind (name t) = KMap ->
  walkDepth t = S (walkDepth (secondTypeArg t)) /\
  (walkValid t = true -> walkValid (secondTypeArg t) = true).
Proof.
  destruct t as [n l]. simpl name. intros Hk.
  unfold secondTypeArg. simpl args. simpl walkDepth. simpl walkValid. rewrite Hk.
  destruct l as [|a [|[t'| | |] l']]; simpl; split; auto;
    intros H; apply andb_prop in H; destruct H as [_ H]; exact H.
Qed.

Lemma walk_tuple (t : TypeAst) :
  typeKind (name t) = KTuple ->
  walkDepth t = fold_right (fun a m => Nat.max (S (walkDepth (elemType a))) m) 0 (args t) /\
  (walkValid t = true ->
   firstn MAX_TUPLE_ELEMENTS (args t) = args t /\
   forall a, In a (args t) -> walkValid (elemType a) = true).
Proof.
  destruct t as [n l]. simpl name. intros Hk.
  simpl args. simpl walkDepth. simpl walkValid. rewrite Hk. split.
  - induction l as [|a l IH]; [reflexivity|].
    simpl. rewrite <- IH. destruct a; reflexivity.
  - intros H. apply andb_prop in H. destruct H as [H Hel].
    apply andb_prop in H. destruct H as [_ Hlen]. apply Nat.leb_le in Hlen.
    split; [apply firstn_all2; exact Hlen|].
    clear Hlen. induction l as [|a l IH]; [intros ? []|].
    apply andb_prop in Hel. destruct Hel as [Ha Hl].
    intros b [<-|Hb]; [destruct a; auto | apply IH; assumption].
Qed.

Lemma walk_leaf (t : TypeAst) :
  ~ In (typeKind (name t)) [KNullable; KLowCardinality; KArray; KTuple; KMap] ->
  walkDepth t = 0.
Proof.
  destruct t as [n l]. simpl. destruct (typeKind n); intuition congruence.
Qed.

Lemma walkValid_node (t : TypeAst) :
  walkValid t = true -> validateTypeAst t = Ok tt.
Proof.
  destruct t as [n l]. simpl. intros H.
  apply andb_prop in H. destruct H as [H _]. apply andb_prop in H. destruct H as [Hn Hl].
  unfold validateTypeAst. simpl. rewrite Hn. simpl. unfold MAX_TUPLE_ELEMENTS in *.
  rewrite Hl. reflexivity.
Qed.

Lemma no_plugin_result (t : TypeAst) : tryPluginMapping t options = None.
Proof. unfold tryPluginMapping. rewrite no_plugins. reflexivity. Qed.

Lemma tupleParts_within (self : TypeAst -> result string) (l : list TypeArg) (d : nat) :
  (forall a, In a l ->
     (walkDepth (elemType a) + S d <= MAX_TYPE_DEPTH -> exists s, self (elemType a) = Ok s) /\
     (MAX_TYPE_DEPTH < walkDepth (elemType a) + S d -> self (elemType a) = Err DepthExceeded)) ->
  d <= MAX_TYPE_DEPTH ->
  forall i,
    (fold_right (fun a m => Nat.max (S (walkDepth (elemType a))) m) 0 l + d <= MAX_TYPE_DEPTH ->
     exists parts, tupleParts self i l = Ok parts) /\
    (MAX_TYPE_DEPTH < fold_right (fun a m => Nat.max (S (walkDepth (elemType a))) m) 0 l + d ->
     tupleParts self i l = Err DepthExceeded).
Proof.
  intros Hall Hd. induction l as [|a l IH]; intros i; cbn [fold_right tupleParts].
  - split; [eauto | lia].
  - assert (Ha := Hall a (or_introl eq_refl)).
    assert (IH' := IH (fun b Hb => Hall b (or_intror Hb))). clear IH.
    fold (elemType a). destruct Ha as [Hok Hdeep].
    set (m := fold_right (fun a m => Nat.max (S (walkDepth (elemType a))) m) 0 l) in *.
    split; intros H.
    + destruct Hok as [s Hs]; [lia|]. rewrite Hs. simpl.
      destruct (proj1 (IH' (S i))) as [parts Hp]; [lia|]. rewrite Hp. simpl. eauto.
    + destruct (Nat.le_gt_cases (walkDepth (elemType a) + S d) MAX_TYPE_DEPTH) as [Hle|Hgt].
      * destruct (Hok Hle) as [s Hs]. rewrite Hs. simpl.
        rewrite (proj2 (IH' (S i))); [reflexivity | lia].
      * rewrite (Hdeep Hgt). reflexivity.
Qed.

Lemma mapTypeAstToTs_rec_within (fuel : nat) :
  forall (t : TypeAst) (d : nat),
    d <= S MAX_TYPE_DEPTH -> MAX_TYPE_DEPTH + 2 <= fuel + d ->
    walkValid t = true -> mapsWithin options fuel t d.
Proof.
  induction fuel as [|fuel IH]; intros t d Hd Hfuel Hvalid.
  - unfold MAX_TYPE_DEPTH in *. lia.
  - unfold mapsWithin. cbn [mapTypeAstToTs_rec].
    destruct (Nat.ltb MAX_TYPE_DEPTH d) eqn:Hlt.
    { apply Nat.ltb_lt in Hlt. split; [lia | reflexivity]. }
    apply Nat.ltb_ge in Hlt.
    rewrite (walkValid_node t Hvalid), options_valid, no_plugin_result. cbn [rbind].
    assert (Hrec : forall t', walkValid t' = true -> mapsWithin options fuel t' (d + 1)).
    { intros t' Hv. apply IH; [| |exact Hv]; unfold MAX_TYPE_DEPTH in *; lia. }
    destruct (typeKind (name t)) eqn:Hkind.
    1-3: destruct (walk_first t) as [Hwd Hwv];
         [rewrite Hkind; simpl; tauto|];
         destruct (Hrec _ (Hwv Hvalid)) as [Hok Hdeep]; rewrite Hwd;
         split; intros H;
         [destruct Hok as [s Hs]; [lia|]; rewrite Hs; simpl; eauto
         |rewrite Hdeep; [reflexivity | lia]].
    + (* Tuple *)
      destruct (walk_tuple t Hkind) as [Hwd Hwv]. destruct (Hwv Hvalid) as [Hfirst Hel].
      rewrite Hfirst, Hwd.
      assert (Hparts := tupleParts_within
                (fun t0 => mapTypeAstToTs_rec fuel t0 options (d + 1)) (args t) d).
      destruct (Hparts (fun a Ha => ltac:(replace (S d) with (d + 1) by lia;
                                          exact (Hrec _ (Hel a Ha)))) Hlt 0) as [Hok Hdeep].
      split; intros H.
      * destruct (Hok H) as [parts Hp]. rewrite Hp. simpl. eauto.
      * rewrite (Hdeep H). reflexivity.
    + (* Map *)
      destruct (walk_second t Hkind) as [Hwd Hwv].
      destruct (Hrec _ (Hwv Hvalid)) as [Hok Hdeep]. rewrite Hwd.
      split; intros H;
        [destruct Hok as [s Hs]; [lia|]; rewrite Hs; simpl; eauto
        |rewrite Hdeep; [reflexivity | lia]].
    + rewrite walk_leaf by (rewrite Hkind; simpl; intuition discriminate). split; [eauto|lia].
    + rewrite walk_leaf by (rewrite Hkind; simpl; intuition discriminate). split; [eauto|lia].
    + rewrite walk_leaf by (rewrite Hkind; simpl; intuition discriminate). split; [eauto|lia].
    + rewrite walk_leaf by (rewrite Hkind; simpl; intuition discriminate). split; [eauto|lia].
    + rewrite walk_leaf by (rewrite Hkind; simpl; intuition discriminate). split; [eauto|lia].
    + rewrite walk_leaf by (rewrite Hkind; simpl; intuition discriminate). split; [eauto|lia].
    + rewrite walk_leaf by (rewrite Hkind; simpl; intuition discriminate).
      unfold handleUnknownType. rewrite lenient. split; [eauto|lia].
Qed.

(** C4 (amended): with valid options, no plugin, [failOnUnknown] off and
    well-formed nodes on the walked paths, the mapping returns a string when
    the walked paths nest at most 20 deep, and raises the depth error when
    one of them nests deeper. *)
Theorem C4_mapping_depth_bound (t : TypeAst) :
  walkValid t = true ->
  (walkDepth t <= 20 -> exists s, mapTypeAstToTs t options = Ok s) /\
  (20 < walkDepth t -> mapTypeAstToTs t options = Err DepthExceeded).
Proof.
  intros Hvalid.
  destruct (mapTypeAstToTs_rec_within (MAX_TYPE_DEPTH + 2) t 0) as [Hok Hdeep];
    [unfold MAX_TYPE_DEPTH; lia | lia | exact Hvalid |].
  rewrite Nat.add_0_r in Hok, Hdeep. split; assumption.
Qed.

End MappingDepth.

Lemma C4_mapping_depth_bound_witness :
  Mapping.validateMappingOptions defaultOptions = Ok tt /\
  plugins defaultOptions = None /\
  failOnUnknown defaultOptions = false /\
  walkValid nullable20 = true /\
  walkValid nullable21 = true /\
  (exists s, Mapping.mapTypeAstToTs nullable20 defaultOptions = Ok s) /\
  Mapping.mapTypeAstToTs nullable21 defaultOptions = Err DepthExceeded.
Proof.
  repeat (split; [reflexivity|]).
  split.
  - apply (C4_mapping_depth_bound defaultOptions eq_refl eq_refl eq_refl nullable20 eq_refl).
    vm_compute. lia.
  - apply (C4_mapping_depth_bound defaultOptions eq_refl eq_refl eq_refl nullable21 eq_refl).
    vm_compute. lia.
Defined.

(** C4 as stated fails in both directions: a tree of nesting depth 22 is
    mapped without any error when the deep part is the key of a Map, which
    the mapping never walks; and a tree of depth 0 raises an error when its
    name is unknown and [failOnUnknown] is set. *)
Lemma C4_counterexample :
  typeDepth deepKeyMap = 22 /\
  Mapping.mapTypeAstToTs deepKeyMap defaultOptions = Ok "Record<string, string>" /\
  typeDepth (leafType "Foo") = 0 /\
  Mapping.mapTypeAstToTs (leafType "Foo") strictOptions = Err (UnknownTypeError "Foo").
Proof. by_evaluation. Qed.

(** ** The recursion budget is never exhausted *)

Lemma rbind_fuel {A B} (r : result A) (k : A -> result B) :
  r <> Err OutOfFuel -> (forall a, k a <> Err OutOfFuel) -> rbind r k <> Err OutOfFuel.
Proof.
  intros Hr Hk. destruct r as [a|e]; simpl; [apply Hk|].
  intros Heq. apply Hr. congruence.
Qed.

Lemma assert_fuel (b : bool) (msg : string) : assert b msg <> Err OutOfFuel.
Proof. destruct b; discriminate. Qed.

Lemma tupleParts_fuel (self : TypeAst -> result string) (l : list TypeArg) :
  (forall t, self t <> Err OutOfFuel) ->
  forall i, Mapping.tupleParts self i l <> Err OutOfFuel.
Proof.
  intros Hself. induction l as [|a l IH]; intros i; cbn [Mapping.tupleParts];
    [discriminate|].
  apply rbind_fuel; [apply Hself|]. intros s.
  apply rbind_fuel; [apply IH|]. discriminate.
Qed.

(** The depth test of the source stops the recursion of [mapTypeAstToTs]
    before the budget runs out. *)
Lemma mapTypeAstToTs_rec_fuel (options : MappingOptions) (fuel : nat) :
  forall (t : TypeAst) (d : nat),
    Mapping.MAX_TYPE_DEPTH + 2 <= fuel + d -> d <= S Mapping.MAX_TYPE_DEPTH ->
    Mapping.mapTypeAstToTs_rec fuel t options d <> Err OutOfFuel.
Proof.
  unfold Mapping.MAX_TYPE_DEPTH.
  induction fuel as [|fuel IH]; intros t d Hfuel Hd; [lia|].
  cbn [Mapping.mapTypeAstToTs_rec].
  destruct (Nat.ltb Mapping.MAX_TYPE_DEPTH d) eqn:Hlt; [discriminate|].
  apply Nat.ltb_ge in Hlt. unfold Mapping.MAX_TYPE_DEPTH in Hlt.
  assert (Hrec : forall t', Mapping.mapTypeAstToTs_rec fuel t' options (d + 1) <> Err OutOfFuel)
    by (intros t'; apply IH; lia).
  apply rbind_fuel; [apply rbind_fuel; intros; apply assert_fuel|]. intros _.
  apply rbind_fuel;
    [repeat (apply rbind_fuel; [apply assert_fuel|intros _]); apply assert_fuel|].
  intros _.
  destruct (Mapping.tryPluginMapping t options) as [[|c r]|]; try discriminate;
    (destruct (Mapping.typeKind (name t));
     try discriminate;
     try (apply rbind_fuel; [apply Hrec | discriminate]);
     try apply Hrec;
     try (apply rbind_fuel; [apply tupleParts_fuel; exact Hrec | discriminate]);
     try (unfold Mapping.handleUnknownType; destruct (failOnUnknown options); discriminate)).
Qed.

Lemma mapTypeAstToTs_fuel (t : TypeAst) (options : MappingOptions) :
  Mapping.mapTypeAstToTs t options <> Err OutOfFuel.
Proof.
  apply mapTypeAstToTs_rec_fuel; unfold Mapping.MAX_TYPE_DEPTH; lia.
Qed.

(** ** Resolution through the direct source table (C1) *)

Section DirectSource.
Import Mapping.

Lemma find_append {A} (f : A -> bool) (l1 l2 : list A) :
  find f (l1 ++ l2) = match find f l1 with Some x => Some x | None => find f l2 end.
Proof.
  induction l1 as [|x l1 IH]; [reflexivity|]. simpl. destruct (f x); [reflexivity|exact IH].
Qed.

Lemma aliasMap_fold (items : list SelectItem) (k : string) :
  forall m : gmap string string,
    fold_left (fun (aliasMap : gmap string string) item =>
                 match item_alias item with
                 | Some (String c r as a) =>
                     <[ a := orElse (item_srcName item) (item_name item) ]> aliasMap
                 | _ => aliasMap
                 end) items m !! k =
    match recordedAlias items k with
    | Some v => Some v
    | None => m !! k
    end.
Proof.
  unfold recordedAlias.
  induction items as [|item items IH]; intros m; [reflexivity|].
  cbn [fold_left rev]. rewrite IH. rewrite find_append.
  destruct (find (carriesAlias k) (rev items)) as [it|]; [reflexivity|].
  cbn [find option_map]. unfold carriesAlias.
  destruct (item_alias item) as [[|c r]|]; try reflexivity.
  cbn [Js.nonEmpty andb].
  destruct (String.eqb (String c r) k) eqn:E.
  - apply String.eqb_eq in E. subst k. cbn [option_map]. apply lookup_insert_eq.
  - apply String.eqb_neq in E. cbn [option_map]. apply lookup_insert_ne. exact E.
Qed.

(** The alias map of the source is the map "alias -> original name". *)
Lemma buildAliasMap_lookup (table : TableAst) (k : string) :
  buildAliasMap table !! k =
    match tbl_mvSelect table with
    | Some items => recordedAlias (firstn MAX_SELECT_ITEMS items) k
    | None => None
    end.
Proof.
  unfold buildAliasMap. destruct (tbl_mvSelect table) as [items|]; [|apply lookup_empty].
  rewrite aliasMap_fold. rewrite lookup_empty.
  destruct (recordedAlias _ k); reflexivity.
Qed.

Lemma findColumnByName_sourceColumn (src : TableAst) (n : string) :
  Js.nonEmpty n = true -> findColumnByName src n = Ok (sourceColumn src n).
Proof.
  intros Hn. unfold findColumnByName, sourceColumn. rewrite Hn. simpl.
  destruct (find _ (tbl_columns src)); reflexivity.
Qed.

Lemma createMappingContext_inv (table : TableAst) (allTables : list TableAst)
    (context : MappingContext) :
  createMappingContext table allTables = Ok context ->
  aliasMap context = buildAliasMap table /\
  mvInfoMap context = buildMvInfoMap table /\
  cteAliasMap context = buildCteAliasMap table /\
  (forall from, tbl_mvFrom table = Some from -> Js.nonEmpty from = true ->
                findTableByName allTables from = Ok (sourceTable context)).
Proof.
  unfold createMappingContext. intros H.
  destruct (match tbl_mvFrom table with
            | Some (String c r as from) => findTableByName allTables from
            | _ => Ok None
            end) as [src|e] eqn:Hsrc; [|discriminate].
  cbn [rbind] in H.
  destruct (match tbl_mvCte table with
            | Some cte => _
            | None => Ok None
            end) as [cteSrc|e]; [|discriminate].
  cbn [rbind] in H. injection H as <-. cbn.
  repeat split. intros from Hfrom Hne. rewrite Hfrom in Hsrc.
  destruct from; [discriminate|]. exact Hsrc.
Qed.

Lemma trueSourceName_nonEmpty (table : TableAst) (columnName : string) :
  Js.nonEmpty columnName = true -> Js.nonEmpty (trueSourceName table columnName) = true.
Proof.
  intros H. unfold trueSourceName.
  destruct (tbl_mvSelect table) as [items|]; [|exact H].
  destruct (recordedAlias _ _) as [[|c r]|]; auto.
Qed.

Lemma resolveFromSourceTable_spec (table src : TableAst) (column : ColumnAst)
    (context : MappingContext) :
  aliasMap context = buildAliasMap table ->
  sourceTable context = Some src ->
  Js.nonEmpty (col_name column) = true ->
  resolveFromSourceTable column context =
    Ok (option_map (fun sc => (col_type sc, col_rawType sc))
                   (sourceColumn src (trueSourceName table (col_name column)))).
Proof.
  intros Halias Hsrc Hname. unfold resolveFromSourceTable. rewrite Hsrc, Halias.
  rewrite buildAliasMap_lookup.
  assert (Hn := trueSourceName_nonEmpty table _ Hname).
  unfold trueSourceName in *.
  destruct (tbl_mvSelect table) as [items|].
  - destruct (recordedAlias _ _) as [[|c r]|];
      rewrite findColumnByName_sourceColumn by assumption; simpl;
      destruct (sourceColumn _ _); reflexivity.
  - rewrite findColumnByName_sourceColumn by assumption; simpl.
    destruct (sourceColumn _ _); reflexivity.
Qed.

(** C1: a column with the placeholder type, in a table with a direct source
    table, takes the type (and raw type) of the source column that the alias
    map and the two-step name lookup designate; Scenario C is an instance. *)
Theorem C1_direct_source_resolution :
  (forall (table src : TableAst) (allTables : list TableAst) (from : string)
          (context : MappingContext) (column sc : ColumnAst),
      tbl_mvFrom table = Some from -> Js.nonEmpty from = true ->
      findTableByName allTables from = Ok (Some src) ->
      createMappingContext table allTables = Ok context ->
      name (col_type column) = "Unknown" ->
      Js.nonEmpty (col_name column) = true ->
      sourceColumn src (trueSourceName table (col_name column)) = Some sc ->
      resolveColumnType column context = Ok (col_type sc, col_rawType sc) /\
      forall options mapped,
        mapSingleColumn column context options = Ok mapped ->
        mc_typeAst mapped = col_type sc /\ mc_chType mapped = Js.trim (col_rawType sc)) /\
  (Index.parse scenarioC = [baseC; mvC] /\
   columnTypes baseC = [("id", UInt64); ("name", StringType); ("ts", DateTime)] /\
   columnTypes mvC = [("id", UnknownType); ("label", UnknownType); ("ts", UnknownType)] /\
   resolvedTypes (Mapping.map [baseC; mvC] defaultOptions) =
     Some [[("id", UInt64); ("name", StringType); ("ts", DateTime)];
           [("id", UInt64); ("label", StringType); ("ts", DateTime)]]).
Proof.
  split.
  - intros table src allTables from context column sc Hfrom Hne Hfind Hctx Hunk Hname Hsc.
    destruct (createMappingContext_inv _ _ _ Hctx) as [Halias [_ [_ Hsrc]]].
    specialize (Hsrc from Hfrom Hne). rewrite Hfind in Hsrc. injection Hsrc as Hsrc.
    symmetry in Hsrc.
    assert (Hres : resolveColumnType column context = Ok (col_type sc, col_rawType sc)).
    { unfold resolveColumnType. rewrite Hunk, String.eqb_refl.
      unfold resolveUnknownType. rewrite Hsrc.
      rewrite (resolveFromSourceTable_spec table src column context Halias Hsrc Hname).
      rewrite Hsc. reflexivity. }
    split; [exact Hres|].
    intros options mapped Hm. unfold mapSingleColumn in Hm.
    apply rbind_inv in Hm. destruct Hm as [resolved [Hr Hm]].
    rewrite Hres in Hr. injection Hr as <-.
    apply rbind_inv in Hm. destruct Hm as [tsType [_ Hm]].
    injection Hm as <-. split; reflexivity.
  - by_evaluation.
Qed.

End DirectSource.

Lemma C1_direct_source_resolution_witness :
  Index.parse scenarioC = [baseC; mvC] /\
  exists context,
    Mapping.createMappingContext mvC [baseC; mvC] = Ok context /\
    Mapping.resolveColumnType (unknownColumn "label") context = Ok (StringType, "String").
Proof.
  split; [vm_compute; reflexivity|].
  eexists. split; [vm_compute; reflexivity|].
  refine (proj1 (proj1 C1_direct_source_resolution mvC baseC [baseC; mvC] "base" _
                       (unknownColumn "label")
                       (mkColumnAst "name" StringType "String" None None)
                       _ _ _ _ _ _ _)); vm_compute; reflexivity.
Defined.


(** ** The placeholder after resolution (C3) *)

Section UnknownAfterResolution.
Import Mapping.

Lemma findColumnByName_inv (src : TableAst) (n : string) (r : option ColumnAst) :
  findColumnByName src n = Ok r -> r = sourceColumn src n.
Proof.
  unfold findColumnByName, sourceColumn, assert.
  destruct (Js.nonEmpty n); cbn [rbind]; [|discriminate].
  destruct (find _ (tbl_columns src)); intros H; injection H as <-; reflexivity.
Qed.

(** What the policy returns, case by case. *)
Lemma policy_some (func : option string) (base : option TypeAst) (t : TypeAst) :
  policyOf func base = Some t ->
  (name t = "Unknown" <->
   exists b, base = Some b /\ name b = "Unknown" /\ passesBase func).
Proof.
  unfold policyOf, passesBase. destruct func as [[|c r]|].
  1,3: intros ->; split;
       [intros H; exists t; split; [reflexivity|]; split; [exact H | exact I]
       |intros [b [Hb [Hn _]]]; injection Hb as ->; exact Hn].
  set (fn := String c r).
  destruct (String.eqb (normalized fn) "tostartofday") eqn:E1.
  { intros H. injection H as <-. apply String.eqb_eq in E1.
    split; [discriminate|]. intros [b [_ [_ [Hne _]]]]. contradiction. }
  destruct (startsWithAny (normalized fn) numericPrefixes) eqn:E2.
  { intros H. injection H as <-.
    split; [discriminate|]. intros [b [_ [_ [_ Hnum]]]]. discriminate. }
  apply String.eqb_neq in E1.
  destruct (startsWithAny (normalized fn) statePreservingPrefixes).
  - destruct base as [b|]; intros H; injection H as <-.
    + split; [intros Hn; exists b; split; [reflexivity|]; split; [exact Hn|];
              split; first [assumption | reflexivity]
             |intros [b' [Hb [Hn _]]]; injection Hb as ->; exact Hn].
    + split; [discriminate|]. intros [b [Hb _]]. discriminate.
  - intros ->. split; [intros Hn; exists t; split; [reflexivity|]; split; [exact Hn|];
                       split; first [assumption | reflexivity]
                      |intros [b [Hb [Hn _]]]; injection Hb as ->; exact Hn].
Qed.

Lemma policy_none (func : option string) (base : option TypeAst) :
  policyOf func base = None ->
  base = None /\ (Js.truthy func = true <-> otherFunction func).
Proof.
  unfold policyOf, otherFunction. destruct func as [[|c r]|].
  1,3: intros ->; split; [reflexivity|]; split;
       [discriminate
       |intros [fn [Hfn [Hne _]]]; try discriminate Hfn;
        injection Hfn as <-; discriminate Hne].
  set (fn := String c r).
  destruct (String.eqb (normalized fn) "tostartofday") eqn:E1; [discriminate|].
  destruct (startsWithAny (normalized fn) numericPrefixes) eqn:E2; [discriminate|].
  destruct (startsWithAny (normalized fn) statePreservingPrefixes) eqn:E3;
    [destruct base; discriminate|].
  intros ->. split; [reflexivity|]. split; [|reflexivity].
  intros _. exists fn. apply String.eqb_neq in E1.
  repeat split; first [assumption | reflexivity].
Qed.

Lemma resolveColumnType_unknown (column : ColumnAst) (context : MappingContext) :
  name (col_type column) = "Unknown" ->
  resolveColumnType column context =
    (let* resolved := resolveUnknownType column context in
     match resolved with
     | Some r => Ok r
     | None => Ok (col_type column, col_rawType column)
     end).
Proof.
  intros H. unfold resolveColumnType. rewrite H, String.eqb_refl. reflexivity.
Qed.

(** C3 (amended): on the named-sub-query path a placeholder column without
    projection record, or without function name and without base type,
    gets the String fallback.  A column ends with the placeholder exactly
    when it carried it and its direct source table lacks the source column
    (or holds it as a placeholder), or, on the named-sub-query path, it has
    a projection record whose base type is the placeholder and is passed on
    by the policy, or whose function name the policy does not know while no
    base type resolves. *)
Theorem C3_unknown_after_resolution (column : ColumnAst) (context : MappingContext)
    (ty : TypeAst) (raw : string) :
  resolveColumnType column context = Ok (ty, raw) ->
  (name (col_type column) = "Unknown" -> sourceTable context = None ->
   (mvInfoMap context !! col_name column = None \/
    exists mvInfo, mvInfoMap context !! col_name column = Some mvInfo /\
                   Js.truthy (fs_func mvInfo) = false /\
                   lookupBaseType mvInfo context = Ok None) ->
   (ty, raw) = (StringType, "String")) /\
  (name ty = "Unknown" <->
   name (col_type column) = "Unknown" /\
   (directUnresolved column context \/ cteUnresolved column context)).
Proof.
  intros Hres. split.
  - intros Hunk Hsrc Hcase.
    rewrite (resolveColumnType_unknown _ _ Hunk) in Hres.
    unfold resolveUnknownType in Hres. rewrite Hsrc in Hres.
    assert (Hcte : resolveFromCTE column context = Ok (Some (StringType, "String"))).
    { unfold resolveFromCTE.
      destruct Hcase as [Hnone | [mvInfo [Hinfo [Hfunc Hbase]]]].
      - rewrite Hnone. reflexivity.
      - rewrite Hinfo, Hbase.
        assert (Hagg : resolveAggReturnType (fs_func mvInfo) None = Ok None).
        { destruct (fs_func mvInfo) as [[|c r]|]; try reflexivity. discriminate. }
        cbn [rbind]. rewrite Hagg. cbn [rbind]. rewrite Hfunc. reflexivity. }
    rewrite Hcte in Hres. cbn [rbind] in Hres. injection Hres as <- <-. reflexivity.
  - destruct (String.eqb (name (col_type column)) "Unknown") eqn:Hunk.
    2:{ unfold resolveColumnType in Hres. rewrite Hunk in Hres.
        injection Hres as <- <-. apply String.eqb_neq in Hunk.
        split; [intros H; contradiction | intros [H _]; contradiction]. }
    apply String.eqb_eq in Hunk.
    rewrite (resolveColumnType_unknown _ _ Hunk) in Hres.
    apply rbind_inv in Hres. destruct Hres as [resolved [Hresolve Hres]].
    unfold resolveUnknownType in Hresolve.
    destruct (sourceTable context) as [src|] eqn:Hsrc.
    + (* the direct source table *)
      unfold resolveFromSourceTable in Hresolve. rewrite Hsrc in Hresolve.
      fold (sourceNameOf context column) in Hresolve.
      apply rbind_inv in Hresolve. destruct Hresolve as [found [Hfind Hresolve]].
      apply findColumnByName_inv in Hfind. subst found.
      assert (Hdirect : directUnresolved column context <->
                match sourceColumn src (sourceNameOf context column) with
                | None => True
                | Some sc => name (col_type sc) = "Unknown"
                end).
      { unfold directUnresolved. rewrite Hsrc. split.
        - intros [src' [Heq H]]. injection Heq as <-. exact H.
        - intros H. exists src. split; [reflexivity|exact H]. }
      assert (Hcte : ~ cteUnresolved column context).
      { intros [Hnone _]. rewrite Hsrc in Hnone. discriminate Hnone. }
      destruct (sourceColumn src (sourceNameOf context column)) as [sc|].
      * injection Hresolve as <-. injection Hres as <- <-. split.
        -- intros H. split; [exact Hunk|]. left. apply Hdirect. exact H.
        -- intros [_ [H | H]]; [apply Hdirect; exact H | contradiction].
      * injection Hresolve as <-. injection Hres as <- <-. split.
        -- intros _. split; [exact Hunk|]. left. apply Hdirect. exact I.
        -- intros _. exact Hunk.
    + (* the named sub-query *)
      assert (Hdirect : ~ directUnresolved column context).
      { intros [src [Heq _]]. rewrite Hsrc in Heq. discriminate Heq. }
      unfold resolveFromCTE in Hresolve.
      destruct (mvInfoMap context !! col_name column) as [mvInfo|] eqn:Hinfo.
      2:{ injection Hresolve as <-. injection Hres as <- <-. split; [discriminate|].
          intros [_ [H | [_ [mvInfo [bt [Hsome _]]]]]]; [contradiction|].
          rewrite Hinfo in Hsome. discriminate Hsome. }
      apply rbind_inv in Hresolve. destruct Hresolve as [bt [Hbase Hresolve]].
      rewrite resolveAgg_policy in Hresolve. cbn [rbind] in Hresolve.
      assert (Hcte : cteUnresolved column context <->
                match bt with
                | Some b => name b = "Unknown" /\ passesBase (fs_func mvInfo)
                | None => otherFunction (fs_func mvInfo)
                end).
      { unfold cteUnresolved. rewrite Hsrc, Hinfo. split.
        - intros [_ [mvInfo' [bt' [Heq [Hbase' H]]]]]. injection Heq as <-.
          rewrite Hbase in Hbase'. injection Hbase' as <-. exact H.
        - intros H. split; [reflexivity|]. exists mvInfo, bt.
          split; [reflexivity|]. split; [exact Hbase|exact H]. }
      destruct (policyOf (fs_func mvInfo) bt) as [t|] eqn:Hpolicy.
      * injection Hresolve as <-. injection Hres as <- <-.
        pose proof (policy_some _ _ _ Hpolicy) as Hsome. split.
        -- intros H. split; [exact Hunk|]. right. apply Hcte.
           apply Hsome in H. destruct H as [b [-> [Hn Hp]]]. split; assumption.
        -- intros [_ [H | H]]; [contradiction|]. apply Hcte in H. apply Hsome.
           destruct bt as [b|].
           ++ destruct H as [Hn Hp]. exists b. repeat split; assumption.
           ++ exfalso. destruct H as [fn [Hfn [Hne [H1 [H2 H3]]]]].
              unfold policyOf in Hpolicy. rewrite Hfn in Hpolicy.
              destruct fn as [|c r]; [discriminate Hne|].
              apply String.eqb_neq in H1. rewrite H1, H2, H3 in Hpolicy.
              discriminate Hpolicy.
      * destruct (policy_none _ _ Hpolicy) as [-> Hother].
        destruct (Js.truthy (fs_func mvInfo)) eqn:Htr.
        -- injection Hresolve as <-. injection Hres as <- <-. split.
           ++ intros _. split; [exact Hunk|]. right. apply Hcte. apply Hother. reflexivity.
           ++ intros _. exact Hunk.
        -- injection Hresolve as <-. injection Hres as <- <-. split; [discriminate|].
           intros [_ [H | H]]; [contradiction|]. apply Hcte in H. apply Hother in H.
           discriminate H.
Qed.

End UnknownAfterResolution.

Lemma C3_unknown_after_resolution_witness :
  Mapping.resolveColumnType (unknownColumn "foo") missingContext = Ok (UnknownType, "Unknown") /\
  name (col_type (unknownColumn "foo")) = "Unknown" /\
  (directUnresolved (unknownColumn "foo") missingContext \/
   cteUnresolved (unknownColumn "foo") missingContext) /\
  Mapping.resolveColumnType (unknownColumn "x") emptyContext = Ok (StringType, "String").
Proof.
  assert (H : Mapping.resolveColumnType (unknownColumn "foo") missingContext =
              Ok (UnknownType, "Unknown")) by reflexivity.
  split; [exact H|].
  destruct (C3_unknown_after_resolution _ _ _ _ H) as [_ [Hkept _]].
  destruct (Hkept eq_refl) as [Hunk Hcase].
  split; [exact Hunk|]. split; [exact Hcase|]. reflexivity.
Defined.

(** C3 as stated fails: the source table [base] has no column [foo], the
    direct-source path has no fallback, and the column of the view keeps the
    placeholder type. *)
Lemma C3_counterexample :
  resolvedTypes (Mapping.map (Index.parse missingColumnDdl) defaultOptions) =
    Some [[("id", UInt64)]; [("foo", UnknownType)]] /\
  name UnknownType = "Unknown".
Proof. by_evaluation. Qed.


(** ** The JSON-Schema document (C7) *)

Section JsonDocument.
Import JsonSchema.

Lemma mapM_validate_names (columns : list MappedColumn) :
  isOk (mapM validateColumnStructure columns) = true ->
  Forall (fun c => Js.nonEmpty (mc_name c) = true) columns.
Proof.
  induction columns as [|c columns IH]; intros H; [constructor|].
  cbn [mapM] in H. unfold validateColumnStructure at 1, assert in H.
  destruct (Js.nonEmpty (mc_name c)) eqn:Hc; [|discriminate].
  cbn [rbind] in H.
  destruct (mapM validateColumnStructure columns) eqn:Hm; [|discriminate].
  constructor; [exact Hc | apply IH; reflexivity].
Qed.

Lemma validate_names_mapM (columns : list MappedColumn) :
  Forall (fun c => Js.nonEmpty (mc_name c) = true) columns ->
  exists us, mapM validateColumnStructure columns = Ok us.
Proof.
  induction 1 as [|c columns Hc _ [us IH]]; [eexists; reflexivity|].
  cbn [mapM]. unfold validateColumnStructure at 1, assert. rewrite Hc. cbn [rbind].
  rewrite IH. eexists. reflexivity.
Qed.

Lemma validateTableStructure_inv (table : MappedTable) :
  validateTableStructure table = Ok tt -> validMappedTable table.
Proof.
  unfold validateTableStructure, validMappedTable, assert. intros H.
  destruct (Js.nonEmpty (interfaceName table)); [|discriminate]. cbn [rbind] in H.
  destruct (Nat.leb (length (mt_columns table)) MAX_COLUMNS) eqn:Hlen; [|discriminate].
  cbn [rbind] in H. apply Nat.leb_le in Hlen.
  split; [reflexivity|]. split; [exact Hlen|].
  apply mapM_validate_names.
  destruct (mapM validateColumnStructure (mt_columns table)); [reflexivity|discriminate].
Qed.



Lemma columnProperties_loop_ok (columns : list MappedColumn) :
  Forall (fun c => isOk (jsonSchemaForType (mc_typeAst c) (mc_tsType c)) = true) columns ->
  forall properties, exists properties',
    columnProperties_loop columns properties = Ok properties'.
Proof.
  induction 1 as [|c columns Hc _ IH]; intros properties; [eexists; reflexivity|].
  cbn [columnProperties_loop]. destruct (Js.nonEmpty (mc_name c)); [|apply IH].
  destruct (jsonSchemaForType (mc_typeAst c) (mc_tsType c)); [|discriminate].
  cbn [rbind]. apply IH.
Qed.

End JsonDocument.

(** ** Nullability in the two rendered forms (C6) *)

Section Nullability.
Import Mapping JsonSchema.

Lemma append_cons (c : ascii) (a b : string) : String c a +:+ b = String c (a +:+ b).
Proof. reflexivity. Qed.

Lemma append_nil (b : string) : EmptyString +:+ b = b.
Proof. reflexivity. Qed.

Lemma lastChar_cons (c : ascii) (s : string) :
  Js.nonEmpty s = true -> Js.lastChar (String c s) = Js.lastChar s.
Proof. destruct s; [discriminate | reflexivity]. Qed.

Lemma nonEmpty_append (a b : string) :
  Js.nonEmpty b = true -> Js.nonEmpty (a +:+ b) = true.
Proof. intros Hb. destruct a; [exact Hb | reflexivity]. Qed.

Lemma lastChar_append (a b : string) :
  Js.nonEmpty b = true -> Js.lastChar (a +:+ b) = Js.lastChar b.
Proof.
  intros Hb. induction a as [|c a IH]; [reflexivity|].
  rewrite append_cons, lastChar_cons by (apply nonEmpty_append; exact Hb).
  exact IH.
Qed.

Lemma endsWith_unfold (s p : string) :
  Js.endsWith s p =
    (String.eqb s p ||
     match s with
     | EmptyString => false
     | String _ s' => Js.endsWith s' p
     end).
Proof. destruct s; reflexivity. Qed.

Lemma endsWith_lastChar (s p : string) :
  Js.endsWith s p = true -> Js.nonEmpty p = true -> Js.lastChar s = Js.lastChar p.
Proof.
  intros H Hp. induction s as [|c s IH]; rewrite endsWith_unfold in H;
    apply orb_prop in H; destruct H as [H|H].
  - apply String.eqb_eq in H. subst p. discriminate.
  - discriminate.
  - apply String.eqb_eq in H. subst p. reflexivity.
  - specialize (IH H). rewrite lastChar_cons; [exact IH|].
    destruct s; [|reflexivity].
    rewrite endsWith_unfold in H. rewrite orb_false_r in H.
    apply String.eqb_eq in H. subst p. discriminate.
Qed.

Lemma endsWith_append (a p : string) : Js.endsWith (a +:+ p) p = true.
Proof.
  induction a as [|c a IH]; rewrite endsWith_unfold.
  - rewrite append_nil, String.eqb_refl. reflexivity.
  - rewrite append_cons, IH. apply orb_true_r.
Qed.

(** A text that does not end in [l] is not a union with null. *)
Lemma not_nullable_by_last (s : string) (c : ascii) :
  Js.lastChar s = Some c -> c <> "l"%char -> isNullableTs s = false.
Proof.
  intros Hlast Hc. unfold isNullableTs.
  destruct (Js.endsWith s " | null") eqn:E; [|reflexivity].
  apply endsWith_lastChar in E; [|reflexivity].
  rewrite Hlast in E. cbn in E. congruence.
Qed.

Lemma join_last (sep : string) (parts : list string) (c : ascii) :
  parts <> [] ->
  Forall (fun p => Js.lastChar p = Some c) parts ->
  Js.lastChar (Js.join sep parts) = Some c.
Proof.
  intros Hne Hall. induction Hall as [|p parts Hp Hall IH]; [congruence|].
  destruct parts as [|p' parts]; [exact Hp|].
  change (Js.join sep (p :: p' :: parts)) with (p +:+ sep +:+ Js.join sep (p' :: parts)).
  assert (Hrest : Js.lastChar (Js.join sep (p' :: parts)) = Some c) by (apply IH; congruence).
  assert (Hn : Js.nonEmpty (Js.join sep (p' :: parts)) = true)
    by (destruct (Js.join sep (p' :: parts)); [discriminate | reflexivity]).
  rewrite lastChar_append by (apply nonEmpty_append; exact Hn).
  rewrite lastChar_append by exact Hn. exact Hrest.
Qed.

Lemma join_quoted_last (keys : list string) :
  keys <> [] ->
  Js.lastChar (Js.join " | " (List.map (fun key => "'" +:+ escapeStringLiteral key +:+ "'") keys))
  = Some "'"%char.
Proof.
  intros Hne. apply join_last.
  - destruct keys; [congruence | discriminate].
  - apply List.Forall_forall. intros p Hp. apply in_map_iff in Hp.
    destruct Hp as [k [<- _]].
    rewrite lastChar_append by (apply nonEmpty_append; reflexivity).
    apply lastChar_append. reflexivity.
Qed.

Lemma mapEnumType_not_nullable (t : TypeAst) : isNullableTs (mapEnumType t) = false.
Proof.
  unfold mapEnumType. destruct (extractEnumKeys (args t)) as [|k keys] eqn:E; [reflexivity|].
  apply (not_nullable_by_last _ "'"%char); [|discriminate].
  apply join_quoted_last. discriminate.
Qed.

Lemma tupleProperties_ok (selfTs : TypeAst -> result string) (selfJs : TypeAst -> result Json)
    (l : list TypeArg) :
  (forall t ts, selfTs t = Ok ts -> exists js, selfJs t = Ok js) ->
  forall i parts, tupleParts selfTs i l = Ok parts ->
  forall properties, exists properties', tupleProperties selfJs i l properties = Ok properties'.
Proof.
  intros Hself. induction l as [|a l IH]; intros i parts Hparts properties;
    [eexists; reflexivity|].
  cbn [tupleParts tupleProperties] in *.
  destruct (selfTs (toTypeOrUnknown (Some a))) as [ts|] eqn:Hts; [|discriminate].
  cbn [rbind] in Hparts.
  destruct (Hself _ _ Hts) as [js ->]. cbn [rbind].
  destruct (tupleParts selfTs (S i) l) as [ps|] eqn:Hps; [|discriminate].
  eapply IH. exact Hps.
Qed.

Lemma isAnyOfNull_anyOf (js : Json) :
  isAnyOfNull (JObject [("anyOf", JArray [js; nullSchema])]) = true.
Proof.
  change (isAnyOfNull (JObject [("anyOf", JArray [js; nullSchema])]))
    with (isNullSchema js || true).
  apply orb_true_r.
Qed.

Lemma validateTypeAst_input (t : TypeAst) (u : unit) :
  validateTypeAst t = Ok u -> validateTypeInput t = Ok tt.
Proof.
  unfold validateTypeAst, validateTypeInput, assert.
  destruct (Js.nonEmpty (name t)); [reflexivity | discriminate].
Qed.

Variable options : MappingOptions.
Hypothesis no_plugins : plugins options = None.

Lemma tryPluginMapping_none (t : TypeAst) : tryPluginMapping t options = None.
Proof. unfold tryPluginMapping. rewrite no_plugins. reflexivity. Qed.

(** Where the type mapping succeeds, the schema generation succeeds too,
    and the two agree on nullability. *)
Lemma nullability_rec (fuel : nat) :
  forall (t : TypeAst) (d : nat) (tsType resolvedTs : string),
    mapTypeAstToTs_rec fuel t options d = Ok tsType ->
    exists schema,
      jsonSchemaForType_rec fuel t resolvedTs d = Ok schema /\
      isNullableTs tsType = isAnyOfNull schema.
Proof.
  induction fuel as [|fuel IH]; intros t d tsType resolvedTs Hts; [discriminate|].
  cbn [mapTypeAstToTs_rec] in Hts. cbn [jsonSchemaForType_rec].
  change MAX_SCHEMA_DEPTH with MAX_TYPE_DEPTH.
  destruct (Nat.ltb MAX_TYPE_DEPTH d); [discriminate|].
  apply rbind_inv in Hts. destruct Hts as [u [Hv Hts]].
  apply rbind_inv in Hts. destruct Hts as [u' [_ Hts]].
  rewrite tryPluginMapping_none in Hts.
  rewrite (validateTypeAst_input t u Hv). cbn [rbind].
  destruct (typeKind (name t)).
  - (* Nullable *)
    apply rbind_inv in Hts. destruct Hts as [inner [Hin Hts]]. injection Hts as <-.
    destruct (IH _ _ _ resolvedTs Hin) as [js [-> _]]. cbn [rbind].
    eexists. split; [reflexivity|].
    unfold isNullableTs. rewrite endsWith_append, isAnyOfNull_anyOf. reflexivity.
  - (* LowCardinality *)
    apply IH. exact Hts.
  - (* Array *)
    apply rbind_inv in Hts. destruct Hts as [inner [Hin Hts]]. injection Hts as <-.
    destruct (IH _ _ _ resolvedTs Hin) as [js [-> _]]. cbn [rbind].
    eexists. split; [reflexivity|].
    rewrite (not_nullable_by_last _ "]"%char); [reflexivity| |discriminate].
    rewrite lastChar_append; reflexivity.
  - (* Tuple *)
    apply rbind_inv in Hts. destruct Hts as [parts [Hparts Hts]]. injection Hts as <-.
    change JsonSchema.MAX_TUPLE_ELEMENTS with Mapping.MAX_TUPLE_ELEMENTS.
    destruct (tupleProperties_ok _
                (fun t0 => jsonSchemaForType_rec fuel t0 resolvedTs (d + 1)) _
                (fun t0 ts H => match IH t0 (d + 1) ts resolvedTs H with
                                | ex_intro _ js (conj Hjs _) => ex_intro _ js Hjs
                                end)
                0 parts Hparts []) as [props ->].
    cbn [rbind]. eexists. split; [reflexivity|].
    rewrite (not_nullable_by_last _ "}"%char); [reflexivity| |discriminate].
    rewrite lastChar_append by (apply nonEmpty_append; reflexivity).
    rewrite lastChar_append; reflexivity.
  - (* Map *)
    apply rbind_inv in Hts. destruct Hts as [inner [Hin Hts]]. injection Hts as <-.
    destruct (IH _ _ _ resolvedTs Hin) as [js [-> _]]. cbn [rbind].
    eexists. split; [reflexivity|].
    rewrite (not_nullable_by_last _ ">"%char); [reflexivity| |discriminate].
    rewrite lastChar_append by (apply nonEmpty_append; reflexivity).
    rewrite lastChar_append; reflexivity.
  - (* Enum *)
    injection Hts as <-. eexists. split; [reflexivity|].
    rewrite mapEnumType_not_nullable. unfold mapEnumSchema.
    destruct (extractEnumKeysForSchema (args t)); reflexivity.
  - injection Hts as <-. eexists. split; [reflexivity|].
    unfold mapDecimalType. destruct (String.eqb _ _); reflexivity.
  - injection Hts as <-. eexists. split; reflexivity.
  - injection Hts as <-. eexists. split; [reflexivity|].
    unfold mapBigIntType, mapBigIntSchema.
    destruct (String.eqb _ _); destruct (containsWord _ _ _); reflexivity.
  - injection Hts as <-. eexists. split; reflexivity.
  - injection Hts as <-. eexists. split; [reflexivity|].
    unfold mapDateTimeType, mapDateTimeSchema.
    destruct (String.eqb _ _); destruct (containsWord _ _ _); reflexivity.
  - unfold handleUnknownType in Hts. destruct (failOnUnknown options); [discriminate|].
    injection Hts as <-. eexists. split; reflexivity.
Qed.

Lemma mapTypeAstToTs_nullability (t : TypeAst) (tsType : string) :
  mapTypeAstToTs t options = Ok tsType ->
  exists schema,
    jsonSchemaForType t tsType = Ok schema /\
    isNullableTs tsType = isAnyOfNull schema.
Proof. apply nullability_rec. Qed.

End Nullability.

(** ** The columns [map] produces *)

Lemma mapM_Forall2 {A B} (f : A -> result B) (l : list A) (ys : list B) :
  mapM f l = Ok ys -> Forall2 (fun x y => f x = Ok y) l ys.
Proof.
  revert ys. induction l as [|x l IH]; intros ys H.
  - injection H as <-. constructor.
  - cbn [mapM] in H. apply rbind_inv in H. destruct H as [y [Hy H]].
    apply rbind_inv in H. destruct H as [ys' [Hys H]]. injection H as <-.
    constructor; [exact Hy | apply IH; exact Hys].
Qed.

Lemma In_take {A} (n : nat) (l : list A) (x : A) : In x (firstn n l) -> In x l.
Proof.
  revert l. induction n as [|n IH]; intros l H; [destruct H|].
  destruct l as [|y l]; [destruct H|]. cbn [firstn In] in H |- *.
  destruct H as [H | H]; [left; exact H|right; exact (IH l H)].
Qed.

Lemma Forall2_In_r {A B} (R : A -> B -> Prop) (l : list A) (ys : list B) (y : B) :
  Forall2 R l ys -> In y ys -> exists x, In x l /\ R x y.
Proof.
  induction 1 as [|x y' l ys Hxy _ IH]; intros Hin; [destruct Hin|].
  destruct Hin as [<-|Hin].
  - exists x. split; [left; reflexivity | exact Hxy].
  - destruct (IH Hin) as [x' [Hx' Hr]]. exists x'. split; [right; exact Hx' | exact Hr].
Qed.

Lemma camelReplace_nonEmpty (s pending : string) :
  Js.nonEmpty pending = true \/ Js.nonEmpty s = true ->
  Js.nonEmpty (camelReplace pending s) = true.
Proof.
  revert pending. induction s as [|c s IH]; intros pending H.
  - destruct H as [H|H]; [exact H | discriminate].
  - cbn [camelReplace]. destruct (isSeparator c).
    + apply IH. left. apply nonEmpty_append. reflexivity.
    + destruct (Js.nonEmpty pending && Js.isAlnum c); [reflexivity|].
      apply nonEmpty_append. reflexivity.
Qed.

Lemma toCamelCase_nonEmpty (s : string) :
  Js.nonEmpty s = true -> Js.nonEmpty (toCamelCase s) = true.
Proof.
  intros H. unfold toCamelCase.
  assert (Hc := camelReplace_nonEmpty s EmptyString (or_intror H)).
  destruct (camelReplace EmptyString s) as [|c r]; [discriminate|].
  cbn [lowerFirstUpper]. destruct (Js.isUpper c); reflexivity.
Qed.

(** Every column of a [map] result carries the mapping of its own
    resolved type, under a non-empty name. *)
Lemma map_columns (tables : list TableAst) (options : MappingOptions)
    (mapped : list MappedTable) :
  Mapping.map tables options = Ok mapped ->
  forall table, In table mapped ->
  forall column, In column (mt_columns table) ->
    Mapping.mapTypeAstToTs (mc_typeAst column) options = Ok (mc_tsType column) /\
    Js.nonEmpty (mc_name column) = true.
Proof.
  intros Hmap table Htable column Hcolumn. unfold Mapping.map in Hmap.
  apply rbind_inv in Hmap. destruct Hmap as [u [_ Hmap]].
  apply rbind_inv in Hmap. destruct Hmap as [u' [_ Hmap]].
  apply mapM_Forall2 in Hmap.
  destruct (Forall2_In_r _ _ _ _ Hmap Htable) as [ast [_ Hast]].
  unfold Mapping.mapSingleTable in Hast.
  apply rbind_inv in Hast. destruct Hast as [context [_ Hast]].
  apply rbind_inv in Hast. destruct Hast as [columns [Hcolumns Hast]].
  injection Hast as <-. cbn [mt_columns] in Hcolumn.
  unfold Mapping.mapTableColumns in Hcolumns. apply mapM_Forall2 in Hcolumns.
  destruct (Forall2_In_r _ _ _ _ Hcolumns Hcolumn) as [c [_ Hc]].
  apply rbind_inv in Hc. destruct Hc as [u'' [Hvalid Hc]].
  unfold Mapping.mapSingleColumn in Hc.
  apply rbind_inv in Hc. destruct Hc as [resolved [_ Hc]].
  apply rbind_inv in Hc. destruct Hc as [tsType [Hts Hc]].
  injection Hc as <-. cbn [mc_typeAst mc_tsType mc_name].
  split; [exact Hts|].
  unfold Mapping.validateColumn, assert in Hvalid.
  destruct (Js.nonEmpty (col_name c)) eqn:Hn; [|discriminate].
  destruct (camelCase options); [apply toCamelCase_nonEmpty|]; exact Hn.
Qed.

(** ** The properties of the schema document *)

Section Properties.
Import JsonSchema.




(** [__proto__] is never a property of the object. *)
Lemma setProperty_proto (v : Json) (fields : list (string * Json)) :
  setProperty "__proto__" v fields = fields.
Proof. reflexivity. Qed.







End Properties.




(** ** The statement splitter and filter (C8, C5) *)

Section Statements.
Import Index.

Lemma append_assoc (a b c : string) : (a +:+ b) +:+ c = a +:+ (b +:+ c).
Proof.
  induction a as [|x a IH]; [reflexivity|].
  rewrite !append_cons, IH. reflexivity.
Qed.

(** *** [trim] *)

Lemma trimEnd_cons (c : ascii) (s : string) :
  Js.trimEnd (String c s) =
    match Js.trimEnd s with
    | EmptyString => if Js.isSpace c then EmptyString else String c EmptyString
    | t => String c t
    end.
Proof. reflexivity. Qed.

Lemma trimEnd_idempotent (s : string) : Js.trimEnd (Js.trimEnd s) = Js.trimEnd s.
Proof.
  induction s as [|c s IH]; [reflexivity|].
  rewrite trimEnd_cons. destruct (Js.trimEnd s) as [|d r] eqn:E.
  - destruct (Js.isSpace c) eqn:Hc; [reflexivity|].
    rewrite trimEnd_cons. cbn [Js.trimEnd]. rewrite Hc. reflexivity.
  - rewrite trimEnd_cons, IH. reflexivity.
Qed.

Lemma trimStart_startsClean (s : string) : startsClean (Js.trimStart s).
Proof.
  induction s as [|c s IH]; [exact I|].
  cbn [Js.trimStart]. destruct (Js.isSpace c) eqn:Hc; [exact IH | exact Hc].
Qed.

Lemma trimStart_clean (s : string) : startsClean s -> Js.trimStart s = s.
Proof. destruct s as [|c s]; [reflexivity|]. cbn. intros ->. reflexivity. Qed.

Lemma trimEnd_startsClean (s : string) : startsClean s -> startsClean (Js.trimEnd s).
Proof.
  destruct s as [|c s]; [intros _; exact I|]. cbn [startsClean]. intros Hc.
  rewrite trimEnd_cons. destruct (Js.trimEnd s); [rewrite Hc|]; exact Hc.
Qed.

Lemma trim_idempotent (s : string) : Js.trim (Js.trim s) = Js.trim s.
Proof.
  unfold Js.trim.
  rewrite (trimStart_clean (Js.trimEnd (Js.trimStart s)))
    by (apply trimEnd_startsClean, trimStart_startsClean).
  apply trimEnd_idempotent.
Qed.

Lemma trim_after_space (c : ascii) (s : string) :
  Js.isSpace c = true -> Js.trim (String c s) = Js.trim s.
Proof. intros Hc. unfold Js.trim. cbn [Js.trimStart]. rewrite Hc. reflexivity. Qed.

(** *** The terminator *)

Lemma hasChar_trimStart (ch : ascii) (s : string) :
  hasChar ch s = false -> hasChar ch (Js.trimStart s) = false.
Proof.
  induction s as [|c s IH]; [reflexivity|]. intros H.
  cbn [Js.trimStart]. destruct (Js.isSpace c); [|exact H].
  cbn [hasChar] in H. apply orb_false_elim in H. apply IH. apply H.
Qed.

Lemma hasChar_trimEnd (ch : ascii) (s : string) :
  hasChar ch s = false -> hasChar ch (Js.trimEnd s) = false.
Proof.
  induction s as [|c s IH]; [reflexivity|]. intros H.
  cbn [hasChar] in H. apply orb_false_elim in H. destruct H as [Hc Hs].
  rewrite trimEnd_cons. specialize (IH Hs).
  destruct (Js.trimEnd s) as [|d r].
  - destruct (Js.isSpace c); [reflexivity|]. cbn [hasChar]. rewrite Hc. reflexivity.
  - cbn [hasChar] in *. rewrite Hc. exact IH.
Qed.

Lemma hasChar_trim (ch : ascii) (s : string) :
  hasChar ch s = false -> hasChar ch (Js.trim s) = false.
Proof. intros H. apply hasChar_trimEnd, hasChar_trimStart, H. Qed.

Lemma split_cons (sep c : ascii) (s : string) :
  Js.split sep (String c s) =
    if Ascii.eqb c sep then EmptyString :: Js.split sep s
    else match Js.split sep s with
         | h :: t => String c h :: t
         | [] => [String c EmptyString]
         end.
Proof. reflexivity. Qed.

Lemma split_parts (sep : ascii) (s : string) :
  Forall (fun p => hasChar sep p = false) (Js.split sep s).
Proof.
  induction s as [|c s IH]; [repeat constructor|].
  rewrite split_cons. destruct (Ascii.eqb c sep) eqn:Hc.
  - constructor; [reflexivity | exact IH].
  - destruct (Js.split sep s) as [|h t]; [repeat constructor; cbn; rewrite Hc; reflexivity|].
    inversion IH as [|? ? Hh Ht]; subst. constructor; [|exact Ht].
    cbn [hasChar]. rewrite Hc. exact Hh.
Qed.

Lemma split_append (sep : ascii) (a b : string) :
  hasChar sep a = false ->
  Js.split sep (a +:+ String sep b) = a :: Js.split sep b.
Proof.
  induction a as [|c a IH]; intros Ha.
  - rewrite append_nil, split_cons, Ascii.eqb_refl. reflexivity.
  - cbn [hasChar] in Ha. apply orb_false_elim in Ha. destruct Ha as [Hc Ha].
    rewrite append_cons, split_cons, Hc, (IH Ha). reflexivity.
Qed.

(** *** Statements *)

Lemma statementsOf_clean (input : string) : Forall cleanStatement (statementsOf input).
Proof.
  unfold statementsOf. apply List.Forall_forall. intros s Hs.
  apply filter_In in Hs. destruct Hs as [Hin Hne].
  apply in_map_iff in Hin. destruct Hin as [p [<- Hp]].
  split; [exact Hne|]. split; [apply trim_idempotent|].
  apply hasChar_trim.
  exact (proj1 (List.Forall_forall _ _) (split_parts ";" input) p Hp).
Qed.

(** The text [filterStatements] builds from the kept statements splits
    back into these statements (and a final empty segment). *)
Lemma split_joined (kept : list string) :
  kept <> [] -> Forall cleanStatement kept ->
  List.map Js.trim (Js.split ";" (Js.join separator kept +:+ ";")) = (kept ++ [EmptyString])%list.
Proof.
  intros Hne Hall. induction Hall as [|k kept [_ [Htrim Hsemi]] Hall IH]; [congruence|].
  destruct kept as [|k' kept].
  - cbn [Js.join]. rewrite (split_append ";" k EmptyString Hsemi).
    cbn [List.map Js.split app]. rewrite Htrim. reflexivity.
  - change (Js.join separator (k :: k' :: kept))
      with (k +:+ separator +:+ Js.join separator (k' :: kept)).
    unfold separator at 1. rewrite !append_assoc.
    change (";" +:+ newline +:+ Js.join separator (k' :: kept) +:+ ";")
      with (String ";" (String (ascii_of_nat 10)
                               (Js.join separator (k' :: kept) +:+ ";"))).
    rewrite (split_append ";" k _ Hsemi). rewrite split_cons.
    change (Ascii.eqb (ascii_of_nat 10) ";") with false. cbv iota.
    specialize (IH ltac:(congruence)).
    destruct (Js.split ";" (Js.join separator (k' :: kept) +:+ ";")) as [|h t];
      [discriminate IH|].
    cbn [List.map] in *. rewrite Htrim.
    rewrite (trim_after_space (ascii_of_nat 10) h eq_refl). rewrite IH. reflexivity.
Qed.

Lemma filter_nonEmpty_clean (kept : list string) :
  Forall cleanStatement kept ->
  List.filter Js.nonEmpty (kept ++ [EmptyString])%list = kept.
Proof.
  induction 1 as [|k kept [Hne _] _ IH]; [reflexivity|].
  cbn [app List.filter]. rewrite Hne, IH. reflexivity.
Qed.

Lemma filter_In_Forall {A} (P : A -> Prop) (f : A -> bool) (l : list A) :
  Forall P l -> Forall P (List.filter f l).
Proof.
  induction 1 as [|x l Hx _ IH]; [constructor|].
  cbn [List.filter]. destruct (f x); [constructor; assumption | exact IH].
Qed.

Lemma filter_idempotent {A} (f : A -> bool) (l : list A) :
  List.filter f (List.filter f l) = List.filter f l.
Proof.
  induction l as [|x l IH]; [reflexivity|].
  cbn [List.filter]. destruct (f x) eqn:E; [|exact IH].
  cbn [List.filter]. rewrite E, IH. reflexivity.
Qed.

(** The statements of the filtered text are the kept statements of the
    input. *)
Lemma statementsOf_filterStatements (input : string) :
  statementsOf (filterStatements input) = keptStatements input.
Proof.
  unfold filterStatements. fold (keptStatements input).
  assert (Hclean : Forall cleanStatement (keptStatements input))
    by (apply filter_In_Forall, statementsOf_clean).
  destruct (keptStatements input) as [|k kept] eqn:E; [reflexivity|].
  unfold statementsOf. fold separator.
  rewrite split_joined by (congruence || exact Hclean).
  apply filter_nonEmpty_clean. exact Hclean.
Qed.

Lemma filterStatements_idempotent (input : string) :
  filterStatements (filterStatements input) = filterStatements input.
Proof.
  unfold filterStatements at 1. rewrite statementsOf_filterStatements.
  unfold keptStatements. rewrite filter_idempotent. reflexivity.
Qed.

(** C8: the split-and-filter pass is idempotent, so that a second
    application leaves the statement set, and the parsed tables, unchanged. *)
Theorem C8_filter_idempotent (input : string) :
  filterStatements (filterStatements input) = filterStatements input /\
  splitStatements (filterStatements (filterStatements input)) =
    splitStatements (filterStatements input) /\
  (forall _parse, parseWith _parse (filterStatements input) = parseWith _parse input) /\
  parse (filterStatements input) = parse input.
Proof.
  assert (H := filterStatements_idempotent input).
  split; [exact H|]. split; [rewrite H; reflexivity|].
  split; [intros _parse|]; unfold parse, parseWith; rewrite H; reflexivity.
Qed.

Lemma parseStatements_flat (_parse : string -> result (list TableAst)) (parts : list string) :
  parseStatements _parse parts = flat_map (tablesOrNone _parse) parts.
Proof.
  induction parts as [|stmt parts IH]; [reflexivity|].
  cbn [parseStatements flat_map]. unfold tablesOrNone at 1.
  destruct (_parse stmt); rewrite IH; reflexivity.
Qed.

(** C5: [parse] hands the kept statements, re-terminated, to the parser one
    by one, and returns the tables of those that parse, in order; a
    statement whose parse fails contributes nothing and stops nothing; with
    no kept statement the result is empty. *)
Theorem C5_parse_skips_failures (ddl : string) :
  (forall _parse,
     parseWith _parse ddl =
       flat_map (fun s => tablesOrNone _parse (s +:+ ";")) (keptStatements ddl)) /\
  parse ddl = flat_map (fun s => tablesOrNone Parser.parse (s +:+ ";")) (keptStatements ddl) /\
  (keptStatements ddl = [] -> parse ddl = []) /\
  (forall _parse before stmt after e,
     keptStatements ddl = (before ++ stmt :: after)%list ->
     _parse (stmt +:+ ";") = Err e ->
     parseWith _parse ddl =
       (flat_map (fun s => tablesOrNone _parse (s +:+ ";")) before ++
        flat_map (fun s => tablesOrNone _parse (s +:+ ";")) after)%list).
Proof.
  assert (Hgen : forall _parse,
             parseWith _parse ddl =
               flat_map (fun s => tablesOrNone _parse (s +:+ ";")) (keptStatements ddl)).
  { intros _parse. unfold parseWith, splitStatements.
    rewrite statementsOf_filterStatements, parseStatements_flat.
    induction (keptStatements ddl) as [|s l IH]; [reflexivity|].
    cbn [List.map flat_map]. rewrite IH. reflexivity. }
  split; [exact Hgen|]. split; [apply Hgen|].
  split.
  - intros Hnone. unfold parse. rewrite Hgen, Hnone. reflexivity.
  - intros _parse before stmt after e Hkept Hfail.
    rewrite Hgen, Hkept, flat_map_app. cbn [flat_map].
    unfold tablesOrNone at 2. rewrite Hfail. reflexivity.
Qed.

End Statements.

Lemma C5_parse_skips_failures_witness :
  keptStatements threeStatements =
    ["CREATE TABLE a (x String)"; throwingStatement; "CREATE TABLE b (y Int8)"] /\
  Parser.parse (throwingStatement +:+ ";") = Err LexingFailed /\
  Index.parseWith Parser.parse threeStatements =
    (flat_map (fun s => tablesOrNone Parser.parse (s +:+ ";")) ["CREATE TABLE a (x String)"] ++
     flat_map (fun s => tablesOrNone Parser.parse (s +:+ ";")) ["CREATE TABLE b (y Int8)"])%list /\
  List.map tbl_name (Index.parse threeStatements) = ["a"; "b"].
Proof.
  split; [vm_compute; reflexivity|].
  split; [vm_compute; reflexivity|].
  split; [|vm_compute; reflexivity].
  apply (proj2 (proj2 (proj2 (C5_parse_skips_failures threeStatements)))
           Parser.parse ["CREATE TABLE a (x String)"] throwingStatement
           ["CREATE TABLE b (y Int8)"] LexingFailed);
    vm_compute; reflexivity.
Defined.

(* ================================================================== *)
(** * The lexer and its catch-all *)
(* ================================================================== *)

Lemma rbind_inv_err {A B} (r : result A) (k : A -> result B) (e : error) :
  rbind r k = Err e -> r = Err e \/ exists a, r = Ok a /\ k a = Err e.
Proof.
  destruct r as [a|e']; cbn [rbind]; intros H.
  - right. exists a. split; [reflexivity|exact H].
  - left. injection H as ->. reflexivity.
Qed.

Section Lexing.
Import Tokens.

Lemma firstMatch_In (ty : TokenType) (types : list TokenType) (prev : option ascii)
    (s : string) (n : nat) :
  In ty types -> matchToken ty prev s = Some n ->
  exists found, firstMatch types prev s = Some found.
Proof.
  induction types as [|ty' types IH]; intros Hin Hm; [destruct Hin|].
  cbn [firstMatch]. destruct (matchToken ty' prev s) as [len|] eqn:E.
  - eexists. reflexivity.
  - destruct Hin as [->|Hin]; [congruence|]. apply IH; assumption.
Qed.

Lemma firstMatch_None (types : list TokenType) (prev : option ascii) (s : string) :
  (forall ty, In ty types -> matchToken ty prev s = None) ->
  firstMatch types prev s = None.
Proof.
  induction types as [|ty types IH]; intros H; [reflexivity|].
  cbn [firstMatch]. rewrite (H ty (or_introl eq_refl)).
  apply IH. intros ty' Hin. apply H. right. exact Hin.
Qed.

(** A character outside the gap starts a token: white space, or else at
    least the catch-all. *)
Lemma gapFree_matches (c : ascii) (s : string) (prev : option ascii) :
  lexerGap c = false -> exists found, firstMatch allTokens prev (String c s) = Some found.
Proof.
  intros Hgap. unfold lexerGap in Hgap.
  destruct (Js.isSpace c) eqn:Hs.
  - destruct (isLexerSpace c) eqn:Hl; [|discriminate].
    apply (firstMatch_In WhiteSpace) with (n := S (spanLen isLexerSpace s)).
    + cbn. tauto.
    + cbn [matchToken]. unfold matchWhiteSpace. cbn [spanLen]. rewrite Hl. reflexivity.
  - apply (firstMatch_In Unknown) with (n := 1).
    + cbn. tauto.
    + cbn [matchToken matchUnknown]. rewrite Hs. reflexivity.
Qed.

Lemma errors_addToken (t : IToken) (r : LexResult) : errors (addToken t r) = errors r.
Proof. reflexivity. Qed.

Lemma lexFrom_gapFree (s : string) :
  gapFree s = true ->
  forall prev offset skip inError, errors (lexFrom s prev offset skip inError) = [].
Proof.
  induction s as [|c s IH]; intros Hfree prev offset skip inError; [reflexivity|].
  unfold gapFree in Hfree. cbn [allChars] in Hfree.
  apply andb_prop in Hfree. destruct Hfree as [Hc Hs].
  apply negb_true_iff in Hc.
  cbn [lexFrom]. destruct skip as [|skip]; [|apply IH; exact Hs].
  destruct (gapFree_matches c s prev Hc) as [[ty len] ->].
  destruct (skipped ty); [|rewrite errors_addToken]; apply IH; exact Hs.
Qed.

Lemma lexerGap_cases (c : ascii) :
  lexerGap c = true -> c = ascii_of_nat 11 \/ c = ascii_of_nat 160.
Proof.
  destruct c as [[] [] [] [] [] [] [] []]; intros H;
    solve [discriminate H | left; reflexivity | right; reflexivity].
Qed.

(** No pattern of the lexer matches at a character of the gap. *)
Lemma gap_matches_nothing (c : ascii) (s : string) (prev : option ascii) :
  lexerGap c = true -> firstMatch allTokens prev (String c s) = None.
Proof.
  intros Hgap. apply firstMatch_None. intros ty _.
  destruct (lexerGap_cases c Hgap) as [-> | ->];
    destruct ty; destruct prev as [p|]; destruct s;
    cbn; try destruct (Js.isWord p); reflexivity.
Qed.

Lemma lexFrom_gap (c : ascii) (s : string) (prev : option ascii) (offset : nat) :
  lexerGap c = true ->
  lexFrom (String c s) prev offset 0 false =
    addError (mkLexError offset) (lexFrom s (Some c) (S offset) 0 true).
Proof.
  intros Hgap. cbn [lexFrom]. rewrite (gap_matches_nothing c s prev Hgap). reflexivity.
Qed.

Lemma parse_loop_error (fuel tableCount : nat) (st : Parser.ParserState) (e : error) :
  Parser.parse_loop fuel tableCount st = Err e -> e = OutOfFuel.
Proof.
  revert tableCount st. induction fuel as [|fuel IH]; intros tableCount st H.
  - cbn in H. congruence.
  - cbn [Parser.parse_loop] in H.
    destruct (negb (Parser.isAtEnd st) && Nat.ltb tableCount 50); [|discriminate].
    destruct (negb (Parser.isAtEnd _)); [|discriminate].
    destruct (Parser.createTable _) as [[table|e'] st2].
    + destruct (Parser.parse_loop fuel (S tableCount) st2) eqn:E; [discriminate|].
      cbn [rbind] in H. injection H as <-. apply (IH _ _ E).
    + apply (IH _ _ H).
Qed.

(** C9: tokenization does record lexing errors.  A text free of the
    characters that [\s] takes for white space and [WhiteSpace] does not
    (the vertical tab, the no-break space) lexes without error; at such a
    character no pattern matches, the lexer records an error, and the parser
    throws its Lexing failed error, so that the top-level [parse] loses the
    statement. *)
Theorem C9_lexing_fails_in_the_gap :
  (forall s, gapFree s = true ->
     errors (tokenize s) = [] /\ Parser.parse s <> Err LexingFailed) /\
  (forall c s prev offset, lexerGap c = true ->
     lexFrom (String c s) prev offset 0 false =
       addError (mkLexError offset) (lexFrom s (Some c) (S offset) 0 true)) /\
  (forall c s, lexerGap c = true ->
     errors (tokenize (String c s)) <> [] /\ Parser.parse (String c s) = Err LexingFailed) /\
  lexerGap (ascii_of_nat 11) = true /\
  lexerGap (ascii_of_nat 160) = true /\
  errors (tokenize throwingStatement) = [mkLexError 14] /\
  Parser.parse throwingStatement = Err LexingFailed /\
  Index.parse throwingStatement = [] /\
  List.map tbl_name (Index.parse blankStatement) = ["t"].
Proof.
  split.
  { intros s Hfree.
    assert (Hnone : errors (tokenize s) = []) by (apply lexFrom_gapFree; exact Hfree).
    split; [exact Hnone|].
    unfold Parser.parse. rewrite Hnone. intros H.
    apply rbind_inv_err in H. destruct H as [H | [state [_ H]]].
    - unfold Parser.createParserState in H. apply rbind_inv_err in H.
      destruct H as [H | [u [_ H]]]; [|discriminate].
      unfold assert in H. destruct (N.leb _ _); discriminate.
    - apply parse_loop_error in H. discriminate. }
  split; [intros c s prev offset Hgap; apply lexFrom_gap; exact Hgap|].
  split.
  { intros c s Hgap.
    assert (Hsome : errors (tokenize (String c s)) <> []).
    { unfold tokenize. rewrite (lexFrom_gap c s None 0 Hgap). discriminate. }
    split; [exact Hsome|].
    unfold Parser.parse. destruct (errors (tokenize (String c s))); [congruence|reflexivity]. }
  by_evaluation.
Qed.

End Lexing.

Lemma C9_lexing_fails_in_the_gap_witness :
  lexerGap (ascii_of_nat 11) = true /\
  gapFree blankStatement = true /\
  Tokens.errors (Tokens.tokenize blankStatement) = [] /\
  Tokens.errors (Tokens.tokenize (verticalTab +:+ blankStatement)) <> [] /\
  Parser.parse (verticalTab +:+ blankStatement) = Err LexingFailed.
Proof.
  split; [reflexivity|]. split; [reflexivity|].
  split; [apply (proj1 C9_lexing_fails_in_the_gap blankStatement); reflexivity|].
  apply (proj1 (proj2 (proj2 C9_lexing_fails_in_the_gap)) (ascii_of_nat 11) blankStatement).
  reflexivity.
Defined.

(* ================================================================== *)
(** * Qualified names *)
(* ================================================================== *)

Section QualifiedNames.
Import Tokens Parser.

Lemma bind_ok {A B} (p : Parser A) (k : A -> Parser B) (st st1 : ParserState) (a : A) :
  p st = (Ok a, st1) -> bind p k st = k a st1.
Proof. intros H. unfold bind. rewrite H. reflexivity. Qed.

Lemma bind_inv {A B} (p : Parser A) (k : A -> Parser B) (st st' : ParserState) (b : B) :
  bind p k st = (Ok b, st') ->
  exists a st1, p st = (Ok a, st1) /\ k a st1 = (Ok b, st').
Proof.
  unfold bind. destruct (p st) as [[a|e] st1]; intros H; [|discriminate].
  exists a, st1. split; [reflexivity|exact H].
Qed.

Lemma ret_inv {A} (a b : A) (st st' : ParserState) :
  ret a st = (Ok b, st') -> a = b /\ st = st'.
Proof. unfold ret. intros H. injection H as -> ->. split; reflexivity. Qed.












End QualifiedNames.



(* ================================================================== *)
(** * The loops of the parser are bounded by the tokens they read *)
(* ================================================================== *)

Section Bounds.
Import Tokens Parser.

Lemma tameAt_bind {A B} (p : Parser A) (k : A -> Parser B) (st : ParserState) :
  tameAt p st ->
  (forall a st1, p st = (Ok a, st1) -> size st1 <= size st -> tameAt (k a) st1) ->
  tameAt (bind p k) st.
Proof.
  unfold tameAt, bind. intros [Hs Hf] Hk.
  destruct (p st) as [[a|e] st1] eqn:E; cbn [fst snd] in *.
  - destruct (Hk a st1 eq_refl Hs) as [Hs' Hf']. split; [lia|exact Hf'].
  - split; [exact Hs|]. intros H. apply Hf. injection H as ->. reflexivity.
Qed.

Lemma tame_bind {A B} (p : Parser A) (k : A -> Parser B) :
  tame p -> (forall a, tame (k a)) -> tame (bind p k).
Proof. intros Hp Hk st. apply tameAt_bind; [apply Hp|]. intros a st1 _ _. apply Hk. Qed.

Lemma tame_ret {A} (a : A) : tame (ret a).
Proof. intros st. split; [apply le_n|discriminate]. Qed.

Lemma tame_parseError {A} (msg : string) : tame (@parseError A msg).
Proof. intros st. split; [apply le_n|discriminate]. Qed.

Lemma tame_if {A} (b : bool) (p q : Parser A) : tame p -> tame q -> tame (if b then p else q).
Proof. destruct b; auto. Qed.

Lemma size_advance (st : ParserState) : size (advance st) <= size st.
Proof. unfold size, advance. cbn [rest]. destruct (rest st); cbn; lia. Qed.

Lemma size_advance_cons (st : ParserState) (t : IToken) (r : list IToken) :
  rest st = t :: r -> size (advance st) < size st.
Proof. unfold size, advance. cbn [rest]. intros ->. cbn. lia. Qed.

Lemma tame_tryMatch (ty : TokenType) : tame (tryMatch ty).
Proof.
  intros st. unfold tameAt, tryMatch.
  destruct (rest st) as [|t r] eqn:E; [split; [apply le_n|discriminate]|].
  destruct (isType ty t); cbn [fst snd]; (split; [|discriminate]);
    [apply size_advance|apply le_n].
Qed.

Lemma tame_consumeToken (ty : TokenType) (expected : string) : tame (consumeToken ty expected).
Proof.
  intros st. unfold tameAt, consumeToken.
  destruct (rest st) as [|t r] eqn:E; [split; [apply le_n|discriminate]|].
  destruct (isType ty t); cbn [fst snd]; (split; [|discriminate]);
    [apply size_advance|apply le_n].
Qed.

Lemma consuming_consumeToken (ty : TokenType) (expected : string) :
  consuming (consumeToken ty expected).
Proof.
  intros st a st'. unfold consumeToken.
  destruct (rest st) as [|t r] eqn:E; [discriminate|].
  destruct (isType ty t); [|discriminate].
  intros H. injection H as _ <-. apply (size_advance_cons st t r E).
Qed.

Lemma tame_skipIf (ty : TokenType) : tame (skipIf ty).
Proof.
  intros st. unfold tameAt, skipIf.
  destruct (peekType st 0) as [ty'|]; [|split; [apply le_n|discriminate]].
  destruct (tokenTypeEqb ty' ty); cbn [fst snd]; (split; [|discriminate]);
    [apply size_advance|apply le_n].
Qed.

Lemma consuming_bind_l {A B} (p : Parser A) (k : A -> Parser B) :
  consuming p -> (forall a, tame (k a)) -> consuming (bind p k).
Proof.
  intros Hp Hk st b st'. unfold bind.
  destruct (p st) as [[a|e] st1] eqn:E; [|discriminate].
  intros H. specialize (Hp st a st1 E). destruct (Hk a st1) as [Hs _].
  rewrite H in Hs. cbn [snd] in Hs. lia.
Qed.

Lemma consuming_bind_r {A B} (p : Parser A) (k : A -> Parser B) :
  tame p -> (forall a, consuming (k a)) -> consuming (bind p k).
Proof.
  intros Hp Hk st b st'. unfold bind.
  destruct (p st) as [[a|e] st1] eqn:E; [|discriminate].
  intros H. specialize (Hk a st1 b st' H). destruct (Hp st) as [Hs _].
  rewrite E in Hs. cbn [snd] in Hs. lia.
Qed.

(** ** The token-skipping loops *)

Lemma bounded_le {A} (x : result A * ParserState) (n m : nat) :
  bounded x n -> n <= m -> bounded x m.
Proof. intros [Hs Hf] Hle. split; [lia|exact Hf]. Qed.

Lemma bounded_ok {A} (a : A) (r : list IToken) (pos n : nat) :
  length r <= n -> bounded (Ok a, mkState r pos) n.
Proof. intros H. split; [exact H|discriminate]. Qed.

Lemma bounded_parseError {A} (msg : string) (p : nat) (r : list IToken) (pos n : nat) :
  length r <= n -> bounded (@Err A (ParseError msg p), mkState r pos) n.
Proof. intros H. split; [exact H|discriminate]. Qed.

Lemma bounded_map {A B} (x : result A * ParserState) (f : A -> B) (n : nat) :
  bounded x n ->
  bounded (match x with
           | (Ok a, st') => (Ok (f a), st')
           | (Err e, st') => (Err e, st')
           end) n.
Proof.
  destruct x as [[a|e] st']; intros [Hs Hf]; cbn [fst snd] in *.
  - split; [exact Hs|discriminate].
  - split; [exact Hs|]. intros H. apply Hf. injection H as ->. reflexivity.
Qed.

Ltac bounded_leaf :=
  first [ apply bounded_ok; cbn [length]; lia
        | apply bounded_parseError; cbn [length]; lia ].

Ltac bounded_loop IH :=
  repeat match goal with
         | |- bounded (if ?b then _ else _) _ => destruct b
         end;
  first [ bounded_leaf
        | eapply bounded_le; [apply IH|cbn [length]; lia]
        | eapply bounded_le; [apply bounded_map, IH|cbn [length]; lia] ].

Lemma skipToToken_loop_bounded (target : TokenType) (startPos : nat) (r : list IToken) (pos : nat) :
  bounded (skipToToken_loop target startPos r pos) (length r).
Proof.
  revert pos. induction r as [|t r IH]; intros pos; cbn [skipToToken_loop];
    bounded_loop IH.
Qed.

Lemma skipBalanced_loop_bounded (limit : nat) (msg : string) (startPos depth : nat)
    (r : list IToken) (pos : nat) :
  bounded (skipBalanced_loop limit msg startPos depth r pos) (length r).
Proof.
  revert depth pos. induction r as [|t r IH]; intros depth pos;
    destruct depth as [|d]; cbn [skipBalanced_loop]; bounded_loop IH.
Qed.

Lemma captureExpression_loop_bounded (stoppers : list TokenType) (startPos : nat)
    (r : list IToken) (pos : nat) :
  bounded (captureExpression_loop stoppers startPos r pos) (length r).
Proof.
  revert pos. induction r as [|t r IH]; intros pos; cbn [captureExpression_loop];
    bounded_loop IH.
Qed.

Lemma skipWith_loop_bounded (startPos depth : nat) (r : list IToken) (pos : nat) :
  bounded (skipWith_loop startPos depth r pos) (length r).
Proof.
  revert depth pos. induction r as [|t r IH]; intros depth pos; cbn [skipWith_loop];
    bounded_loop IH.
Qed.

Lemma skipToColumnName_loop_bounded (startPos : nat) (r : list IToken) (pos : nat) :
  bounded (skipToColumnName_loop startPos r pos) (length r).
Proof.
  revert pos. induction r as [|t r IH]; intros pos; cbn [skipToColumnName_loop];
    bounded_loop IH.
Qed.

Lemma default_loop_bounded (startPos : nat) (r : list IToken) (pos : nat) :
  bounded (default_loop startPos r pos) (length r).
Proof.
  revert pos. induction r as [|t r IH]; intros pos; cbn [default_loop];
    bounded_loop IH.
Qed.

Lemma codec_loop_bounded (startPos : nat) (r : list IToken) (pos : nat) :
  bounded (codec_loop startPos r pos) (length r).
Proof.
  revert pos. induction r as [|t r IH]; intros pos; cbn [codec_loop];
    bounded_loop IH.
Qed.

Lemma firstFunctionArg_loop_bounded (n : nat) :
  forall (startPos depth : nat) (srcName : option string) (r : list IToken) (pos : nat),
    length r <= n ->
    bounded (firstFunctionArg_loop startPos depth srcName r pos) (length r).
Proof.
  induction n as [|n IH]; intros startPos depth srcName r pos Hn.
  - destruct r; [|cbn in Hn; lia]. destruct depth; cbn [firstFunctionArg_loop]; bounded_leaf.
  - destruct depth as [|d]; [cbn [firstFunctionArg_loop]; destruct r; bounded_leaf|].
    destruct r as [|t r]; [cbn [firstFunctionArg_loop]; bounded_leaf|].
    cbn [length] in Hn. cbn [firstFunctionArg_loop].
    destruct (isType LParen t); [eapply bounded_le; [apply IH; lia|cbn [length]; lia]|].
    destruct (isType RParen t); [eapply bounded_le; [apply IH; lia|cbn [length]; lia]|].
    destruct (isType Identifier t).
    + destruct r as [|t1 r1]; [eapply bounded_le; [apply IH; lia|cbn [length]; lia]|].
      destruct (isType LParen t1); [eapply bounded_le; [apply IH; lia|cbn [length]; lia]|].
      destruct (isType Dot t1); [|eapply bounded_le; [apply IH; lia|cbn [length]; lia]].
      destruct r1 as [|t2 r2]; [bounded_leaf|].
      destruct (isType Identifier t2); [|bounded_leaf].
      cbn [length] in Hn. eapply bounded_le; [apply IH; lia|cbn [length]; lia].
    + destruct (Nat.ltb _ _); [bounded_leaf|].
      eapply bounded_le; [apply IH; lia|cbn [length]; lia].
Qed.

(** ** The parsing actions *)

Create HintDb tame.

#[local] Hint Resolve tame_ret tame_parseError tame_tryMatch tame_consumeToken tame_skipIf : tame.

Ltac tame_auto :=
  repeat first
    [ progress cbv beta zeta
    | solve [auto with tame]
    | match goal with
      | |- tame (bind _ _) => apply tame_bind; [|intros ?]
      | |- tame (if ?b then _ else _) => destruct b
      | |- tame (match ?x with _ => _ end) => destruct x
      end ].

Lemma tame_loop {A} (p : Parser A) :
  (forall st, bounded (p st) (size st)) -> tame p.
Proof. intros H st. apply H. Qed.

Lemma tame_skipToToken (target : TokenType) : tame (skipToToken target).
Proof. apply tame_loop. intros st. apply skipToToken_loop_bounded. Qed.

Lemma tame_skipBalancedParens : tame skipBalancedParens.
Proof. apply tame_loop. intros st. apply skipBalanced_loop_bounded. Qed.

Lemma tame_skipWithNamedExpressions : tame skipWithNamedExpressions.
Proof. apply tame_loop. intros st. apply skipWith_loop_bounded. Qed.

Lemma tame_skipToColumnName : tame skipToColumnName.
Proof. apply tame_loop. intros st. apply skipToColumnName_loop_bounded. Qed.

Lemma tame_parseFirstFunctionArg : tame parseFirstFunctionArg.
Proof.
  apply tame_loop. intros st.
  apply (firstFunctionArg_loop_bounded (length (rest st))). apply le_n.
Qed.

Lemma tame_captureExpressionUntil (stoppers : list TokenType) :
  tame (captureExpressionUntil stoppers).
Proof.
  apply tame_loop. intros st. unfold captureExpressionUntil.
  apply bounded_map, captureExpression_loop_bounded.
Qed.

#[local] Hint Resolve tame_skipToToken tame_skipBalancedParens tame_skipWithNamedExpressions
  tame_skipToColumnName tame_parseFirstFunctionArg tame_captureExpressionUntil : tame.

Lemma tame_parseQualifiedName : tame parseQualifiedName.
Proof. unfold parseQualifiedName. tame_auto. Qed.

Lemma tame_parseTableType : tame parseTableType.
Proof. unfold parseTableType. tame_auto. Qed.

Lemma tame_parseOptionalIfNotExists : tame parseOptionalIfNotExists.
Proof. unfold parseOptionalIfNotExists. tame_auto. Qed.

Lemma tame_engineName :
  tame (fun st => match peekType st 0 with
                  | Some Identifier =>
                      bind (consumeToken Identifier "engine") (fun _ => ret tt) st
                  | _ => ret tt st
                  end).
Proof.
  intros st. unfold tameAt.
  destruct (peekType st 0) as [ty|]; [|apply (tame_ret tt)].
  destruct ty; first [apply (tame_ret tt st) | idtac].
  apply (tame_bind (consumeToken Identifier "engine") (fun _ => ret tt)); auto with tame.
Qed.

#[local] Hint Resolve tame_parseQualifiedName tame_parseTableType
  tame_parseOptionalIfNotExists tame_engineName : tame.

Lemma tame_parseOptionalEngine : tame parseOptionalEngine.
Proof. unfold parseOptionalEngine. tame_auto. Qed.

Lemma tame_parseOptionalPartitionBy : tame parseOptionalPartitionBy.
Proof. unfold parseOptionalPartitionBy. tame_auto. Qed.

Lemma tame_parseOptionalOrderBy : tame parseOptionalOrderBy.
Proof. unfold parseOptionalOrderBy. tame_auto. Qed.

Lemma tame_parseSelectItem : tame parseSelectItem.
Proof. unfold parseSelectItem. tame_auto. Qed.

Lemma consuming_parseSelectItem : consuming parseSelectItem.
Proof.
  unfold parseSelectItem. apply consuming_bind_l; [apply consuming_consumeToken|].
  intros id1. tame_auto.
Qed.

#[local] Hint Resolve tame_parseOptionalEngine tame_parseOptionalPartitionBy
  tame_parseOptionalOrderBy tame_parseSelectItem : tame.

Lemma bounded_here {A} (a : A) (st : ParserState) : bounded (Ok a, st) (size st).
Proof. split; [apply le_n|discriminate]. Qed.

Lemma parseSelectList_loop_bounded (fuel : nat) :
  forall (itemCount : nat) (st : ParserState),
    size st < fuel -> bounded (parseSelectList_loop fuel itemCount st) (size st).
Proof.
  induction fuel as [|fuel IH]; intros itemCount st Hfuel; [lia|].
  cbn [parseSelectList_loop].
  destruct (Nat.ltb itemCount 100); [|apply bounded_here].
  destruct (rest st) as [|t r] eqn:E; [apply bounded_here|].
  pose proof (size_advance_cons st t r E) as Hadv.
  destruct (isType From t); [apply bounded_here|].
  destruct (isType Comma t); [eapply bounded_le; [apply IH|]; lia|].
  destruct (isType Identifier t); [|eapply bounded_le; [apply IH|]; lia].
  apply tameAt_bind; [apply tame_parseSelectItem|].
  intros item st1 Hitem _. apply consuming_parseSelectItem in Hitem.
  apply tameAt_bind; [apply IH; lia|].
  intros items st2 _ _. apply tame_ret.
Qed.

Lemma tame_parseSelectList : tame parseSelectList.
Proof.
  intros st. apply parseSelectList_loop_bounded. unfold size. lia.
Qed.

Lemma tame_cteBody :
  tame (fun st => skipBalanced_loop 5000 "CTE content parsing limit exceeded"
                                    (position st) 1 (rest st) (position st)).
Proof. apply tame_loop. intros st. apply skipBalanced_loop_bounded. Qed.

#[local] Hint Resolve tame_parseSelectList tame_cteBody : tame.

Lemma tame_parseCTEBlockOnly : tame parseCTEBlockOnly.
Proof. unfold parseCTEBlockOnly. tame_auto. Qed.

Lemma tame_parseWithClause : tame parseWithClause.
Proof.
  intros st. unfold tameAt, parseWithClause.
  destruct (peekIs With 0 st); [|apply bounded_here].
  cbv zeta. pose proof (size_advance st) as Hadv.
  destruct (_ && _).
  - eapply bounded_le; [|exact Hadv].
    apply (tame_bind parseCTEBlockOnly (fun cte => ret (Some cte)));
      [apply tame_parseCTEBlockOnly|intros cte; apply tame_ret].
  - eapply bounded_le; [|exact Hadv].
    apply (tame_bind skipWithNamedExpressions (fun _ => ret None));
      [apply tame_skipWithNamedExpressions|intros u; apply tame_ret].
Qed.

Lemma tame_parseFromClause : tame parseFromClause.
Proof. unfold parseFromClause. tame_auto. Qed.

Lemma tame_toSelect :
  tame (fun st => if peekIs Select 0 st then (Ok tt, st) else skipToToken Select st).
Proof.
  intros st. unfold tameAt. destruct (peekIs Select 0 st); [apply bounded_here|].
  apply tame_skipToToken.
Qed.

#[local] Hint Resolve tame_parseCTEBlockOnly tame_parseWithClause tame_parseFromClause
  tame_toSelect : tame.

Lemma tame_parseMaterializedViewBody (n : string) (partitionBy orderBy : option string) :
  tame (parseMaterializedViewBody n partitionBy orderBy).
Proof. unfold parseMaterializedViewBody. tame_auto. Qed.

Lemma tame_parseOptionalComment : tame parseOptionalComment.
Proof. unfold parseOptionalComment. tame_auto. Qed.

Lemma tame_defaultParts :
  tame (fun st => default_loop (position st) (rest st) (position st)).
Proof. apply tame_loop. intros st. apply default_loop_bounded. Qed.

Lemma tame_codecBody :
  tame (fun st => codec_loop (position st) (rest st) (position st)).
Proof. apply tame_loop. intros st. apply codec_loop_bounded. Qed.

#[local] Hint Resolve tame_parseMaterializedViewBody tame_parseOptionalComment
  tame_defaultParts tame_codecBody : tame.

Lemma tame_parseOptionalDefault : tame parseOptionalDefault.
Proof. unfold parseOptionalDefault. tame_auto. Qed.

Lemma tame_parseOptionalCodec : tame parseOptionalCodec.
Proof. unfold parseOptionalCodec. tame_auto. Qed.

#[local] Hint Resolve tame_parseOptionalDefault tame_parseOptionalCodec : tame.

(** ** Type expressions *)

Lemma consumingAt_bind_l {A B} (p : Parser A) (k : A -> Parser B) (st : ParserState) :
  consumingAt p st ->
  (forall a st1, p st = (Ok a, st1) -> tameAt (k a) st1) ->
  consumingAt (bind p k) st.
Proof.
  intros Hp Hk b st'. unfold bind.
  destruct (p st) as [[a|e] st1] eqn:E; [|discriminate].
  intros H. specialize (Hp a st1 E). destruct (Hk a st1 eq_refl) as [Hs _].
  rewrite H in Hs. cbn [snd] in Hs. lia.
Qed.

Lemma parseTypeArg_with_bounded (p : Parser TypeAst) (st : ParserState) :
  tameAt p st -> consumingAt p st ->
  tameAt (parseTypeArg_with p) st /\ consumingAt (parseTypeArg_with p) st.
Proof.
  intros Htame Hcons. unfold tameAt, consumingAt, parseTypeArg_with.
  destruct (rest st) as [|t r] eqn:E.
  { split; [split; [apply le_n|discriminate]|discriminate]. }
  destruct (isType Identifier t).
  { split.
    - apply tameAt_bind; [exact Htame|]. intros ty st1 _ _. apply tame_ret.
    - apply (consumingAt_bind_l p (fun ty => ret (ArgType ty))); [exact Hcons|].
      intros ty st1 _. apply tame_ret. }
  destruct (isType StringLiteral t).
  { split.
    - apply (tame_bind (consumeToken StringLiteral "string")); [auto with tame|].
      intros k. tame_auto.
    - apply (consuming_bind_l (consumeToken StringLiteral "string"));
        [apply consuming_consumeToken|]. intros k. tame_auto. }
  destruct (isType Integer t).
  { split.
    - apply (tame_bind (consumeToken Integer "integer")); [auto with tame|].
      intros v. tame_auto.
    - apply (consuming_bind_l (consumeToken Integer "integer"));
        [apply consuming_consumeToken|]. intros v. tame_auto. }
  split.
  - split; [apply size_advance|discriminate].
  - intros a st' H. injection H as _ <-. apply (size_advance_cons st t r E).
Qed.

Lemma typeExpr_bounded (fuel : nat) :
  (forall st, 2 * size st + 1 <= fuel ->
     tameAt (parseTypeExpr_rec fuel) st /\ consumingAt (parseTypeExpr_rec fuel) st) /\
  (forall st, 2 * size st + 2 <= fuel ->
     tameAt (parseTypeArgs_rec fuel) st /\ consumingAt (parseTypeArgs_rec fuel) st).
Proof.
  induction fuel as [|fuel [IHexpr IHargs]]; [split; intros st H; lia|].
  split; intros st Hfuel.
  - cbn [parseTypeExpr_rec].
    assert (Hrest : forall id st1,
               consumeToken Identifier "type identifier" st = (Ok id, st1) ->
               tameAt (do* lp <- tryMatch LParen ;;
                       if lp then
                         do* rp <- tryMatch RParen ;;
                         if rp then ret (mkTypeAst (canonicalTypeName (image id)) [])
                         else
                           do* args <- parseTypeArgs_rec fuel ;;
                           run* consumeToken RParen ")" ;;
                           ret (mkTypeAst (canonicalTypeName (image id)) args)
                       else ret (mkTypeAst (canonicalTypeName (image id)) [])) st1).
    { intros id st1 Hid. apply consuming_consumeToken in Hid.
      apply tameAt_bind; [apply tame_tryMatch|]. intros lp st2 _ Hst2.
      destruct lp; [|apply tame_ret].
      apply tameAt_bind; [apply tame_tryMatch|]. intros rp st3 _ Hst3.
      destruct rp; [apply tame_ret|].
      apply tameAt_bind; [apply IHargs; lia|]. intros args st4 _ _.
      apply tame_bind; [auto with tame|]. intros u. apply tame_ret. }
    split.
    + apply tameAt_bind; [apply tame_consumeToken|].
      intros id st1 Hid _. apply (Hrest id st1 Hid).
    + apply consumingAt_bind_l; [apply consuming_consumeToken|]. exact Hrest.
  - cbn [parseTypeArgs_rec].
    destruct (parseTypeArg_with_bounded (parseTypeExpr_rec fuel) st) as [Htame Hcons];
      [apply IHexpr; lia|apply IHexpr; lia|].
    assert (Hrest : forall arg st1,
               parseTypeArg_with (parseTypeExpr_rec fuel) st = (Ok arg, st1) ->
               tameAt (do* more <- tryMatch Comma ;;
                       if more then
                         do* args <- parseTypeArgs_rec fuel ;;
                         ret (arg :: args)
                       else ret [arg]) st1).
    { intros arg st1 Harg. apply Hcons in Harg.
      apply tameAt_bind; [apply tame_tryMatch|]. intros more st2 _ Hst2.
      destruct more; [|apply tame_ret].
      apply tameAt_bind; [apply IHargs; lia|]. intros args st3 _ _. apply tame_ret. }
    split.
    + apply tameAt_bind; [exact Htame|]. intros arg st1 Harg _. apply (Hrest arg st1 Harg).
    + apply consumingAt_bind_l; [exact Hcons|]. exact Hrest.
Qed.

Lemma tame_parseTypeExpr : tame parseTypeExpr.
Proof. intros st. apply typeExpr_bounded. unfold size. lia. Qed.

#[local] Hint Resolve tame_parseTypeExpr : tame.

(** ** Columns and statements *)

Lemma tame_columnRest (nameTok : IToken) :
  tame (fun typeStart =>
          (do* type <- parseTypeExpr ;;
           fun typeEnd =>
             (do* comment <- parseOptionalComment ;;
              do* defaultValue <- parseOptionalDefault ;;
              run* parseOptionalCodec ;;
              let rawType :=
                Js.join "" (List.map image
                              (firstn (position typeEnd - position typeStart)
                                      (rest typeStart))) in
              ret (mkColumnAst (image nameTok) type rawType comment defaultValue)) typeEnd)
            typeStart).
Proof.
  intros typeStart. unfold tameAt. cbv beta.
  apply tameAt_bind; [apply tame_parseTypeExpr|].
  intros type typeEnd _ _. unfold tameAt. cbv beta.
  apply tameAt_bind; [apply tame_parseOptionalComment|]. intros comment st1 _ _.
  apply tameAt_bind; [apply tame_parseOptionalDefault|]. intros defaultValue st2 _ _.
  apply tameAt_bind; [apply tame_parseOptionalCodec|]. intros u st3 _ _.
  apply tame_ret.
Qed.

#[local] Hint Resolve tame_columnRest : tame.

Lemma tame_parseColumnDef : tame parseColumnDef.
Proof.
  unfold parseColumnDef.
  apply tame_bind; [auto with tame|]. intros u.
  apply tame_bind; [auto with tame|]. intros nameTok. apply tame_columnRest.
Qed.

Lemma consuming_parseColumnDef : consuming parseColumnDef.
Proof.
  unfold parseColumnDef.
  apply consuming_bind_r; [auto with tame|]. intros u.
  apply consuming_bind_l; [apply consuming_consumeToken|].
  intros nameTok. apply tame_columnRest.
Qed.

Lemma parseColumns_loop_bounded (fuel : nat) :
  forall st, size st < fuel -> tameAt (parseColumns_loop fuel) st.
Proof.
  induction fuel as [|fuel IH]; intros st Hfuel; [lia|].
  cbn [parseColumns_loop].
  apply tameAt_bind; [apply tame_parseColumnDef|].
  intros column st1 Hcolumn _. apply consuming_parseColumnDef in Hcolumn.
  apply tameAt_bind; [apply tame_tryMatch|]. intros more st2 _ Hst2.
  destruct more; [|apply tame_ret].
  apply tameAt_bind; [apply IH; lia|]. intros columns st3 _ _. apply tame_ret.
Qed.

Lemma tame_columns :
  tame (fun st => parseColumns_loop (S (length (rest st))) st).
Proof. intros st. apply parseColumns_loop_bounded. unfold size. lia. Qed.

#[local] Hint Resolve tame_columns : tame.

Lemma tame_parseOptionalColumns : tame parseOptionalColumns.
Proof. unfold parseOptionalColumns. tame_auto. Qed.

#[local] Hint Resolve tame_parseOptionalColumns : tame.

Lemma tame_createTable : tame createTable.
Proof. unfold createTable. tame_auto. Qed.

(** At a CREATE token, [createTable] reads that token at least, whether it
    succeeds or throws. *)
Lemma createTable_progress (st : ParserState) (t : IToken) (r : list IToken) :
  rest st = t :: r -> isType Create t = true ->
  size (snd (createTable st)) < size st /\ fst (createTable st) <> Err OutOfFuel.
Proof.
  intros Hrest Hcreate.
  pose proof (size_advance_cons st t r Hrest) as Hadv.
  assert (Hcons : consumeToken Create "CREATE" st = (Ok t, advance st)).
  { unfold consumeToken. rewrite Hrest, Hcreate. reflexivity. }
  unfold createTable. rewrite (bind_ok _ _ _ _ _ Hcons).
  match goal with
  | |- size (snd (?k ?s)) < _ /\ _ =>
      assert (Htame : tame k) by tame_auto; destruct (Htame s) as [Hs Hf]
  end.
  split; [lia|exact Hf].
Qed.

Lemma skipToCreate_spec (r : list IToken) (pos : nat) :
  size (skipToCreate r pos) <= length r /\
  match rest (skipToCreate r pos) with
  | [] => True
  | t :: _ => isType Create t = true
  end.
Proof.
  revert pos. induction r as [|t r IH]; intros pos; cbn [skipToCreate].
  - split; [apply le_n|exact I].
  - destruct (isType Create t) eqn:E.
    + split; [apply le_n|]. cbn [rest]. exact E.
    + destruct (IH (S pos)) as [Hs Hc]. split; [cbn [length]; lia|exact Hc].
Qed.

(** With more fuel than tokens the loop of [parse] comes to its end. *)
Lemma parse_loop_total (fuel : nat) :
  forall (tableCount : nat) (st : ParserState),
    size st < fuel -> exists tables, parse_loop fuel tableCount st = Ok tables.
Proof.
  induction fuel as [|fuel IH]; intros tableCount st Hfuel; [lia|].
  cbn [parse_loop].
  destruct (negb (isAtEnd st) && Nat.ltb tableCount 50); [|exists []; reflexivity].
  destruct (skipToCreate_spec (rest st) (position st)) as [Hskip Hcreate].
  set (st1 := skipToCreate (rest st) (position st)) in *.
  unfold isAtEnd at 1.
  destruct (rest st1) as [|t r] eqn:Hrest; [exists []; reflexivity|].
  cbn [negb].
  destruct (createTable_progress st1 t r Hrest Hcreate) as [Hs _].
  destruct (createTable st1) as [[table|e] st2]; cbn [snd] in Hs.
  - destruct (IH (S tableCount) st2) as [tables ->]; [fold (size st) in Hskip; lia|].
    exists (table :: tables). reflexivity.
  - destruct (skipToCreate_spec (rest st2) (position st2)) as [Hskip2 _].
    apply IH. fold (size st2) in Hskip2. fold (size st) in Hskip. lia.
Qed.

(** [parse] of parser.ts throws on a lexing error and on more than 10000
    tokens, and returns its tables otherwise. *)
Lemma parse_total (ddl : string) :
  errors (tokenize ddl) = [] ->
  N.leb (N.of_nat (length (tokens (tokenize ddl)))) 10000 = true ->
  exists tables, Parser.parse ddl = Ok tables.
Proof.
  intros Herrors Hcount. unfold Parser.parse, createParserState, assert.
  rewrite Herrors, Hcount. cbn [rbind].
  apply parse_loop_total. unfold size. cbn [rest]. lia.
Qed.

End Bounds.

(* ================================================================== *)
(** * What the parser of parser.ts returns and throws *)
(* ================================================================== *)

Section ParseOutcome.
Import Tokens Parser.

Lemma parse_loop_count (fuel : nat) :
  forall (tableCount : nat) (st : ParserState) (tables : list TableAst),
    parse_loop fuel tableCount st = Ok tables ->
    tableCount + length tables <= Nat.max tableCount 50.
Proof.
  induction fuel as [|fuel IH]; intros tableCount st tables H; [discriminate|].
  cbn [parse_loop] in H.
  destruct (negb (isAtEnd st)); cbn [andb] in H;
    [|injection H as <-; cbn [length]; lia].
  destruct (Nat.ltb tableCount 50) eqn:Hcount;
    [|injection H as <-; cbn [length]; lia].
  apply Nat.ltb_lt in Hcount.
  destruct (negb (isAtEnd _)); [|injection H as <-; cbn [length]; lia].
  destruct (createTable _) as [[table|e] st2].
  - apply rbind_inv in H. destruct H as [rest [Hrest H]]. injection H as <-.
    apply IH in Hrest. cbn [length]. lia.
  - apply IH in H. lia.
Qed.

(** X1: [parse] of parser.ts throws in two cases only: its Lexing failed
    error when the lexer reports an error, and the failed assertion on the
    token count when the text has more than 10000 tokens.  In every other
    case it returns: a statement it cannot parse is skipped, none of its
    loops runs away, and at most 50 tables come back. *)
Theorem X1_parse_outcome (ddl : string) :
  (errors (tokenize ddl) <> [] -> Parser.parse ddl = Err LexingFailed) /\
  (errors (tokenize ddl) = [] ->
   N.leb (N.of_nat (length (tokens (tokenize ddl)))) 10000 = false ->
   Parser.parse ddl = Err (AssertionFailed "Token count exceeds safety limit")) /\
  (errors (tokenize ddl) = [] ->
   N.leb (N.of_nat (length (tokens (tokenize ddl)))) 10000 = true ->
   exists tables, Parser.parse ddl = Ok tables /\ length tables <= 50).
Proof.
  split; [|split].
  - intros Herrors. unfold Parser.parse.
    destruct (errors (tokenize ddl)); [congruence|reflexivity].
  - intros Herrors Hcount. unfold Parser.parse, createParserState, assert.
    rewrite Herrors, Hcount. reflexivity.
  - intros Herrors Hcount.
    destruct (parse_total ddl Herrors Hcount) as [tables Htables].
    exists tables. split; [exact Htables|].
    unfold Parser.parse, createParserState, assert in Htables.
    rewrite Herrors, Hcount in Htables. cbn [rbind] in Htables.
    apply parse_loop_count in Htables. cbn in Htables. lia.
Qed.

End ParseOutcome.

Lemma X1_parse_outcome_witness :
  Tokens.errors (Tokens.tokenize blankStatement) = [] /\
  exists tables, Parser.parse blankStatement = Ok tables /\ length tables <= 50.
Proof.
  split; [reflexivity|].
  apply (proj2 (proj2 (X1_parse_outcome blankStatement))); reflexivity.
Defined.

(* ================================================================== *)
(** * The statements index.ts hands to the parser *)
(* ================================================================== *)

Section ParserInput.
Import Index.

(** X2: the statements that [parse] of index.ts hands to the parser are,
    in the order of the input, the trimmed and non-empty pieces of the input
    between semicolons that pass the test of the filter, each followed by
    one semicolon: splitting the text the filter has joined gives back
    exactly the statements it kept.  A statement holds no other semicolon:
    the split is textual, and a semicolon inside a string literal or a
    comment ends a statement too. *)
Theorem X2_statements_for_parser (ddl : string) :
  splitStatements (filterStatements ddl) =
    List.map (fun body => body +:+ ";")
             (List.filter keepStatement
                (List.filter Js.nonEmpty (List.map Js.trim (Js.split ";" ddl)))) /\
  Forall (fun stmt =>
            exists body,
              stmt = body +:+ ";" /\ cleanStatement body /\ keepStatement body = true)
         (splitStatements (filterStatements ddl)).
Proof.
  unfold splitStatements. rewrite statementsOf_filterStatements.
  split; [reflexivity|].
  apply List.Forall_forall. intros stmt Hstmt.
  apply in_map_iff in Hstmt. destruct Hstmt as [body [<- Hbody]].
  exists body. split; [reflexivity|].
  unfold keptStatements in Hbody. apply filter_In in Hbody. destruct Hbody as [Hin Hkeep].
  split; [|exact Hkeep].
  pose proof (statementsOf_clean ddl) as Hclean.
  rewrite List.Forall_forall in Hclean. apply Hclean. exact Hin.
Qed.

End ParserInput.

(* ================================================================== *)
(** * The shape of a mapping result *)
(* ================================================================== *)

Section MapShape.
Import Mapping.

Lemma mapSingleColumn_name (column : ColumnAst) (context : MappingContext)
    (options : MappingOptions) (m : MappedColumn) :
  mapSingleColumn column context options = Ok m ->
  mc_name m = emittedName options column /\ mc_comment m = col_comment column.
Proof.
  unfold mapSingleColumn. intros H.
  apply rbind_inv in H. destruct H as [resolved [_ H]].
  apply rbind_inv in H. destruct H as [tsType [_ H]].
  injection H as <-. split; reflexivity.
Qed.

Lemma mapTableColumns_names (table : TableAst) (context : MappingContext)
    (options : MappingOptions) (columns : list MappedColumn) :
  mapTableColumns table context options = Ok columns ->
  List.map mc_name columns = List.map (emittedName options) (tbl_columns table) /\
  List.map mc_comment columns = List.map col_comment (tbl_columns table).
Proof.
  unfold mapTableColumns. intros H. apply mapM_Forall2 in H.
  induction H as [|column m l ms Hm _ IH]; [split; reflexivity|].
  apply rbind_inv in Hm. destruct Hm as [u [_ Hm]].
  apply mapSingleColumn_name in Hm. destruct Hm as [Hn Hc]. destruct IH as [IHn IHc].
  cbn [List.map]. rewrite Hn, Hc, IHn, IHc. split; reflexivity.
Qed.

(** X3: a successful [map] keeps the shape of its input: one interface per
    table and one property per column, in the order of the input, under the
    PascalCase name of the table and the (optionally camelCased) name of
    the column, with the comment, the PARTITION BY and the ORDER BY of the
    declaration.  Nothing is dropped, merged or reordered. *)
Theorem X3_map_keeps_shape (tables : list TableAst) (options : MappingOptions)
    (mapped : list MappedTable) :
  map tables options = Ok mapped ->
  Forall2 (sameShape options) tables mapped.
Proof.
  unfold map. intros H.
  apply rbind_inv in H. destruct H as [u [_ H]].
  apply rbind_inv in H. destruct H as [u' [_ H]].
  apply mapM_Forall2 in H.
  induction H as [|table m l ms Hm _ IH]; constructor; [|exact IH].
  unfold mapSingleTable in Hm.
  apply rbind_inv in Hm. destruct Hm as [context [_ Hm]].
  apply rbind_inv in Hm. destruct Hm as [columns [Hcolumns Hm]].
  injection Hm as <-. apply mapTableColumns_names in Hcolumns.
  destruct Hcolumns as [Hn Hc].
  repeat split; assumption.
Qed.

End MapShape.

Lemma X3_map_keeps_shape_witness :
  exists mapped,
    Mapping.map (Index.parse snakeDdl) camelOptions = Ok mapped /\
    List.map interfaceName mapped = ["UserEvents"] /\
    List.map (fun m => List.map mc_name (mt_columns m)) mapped = [["userId"; "eventTime"]] /\
    Forall2 (sameShape camelOptions) (Index.parse snakeDdl) mapped.
Proof.
  eexists. split; [vm_compute; reflexivity|].
  split; [reflexivity|]. split; [reflexivity|].
  apply X3_map_keeps_shape. vm_compute. reflexivity.
Defined.

(* ================================================================== *)
(** * LowCardinality is transparent *)
(* ================================================================== *)

Section Transparent.
Import Mapping JsonSchema.

Lemma tupleParts_ext (self self' : TypeAst -> result string) (l : list TypeArg) :
  (forall t s, self t = Ok s -> self' t = Ok s) ->
  forall i parts, tupleParts self i l = Ok parts -> tupleParts self' i l = Ok parts.
Proof.
  intros Hself. induction l as [|a l IH]; intros i parts H; [exact H|].
  cbn [tupleParts] in *.
  apply rbind_inv in H. destruct H as [s [Hs H]].
  apply rbind_inv in H. destruct H as [rest [Hrest H]].
  rewrite (Hself _ _ Hs), (IH _ _ Hrest). exact H.
Qed.

(** A mapping that succeeds at some depth succeeds, with the same result,
    at every smaller depth. *)
Lemma mapTypeAstToTs_rec_stable (options : MappingOptions) (fuel : nat) :
  forall (fuel' : nat) (t : TypeAst) (d d' : nat) (s : string),
    mapTypeAstToTs_rec fuel t options d = Ok s ->
    d' <= d -> fuel <= fuel' ->
    mapTypeAstToTs_rec fuel' t options d' = Ok s.
Proof.
  induction fuel as [|fuel IH]; intros fuel' t d d' s H Hd Hfuel; [discriminate|].
  destruct fuel' as [|fuel']; [lia|].
  cbn [mapTypeAstToTs_rec] in *.
  destruct (Nat.ltb MAX_TYPE_DEPTH d) eqn:Hlt; [discriminate|].
  apply Nat.ltb_ge in Hlt.
  replace (Nat.ltb MAX_TYPE_DEPTH d') with false by (symmetry; apply Nat.ltb_ge; lia).
  apply rbind_inv in H. destruct H as [u [-> H]].
  apply rbind_inv in H. destruct H as [u' [-> H]]. cbn [rbind].
  assert (Hrec : forall t' s', mapTypeAstToTs_rec fuel t' options (d + 1) = Ok s' ->
                               mapTypeAstToTs_rec fuel' t' options (d' + 1) = Ok s')
    by (intros t' s' H'; apply (IH fuel' t' (d + 1) (d' + 1) s' H'); lia).
  destruct (tryPluginMapping t options) as [[|c r]|]; try exact H;
    (destruct (typeKind (name t)); try exact H;
     try (apply rbind_inv in H; destruct H as [inner [Hinner H]];
          first [ rewrite (Hrec _ _ Hinner)
                | rewrite (tupleParts_ext _ _ _ Hrec _ _ Hinner) ]; exact H);
     try (apply Hrec; exact H)).
Qed.

Lemma tupleProperties_ext (self self' : TypeAst -> result Json) (l : list TypeArg) :
  (forall t s, self t = Ok s -> self' t = Ok s) ->
  forall i acc properties,
    tupleProperties self i l acc = Ok properties ->
    tupleProperties self' i l acc = Ok properties.
Proof.
  intros Hself. induction l as [|a l IH]; intros i acc properties H; [exact H|].
  cbn [tupleProperties] in *.
  apply rbind_inv in H. destruct H as [s [Hs H]].
  rewrite (Hself _ _ Hs). cbn [rbind]. apply IH. exact H.
Qed.

Lemma jsonSchemaForType_rec_stable (resolvedTs : string) (fuel : nat) :
  forall (fuel' : nat) (t : TypeAst) (d d' : nat) (schema : Json),
    jsonSchemaForType_rec fuel t resolvedTs d = Ok schema ->
    d' <= d -> fuel <= fuel' ->
    jsonSchemaForType_rec fuel' t resolvedTs d' = Ok schema.
Proof.
  induction fuel as [|fuel IH]; intros fuel' t d d' schema H Hd Hfuel; [discriminate|].
  destruct fuel' as [|fuel']; [lia|].
  cbn [jsonSchemaForType_rec] in *.
  destruct (Nat.ltb MAX_SCHEMA_DEPTH d) eqn:Hlt; [discriminate|].
  apply Nat.ltb_ge in Hlt.
  replace (Nat.ltb MAX_SCHEMA_DEPTH d') with false by (symmetry; apply Nat.ltb_ge; lia).
  apply rbind_inv in H. destruct H as [u [-> H]]. cbn [rbind].
  assert (Hrec : forall t' s', jsonSchemaForType_rec fuel t' resolvedTs (d + 1) = Ok s' ->
                               jsonSchemaForType_rec fuel' t' resolvedTs (d' + 1) = Ok s')
    by (intros t' s' H'; apply (IH fuel' t' (d + 1) (d' + 1) s' H'); lia).
  destruct (typeKind (name t)); try exact H;
    try (apply rbind_inv in H; destruct H as [inner [Hinner H]];
         first [ rewrite (Hrec _ _ Hinner)
               | rewrite (tupleProperties_ext _ _ _ Hrec _ _ _ Hinner) ]; exact H);
    try (apply Hrec; exact H).
Qed.

Lemma lowCardinality_ts_step (options : MappingOptions) (fuel : nat) (t : TypeAst)
    (d : nat) (s : string) :
  name t = "LowCardinality" -> plugins options = None ->
  mapTypeAstToTs_rec (S fuel) t options d = Ok s ->
  mapTypeAstToTs_rec fuel (firstTypeArg t) options (d + 1) = Ok s.
Proof.
  intros Hname Hplugins H. cbn [mapTypeAstToTs_rec] in H.
  destruct (Nat.ltb MAX_TYPE_DEPTH d); [discriminate|].
  apply rbind_inv in H. destruct H as [u [_ H]].
  apply rbind_inv in H. destruct H as [u' [_ H]].
  unfold tryPluginMapping in H. rewrite Hplugins, Hname in H. exact H.
Qed.

Lemma lowCardinality_schema_step (resolvedTs : string) (fuel : nat) (t : TypeAst)
    (d : nat) (schema : Json) :
  name t = "LowCardinality" ->
  jsonSchemaForType_rec (S fuel) t resolvedTs d = Ok schema ->
  jsonSchemaForType_rec fuel (firstTypeArg t) resolvedTs (d + 1) = Ok schema.
Proof.
  intros Hname H. cbn [jsonSchemaForType_rec] in H.
  destruct (Nat.ltb MAX_SCHEMA_DEPTH d); [discriminate|].
  apply rbind_inv in H. destruct H as [u [_ H]].
  rewrite Hname in H. exact H.
Qed.

Lemma mapTypeAstToTs_start (t : TypeAst) (options : MappingOptions) :
  mapTypeAstToTs t options = mapTypeAstToTs_rec (S (MAX_TYPE_DEPTH + 1)) t options 0.
Proof. reflexivity. Qed.

Lemma jsonSchemaForType_start (t : TypeAst) (resolvedTs : string) :
  jsonSchemaForType t resolvedTs =
    jsonSchemaForType_rec (S (MAX_SCHEMA_DEPTH + 1)) t resolvedTs 0.
Proof. reflexivity. Qed.

(** X4: LowCardinality is transparent.  Whenever the type mapper (without
    plugin) or the JSON-Schema generator accepts [LowCardinality(T)], it
    accepts [T] too and gives the same result for both. *)
Theorem X4_low_cardinality_transparent (t : TypeAst) (options : MappingOptions) :
  name t = "LowCardinality" ->
  (plugins options = None ->
   forall tsType,
     mapTypeAstToTs t options = Ok tsType ->
     mapTypeAstToTs (firstTypeArg t) options = Ok tsType) /\
  (forall resolvedTs schema,
     jsonSchemaForType t resolvedTs = Ok schema ->
     jsonSchemaForType (firstTypeArg t) resolvedTs = Ok schema).
Proof.
  intros Hname. split.
  - intros Hplugins tsType H. rewrite mapTypeAstToTs_start in *.
    apply (lowCardinality_ts_step options _ t 0 tsType Hname Hplugins) in H.
    apply (mapTypeAstToTs_rec_stable options _ _ _ _ _ _ H); lia.
  - intros resolvedTs schema H. rewrite jsonSchemaForType_start in *.
    apply (lowCardinality_schema_step resolvedTs _ t 0 schema Hname) in H.
    apply (jsonSchemaForType_rec_stable resolvedTs _ _ _ _ _ _ H); lia.
Qed.

End Transparent.

Lemma X4_low_cardinality_transparent_witness :
  Mapping.mapTypeAstToTs (lowCardinality (nullableOf StringType)) defaultOptions =
    Ok "string | null" /\
  Mapping.mapTypeAstToTs (firstTypeArg (lowCardinality (nullableOf StringType))) defaultOptions =
    Ok "string | null".
Proof.
  split; [vm_compute; reflexivity|].
  apply (proj1 (X4_low_cardinality_transparent (lowCardinality (nullableOf StringType))
                  defaultOptions eq_refl) eq_refl).
  vm_compute. reflexivity.
Defined.

(* ================================================================== *)
(** * camelCase names *)
(* ================================================================== *)

Section CamelCase.

Lemma append_String (a : string) (c : ascii) (b : string) :
  (a +:+ String c EmptyString) +:+ b = a +:+ String c b.
Proof.
  induction a as [|x a IH]; [reflexivity|].
  rewrite !append_cons, IH. reflexivity.
Qed.

Lemma nonEmpty_snoc (a : string) (c : ascii) :
  Js.nonEmpty (a +:+ String c EmptyString) = true.
Proof. destruct a; reflexivity. Qed.

Lemma append_empty (a : string) : a +:+ EmptyString = a.
Proof. induction a as [|x a IH]; [reflexivity|]. rewrite append_cons, IH. reflexivity. Qed.

(** A text without a break is left alone. *)
Lemma camelReplace_stable (s pending : string) :
  noCamelBreak (Js.nonEmpty pending) s = true ->
  camelReplace pending s = pending +:+ s.
Proof.
  revert pending. induction s as [|c s IH]; intros pending H;
    [cbn [camelReplace]; rewrite append_empty; reflexivity|].
  cbn [camelReplace noCamelBreak] in *. destruct (isSeparator c).
  - rewrite IH by (rewrite nonEmpty_snoc; exact H). apply append_String.
  - apply andb_prop in H. destruct H as [Hc Hs]. apply negb_true_iff in Hc.
    rewrite Hc. rewrite (IH EmptyString Hs). reflexivity.
Qed.

Lemma noCamelBreak_run (pending rest : string) (b : bool) :
  allSeparators pending = true ->
  noCamelBreak b (pending +:+ rest) = noCamelBreak (b || Js.nonEmpty pending) rest.
Proof.
  revert b. induction pending as [|c p IH]; intros b H.
  - rewrite append_nil, orb_false_r. reflexivity.
  - cbn [allSeparators] in H. apply andb_prop in H. destruct H as [Hc Hp].
    rewrite append_cons. cbn [noCamelBreak Js.nonEmpty]. rewrite Hc, (IH true Hp).
    rewrite orb_true_r. reflexivity.
Qed.

Lemma allSeparators_snoc (p : string) (c : ascii) :
  allSeparators p = true -> isSeparator c = true ->
  allSeparators (p +:+ String c EmptyString) = true.
Proof.
  intros Hp Hc. induction p as [|x p IH];
    [rewrite append_nil; cbn [allSeparators]; rewrite Hc; reflexivity|].
  cbn [allSeparators] in Hp. apply andb_prop in Hp. destruct Hp as [Hx Hp].
  rewrite append_cons. cbn [allSeparators]. rewrite Hx, (IH Hp). reflexivity.
Qed.

Lemma upperChar_not_separator (c : ascii) :
  isSeparator c = false -> isSeparator (Js.upperChar c) = false.
Proof.
  destruct c as [[] [] [] [] [] [] [] []]; intros H;
    first [discriminate H | reflexivity].
Qed.

Lemma lowerChar_not_separator (c : ascii) :
  isSeparator c = false -> isSeparator (Js.lowerChar c) = false.
Proof.
  destruct c as [[] [] [] [] [] [] [] []]; intros H;
    first [discriminate H | reflexivity].
Qed.

Lemma lowerChar_not_upper (c : ascii) :
  Js.isUpper c = true -> Js.isUpper (Js.lowerChar c) = false.
Proof.
  destruct c as [[] [] [] [] [] [] [] []]; intros H;
    first [discriminate H | reflexivity].
Qed.

(** What the first replacement of [toCamelCase] returns has no break. *)
Lemma camelReplace_noBreak (s pending : string) :
  allSeparators pending = true ->
  noCamelBreak false (camelReplace pending s) = true.
Proof.
  revert pending. induction s as [|c s IH]; intros pending Hp.
  - cbn [camelReplace]. rewrite <- (append_empty pending).
    rewrite (noCamelBreak_run pending EmptyString false Hp). reflexivity.
  - cbn [camelReplace]. destruct (isSeparator c) eqn:Hc.
    + apply IH. apply allSeparators_snoc; assumption.
    + destruct (Js.nonEmpty pending && Js.isAlnum c) eqn:Hbreak.
      * cbn [noCamelBreak]. rewrite (upperChar_not_separator c Hc).
        cbn [andb negb]. apply IH. reflexivity.
      * rewrite (noCamelBreak_run pending _ false Hp). cbn [orb noCamelBreak].
        rewrite Hc, Hbreak. cbn [negb andb]. apply IH. reflexivity.
Qed.

Lemma lowerFirstUpper_noBreak (s : string) :
  noCamelBreak false s = true -> noCamelBreak false (lowerFirstUpper s) = true.
Proof.
  destruct s as [|c s]; [intros H; exact H|].
  cbn [lowerFirstUpper]. destruct (Js.isUpper c) eqn:Hu; [|intros H; exact H].
  cbn [noCamelBreak]. destruct (isSeparator c) eqn:Hc.
  - destruct c as [[] [] [] [] [] [] [] []]; discriminate.
  - rewrite (lowerChar_not_separator c Hc). cbn [andb negb]. intros H. exact H.
Qed.

Lemma lowerFirstUpper_idempotent (s : string) :
  lowerFirstUpper (lowerFirstUpper s) = lowerFirstUpper s.
Proof.
  destruct s as [|c s]; [reflexivity|].
  cbn [lowerFirstUpper]. destruct (Js.isUpper c) eqn:Hu.
  - cbn [lowerFirstUpper]. rewrite (lowerChar_not_upper c Hu). reflexivity.
  - cbn [lowerFirstUpper]. rewrite Hu. reflexivity.
Qed.

Lemma toCamelCase_noBreak (s : string) : noCamelBreak false (toCamelCase s) = true.
Proof.
  unfold toCamelCase. apply lowerFirstUpper_noBreak, camelReplace_noBreak. reflexivity.
Qed.

Lemma toCamelCase_idempotent (s : string) : toCamelCase (toCamelCase s) = toCamelCase s.
Proof.
  unfold toCamelCase at 1.
  rewrite (camelReplace_stable _ EmptyString (toCamelCase_noBreak s)), append_nil.
  unfold toCamelCase. apply lowerFirstUpper_idempotent.
Qed.

Lemma find_some_exists {A} (f : A -> bool) (l : list A) (x : A) :
  In x l -> f x = true -> exists y, find f l = Some y /\ f y = true.
Proof.
  induction l as [|a l IH]; intros Hin Hf; [destruct Hin|].
  cbn [find]. destruct (f a) eqn:Ha; [exists a; split; [reflexivity|exact Ha]|].
  destruct Hin as [->|Hin]; [congruence|]. apply IH; assumption.
Qed.

(** X5: [toCamelCase] is idempotent, and leaves alone every text in which
    no run of [_]/[-] is followed by a letter or digit and whose first
    character is not a capital.  So a column is found under the name it is
    emitted with: looking the camelCase name of a column up in its table
    gives a column with that camelCase name. *)
Theorem X5_camel_case_stable :
  (forall s, toCamelCase (toCamelCase s) = toCamelCase s) /\
  (forall s, noCamelBreak false s = true -> lowerFirstUpper s = s -> toCamelCase s = s) /\
  (forall table column,
     In column (tbl_columns table) -> Js.nonEmpty (col_name column) = true ->
     exists found,
       Mapping.findColumnByName table (toCamelCase (col_name column)) = Ok (Some found) /\
       toCamelCase (col_name found) = toCamelCase (col_name column)).
Proof.
  split; [exact toCamelCase_idempotent|]. split.
  - intros s Hs Hfirst. unfold toCamelCase.
    rewrite (camelReplace_stable s EmptyString Hs), append_nil. exact Hfirst.
  - intros table column Hin Hname.
    unfold Mapping.findColumnByName, assert.
    rewrite (toCamelCase_nonEmpty _ Hname). cbn [rbind].
    destruct (find (fun c => String.eqb (col_name c) (toCamelCase (col_name column)))
                   (tbl_columns table)) as [exact|] eqn:Hexact.
    + exists exact. split; [reflexivity|].
      apply find_some in Hexact. destruct Hexact as [_ Heq].
      apply String.eqb_eq in Heq. rewrite Heq. apply toCamelCase_idempotent.
    + rewrite toCamelCase_idempotent.
      destruct (find_some_exists
                  (fun c => String.eqb (toCamelCase (col_name c)) (toCamelCase (col_name column)))
                  (tbl_columns table) column Hin (String.eqb_refl _)) as [found [-> Heq]].
      exists found. split; [reflexivity|]. apply String.eqb_eq. exact Heq.
Qed.

End CamelCase.

Lemma X5_camel_case_stable_witness :
  toCamelCase "user_id" = "userId" /\
  toCamelCase "userId" = "userId" /\
  exists found,
    Mapping.findColumnByName eventsBySnake (toCamelCase "event-time") = Ok (Some found) /\
    toCamelCase (col_name found) = toCamelCase "event-time".
Proof.
  split; [reflexivity|].
  split; [apply (proj1 (proj2 X5_camel_case_stable)); reflexivity|].
  apply (proj2 (proj2 X5_camel_case_stable) eventsBySnake
           (mkColumnAst "event-time" DateTime "DateTime" None None));
    [right; left; reflexivity|reflexivity].
Defined.

(* ================================================================== *)
(** * Quoted keys and canonical type names *)
(* ================================================================== *)

Section Quoting.
Import Parser.

Lemma escapeQuotes_start (s : string) : startsWithQuote (Js.escapeQuotes s) = false.
Proof.
  destruct s as [|c s]; [reflexivity|]. cbn [Js.escapeQuotes].
  destruct (Ascii.eqb c "'") eqn:E; [reflexivity|exact E].
Qed.

Lemma unescapeQuotes_backslash (s : string) :
  startsWithQuote s = false ->
  Js.unescapeQuotes (String "\" s) = String "\" (Js.unescapeQuotes s).
Proof.
  destruct s as [|d s]; [reflexivity|].
  destruct d as [[] [] [] [] [] [] [] []]; intros H;
    first [discriminate H | reflexivity].
Qed.

Lemma unescapeQuotes_other (c : ascii) (s : string) :
  c <> "\"%char ->
  Js.unescapeQuotes (String c s) = String c (Js.unescapeQuotes s).
Proof.
  destruct c as [[] [] [] [] [] [] [] []]; intros H;
    first [exfalso; apply H; reflexivity | reflexivity].
Qed.

Lemma unescape_escape (s : string) : Js.unescapeQuotes (Js.escapeQuotes s) = s.
Proof.
  induction s as [|c s IH]; [reflexivity|].
  cbn [Js.escapeQuotes]. destruct (Ascii.eqb_spec c "'") as [->|Hq].
  - change (Js.unescapeQuotes (String "\" (String "'" (Js.escapeQuotes s))))
      with (String "'" (Js.unescapeQuotes (Js.escapeQuotes s))).
    rewrite IH. reflexivity.
  - destruct (Ascii.eqb_spec c "\") as [->|Hb].
    + rewrite unescapeQuotes_backslash by apply escapeQuotes_start.
      rewrite IH. reflexivity.
    + rewrite unescapeQuotes_other by exact Hb. rewrite IH. reflexivity.
Qed.

Lemma dropLast_cons (x : ascii) (s : string) :
  Js.nonEmpty s = true -> dropLast (String x s) = String x (dropLast s).
Proof. destruct s; [discriminate|reflexivity]. Qed.

Lemma dropLast_snoc (s : string) (c : ascii) :
  dropLast (s +:+ String c EmptyString) = s.
Proof.
  induction s as [|x s IH]; [reflexivity|].
  rewrite append_cons, dropLast_cons by apply nonEmpty_snoc.
  rewrite IH. reflexivity.
Qed.

(** X6: the enum keys survive the trip through the generated code: the
    parser removes the quotes of a key and the backslashes in front of its
    quotes, the type mapper puts them back, and reading the printed literal
    again gives the key.  A text that does not begin with a quote is left as
    it is. *)
Theorem X6_enum_key_round_trip :
  (forall key, unquote (quoted key) = key) /\
  (forall s, Js.unescapeQuotes (Js.escapeQuotes s) = s) /\
  (forall s, startsWithQuote s = false -> unquote s = s).
Proof.
  split; [|split].
  - intros key. unfold quoted, Mapping.escapeStringLiteral.
    change ("'" +:+ Js.escapeQuotes key +:+ "'")
      with (String "'" (Js.escapeQuotes key +:+ "'")).
    cbn [unquote].
    assert (Hlast : Js.lastChar (String "'" (Js.escapeQuotes key +:+ "'")) = Some "'"%char).
    { rewrite lastChar_cons by (apply nonEmpty_append; reflexivity).
      rewrite lastChar_append by reflexivity. reflexivity. }
    rewrite Hlast. cbn [Ascii.eqb Bool.eqb andb].
    rewrite dropLast_snoc. apply unescape_escape.
  - exact unescape_escape.
  - intros s H. destruct s as [|c s]; [reflexivity|].
    cbn [startsWithQuote] in H. cbn [unquote]. rewrite H. reflexivity.
Qed.

End Quoting.

Lemma X6_enum_key_round_trip_witness :
  quoted "it's" = "'it\'s'" /\
  Parser.unquote (quoted "it's") = "it's" /\
  Parser.unquote "plain" = "plain".
Proof.
  split; [reflexivity|]. split.
  - apply (proj1 X6_enum_key_round_trip).
  - apply (proj2 (proj2 X6_enum_key_round_trip)). reflexivity.
Defined.

Section CanonicalNames.
Import Parser.

Lemma canonicalTypeName_special (n : string) :
  existsb (String.eqb (Js.toLowerCase n)) specialNames = true ->
  In (canonicalTypeName n)
     ["Nullable"; "LowCardinality"; "Array"; "Tuple"; "Map"; "Enum8"; "Enum16";
      "Decimal"; "FixedString"; "DateTime"; "DateTime64"].
Proof.
  unfold canonicalTypeName, specialNames. cbn [existsb]. cbv zeta.
  repeat match goal with
         | |- context [String.eqb (Js.toLowerCase n) ?k] =>
             destruct (String.eqb (Js.toLowerCase n) k); [intros _; cbn; tauto|]
         end.
  discriminate.
Qed.

Lemma canonicalTypeName_other (n : string) :
  existsb (String.eqb (Js.toLowerCase n)) specialNames = false ->
  canonicalTypeName n =
    match n with
    | String c n' => if Js.isUpper c then n else String (Js.upperChar c) n'
    | EmptyString => EmptyString
    end.
Proof.
  unfold canonicalTypeName, specialNames. cbn [existsb]. cbv zeta.
  repeat match goal with
         | |- context [String.eqb (Js.toLowerCase n) ?k] =>
             destruct (String.eqb (Js.toLowerCase n) k); [discriminate|]
         end.
  reflexivity.
Qed.

Lemma lower_upperChar (c : ascii) : Js.lowerChar (Js.upperChar c) = Js.lowerChar c.
Proof. destruct c as [[] [] [] [] [] [] [] []]; reflexivity. Qed.

Lemma upperChar_idempotent (c : ascii) : Js.upperChar (Js.upperChar c) = Js.upperChar c.
Proof. destruct c as [[] [] [] [] [] [] [] []]; reflexivity. Qed.

(** X7: [canonicalTypeName] is idempotent.  It gives the eleven names it
    knows their spelling whatever the case of the input, and changes nothing
    but the first character of any other name: the capitals inside a name
    such as UInt64 are not restored. *)
Theorem X7_canonical_type_names (n : string) :
  canonicalTypeName (canonicalTypeName n) = canonicalTypeName n /\
  (existsb (String.eqb (Js.toLowerCase n)) specialNames = false ->
   match n with
   | String c n' =>
       canonicalTypeName n = (if Js.isUpper c then n else String (Js.upperChar c) n')
   | EmptyString => canonicalTypeName n = EmptyString
   end).
Proof.
  split.
  - destruct (existsb (String.eqb (Js.toLowerCase n)) specialNames) eqn:Hspecial.
    + apply canonicalTypeName_special in Hspecial. cbn [In] in Hspecial.
      repeat (destruct Hspecial as [<-|Hspecial]; [reflexivity|]).
      destruct Hspecial.
    + rewrite (canonicalTypeName_other n Hspecial).
      destruct n as [|c n']; [reflexivity|].
      destruct (Js.isUpper c) eqn:Hupper.
      * rewrite (canonicalTypeName_other _ Hspecial). rewrite Hupper. reflexivity.
      * assert (Hsame : Js.toLowerCase (String (Js.upperChar c) n') =
                        Js.toLowerCase (String c n')).
        { unfold Js.toLowerCase. cbn [Js.mapChars]. rewrite lower_upperChar. reflexivity. }
        rewrite canonicalTypeName_other by (rewrite Hsame; exact Hspecial).
        rewrite upperChar_idempotent.
        destruct (Js.isUpper (Js.upperChar c)); reflexivity.
  - intros Hspecial. rewrite (canonicalTypeName_other n Hspecial).
    destruct n; reflexivity.
Qed.

End CanonicalNames.

Lemma X7_canonical_type_names_witness :
  Parser.canonicalTypeName "NULLABLE" = "Nullable" /\
  Parser.canonicalTypeName "uint64" = "Uint64" /\
  List.map mc_tsType
    (match Mapping.map (Index.parse mixedCaseDdl) defaultOptions with
     | Ok [t] => mt_columns t
     | _ => []
     end) = ["unknown"; "string | null"; "'it\'s' | 'b'"].
Proof.
  split; [reflexivity|]. split; [|vm_compute; reflexivity].
  apply (proj2 (X7_canonical_type_names "uint64")). reflexivity.
Defined.

(* ================================================================== *)
(** * Plugin overrides *)
(* ================================================================== *)

Section Plugins.
Import Mapping.

Lemma firstPluginResult_app (ps rest : list MappingPlugin) (t : TypeAst) :
  (forall q, In q ps -> q t = None) ->
  firstPluginResult (ps ++ rest)%list t = firstPluginResult rest t.
Proof.
  induction ps as [|p ps IH]; intros H; [reflexivity|].
  cbn [app firstPluginResult]. rewrite (H p (or_introl eq_refl)).
  apply IH. intros q Hq. apply H. right. exact Hq.
Qed.

Lemma plugin_result_step (options : MappingOptions) (fuel : nat) (t : TypeAst) (d : nat)
    (s : string) :
  d <= MAX_TYPE_DEPTH ->
  validateTypeAst t = Ok tt -> validateMappingOptions options = Ok tt ->
  tryPluginMapping t options = Some s -> Js.nonEmpty s = true ->
  mapTypeAstToTs_rec (S fuel) t options d = Ok s.
Proof.
  intros Hd Ht Ho Hp Hs. cbn [mapTypeAstToTs_rec].
  replace (Nat.ltb MAX_TYPE_DEPTH d) with false by (symmetry; apply Nat.ltb_ge; exact Hd).
  rewrite Ht, Ho, Hp. cbn [rbind]. destruct s; [discriminate|reflexivity].
Qed.

(** X8: a plugin overrides the core mapping.  The first of the first 50
    plugins that answers with a text decides: when that text is not empty it
    is the mapping of the type, whatever the type is; plugins after it, and
    plugins beyond the 50th, are not asked. *)
Theorem X8_plugin_override (t : TypeAst) (options : MappingOptions) :
  validateTypeAst t = Ok tt -> validateMappingOptions options = Ok tt ->
  (forall s, tryPluginMapping t options = Some s -> Js.nonEmpty s = true ->
             mapTypeAstToTs t options = Ok s) /\
  (forall ps p rest s,
     plugins options = Some (ps ++ p :: rest)%list ->
     (forall q, In q ps -> q t = None) -> length ps < 50 -> p t = Some s ->
     tryPluginMapping t options = Some s) /\
  (forall ps rest,
     plugins options = Some (ps ++ rest)%list ->
     (forall q, In q ps -> q t = None) -> length ps = 50 ->
     tryPluginMapping t options = None).
Proof.
  intros Ht Ho. split; [|split].
  - intros s Hp Hs. rewrite mapTypeAstToTs_start.
    apply plugin_result_step; try assumption. apply Nat.le_0_l.
  - intros ps p rest s Hplugins Hnone Hlen Hp.
    unfold tryPluginMapping. rewrite Hplugins.
    rewrite firstn_app.
    rewrite (firstn_all2 ps) by lia.
    rewrite (firstPluginResult_app _ _ _ Hnone).
    destruct (50 - length ps) as [|k] eqn:Hk; [lia|].
    cbn [firstn firstPluginResult]. rewrite Hp. reflexivity.
  - intros ps rest Hplugins Hnone Hlen.
    unfold tryPluginMapping. rewrite Hplugins.
    rewrite firstn_app, Hlen, Nat.sub_diag.
    rewrite (firstn_all2 ps) by lia. cbn [firstn].
    rewrite (firstPluginResult_app _ _ _ Hnone). reflexivity.
Qed.

End Plugins.

Lemma X8_plugin_override_witness :
  Mapping.mapTypeAstToTs Int64 (withPlugins [int64Plugin]) = Ok "Long" /\
  Mapping.tryPluginMapping Int64 (withPlugins [emptyPlugin; int64Plugin]) = Some EmptyString /\
  Mapping.mapTypeAstToTs Int64 (withPlugins [emptyPlugin; int64Plugin]) = Ok "bigint".
Proof.
  split; [|split; [|vm_compute; reflexivity]].
  - apply (proj1 (X8_plugin_override Int64 (withPlugins [int64Plugin]) eq_refl eq_refl));
      reflexivity.
  - apply (proj1 (proj2 (X8_plugin_override Int64 (withPlugins [emptyPlugin; int64Plugin])
                           eq_refl eq_refl)) [] emptyPlugin [int64Plugin]);
      [reflexivity|intros q []|cbn; lia|reflexivity].
Defined.

(* ================================================================== *)
(** * From the mapper to the JSON-Schema generator *)
(* ================================================================== *)

Section SchemaPipeline.
Import Mapping JsonSchema.

Lemma toPascalCase_nonEmpty (s : string) :
  Js.nonEmpty s = true -> Js.nonEmpty (toPascalCase s) = true.
Proof.
  intros H. unfold toPascalCase. pose proof (toCamelCase_nonEmpty s H) as Hc.
  destruct (toCamelCase s); [discriminate|reflexivity].
Qed.

Lemma validateTableArray_names (tables : list TableAst) (u : unit) :
  validateTableArray tables = Ok u ->
  Forall (fun table => Js.nonEmpty (tbl_name table) = true) tables.
Proof.
  unfold validateTableArray. intros H.
  apply rbind_inv in H. destruct H as [us [H _]].
  apply mapM_Forall2 in H.
  induction H as [|table x l xs Hx _ IH]; constructor; [|exact IH].
  unfold assert in Hx. destruct (Js.nonEmpty (tbl_name table)); [reflexivity|discriminate].
Qed.

Lemma map_interface_names (tables : list TableAst) (options : MappingOptions)
    (mapped : list MappedTable) :
  map tables options = Ok mapped ->
  Forall (fun m => Js.nonEmpty (interfaceName m) = true) mapped.
Proof.
  unfold map. intros H.
  apply rbind_inv in H. destruct H as [u [_ H]].
  apply rbind_inv in H. destruct H as [u' [Hvalid H]].
  apply validateTableArray_names in Hvalid. apply mapM_Forall2 in H.
  revert Hvalid. induction H as [|table m l ms Hm _ IH]; intros Hvalid; [constructor|].
  apply List.Forall_cons_iff in Hvalid. destruct Hvalid as [Hname Hrest].
  constructor; [|apply IH; exact Hrest].
  unfold mapSingleTable in Hm.
  apply rbind_inv in Hm. destruct Hm as [context [_ Hm]].
  apply rbind_inv in Hm. destruct Hm as [columns [_ Hm]].
  injection Hm as <-. apply toPascalCase_nonEmpty. exact Hname.
Qed.

(** X9: what [map] returns, [emitJsonSchema] accepts.  When no plugin is
    configured, [map] has returned at most 100 tables and the first of them
    has at most 1000 columns, the JSON-Schema generator returns a document:
    none of its assertions fails and its depth limit is not reached. *)
Theorem X9_schema_of_map_result (tables : list TableAst) (options : MappingOptions)
    (mapped : list MappedTable) :
  plugins options = None ->
  map tables options = Ok mapped ->
  length mapped <= MAX_TABLES ->
  (forall first others, mapped = first :: others ->
                        length (mt_columns first) <= MAX_COLUMNS) ->
  exists schema, emitJsonSchema mapped = Ok schema.
Proof.
  intros Hplugins Hmap Htables Hcolumns.
  unfold emitJsonSchema, validateMappedTablesInput, assert.
  replace (Nat.leb (length mapped) MAX_TABLES) with true
    by (symmetry; apply Nat.leb_le; exact Htables).
  cbn [rbind]. destruct mapped as [|first others]; [eexists; reflexivity|].
  specialize (Hcolumns first others eq_refl).
  pose proof (map_interface_names _ _ _ Hmap) as Hnames.
  apply List.Forall_cons_iff in Hnames. destruct Hnames as [Hname _].
  assert (Hcols : forall column, In column (mt_columns first) ->
            Js.nonEmpty (mc_name column) = true /\
            isOk (jsonSchemaForType (mc_typeAst column) (mc_tsType column)) = true).
  { intros column Hin.
    destruct (map_columns _ _ _ Hmap first (or_introl eq_refl) column Hin) as [Hts Hn].
    split; [exact Hn|].
    destruct (mapTypeAstToTs_nullability options Hplugins _ _ Hts) as [schema [-> _]].
    reflexivity. }
  assert (Hvalid : validateTableStructure first = Ok tt).
  { unfold validateTableStructure, assert. rewrite Hname. cbn [rbind].
    replace (Nat.leb (length (mt_columns first)) MAX_COLUMNS) with true
      by (symmetry; apply Nat.leb_le; exact Hcolumns).
    cbn [rbind].
    destruct (validate_names_mapM (mt_columns first)) as [us ->]; [|reflexivity].
    apply List.Forall_forall. intros column Hin. apply Hcols. exact Hin. }
  rewrite Hvalid. cbn [rbind].
  unfold generateTableSchema, generateColumnProperties.
  rewrite firstn_all2 by exact Hcolumns.
  destruct (columnProperties_loop_ok (mt_columns first)) with (properties := @nil (string * Json))
    as [properties ->].
  { apply List.Forall_forall. intros column Hin. apply Hcols. exact Hin. }
  cbn [rbind]. eexists. reflexivity.
Qed.

End SchemaPipeline.

Lemma X9_schema_of_map_result_witness :
  Mapping.map (Index.parse qualifiedDdl) defaultOptions = Ok qualifiedMapped /\
  exists schema, JsonSchema.emitJsonSchema qualifiedMapped = Ok schema.
Proof.
  assert (Hmap : Mapping.map (Index.parse qualifiedDdl) defaultOptions = Ok qualifiedMapped)
    by (vm_compute; reflexivity).
  split; [exact Hmap|].
  apply (X9_schema_of_map_result (Index.parse qualifiedDdl) defaultOptions qualifiedMapped
           eq_refl Hmap).
  - vm_compute. lia.
  - intros first others Heq. vm_compute in Heq. injection Heq as <- _. vm_compute. lia.
Defined.

(* ================================================================== *)
(** * The Zod schemas *)
(* ================================================================== *)

Section Zod.
Import Mapping Emitter.

Lemma snoc_inj (a p : string) (c : ascii) :
  a +:+ String c EmptyString = p +:+ String c EmptyString -> a = p.
Proof.
  revert p. induction a as [|x a IH]; intros p H.
  - destruct p as [|y p]; [reflexivity|].
    rewrite append_nil, append_cons in H. injection H as _ H.
    destruct p; discriminate H.
  - destruct p as [|y p].
    + rewrite append_nil, append_cons in H. injection H as _ H.
      destruct a; discriminate H.
    + rewrite !append_cons in H. injection H as -> H. rewrite (IH p H). reflexivity.
Qed.

Lemma eqb_snoc (a p : string) (c : ascii) :
  String.eqb (a +:+ String c EmptyString) (p +:+ String c EmptyString) = String.eqb a p.
Proof.
  destruct (String.eqb_spec a p) as [->|Hne]; [apply String.eqb_refl|].
  apply String.eqb_neq. intros H. apply Hne. apply (snoc_inj _ _ _ H).
Qed.

Lemma endsWith_snoc (a p : string) (c : ascii) :
  Js.endsWith (a +:+ String c EmptyString) (p +:+ String c EmptyString) = Js.endsWith a p.
Proof.
  induction a as [|x a IH].
  - rewrite (endsWith_unfold (EmptyString +:+ String c EmptyString)), eqb_snoc.
    rewrite append_nil.
    replace (Js.endsWith EmptyString (p +:+ String c EmptyString)) with false
      by (destruct p; reflexivity).
    rewrite (endsWith_unfold EmptyString p). reflexivity.
  - rewrite (endsWith_unfold (String x a +:+ String c EmptyString)), eqb_snoc.
    rewrite append_cons, IH. rewrite (endsWith_unfold (String x a) p). reflexivity.
Qed.

(** A schema that ends in two closing parentheses, or in another character
    and one, does not accept null. *)
Lemma not_nullable_zod (a : string) (c : ascii) :
  Js.lastChar a = Some c -> c <> "("%char -> isNullableZod (a +:+ ")") = false.
Proof.
  intros Hlast Hc. unfold isNullableZod.
  change ".nullable()" with (".nullable(" +:+ ")"). rewrite endsWith_snoc.
  destruct (Js.endsWith a ".nullable(") eqn:E; [|reflexivity].
  apply endsWith_lastChar in E; [|reflexivity].
  rewrite Hlast in E. cbn in E. congruence.
Qed.

Lemma zodTupleEntries_ok (selfTs selfZod : TypeAst -> result string) (l : list TypeArg) :
  (forall t ts, selfTs t = Ok ts -> exists z, selfZod t = Ok z) ->
  forall i parts, tupleParts selfTs i l = Ok parts ->
  exists entries, zodTupleEntries selfZod i l = Ok entries.
Proof.
  intros Hself. induction l as [|a l IH]; intros i parts Hparts; [eexists; reflexivity|].
  cbn [tupleParts zodTupleEntries] in *.
  apply rbind_inv in Hparts. destruct Hparts as [ts [Hts Hparts]].
  apply rbind_inv in Hparts. destruct Hparts as [rest [Hrest _]].
  destruct (Hself _ _ Hts) as [z ->]. cbn [rbind].
  destruct (IH _ _ Hrest) as [entries ->]. eexists. reflexivity.
Qed.

Variable options : MappingOptions.
Hypothesis no_plugins : plugins options = None.

(** Where the type mapping succeeds, the Zod generation succeeds too, and
    the two agree on nullability. *)
Lemma zod_rec (fuel : nat) :
  forall (t : TypeAst) (d : nat) (tsType resolvedTs : string),
    mapTypeAstToTs_rec fuel t options d = Ok tsType ->
    exists schema,
      zodForTypeAst_rec fuel t resolvedTs d = Ok schema /\
      isNullableTs tsType = isNullableZod schema /\
      Js.lastChar schema = Some ")"%char.
Proof.
  induction fuel as [|fuel IH]; intros t d tsType resolvedTs Hts; [discriminate|].
  cbn [mapTypeAstToTs_rec] in Hts. cbn [zodForTypeAst_rec].
  change MAX_ZOD_DEPTH with MAX_TYPE_DEPTH.
  destruct (Nat.ltb MAX_TYPE_DEPTH d); [discriminate|].
  apply rbind_inv in Hts. destruct Hts as [u [Hv Hts]].
  apply rbind_inv in Hts. destruct Hts as [u' [_ Hts]].
  unfold tryPluginMapping in Hts. rewrite no_plugins in Hts.
  assert (Hname : validateZodTypeInput t = Ok tt).
  { unfold validateTypeAst, validateZodTypeInput, assert in *.
    destruct (Js.nonEmpty (name t)); [reflexivity|discriminate]. }
  rewrite Hname. cbn [rbind].
  destruct (typeKind (name t)).
  - (* Nullable *)
    apply rbind_inv in Hts. destruct Hts as [inner [Hin Hts]]. injection Hts as <-.
    destruct (IH _ _ _ resolvedTs Hin) as [z [-> _]]. cbn [rbind].
    eexists. split; [reflexivity|]. split.
    + unfold isNullableTs, isNullableZod. rewrite !endsWith_append. reflexivity.
    + apply lastChar_append. reflexivity.
  - (* LowCardinality *)
    apply IH. exact Hts.
  - (* Array *)
    apply rbind_inv in Hts. destruct Hts as [inner [Hin Hts]]. injection Hts as <-.
    destruct (IH _ _ _ resolvedTs Hin) as [z [-> [_ Hlast]]]. cbn [rbind].
    eexists. split; [reflexivity|]. split.
    + rewrite (not_nullable_by_last _ "]"%char);
        [|rewrite lastChar_append; reflexivity|discriminate].
      rewrite <- append_assoc. symmetry.
      apply (not_nullable_zod _ ")"%char); [|discriminate].
      rewrite lastChar_append; [exact Hlast|]. destruct z; [discriminate|reflexivity].
    + rewrite lastChar_append by (apply nonEmpty_append; reflexivity).
      apply lastChar_append. reflexivity.
  - (* Tuple *)
    apply rbind_inv in Hts. destruct Hts as [parts [Hparts Hts]]. injection Hts as <-.
    change Emitter.MAX_TUPLE_ELEMENTS with Mapping.MAX_TUPLE_ELEMENTS.
    destruct (zodTupleEntries_ok _
                (fun t0 => zodForTypeAst_rec fuel t0 resolvedTs (d + 1)) _
                (fun t0 ts H => match IH t0 (d + 1) ts resolvedTs H with
                                | ex_intro _ z (conj Hz _) => ex_intro _ z Hz
                                end)
                0 parts Hparts) as [entries ->].
    cbn [rbind]. eexists. split; [reflexivity|]. split.
    + rewrite (not_nullable_by_last _ "}"%char); [| |discriminate].
      2:{ rewrite lastChar_append by (apply nonEmpty_append; reflexivity).
          rewrite lastChar_append; reflexivity. }
      change " })" with (" }" +:+ ")"). rewrite <- !append_assoc. symmetry.
      apply (not_nullable_zod _ "}"%char); [|discriminate].
      rewrite append_assoc. rewrite lastChar_append by (apply nonEmpty_append; reflexivity).
      rewrite lastChar_append; reflexivity.
    + rewrite lastChar_append by (apply nonEmpty_append; reflexivity).
      rewrite lastChar_append; reflexivity.
  - (* Map *)
    apply rbind_inv in Hts. destruct Hts as [inner [Hin Hts]]. injection Hts as <-.
    destruct (IH _ _ _ resolvedTs Hin) as [z [-> [_ Hlast]]]. cbn [rbind].
    eexists. split; [reflexivity|]. split.
    + rewrite (not_nullable_by_last _ ">"%char); [| |discriminate].
      2:{ rewrite lastChar_append by (apply nonEmpty_append; reflexivity).
          rewrite lastChar_append; reflexivity. }
      rewrite <- append_assoc. symmetry.
      apply (not_nullable_zod _ ")"%char); [|discriminate].
      rewrite lastChar_append; [exact Hlast|]. destruct z; [discriminate|reflexivity].
    + rewrite lastChar_append by (apply nonEmpty_append; reflexivity).
      apply lastChar_append. reflexivity.
  - (* Enum *)
    injection Hts as <-. eexists. split; [reflexivity|].
    rewrite mapEnumType_not_nullable. unfold mapEnumZodSchema.
    destruct (extractEnumKeysForZod (args t)) as [|k keys]; [split; reflexivity|].
    split.
    + rewrite <- append_assoc. symmetry.
      apply (not_nullable_zod _ "]"%char); [|discriminate].
      rewrite lastChar_append by (apply nonEmpty_append; apply nonEmpty_append; reflexivity).
      rewrite lastChar_append by (apply nonEmpty_append; reflexivity).
      apply lastChar_append. reflexivity.
    + rewrite lastChar_append by (apply nonEmpty_append; reflexivity).
      apply lastChar_append. reflexivity.
  - injection Hts as <-. eexists. split; [reflexivity|]. split; [|reflexivity].
    unfold mapDecimalType. destruct (String.eqb _ _); reflexivity.
  - injection Hts as <-. eexists. split; [reflexivity|]. split; reflexivity.
  - injection Hts as <-. eexists. split; [reflexivity|].
    unfold mapBigIntType, mapBigIntZodSchema.
    destruct (String.eqb _ _); destruct (JsonSchema.containsWord _ _ _); split; reflexivity.
  - injection Hts as <-. eexists. split; [reflexivity|]. split; reflexivity.
  - injection Hts as <-. eexists. split; [reflexivity|].
    unfold mapDateTimeType, mapDateTimeZodSchema.
    destruct (String.eqb _ _); destruct (JsonSchema.containsWord _ _ _); split; reflexivity.
  - unfold handleUnknownType in Hts. destruct (failOnUnknown options); [discriminate|].
    injection Hts as <-. eexists. split; [reflexivity|]. split; reflexivity.
Qed.

Lemma zodForTypeAst_start (t : TypeAst) (resolvedTs : string) :
  zodForTypeAst t resolvedTs = zodForTypeAst_rec (S (MAX_ZOD_DEPTH + 1)) t resolvedTs 0.
Proof. reflexivity. Qed.

Lemma zod_of_mapping (t : TypeAst) (tsType : string) :
  mapTypeAstToTs t options = Ok tsType ->
  exists schema,
    zodForTypeAst t tsType = Ok schema /\
    isNullableTs tsType = isNullableZod schema.
Proof.
  intros H. rewrite mapTypeAstToTs_start in H. rewrite zodForTypeAst_start.
  change MAX_ZOD_DEPTH with MAX_TYPE_DEPTH.
  destruct (zod_rec _ _ _ _ tsType H) as [schema [Hz [Hn _]]].
  exists schema. split; assumption.
Qed.

End Zod.

(** X10: the interface and the Zod schema agree on nullability.  For every
    column of a table that [map] produces without plugin, the Zod generator
    returns a schema, and that schema ends in [.nullable()] exactly when the
    type text of the column is a union ending in [| null]. *)
Theorem X10_zod_nullability_agrees (tables : list TableAst) (options : MappingOptions)
    (mapped : list MappedTable) :
  plugins options = None ->
  Mapping.map tables options = Ok mapped ->
  forall table, In table mapped ->
  forall column, In column (mt_columns table) ->
    exists schema,
      Emitter.zodForTypeAst (mc_typeAst column) (mc_tsType column) = Ok schema /\
      isNullableTs (mc_tsType column) = isNullableZod schema.
Proof.
  intros Hplugins Hmap table Htable column Hcolumn.
  destruct (map_columns _ _ _ Hmap table Htable column Hcolumn) as [Hts _].
  apply (zod_of_mapping options Hplugins _ _ Hts).
Qed.

Lemma X10_zod_nullability_agrees_witness :
  Mapping.map (Index.parse mixedCaseDdl) defaultOptions = Ok [mixedTable] /\
  exists schema,
    Emitter.zodForTypeAst (mc_typeAst mixedColumnB) (mc_tsType mixedColumnB) = Ok schema /\
    isNullableTs (mc_tsType mixedColumnB) = isNullableZod schema.
Proof.
  assert (Hmap : Mapping.map (Index.parse mixedCaseDdl) defaultOptions = Ok [mixedTable])
    by (vm_compute; reflexivity).
  split; [exact Hmap|].
  apply (X10_zod_nullability_agrees _ defaultOptions [mixedTable] eq_refl Hmap
           mixedTable (or_introl eq_refl) mixedColumnB).
  right. left. reflexivity.
Defined.

(* ================================================================== *)
(** * The emitted file *)
(* ================================================================== *)

Section EmittedFile.
Import Emitter.

Lemma mapM_ok_Forall {A} (f : A -> result unit) (l : list A) (us : list unit) :
  mapM f l = Ok us -> Forall (fun x => f x = Ok tt) l.
Proof.
  intros H. apply mapM_Forall2 in H.
  induction H as [|x u l' us' Hx _ IH]; constructor; [|exact IH].
  destruct u. exact Hx.
Qed.

Lemma Forall_mapM_ok {A} (f : A -> result unit) (l : list A) :
  Forall (fun x => f x = Ok tt) l -> exists us, mapM f l = Ok us.
Proof.
  induction 1 as [|x l Hx _ [us IH]]; [eexists; reflexivity|].
  cbn [mapM]. rewrite Hx, IH. eexists. reflexivity.
Qed.

Lemma validateTableForEmission_iff (table : MappedTable) :
  validateTableForEmission table = Ok tt <-> emittable table.
Proof.
  unfold validateTableForEmission, emittable, assert. split.
  - intros H. destruct (Js.nonEmpty (interfaceName table)); [|discriminate].
    cbn [rbind] in H.
    destruct (Nat.leb (length (mt_columns table)) MAX_COLUMNS) eqn:Hlen; [|discriminate].
    cbn [rbind] in H. apply Nat.leb_le in Hlen.
    split; [reflexivity|]. split; [exact Hlen|].
    destruct (mapM validateColumnForEmission (mt_columns table)) as [us|] eqn:Hm;
      [|discriminate].
    apply mapM_ok_Forall in Hm. eapply Forall_impl; [exact Hm|].
    intros column Hc. unfold validateColumnForEmission, assert in Hc.
    destruct (Js.nonEmpty (mc_name column)); [reflexivity|discriminate].
  - intros [Hname [Hlen Hcolumns]]. rewrite Hname. cbn [rbind].
    replace (Nat.leb (length (mt_columns table)) MAX_COLUMNS) with true
      by (symmetry; apply Nat.leb_le; exact Hlen).
    cbn [rbind].
    destruct (Forall_mapM_ok validateColumnForEmission (mt_columns table)) as [us ->];
      [|reflexivity].
    eapply Forall_impl; [exact Hcolumns|].
    intros column Hc. unfold validateColumnForEmission, assert. rewrite Hc. reflexivity.
Qed.

Lemma validateEmissionInput_iff (tables : list MappedTable) (options : EmissionOptions) :
  validateEmissionInput tables options = Ok tt <->
  length tables <= MAX_TABLES /\ Forall emittable tables.
Proof.
  unfold validateEmissionInput, assert. split.
  - intros H. destruct (Nat.leb (length tables) MAX_TABLES) eqn:Hlen; [|discriminate].
    cbn [rbind] in H. apply Nat.leb_le in Hlen. split; [exact Hlen|].
    destruct (mapM validateTableForEmission tables) as [us|] eqn:Hm; [|discriminate].
    apply mapM_ok_Forall in Hm. eapply Forall_impl; [exact Hm|].
    intros table. apply validateTableForEmission_iff.
  - intros [Hlen Htables].
    replace (Nat.leb (length tables) MAX_TABLES) with true
      by (symmetry; apply Nat.leb_le; exact Hlen).
    cbn [rbind].
    destruct (Forall_mapM_ok validateTableForEmission tables) as [us ->]; [|reflexivity].
    eapply Forall_impl; [exact Htables|].
    intros table. apply validateTableForEmission_iff.
Qed.

Lemma interfacesOf_app (a b : list Statement) :
  interfacesOf (a ++ b) = (interfacesOf a ++ interfacesOf b)%list.
Proof.
  induction a as [|s a IH]; [reflexivity|].
  destruct s; cbn [app interfacesOf]; rewrite IH; reflexivity.
Qed.

Lemma schemasOf_app (a b : list Statement) :
  schemasOf (a ++ b) = (schemasOf a ++ schemasOf b)%list.
Proof.
  induction a as [|s a IH]; [reflexivity|].
  destruct s; cbn [app schemasOf]; rewrite IH; reflexivity.
Qed.

Lemma preambleOf_app (a b : list Statement) :
  preambleOf (a ++ b) = (preambleOf a ++ preambleOf b)%list.
Proof.
  induction a as [|s a IH]; [reflexivity|].
  destruct s; cbn [app preambleOf]; rewrite IH; reflexivity.
Qed.

Lemma interface_of_table (table : MappedTable) :
  length (mt_columns table) <= MAX_COLUMNS ->
  interfacesOf [interfaceStatement table] = [interfaceFor table].
Proof.
  intros Hlen. unfold interfaceStatement, createInterfaceProperties, interfaceFor.
  cbn [interfacesOf]. rewrite firstn_all2 by exact Hlen.
  rewrite List.map_map. reflexivity.
Qed.

(** The statements of the tables: one interface per table, and the schema
    constant behind it when Zod is asked for. *)
Lemma bodyStatements_shape (dependencies : EmissionDependencies)
    (tables : list MappedTable) (statements : list Statement) :
  length tables <= MAX_TABLES -> Forall emittable tables ->
  bodyStatements dependencies tables = Ok statements ->
  interfacesOf statements = List.map interfaceFor tables /\
  schemasOf statements =
    (if needsZod dependencies then List.map schemaName tables else []) /\
  preambleOf statements = [].
Proof.
  intros Hlen Hvalid H. unfold bodyStatements in H.
  rewrite firstn_all2 in H by exact Hlen.
  apply rbind_inv in H. destruct H as [groups [Hgroups H]]. injection H as <-.
  apply mapM_Forall2 in Hgroups. clear Hlen. revert Hvalid.
  induction Hgroups as [|table group l gs Hgroup _ IH]; intros Hvalid.
  - destruct (needsZod dependencies); repeat split; reflexivity.
  - apply List.Forall_cons_iff in Hvalid. destruct Hvalid as [[_ [Hcolumns _]] Hrest].
    destruct (IH Hrest) as [IHi [IHs IHp]].
    cbn [concat List.map]. rewrite interfacesOf_app, schemasOf_app, preambleOf_app.
    rewrite IHi, IHs, IHp. unfold tableStatements in Hgroup.
    destruct (needsZod dependencies).
    + apply rbind_inv in Hgroup. destruct Hgroup as [schema [Hschema Hgroup]].
      injection Hgroup as <-. unfold schemaStatement in Hschema.
      apply rbind_inv in Hschema. destruct Hschema as [entries [_ Hschema]].
      injection Hschema as <-.
      change (interfacesOf [interfaceStatement table; VariableStatement _ _])
        with (interfacesOf [interfaceStatement table]).
      rewrite (interface_of_table table Hcolumns). repeat split; reflexivity.
    + injection Hgroup as <-.
      rewrite (interface_of_table table Hcolumns). repeat split; reflexivity.
Qed.

(** Each table has its block, and the blocks follow each other. *)
Lemma bodyStatements_blocks (dependencies : EmissionDependencies)
    (tables : list MappedTable) (statements : list Statement) :
  length tables <= MAX_TABLES -> Forall emittable tables ->
  bodyStatements dependencies tables = Ok statements ->
  exists blocks,
    Forall2 (tableBlock (needsZod dependencies)) tables blocks /\
    statements = concat blocks.
Proof.
  intros Hlen Hvalid H. unfold bodyStatements in H.
  rewrite firstn_all2 in H by exact Hlen.
  apply rbind_inv in H. destruct H as [groups [Hgroups H]]. injection H as <-.
  exists groups. split; [|reflexivity].
  apply mapM_Forall2 in Hgroups. clear Hlen. revert Hvalid.
  induction Hgroups as [|table group l gs Hgroup _ IH]; intros Hvalid; [constructor|].
  apply List.Forall_cons_iff in Hvalid. destruct Hvalid as [[_ [Hcolumns _]] Hrest].
  constructor; [|exact (IH Hrest)].
  assert (Hinterface : interfaceStatement table =
            InterfaceDeclaration (interfaceName table)
              (List.map propertyFor (mt_columns table))).
  { unfold interfaceStatement, createInterfaceProperties.
    rewrite firstn_all2 by exact Hcolumns. reflexivity. }
  unfold tableStatements in Hgroup. unfold tableBlock.
  destruct (needsZod dependencies).
  - apply rbind_inv in Hgroup. destruct Hgroup as [schema [Hschema Hgroup]].
    injection Hgroup as <-. unfold schemaStatement in Hschema.
    apply rbind_inv in Hschema. destruct Hschema as [entries [Hentries Hschema]].
    injection Hschema as <-. exists entries. rewrite Hinterface.
    split; [exact Hentries|reflexivity].
  - injection Hgroup as <-. rewrite Hinterface. reflexivity.
Qed.

Lemma imports_statements (dependencies : EmissionDependencies) :
  interfacesOf (importsFor dependencies) = [] /\
  schemasOf (importsFor dependencies) = [] /\
  preambleOf (importsFor dependencies) = importsFor dependencies.
Proof.
  unfold importsFor.
  destruct (needsZod dependencies), (needsDecimal dependencies); repeat split; reflexivity.
Qed.

Lemma aliases_statements (dependencies : EmissionDependencies) :
  interfacesOf (aliasesFor dependencies) = [] /\
  schemasOf (aliasesFor dependencies) = [] /\
  preambleOf (aliasesFor dependencies) = aliasesFor dependencies.
Proof.
  unfold aliasesFor.
  destruct (needsIPv4 dependencies), (needsIPv6 dependencies); repeat split; reflexivity.
Qed.

(** *** The calls of ts-morph *)

Variable tsMorph : list Statement -> Statement -> bool.

Lemma sourceFileAdd_inv (file : list Statement) (statement : Statement)
    (file' : list Statement) :
  sourceFileAdd tsMorph file statement = Ok file' -> file' = (file ++ [statement])%list.
Proof.
  unfold sourceFileAdd. destruct (tsMorph file statement); intros H; [|discriminate H].
  injection H as <-. reflexivity.
Qed.

Lemma sourceFileAdd_err (file : list Statement) (statement : Statement) (e : error) :
  sourceFileAdd tsMorph file statement = Err e -> e = TsMorphError.
Proof.
  unfold sourceFileAdd. destruct (tsMorph file statement); intros H; [discriminate H|].
  injection H as <-. reflexivity.
Qed.

Lemma sourceFileAdd_accept (file : list Statement) (statement : Statement) :
  (forall f s, tsMorph f s = true) ->
  sourceFileAdd tsMorph file statement = Ok (file ++ [statement])%list.
Proof. intros H. unfold sourceFileAdd. rewrite H. reflexivity. Qed.

Lemma addImports_inv (dependencies : EmissionDependencies) (file file' : list Statement) :
  addImports tsMorph dependencies file = Ok file' ->
  file' = (file ++ importsFor dependencies)%list.
Proof.
  unfold addImports, importsFor. intros H.
  apply rbind_inv in H. destruct H as [file1 [H1 H]].
  destruct (needsZod dependencies), (needsDecimal dependencies);
    repeat match goal with
           | H : sourceFileAdd _ _ _ = Ok _ |- _ => apply sourceFileAdd_inv in H; subst
           | H : Ok _ = Ok _ |- _ => injection H as <-
           end;
    cbn [app]; rewrite <- ?app_assoc, ?app_nil_r; reflexivity.
Qed.

Lemma addImports_err (dependencies : EmissionDependencies) (file : list Statement)
    (e : error) :
  addImports tsMorph dependencies file = Err e -> e = TsMorphError.
Proof.
  unfold addImports. intros H.
  apply rbind_inv_err in H. destruct H as [H | [file1 [_ H]]].
  - destruct (needsZod dependencies); [exact (sourceFileAdd_err _ _ _ H)|discriminate H].
  - destruct (needsDecimal dependencies); [exact (sourceFileAdd_err _ _ _ H)|discriminate H].
Qed.

Lemma addImports_accept (dependencies : EmissionDependencies) (file : list Statement) :
  (forall f s, tsMorph f s = true) ->
  addImports tsMorph dependencies file = Ok (file ++ importsFor dependencies)%list.
Proof.
  intros Haccept. unfold addImports, importsFor.
  destruct (needsZod dependencies), (needsDecimal dependencies);
    rewrite ?(sourceFileAdd_accept _ _ Haccept); cbn [rbind];
    rewrite ?(sourceFileAdd_accept _ _ Haccept);
    cbn [app]; rewrite <- ?app_assoc, ?app_nil_r; reflexivity.
Qed.

Lemma addTypeAliases_inv (dependencies : EmissionDependencies)
    (file file' : list Statement) :
  addTypeAliases tsMorph dependencies file = Ok file' ->
  file' = (file ++ aliasesFor dependencies)%list.
Proof.
  unfold addTypeAliases, aliasesFor. intros H.
  apply rbind_inv in H. destruct H as [file1 [H1 H]].
  destruct (needsIPv4 dependencies), (needsIPv6 dependencies);
    repeat match goal with
           | H : sourceFileAdd _ _ _ = Ok _ |- _ => apply sourceFileAdd_inv in H; subst
           | H : Ok _ = Ok _ |- _ => injection H as <-
           end;
    cbn [app]; rewrite <- ?app_assoc, ?app_nil_r; reflexivity.
Qed.

Lemma addTypeAliases_err (dependencies : EmissionDependencies) (file : list Statement)
    (e : error) :
  addTypeAliases tsMorph dependencies file = Err e -> e = TsMorphError.
Proof.
  unfold addTypeAliases. intros H.
  apply rbind_inv_err in H. destruct H as [H | [file1 [_ H]]].
  - destruct (needsIPv4 dependencies); [exact (sourceFileAdd_err _ _ _ H)|discriminate H].
  - destruct (needsIPv6 dependencies); [exact (sourceFileAdd_err _ _ _ H)|discriminate H].
Qed.

Lemma addTypeAliases_accept (dependencies : EmissionDependencies)
    (file : list Statement) :
  (forall f s, tsMorph f s = true) ->
  addTypeAliases tsMorph dependencies file = Ok (file ++ aliasesFor dependencies)%list.
Proof.
  intros Haccept. unfold addTypeAliases, aliasesFor.
  destruct (needsIPv4 dependencies), (needsIPv6 dependencies);
    rewrite ?(sourceFileAdd_accept _ _ Haccept); cbn [rbind];
    rewrite ?(sourceFileAdd_accept _ _ Haccept);
    cbn [app]; rewrite <- ?app_assoc, ?app_nil_r; reflexivity.
Qed.

(** The loop adds the statements of the tables. *)
Lemma addTableInterfaces_loop_inv (dependencies : EmissionDependencies)
    (tables : list MappedTable) :
  forall file file',
    addTableInterfaces_loop tsMorph dependencies tables file = Ok file' ->
    exists groups,
      mapM (tableStatements dependencies) tables = Ok groups /\
      file' = (file ++ concat groups)%list.
Proof.
  induction tables as [|table tables IH]; intros file file' H.
  - injection H as <-. exists []. split; [reflexivity|]. cbn [concat].
    rewrite app_nil_r. reflexivity.
  - cbn [addTableInterfaces_loop] in H.
    apply rbind_inv in H. destruct H as [file1 [H1 H]].
    apply sourceFileAdd_inv in H1. subst file1.
    apply rbind_inv in H. destruct H as [file2 [H2 H]].
    destruct (IH _ _ H) as [groups [Hgroups ->]].
    cbn [mapM]. unfold tableStatements at 1.
    fold (interfaceStatement table) in H2 |- *.
    destruct (needsZod dependencies).
    + unfold addSingleTableZodSchema in H2.
      apply rbind_inv in H2. destruct H2 as [entries [Hentries H2]].
      apply sourceFileAdd_inv in H2. subst file2.
      unfold schemaStatement. rewrite Hentries. cbn [rbind]. rewrite Hgroups. cbn [rbind].
      eexists. split; [reflexivity|]. cbn [concat app].
      rewrite <- !app_assoc. reflexivity.
    + injection H2 as <-. cbn [rbind]. rewrite Hgroups. cbn [rbind].
      eexists. split; [reflexivity|]. cbn [concat app].
      rewrite <- !app_assoc. reflexivity.
Qed.

(** It fails inside ts-morph, or on the Zod schema of a column. *)
Lemma addTableInterfaces_loop_err (dependencies : EmissionDependencies)
    (tables : list MappedTable) :
  forall file e,
    addTableInterfaces_loop tsMorph dependencies tables file = Err e ->
    e = TsMorphError \/
    (needsZod dependencies = true /\
     exists table, In table tables /\ createZodPropertyEntries table = Err e).
Proof.
  induction tables as [|table tables IH]; intros file e H; [discriminate H|].
  cbn [addTableInterfaces_loop] in H.
  apply rbind_inv_err in H. destruct H as [H | [file1 [_ H]]];
    [left; exact (sourceFileAdd_err _ _ _ H)|].
  apply rbind_inv_err in H. destruct H as [H | [file2 [_ H]]].
  - destruct (needsZod dependencies) eqn:Hzod; [|discriminate H].
    unfold addSingleTableZodSchema in H.
    apply rbind_inv_err in H. destruct H as [H | [entries [_ H]]].
    + right. split; [reflexivity|]. exists table. split; [left; reflexivity|exact H].
    + left. exact (sourceFileAdd_err _ _ _ H).
  - destruct (IH _ _ H) as [He | [Hzod [t [Hin Ht]]]]; [left; exact He|].
    right. split; [exact Hzod|]. exists t. split; [right; exact Hin|exact Ht].
Qed.

Lemma addTableInterfaces_loop_accept (dependencies : EmissionDependencies)
    (tables : list MappedTable) :
  (forall f s, tsMorph f s = true) ->
  forall groups file,
    mapM (tableStatements dependencies) tables = Ok groups ->
    addTableInterfaces_loop tsMorph dependencies tables file =
      Ok (file ++ concat groups)%list.
Proof.
  intros Haccept. induction tables as [|table tables IH]; intros groups file H.
  - injection H as <-. cbn [concat]. rewrite app_nil_r. reflexivity.
  - cbn [mapM] in H. apply rbind_inv in H. destruct H as [group [Hgroup H]].
    apply rbind_inv in H. destruct H as [rest [Hrest H]]. injection H as <-.
    cbn [addTableInterfaces_loop]. unfold addSingleTableInterface. cbv zeta.
    rewrite (sourceFileAdd_accept _ _ Haccept). cbn [rbind].
    unfold tableStatements in Hgroup. fold (interfaceStatement table).
    destruct (needsZod dependencies).
    + apply rbind_inv in Hgroup. destruct Hgroup as [schema [Hschema Hgroup]].
      injection Hgroup as <-. unfold schemaStatement in Hschema.
      apply rbind_inv in Hschema. destruct Hschema as [entries [Hentries Hschema]].
      injection Hschema as <-.
      unfold addSingleTableZodSchema. rewrite Hentries. cbn [rbind]. cbv zeta.
      rewrite (sourceFileAdd_accept _ _ Haccept). cbn [rbind].
      rewrite (IH _ _ Hrest). cbn [concat app]. rewrite <- !app_assoc. reflexivity.
    + injection Hgroup as <-. cbn [rbind].
      rewrite (IH _ _ Hrest). cbn [concat app]. rewrite <- !app_assoc. reflexivity.
Qed.

(** The file [emit] returns. *)
Lemma emit_inv (tables : list MappedTable) (options : EmissionOptions)
    (statements : list Statement) :
  emit tsMorph tables options = Ok statements ->
  validateEmissionInput tables options = Ok tt /\
  exists body,
    bodyStatements (analyzeDependencies tables options) tables = Ok body /\
    statements =
      ([FileHeader options] ++ importsFor (analyzeDependencies tables options) ++
       aliasesFor (analyzeDependencies tables options) ++ body)%list.
Proof.
  unfold emit. intros H.
  apply rbind_inv in H. destruct H as [[] [Hvalid H]]. split; [exact Hvalid|].
  cbv zeta in H. unfold generateSourceContent in H.
  apply rbind_inv in H. destruct H as [file0 [H0 H]].
  apply sourceFileAdd_inv in H0. subst file0.
  apply rbind_inv in H. destruct H as [file1 [H1 H]].
  apply addImports_inv in H1. subst file1.
  apply rbind_inv in H. destruct H as [file2 [H2 H]].
  apply addTypeAliases_inv in H2. subst file2.
  apply addTableInterfaces_loop_inv in H. destruct H as [groups [Hgroups ->]].
  exists (concat groups). unfold bodyStatements. rewrite Hgroups. cbn [rbind].
  split; [reflexivity|]. cbn [app]. rewrite <- !app_assoc. reflexivity.
Qed.

(** What makes [emit] throw: its validation, ts-morph, or the Zod schema
    of a column. *)
Lemma emit_failure (tables : list MappedTable) (options : EmissionOptions) (e : error) :
  emit tsMorph tables options = Err e ->
  validateEmissionInput tables options = Err e \/
  e = TsMorphError \/
  (emitZod options = true /\
   exists table, In table tables /\ createZodPropertyEntries table = Err e).
Proof.
  unfold emit. intros H.
  apply rbind_inv_err in H. destruct H as [H | [u [_ H]]]; [left; exact H|].
  right. cbv zeta in H. unfold generateSourceContent in H.
  apply rbind_inv_err in H. destruct H as [H | [file0 [_ H]]];
    [left; exact (sourceFileAdd_err _ _ _ H)|].
  apply rbind_inv_err in H. destruct H as [H | [file1 [_ H]]];
    [left; exact (addImports_err _ _ _ H)|].
  apply rbind_inv_err in H. destruct H as [H | [file2 [_ H]]];
    [left; exact (addTypeAliases_err _ _ _ H)|].
  apply addTableInterfaces_loop_err in H.
  destruct H as [H | [Hzod [table [Hin H]]]]; [left; exact H|].
  right. split; [exact Hzod|]. exists table. split; [|exact H].
  exact (In_take _ _ _ Hin).
Qed.

(** When ts-morph accepts every call, [emit] returns the file. *)
Lemma emit_accept (tables : list MappedTable) (options : EmissionOptions)
    (body : list Statement) :
  (forall f s, tsMorph f s = true) ->
  validateEmissionInput tables options = Ok tt ->
  bodyStatements (analyzeDependencies tables options) tables = Ok body ->
  emit tsMorph tables options =
    Ok ([FileHeader options] ++ importsFor (analyzeDependencies tables options) ++
        aliasesFor (analyzeDependencies tables options) ++ body)%list.
Proof.
  intros Haccept Hvalid Hbody. unfold emit. rewrite Hvalid. cbn [rbind]. cbv zeta.
  unfold generateSourceContent, addFileHeader.
  rewrite (sourceFileAdd_accept _ _ Haccept). cbn [rbind].
  rewrite (addImports_accept _ _ Haccept). cbn [rbind].
  rewrite (addTypeAliases_accept _ _ Haccept). cbn [rbind].
  unfold bodyStatements in Hbody.
  apply rbind_inv in Hbody. destruct Hbody as [groups [Hgroups Hbody]].
  injection Hbody as <-. unfold addTableInterfaces.
  rewrite (addTableInterfaces_loop_accept _ _ Haccept _ _ Hgroups).
  cbn [app]. rewrite <- !app_assoc. reflexivity.
Qed.

(** X11: the file [emit] builds.  It starts with the header, the imports
    and the aliases; after them come the blocks of the tables, in the order
    of the input: for each table its interface (one required property per
    column, in order, under the name and the type text of the column,
    documented by the original type) and, when Zod is asked for, the schema
    constant [<Interface>Schema] right behind it. *)
Theorem X11_emitted_file (tables : list MappedTable) (options : EmissionOptions)
    (statements : list Statement) :
  emit tsMorph tables options = Ok statements ->
  interfacesOf statements = List.map interfaceFor tables /\
  schemasOf statements = (if emitZod options then List.map schemaName tables else []) /\
  preambleOf statements =
    (FileHeader options :: importsFor (analyzeDependencies tables options) ++
     aliasesFor (analyzeDependencies tables options))%list /\
  exists blocks,
    Forall2 (tableBlock (emitZod options)) tables blocks /\
    statements =
      (FileHeader options :: importsFor (analyzeDependencies tables options) ++
       aliasesFor (analyzeDependencies tables options) ++ concat blocks)%list.
Proof.
  intros H. apply emit_inv in H. destruct H as [Hvalid [body [Hbody ->]]].
  apply validateEmissionInput_iff in Hvalid. destruct Hvalid as [Hlen Hvalid].
  destruct (bodyStatements_shape _ _ _ Hlen Hvalid Hbody) as [Hi [Hs Hp]].
  destruct (bodyStatements_blocks _ _ _ Hlen Hvalid Hbody) as [blocks [Hblocks Hconcat]].
  destruct (imports_statements (analyzeDependencies tables options)) as [Ii [Is Ip]].
  destruct (aliases_statements (analyzeDependencies tables options)) as [Ai [As Ap]].
  cbn [app interfacesOf schemasOf preambleOf].
  rewrite !interfacesOf_app, !schemasOf_app, !preambleOf_app.
  rewrite Ii, Is, Ip, Ai, As, Ap, Hi, Hs, Hp, app_nil_r. cbn [app].
  repeat split; try reflexivity.
  exists blocks. split; [exact Hblocks|]. rewrite Hconcat. reflexivity.
Qed.

End EmittedFile.

Lemma X11_emitted_file_witness :
  Emitter.emit acceptAll mixedMapped zodOptions =
    Ok (fileOf (Emitter.emit acceptAll mixedMapped zodOptions)) /\
  interfacesOf (fileOf (Emitter.emit acceptAll mixedMapped zodOptions)) =
    [("T", [("a", "unknown"); ("b", "string | null"); ("c", "'it\'s' | 'b'")])] /\
  schemasOf (fileOf (Emitter.emit acceptAll mixedMapped zodOptions)) = ["TSchema"].
Proof.
  assert (H : Emitter.emit acceptAll mixedMapped zodOptions =
              Ok (fileOf (Emitter.emit acceptAll mixedMapped zodOptions)))
    by (vm_compute; reflexivity).
  split; [exact H|].
  destruct (X11_emitted_file _ _ _ _ H) as [Hi [Hs _]].
  rewrite Hi, Hs. split; vm_compute; reflexivity.
Defined.

(* ================================================================== *)
(** * From the mapper to the emitter *)
(* ================================================================== *)

Section EmitPipeline.
Import Mapping Emitter.

Variable options : MappingOptions.
Hypothesis no_plugins : plugins options = None.

(** Without plugin, the text of a mapped type does not end in a digit. *)
Lemma ts_last_char (fuel : nat) :
  forall (t : TypeAst) (d : nat) (tsType : string),
    mapTypeAstToTs_rec fuel t options d = Ok tsType ->
    exists c, Js.lastChar tsType = Some c /\ Js.isDigit c = false.
Proof.
  induction fuel as [|fuel IH]; intros t d tsType Hts; [discriminate|].
  cbn [mapTypeAstToTs_rec] in Hts.
  destruct (Nat.ltb MAX_TYPE_DEPTH d); [discriminate|].
  apply rbind_inv in Hts. destruct Hts as [u [_ Hts]].
  apply rbind_inv in Hts. destruct Hts as [u' [_ Hts]].
  unfold tryPluginMapping in Hts. rewrite no_plugins in Hts.
  destruct (typeKind (name t)).
  - apply rbind_inv in Hts. destruct Hts as [inner [_ Hts]]. injection Hts as <-.
    exists "l"%char. split; [apply lastChar_append|]; reflexivity.
  - apply (IH _ _ _ Hts).
  - apply rbind_inv in Hts. destruct Hts as [inner [_ Hts]]. injection Hts as <-.
    exists "]"%char. split; [apply lastChar_append|]; reflexivity.
  - apply rbind_inv in Hts. destruct Hts as [parts [_ Hts]]. injection Hts as <-.
    exists "}"%char. split; [|reflexivity].
    rewrite lastChar_append by (apply nonEmpty_append; reflexivity).
    apply lastChar_append. reflexivity.
  - apply rbind_inv in Hts. destruct Hts as [inner [_ Hts]]. injection Hts as <-.
    exists ">"%char. split; [|reflexivity].
    rewrite lastChar_append by (apply nonEmpty_append; reflexivity).
    apply lastChar_append. reflexivity.
  - injection Hts as <-. unfold mapEnumType.
    destruct (extractEnumKeys (args t)) as [|k keys] eqn:E.
    + exists "g"%char. split; reflexivity.
    + exists "'"%char. split; [|reflexivity]. apply join_quoted_last. discriminate.
  - injection Hts as <-. unfold mapDecimalType.
    destruct (String.eqb _ _); [exists "l"%char|exists "g"%char]; split; reflexivity.
  - injection Hts as <-. exists "r"%char. split; reflexivity.
  - injection Hts as <-. unfold mapBigIntType.
    destruct (String.eqb _ _); [exists "t"%char|exists "g"%char]; split; reflexivity.
  - injection Hts as <-. exists "g"%char. split; reflexivity.
  - injection Hts as <-. unfold mapDateTimeType.
    destruct (String.eqb _ _); [exists "e"%char|exists "g"%char]; split; reflexivity.
  - unfold handleUnknownType in Hts. destruct (failOnUnknown options); [discriminate|].
    injection Hts as <-. exists "n"%char. split; reflexivity.
Qed.

Lemma mapped_not_address (t : TypeAst) (tsType : string) :
  mapTypeAstToTs t options = Ok tsType ->
  String.eqb tsType "IPv4" = false /\ String.eqb tsType "IPv6" = false.
Proof.
  intros H. rewrite mapTypeAstToTs_start in H.
  destruct (ts_last_char _ _ _ _ H) as [c [Hlast Hdigit]].
  split; apply String.eqb_neq; intros ->; cbn in Hlast; injection Hlast as <-;
    discriminate Hdigit.
Qed.

Lemma mapM_exists {A B} (f : A -> result B) (l : list A) :
  Forall (fun x => exists y, f x = Ok y) l -> exists ys, mapM f l = Ok ys.
Proof.
  induction 1 as [|x l [y Hy] _ [ys IH]]; [eexists; reflexivity|].
  cbn [mapM]. rewrite Hy, IH. eexists. reflexivity.
Qed.

Lemma preamble_no_alias (statements : list Statement) :
  preambleOf statements = [] -> aliasesOf statements = [].
Proof.
  induction statements as [|s rest IH]; [reflexivity|].
  destruct s; cbn [preambleOf aliasesOf]; try discriminate; exact IH.
Qed.

Lemma aliasesOf_app (a b : list Statement) :
  aliasesOf (a ++ b) = (aliasesOf a ++ aliasesOf b)%list.
Proof.
  induction a as [|s a IH]; [reflexivity|].
  destruct s; cbn [app aliasesOf]; rewrite IH; reflexivity.
Qed.

Lemma hasTsType_false (ts : string) (columns : list MappedColumn) :
  Forall (fun column => String.eqb (mc_tsType column) ts = false) columns ->
  hasTsType ts columns = false.
Proof.
  induction 1 as [|column columns Hc _ IH]; [reflexivity|].
  unfold hasTsType in *. cbn [existsb]. rewrite Hc, IH. reflexivity.
Qed.

Lemma map_length (tables : list TableAst) (mapped : list MappedTable) :
  map tables options = Ok mapped ->
  length mapped = length tables /\ length tables <= Mapping.MAX_TABLES.
Proof.
  unfold map, assert. intros H.
  destruct (Nat.leb (length tables) Mapping.MAX_TABLES) eqn:Hlen; [|discriminate].
  cbn [rbind] in H. apply Nat.leb_le in Hlen.
  apply rbind_inv in H. destruct H as [u [_ H]].
  apply mapM_Forall2 in H. apply Forall2_length in H. split; [symmetry; exact H|exact Hlen].
Qed.

(** The columns of a result of [map]: named, with a Zod schema, and never
    of type text [IPv4] or [IPv6]. *)
Lemma mapped_columns (tables : list TableAst) (mapped : list MappedTable) :
  map tables options = Ok mapped ->
  forall m, In m mapped -> forall column, In column (mt_columns m) ->
    Js.nonEmpty (mc_name column) = true /\
    (exists schema, zodForTypeAst (mc_typeAst column) (mc_tsType column) = Ok schema) /\
    String.eqb (mc_tsType column) "IPv4" = false /\
    String.eqb (mc_tsType column) "IPv6" = false.
Proof.
  intros Hmap m Hm column Hin.
  destruct (map_columns _ _ _ Hmap m Hm column Hin) as [Hts Hn].
  split; [exact Hn|]. split; [|apply (mapped_not_address _ _ Hts)].
  destruct (zod_of_mapping options no_plugins _ _ Hts) as [schema [Hz _]].
  exists schema. exact Hz.
Qed.

Lemma mapped_emittable (tables : list TableAst) (mapped : list MappedTable) :
  map tables options = Ok mapped ->
  Forall (fun m => length (mt_columns m) <= MAX_COLUMNS) mapped ->
  length mapped <= MAX_TABLES /\ Forall emittable mapped.
Proof.
  intros Hmap Hcolumns.
  destruct (map_length _ _ Hmap) as [Hlen Htables].
  split; [rewrite Hlen; exact Htables|].
  pose proof (map_interface_names _ _ _ Hmap) as Hnames.
  rewrite List.Forall_forall in *. intros m Hm.
  split; [apply Hnames; exact Hm|]. split; [apply Hcolumns; exact Hm|].
  apply List.Forall_forall. intros column Hin.
  apply (mapped_columns _ _ Hmap m Hm column Hin).
Qed.

(** The Zod entries of a mapped table. *)
Lemma mapped_entries (tables : list TableAst) (mapped : list MappedTable) :
  map tables options = Ok mapped ->
  forall m, In m mapped -> exists entries, createZodPropertyEntries m = Ok entries.
Proof.
  intros Hmap m Hm. unfold createZodPropertyEntries.
  apply mapM_exists. apply List.Forall_forall. intros column Hin.
  apply In_take in Hin.
  destruct (mapped_columns _ _ Hmap m Hm column Hin) as [_ [[schema ->] _]].
  eexists. reflexivity.
Qed.

Lemma mapped_interfaces (tables : list TableAst) (mapped : list MappedTable)
    (dependencies : EmissionDependencies) :
  map tables options = Ok mapped ->
  exists body, bodyStatements dependencies mapped = Ok body.
Proof.
  intros Hmap. unfold bodyStatements.
  destruct (mapM_exists (tableStatements dependencies) (firstn MAX_TABLES mapped))
    as [groups ->]; [|eexists; reflexivity].
  apply List.Forall_forall. intros m Hm. apply In_take in Hm.
  unfold tableStatements. destruct (needsZod dependencies); [|eexists; reflexivity].
  unfold schemaStatement. destruct (mapped_entries _ _ Hmap m Hm) as [entries ->].
  eexists. reflexivity.
Qed.

(** On a result of [map], [emit] fails inside ts-morph only. *)
Lemma mapped_emit_failure (tsMorph : list Statement -> Statement -> bool)
    (tables : list TableAst) (mapped : list MappedTable) (emission : EmissionOptions)
    (e : error) :
  map tables options = Ok mapped ->
  Forall (fun m => length (mt_columns m) <= MAX_COLUMNS) mapped ->
  emit tsMorph mapped emission = Err e -> e = TsMorphError.
Proof.
  intros Hmap Hcolumns H.
  destruct (mapped_emittable _ _ Hmap Hcolumns) as [Hmax Hvalid].
  apply emit_failure in H. destruct H as [H | [H | [_ [m [Hm H]]]]]; [|exact H|].
  - rewrite (proj2 (validateEmissionInput_iff mapped emission) (conj Hmax Hvalid)) in H.
    discriminate H.
  - destruct (mapped_entries _ _ Hmap m Hm) as [entries Hentries].
    rewrite Hentries in H. discriminate H.
Qed.

(** The file of a result of [map] declares no branded alias. *)
Lemma mapped_no_alias (tsMorph : list Statement -> Statement -> bool)
    (tables : list TableAst) (mapped : list MappedTable) (emission : EmissionOptions)
    (statements : list Statement) :
  map tables options = Ok mapped ->
  emit tsMorph mapped emission = Ok statements -> aliasesOf statements = [].
Proof.
  intros Hmap H. apply emit_inv in H. destruct H as [Hinput [body [Hbody ->]]].
  apply validateEmissionInput_iff in Hinput. destruct Hinput as [Hmax Hvalid].
  set (dependencies := analyzeDependencies mapped emission) in *.
  destruct (bodyStatements_shape _ _ _ Hmax Hvalid Hbody) as [_ [_ Hp]].
  cbn [app aliasesOf]. rewrite !aliasesOf_app, (preamble_no_alias body Hp), app_nil_r.
  assert (Hnone : forall ts, (ts = "IPv4" \/ ts = "IPv6") ->
                             hasTsType ts (analyzedColumns mapped) = false).
  { intros ts Hts. apply hasTsType_false. apply List.Forall_forall.
    intros column Hin. unfold analyzedColumns in Hin.
    apply in_flat_map in Hin. destruct Hin as [m [Hm Hin]].
    apply In_take in Hm. apply In_take in Hin.
    destruct (mapped_columns _ _ Hmap m Hm column Hin) as [_ [_ [H4 H6]]].
    destruct Hts as [-> | ->]; assumption. }
  unfold importsFor, aliasesFor, dependencies, analyzeDependencies.
  cbn [needsIPv4 needsIPv6 needsZod needsDecimal].
  rewrite (Hnone "IPv4" (or_introl eq_refl)), (Hnone "IPv6" (or_intror eq_refl)).
  destruct (emitZod emission), (hasTsType "Decimal" (analyzedColumns mapped)); reflexivity.
Qed.

(** X12: what [map] returns, [emit] accepts.  When no plugin is configured
    and no table has more than 1000 columns, [emit] throws on a result of
    [map] only where ts-morph does, with or without Zod schemas: no
    assertion fails and the depth limit of the schema generator is not
    reached; and when ts-morph accepts every call, [emit] builds its file.
    The file never declares the branded aliases IPv4 and IPv6: the mapper
    renders these types as [string], never under their own name. *)
Theorem X12_emit_of_map_result (tsMorph : list Statement -> Statement -> bool)
    (tables : list TableAst) (mapped : list MappedTable) (emission : EmissionOptions) :
  map tables options = Ok mapped ->
  Forall (fun m => length (mt_columns m) <= MAX_COLUMNS) mapped ->
  (forall e, emit tsMorph mapped emission = Err e -> e = TsMorphError) /\
  ((forall file statement, tsMorph file statement = true) ->
   exists statements, emit tsMorph mapped emission = Ok statements) /\
  (forall statements,
     emit tsMorph mapped emission = Ok statements -> aliasesOf statements = []).
Proof.
  intros Hmap Hcolumns. split; [|split].
  - intros e H. exact (mapped_emit_failure tsMorph _ _ _ _ Hmap Hcolumns H).
  - intros Haccept.
    destruct (mapped_emittable _ _ Hmap Hcolumns) as [Hmax Hvalid].
    destruct (mapped_interfaces _ _ (analyzeDependencies mapped emission) Hmap)
      as [body Hbody].
    eexists. apply (emit_accept tsMorph _ _ body Haccept); [|exact Hbody].
    exact (proj2 (validateEmissionInput_iff mapped emission) (conj Hmax Hvalid)).
  - intros statements H. exact (mapped_no_alias tsMorph _ _ _ _ Hmap H).
Qed.

End EmitPipeline.

Lemma X12_emit_of_map_result_witness :
  Mapping.map (Index.parse addressesDdl) decimalOptions = Ok addressesMapped /\
  List.map interfaceFor addressesMapped =
    [("Hosts", [("ip", "string"); ("ip6", "string"); ("price", "Decimal | null")])] /\
  (forall e, Emitter.emit acceptAll addressesMapped zodOptions = Err e -> e = TsMorphError) /\
  (exists statements, Emitter.emit acceptAll addressesMapped zodOptions = Ok statements) /\
  aliasesOf (fileOf (Emitter.emit acceptAll addressesMapped zodOptions)) = [].
Proof.
  assert (Hmap : Mapping.map (Index.parse addressesDdl) decimalOptions = Ok addressesMapped)
    by (vm_compute; reflexivity).
  split; [exact Hmap|]. split; [vm_compute; reflexivity|].
  destruct (X12_emit_of_map_result decimalOptions eq_refl acceptAll _ _ zodOptions Hmap)
    as [Hfail [Hok Halias]].
  - vm_compute. repeat constructor.
  - split; [exact Hfail|]. split; [apply Hok; intros file statement; reflexivity|].
    apply Halias. vm_compute. reflexivity.
Defined.

(* ================================================================== *)
(** * The token stream *)
(* ================================================================== *)

Section TokenStream.
Import Tokens.

Lemma tokensFrom_le (text : string) (ts : list IToken) (from from' : nat) :
  from' <= from -> tokensFrom text from ts -> tokensFrom text from' ts.
Proof.
  destruct ts as [|t ts]; [intros _ H; exact H|].
  cbn [tokensFrom]. intros Hle [Hfrom H]. split; [lia|exact H].
Qed.

Lemma length_append (a b : string) :
  String.length (a +:+ b) = String.length a + String.length b.
Proof.
  induction a as [|c a IH]; [rewrite append_nil; reflexivity|].
  rewrite append_cons. cbn [String.length]. rewrite IH. reflexivity.
Qed.

Lemma dropChars_append (pre s : string) : dropChars (String.length pre) (pre +:+ s) = s.
Proof.
  induction pre as [|c pre IH]; [rewrite append_nil; destruct s; reflexivity|].
  rewrite append_cons. cbn [String.length dropChars]. exact IH.
Qed.

Lemma take_append (pre s : string) : Js.take (String.length pre) (pre +:+ s) = pre.
Proof.
  induction pre as [|c pre IH]; [rewrite append_nil; destruct s; reflexivity|].
  rewrite append_cons. cbn [String.length Js.take]. rewrite IH. reflexivity.
Qed.

Lemma length_take (n : nat) (s : string) : String.length (Js.take n s) <= n.
Proof.
  revert s. induction n as [|n IH]; intros s; [destruct s; cbn; lia|].
  destruct s as [|c s]; cbn [Js.take String.length]; [lia|]. specialize (IH s). lia.
Qed.

Lemma firstMatch_sound (types : list TokenType) (prev : option ascii) (s : string)
    (ty : TokenType) (len : nat) :
  firstMatch types prev s = Some (ty, len) -> matchToken ty prev s = Some len.
Proof.
  induction types as [|ty' types IH]; [discriminate|].
  cbn [firstMatch]. destruct (matchToken ty' prev s) as [len'|] eqn:E; [|exact IH].
  intros H. injection H as <- <-. exact E.
Qed.

Lemma keywordPrefix_positive (kw s : string) (n : nat) :
  Js.nonEmpty kw = true -> keywordPrefix kw s = Some n -> 1 <= n.
Proof.
  destruct kw as [|k kw]; [discriminate|]. intros _.
  destruct s as [|c s]; cbn [keywordPrefix]; [discriminate|].
  destruct (Ascii.eqb _ _); [|discriminate].
  destruct (keywordPrefix kw s); cbn [option_map]; [|discriminate].
  intros H. injection H as <-. lia.
Qed.

Lemma positive_positive (n m : nat) : positive n = Some m -> 1 <= m.
Proof. destruct n; [discriminate|]. intros H. injection H as <-. lia. Qed.

(** Every pattern of the lexer matches one character at least. *)
Lemma matchToken_positive (ty : TokenType) (prev : option ascii) (s : string) (len : nat) :
  matchToken ty prev s = Some len -> 1 <= len.
Proof.
  assert (Hkw : forall kw, Js.nonEmpty kw = true -> matchKeyword kw prev s = Some len ->
                           1 <= len).
  { intros kw Hkw. unfold matchKeyword.
    destruct prev as [p|]; [destruct (Js.isWord p); [discriminate|]|];
      apply keywordPrefix_positive; exact Hkw. }
  assert (Hchar : forall ch, matchChar ch s = Some len -> 1 <= len).
  { intros ch. unfold matchChar. destruct s as [|c s]; [discriminate|].
    destruct (Ascii.eqb c ch); [|discriminate]. intros H. injection H as <-. lia. }
  destruct ty; cbn [matchToken keywordText];
    try (apply Hkw; reflexivity); try apply Hchar.
  - unfold matchLineComment. destruct s as [|c [|d s]]; try discriminate.
    destruct (_ && _); [|discriminate]. intros H. injection H as <-. lia.
  - unfold matchBlockComment. destruct s as [|c [|d s]]; try discriminate.
    destruct (_ && _); [|discriminate].
    destruct (findBlockEnd s); cbn [option_map]; [|discriminate].
    intros H. injection H as <-. lia.
  - apply positive_positive.
  - unfold matchStringLiteral. destruct s as [|c s]; [discriminate|].
    destruct (Ascii.eqb c "'"); [|discriminate].
    destruct (stringBodyLen s); cbn [option_map]; [|discriminate].
    intros H. injection H as <-. lia.
  - apply positive_positive.
  - unfold matchIdentifier. destruct s as [|c s]; [discriminate|].
    destruct (_ || _); [|discriminate]. intros H. injection H as <-. lia.
  - unfold matchUnknown. destruct s as [|c s]; [discriminate|].
    destruct (Js.isSpace c); [discriminate|]. intros H. injection H as <-. lia.
Qed.

Lemma tokens_addError (e : LexError) (r : LexResult) : tokens (addError e r) = tokens r.
Proof. reflexivity. Qed.

Lemma append_snoc_cons (pre : string) (c : ascii) (s : string) :
  (pre +:+ String c EmptyString) +:+ s = pre +:+ String c s.
Proof. apply append_String. Qed.

Lemma lastChar_snoc (pre : string) (c : ascii) :
  Js.lastChar (pre +:+ String c EmptyString) = Some c.
Proof. apply lastChar_append. reflexivity. Qed.

Lemma lexFrom_tokens (text : string) (s : string) :
  forall (pre : string) (prev : option ascii) (skip : nat) (inError : bool),
    text = pre +:+ s -> prev = Js.lastChar pre ->
    tokensFrom text (String.length pre + skip)
               (tokens (lexFrom s prev (String.length pre) skip inError)).
Proof.
  induction s as [|c s IH]; intros pre prev skip inError Htext Hprev; [exact I|].
  assert (Hnext : forall skip' inError',
             tokensFrom text (S (String.length pre) + skip')
               (tokens (lexFrom s (Some c) (S (String.length pre)) skip' inError'))).
  { intros skip' inError'.
    replace (S (String.length pre)) with (String.length (pre +:+ String c EmptyString))
      by (rewrite length_append; cbn [String.length]; lia).
    apply IH; [rewrite append_snoc_cons; exact Htext|].
    rewrite lastChar_snoc. reflexivity. }
  cbn [lexFrom]. destruct skip as [|skip].
  - destruct (firstMatch allTokens prev (String c s)) as [[ty len]|] eqn:Hmatch.
    + pose proof (matchToken_positive _ _ _ _ (firstMatch_sound _ _ _ _ _ Hmatch)) as Hlen.
      destruct (skipped ty) eqn:Hskipped.
      * eapply tokensFrom_le; [|apply Hnext]. lia.
      * cbn [addToken tokens tokensFrom startOffset image tokenType].
        split; [lia|]. split.
        -- exists len. cbn [startOffset image tokenType]. unfold charBefore.
           rewrite Htext, dropChars_append, take_append, <- Hprev.
           split; [exact Hmatch|]. split; [reflexivity|]. split; [|exact Hskipped].
           destruct len; [lia|reflexivity].
        -- eapply tokensFrom_le; [|apply Hnext].
           pose proof (length_take len (String c s)). lia.
    + destruct inError; [|rewrite tokens_addError];
        (eapply tokensFrom_le; [|apply Hnext]; lia).
  - eapply tokensFrom_le; [|apply Hnext]. lia.
Qed.

Lemma tokenize_tokensFrom (text : string) : tokensFrom text 0 (tokens (tokenize text)).
Proof.
  unfold tokenize.
  apply (lexFrom_tokens text text EmptyString None 0 false); reflexivity.
Qed.

Lemma tokensFrom_tokenAt (text : string) (ts : list IToken) (from : nat) :
  tokensFrom text from ts -> Forall (tokenAt text) ts.
Proof.
  revert from. induction ts as [|t ts IH]; intros from H; [constructor|].
  cbn [tokensFrom] in H. destruct H as [_ [Ht Hts]].
  constructor; [exact Ht|]. apply (IH _ Hts).
Qed.

(** X13: the tokens the lexer returns lie in the text in order and without
    overlap; each one carries as its image the text its pattern matched at
    its offset, never empty, under the first token type of the lexer's list
    whose pattern matches there; comments, white space, semicolons and
    unknown characters are never among them. *)
Theorem X13_token_stream (text : string) :
  tokensFrom text 0 (tokens (tokenize text)) /\
  Forall (tokenAt text) (tokens (tokenize text)).
Proof.
  split; [apply tokenize_tokensFrom|].
  apply (tokensFrom_tokenAt text _ 0), tokenize_tokensFrom.
Qed.

End TokenStream.

(* ================================================================== *)
(** * The names the parser records *)
(* ================================================================== *)

Section RecordedNames.
Import Tokens Parser.

Lemma calm_bind {A B} (p : Parser A) (k : A -> Parser B) :
  calm p -> (forall a, calm (k a)) -> calm (bind p k).
Proof.
  intros Hp Hk st. unfold bind. specialize (Hp st).
  destruct (p st) as [[a|e] st1]; cbn [snd] in *; [|exact Hp].
  eapply incl_tran; [apply Hk|exact Hp].
Qed.

Lemma calm_ret {A} (a : A) : calm (ret a).
Proof. intros st. apply incl_refl. Qed.

Lemma calm_throw {A} (e : error) : calm (@throw A e).
Proof. intros st. apply incl_refl. Qed.

Lemma calm_parseError {A} (msg : string) : calm (@parseError A msg).
Proof. intros st. apply incl_refl. Qed.

Lemma incl_advance (st : ParserState) : List.incl (rest (advance st)) (rest st).
Proof.
  unfold advance. cbn [rest]. destruct (rest st); [apply incl_refl|apply incl_tl, incl_refl].
Qed.

Lemma calm_tryMatch (ty : TokenType) : calm (tryMatch ty).
Proof.
  intros st. unfold tryMatch. pose proof (incl_advance st) as Hadv.
  destruct (rest st) as [|t r] eqn:E; [cbn [snd]; rewrite E; apply incl_refl|].
  destruct (isType ty t); cbn [snd]; [exact Hadv|rewrite E; apply incl_refl].
Qed.

Lemma calm_consumeToken (ty : TokenType) (expected : string) : calm (consumeToken ty expected).
Proof.
  intros st. unfold consumeToken. pose proof (incl_advance st) as Hadv.
  destruct (rest st) as [|t r] eqn:E; [cbn [snd]; rewrite E; apply incl_refl|].
  destruct (isType ty t); cbn [snd]; [exact Hadv|rewrite E; apply incl_refl].
Qed.

Lemma calm_skipIf (ty : TokenType) : calm (skipIf ty).
Proof.
  intros st. unfold skipIf. destruct (peekType st 0) as [ty'|]; [|apply incl_refl].
  destruct (tokenTypeEqb ty' ty); cbn [snd]; [apply incl_advance|apply incl_refl].
Qed.

Lemma leaves_tl {A} (x : result A * ParserState) (t : IToken) (r : list IToken) :
  leaves x r -> leaves x (t :: r).
Proof. intros H. apply incl_tl. exact H. Qed.

Lemma leaves_map {A B} (x : result A * ParserState) (f : A -> B) (r : list IToken) :
  leaves x r ->
  leaves (match x with
          | (Ok a, st') => (Ok (f a), st')
          | (Err e, st') => (Err e, st')
          end) r.
Proof. destruct x as [[a|e] st']; intros H; exact H. Qed.

Ltac leaves_leaf :=
  first [ apply incl_refl | apply incl_tl, incl_refl | apply incl_nil_l
        | apply incl_tl, incl_tl, incl_refl | apply incl_tl, incl_tl, incl_tl, incl_refl ].

Ltac leaves_loop IH :=
  repeat match goal with
         | |- leaves (if ?b then _ else _) _ => destruct b
         end;
  first [ unfold leaves; cbn [snd rest]; leaves_leaf
        | apply leaves_tl, IH
        | apply leaves_tl, leaves_map, IH ].

Lemma skipToToken_loop_leaves (target : TokenType) (startPos : nat) (r : list IToken) (pos : nat) :
  leaves (skipToToken_loop target startPos r pos) r.
Proof.
  revert pos. induction r as [|t r IH]; intros pos; cbn [skipToToken_loop];
    leaves_loop IH.
Qed.

Lemma skipBalanced_loop_leaves (limit : nat) (msg : string) (startPos depth : nat)
    (r : list IToken) (pos : nat) :
  leaves (skipBalanced_loop limit msg startPos depth r pos) r.
Proof.
  revert depth pos. induction r as [|t r IH]; intros depth pos;
    destruct depth as [|d]; cbn [skipBalanced_loop]; leaves_loop IH.
Qed.

Lemma captureExpression_loop_leaves (stoppers : list TokenType) (startPos : nat)
    (r : list IToken) (pos : nat) :
  leaves (captureExpression_loop stoppers startPos r pos) r.
Proof.
  revert pos. induction r as [|t r IH]; intros pos; cbn [captureExpression_loop];
    leaves_loop IH.
Qed.

Lemma skipWith_loop_leaves (startPos depth : nat) (r : list IToken) (pos : nat) :
  leaves (skipWith_loop startPos depth r pos) r.
Proof.
  revert depth pos. induction r as [|t r IH]; intros depth pos; cbn [skipWith_loop];
    leaves_loop IH.
Qed.

Lemma skipToColumnName_loop_leaves (startPos : nat) (r : list IToken) (pos : nat) :
  leaves (skipToColumnName_loop startPos r pos) r.
Proof.
  revert pos. induction r as [|t r IH]; intros pos; cbn [skipToColumnName_loop];
    leaves_loop IH.
Qed.

Lemma default_loop_leaves (startPos : nat) (r : list IToken) (pos : nat) :
  leaves (default_loop startPos r pos) r.
Proof.
  revert pos. induction r as [|t r IH]; intros pos; cbn [default_loop];
    leaves_loop IH.
Qed.

Lemma codec_loop_leaves (startPos : nat) (r : list IToken) (pos : nat) :
  leaves (codec_loop startPos r pos) r.
Proof.
  revert pos. induction r as [|t r IH]; intros pos; cbn [codec_loop];
    leaves_loop IH.
Qed.

Lemma firstFunctionArg_loop_leaves (n : nat) :
  forall (startPos depth : nat) (srcName : option string) (r : list IToken) (pos : nat),
    length r <= n ->
    leaves (firstFunctionArg_loop startPos depth srcName r pos) r.
Proof.
  induction n as [|n IH]; intros startPos depth srcName r pos Hn.
  - destruct r; [|cbn in Hn; lia]. destruct depth; apply incl_refl.
  - destruct depth as [|d]; [destruct r; apply incl_refl|].
    destruct r as [|t r]; [apply incl_refl|].
    cbn [length] in Hn. cbn [firstFunctionArg_loop].
    destruct (isType LParen t); [apply leaves_tl, IH; lia|].
    destruct (isType RParen t); [apply leaves_tl, IH; lia|].
    destruct (isType Identifier t).
    + destruct r as [|t1 r1]; [apply leaves_tl, IH; lia|].
      destruct (isType LParen t1); [apply leaves_tl, IH; lia|].
      destruct (isType Dot t1); [|apply leaves_tl, IH; lia].
      destruct r1 as [|t2 r2]; [unfold leaves; cbn [snd rest]; apply incl_nil_l|].
      destruct (isType Identifier t2);
        [|unfold leaves; cbn [snd rest]; apply incl_tl, incl_tl, incl_refl].
      cbn [length] in Hn. apply leaves_tl, leaves_tl, leaves_tl, IH. lia.
    + destruct (Nat.ltb _ _); [unfold leaves; cbn [snd rest]; apply incl_tl, incl_refl|].
      apply leaves_tl, IH. lia.
Qed.

Create HintDb calm.

#[local] Hint Resolve calm_ret calm_throw calm_parseError calm_tryMatch calm_consumeToken
  calm_skipIf : calm.

Ltac calm_auto :=
  repeat first
    [ progress cbv beta zeta
    | solve [auto with calm]
    | match goal with
      | |- calm (bind _ _) => apply calm_bind; [|intros ?]
      | |- calm (if ?b then _ else _) => destruct b
      | |- calm (match ?x with _ => _ end) => destruct x
      end ].

Lemma calm_loop {A} (p : Parser A) :
  (forall st, leaves (p st) (rest st)) -> calm p.
Proof. intros H st. apply H. Qed.

Lemma calm_skipToToken (target : TokenType) : calm (skipToToken target).
Proof. apply calm_loop. intros st. apply skipToToken_loop_leaves. Qed.

Lemma calm_skipBalancedParens : calm skipBalancedParens.
Proof. apply calm_loop. intros st. apply skipBalanced_loop_leaves. Qed.

Lemma calm_skipWithNamedExpressions : calm skipWithNamedExpressions.
Proof. apply calm_loop. intros st. apply skipWith_loop_leaves. Qed.

Lemma calm_skipToColumnName : calm skipToColumnName.
Proof. apply calm_loop. intros st. apply skipToColumnName_loop_leaves. Qed.

Lemma calm_parseFirstFunctionArg : calm parseFirstFunctionArg.
Proof.
  apply calm_loop. intros st.
  apply (firstFunctionArg_loop_leaves (length (rest st))). apply le_n.
Qed.

Lemma calm_captureExpressionUntil (stoppers : list TokenType) :
  calm (captureExpressionUntil stoppers).
Proof.
  apply calm_loop. intros st. unfold captureExpressionUntil.
  apply leaves_map, captureExpression_loop_leaves.
Qed.

Lemma calm_cteBody :
  calm (fun st => skipBalanced_loop 5000 "CTE content parsing limit exceeded"
                                    (position st) 1 (rest st) (position st)).
Proof. apply calm_loop. intros st. apply skipBalanced_loop_leaves. Qed.

Lemma calm_defaultParts :
  calm (fun st => default_loop (position st) (rest st) (position st)).
Proof. apply calm_loop. intros st. apply default_loop_leaves. Qed.

Lemma calm_codecBody :
  calm (fun st => codec_loop (position st) (rest st) (position st)).
Proof. apply calm_loop. intros st. apply codec_loop_leaves. Qed.

Lemma calm_engineName :
  calm (fun st => match peekType st 0 with
                  | Some Identifier =>
                      bind (consumeToken Identifier "engine") (fun _ => ret tt) st
                  | _ => ret tt st
                  end).
Proof.
  intros st. destruct (peekType st 0) as [ty|]; [|apply (calm_ret tt)].
  destruct ty; first [apply (calm_ret tt st) | idtac].
  apply (calm_bind (consumeToken Identifier "engine") (fun _ => ret tt)); auto with calm.
Qed.

Lemma calm_toSelect :
  calm (fun st => if peekIs Select 0 st then (Ok tt, st) else skipToToken Select st).
Proof.
  intros st. destruct (peekIs Select 0 st); [apply incl_refl|apply calm_skipToToken].
Qed.

#[local] Hint Resolve calm_skipToToken calm_skipBalancedParens calm_skipWithNamedExpressions
  calm_skipToColumnName calm_parseFirstFunctionArg calm_captureExpressionUntil
  calm_cteBody calm_defaultParts calm_codecBody calm_engineName calm_toSelect : calm.

Lemma calm_parseQualifiedName : calm parseQualifiedName.
Proof. unfold parseQualifiedName. calm_auto. Qed.

Lemma calm_parseTableType : calm parseTableType.
Proof. unfold parseTableType. calm_auto. Qed.

Lemma calm_parseOptionalIfNotExists : calm parseOptionalIfNotExists.
Proof. unfold parseOptionalIfNotExists. calm_auto. Qed.

Lemma calm_parseOptionalEngine : calm parseOptionalEngine.
Proof. unfold parseOptionalEngine. calm_auto. Qed.

Lemma calm_parseOptionalPartitionBy : calm parseOptionalPartitionBy.
Proof. unfold parseOptionalPartitionBy. calm_auto. Qed.

Lemma calm_parseOptionalOrderBy : calm parseOptionalOrderBy.
Proof. unfold parseOptionalOrderBy. calm_auto. Qed.

Lemma calm_parseSelectItem : calm parseSelectItem.
Proof. unfold parseSelectItem. calm_auto. Qed.

#[local] Hint Resolve calm_parseQualifiedName calm_parseTableType
  calm_parseOptionalIfNotExists calm_parseOptionalEngine calm_parseOptionalPartitionBy
  calm_parseOptionalOrderBy calm_parseSelectItem : calm.

Lemma calm_parseSelectList_loop (fuel : nat) :
  forall itemCount, calm (parseSelectList_loop fuel itemCount).
Proof.
  induction fuel as [|fuel IH]; intros itemCount st; [apply incl_refl|].
  cbn [parseSelectList_loop].
  destruct (Nat.ltb itemCount 100); [|apply incl_refl].
  destruct (rest st) as [|t r] eqn:E; [cbn [snd]; rewrite E; apply incl_refl|].
  rewrite <- E.
  destruct (isType From t); [apply incl_refl|].
  destruct (isType Comma t);
    [eapply incl_tran; [apply IH|apply incl_advance]|].
  destruct (isType Identifier t);
    [|eapply incl_tran; [apply IH|apply incl_advance]].
  apply (calm_bind parseSelectItem); [apply calm_parseSelectItem|].
  intros item. apply calm_bind; [apply IH|]. intros items. apply calm_ret.
Qed.

Lemma calm_parseSelectList : calm parseSelectList.
Proof. intros st. apply calm_parseSelectList_loop. Qed.

#[local] Hint Resolve calm_parseSelectList : calm.

Lemma calm_parseCTEBlockOnly : calm parseCTEBlockOnly.
Proof. unfold parseCTEBlockOnly. calm_auto. Qed.

Lemma calm_parseWithClause : calm parseWithClause.
Proof.
  intros st. unfold parseWithClause.
  destruct (peekIs With 0 st); [|apply incl_refl].
  cbv zeta. destruct (_ && _).
  - eapply incl_tran; [|apply incl_advance].
    apply (calm_bind parseCTEBlockOnly (fun cte => ret (Some cte)));
      [apply calm_parseCTEBlockOnly|intros cte; apply calm_ret].
  - eapply incl_tran; [|apply incl_advance].
    apply (calm_bind skipWithNamedExpressions (fun _ => ret None));
      [apply calm_skipWithNamedExpressions|intros u; apply calm_ret].
Qed.

Lemma calm_parseFromClause : calm parseFromClause.
Proof. unfold parseFromClause. calm_auto. Qed.

#[local] Hint Resolve calm_parseCTEBlockOnly calm_parseWithClause calm_parseFromClause : calm.

Lemma calm_parseMaterializedViewBody (n : string) (partitionBy orderBy : option string) :
  calm (parseMaterializedViewBody n partitionBy orderBy).
Proof. unfold parseMaterializedViewBody. calm_auto. Qed.

Lemma calm_parseOptionalComment : calm parseOptionalComment.
Proof. unfold parseOptionalComment. calm_auto. Qed.

Lemma calm_parseOptionalDefault : calm parseOptionalDefault.
Proof. unfold parseOptionalDefault. calm_auto. Qed.

Lemma calm_parseOptionalCodec : calm parseOptionalCodec.
Proof. unfold parseOptionalCodec. calm_auto. Qed.

#[local] Hint Resolve calm_parseMaterializedViewBody calm_parseOptionalComment
  calm_parseOptionalDefault calm_parseOptionalCodec : calm.

Lemma calm_parseTypeArg_with (p : Parser TypeAst) : calm p -> calm (parseTypeArg_with p).
Proof.
  intros Hp st. unfold parseTypeArg_with.
  destruct (rest st) as [|t r] eqn:E; [cbn [snd]; rewrite E; apply incl_refl|].
  rewrite <- E.
  destruct (isType Identifier t);
    [apply (calm_bind p); [exact Hp|intros ty; apply calm_ret]|].
  destruct (isType StringLiteral t).
  { apply (calm_bind (consumeToken StringLiteral "string")); [auto with calm|].
    intros k. calm_auto. }
  destruct (isType Integer t).
  { apply (calm_bind (consumeToken Integer "integer")); [auto with calm|].
    intros v. calm_auto. }
  apply incl_advance.
Qed.

Lemma calm_typeExpr (fuel : nat) :
  calm (parseTypeExpr_rec fuel) /\ calm (parseTypeArgs_rec fuel).
Proof.
  induction fuel as [|fuel [IHexpr IHargs]]; [split; apply calm_throw|].
  split.
  - cbn [parseTypeExpr_rec]. calm_auto.
  - cbn [parseTypeArgs_rec].
    apply calm_bind; [apply calm_parseTypeArg_with; exact IHexpr|]. intros arg. calm_auto.
Qed.

Lemma calm_parseTypeExpr : calm parseTypeExpr.
Proof. intros st. apply calm_typeExpr. Qed.

#[local] Hint Resolve calm_parseTypeExpr : calm.

Lemma calm_columnRest (nameTok : IToken) :
  calm (fun typeStart =>
          (do* type <- parseTypeExpr ;;
           fun typeEnd =>
             (do* comment <- parseOptionalComment ;;
              do* defaultValue <- parseOptionalDefault ;;
              run* parseOptionalCodec ;;
              let rawType :=
                Js.join "" (List.map image
                              (firstn (position typeEnd - position typeStart)
                                      (rest typeStart))) in
              ret (mkColumnAst (image nameTok) type rawType comment defaultValue)) typeEnd)
            typeStart).
Proof.
  intros typeStart. cbv beta.
  apply (calm_bind parseTypeExpr); [apply calm_parseTypeExpr|].
  intros type typeEnd. cbv beta.
  apply (calm_bind parseOptionalComment); [auto with calm|]. intros comment.
  apply (calm_bind parseOptionalDefault); [auto with calm|]. intros defaultValue.
  apply (calm_bind parseOptionalCodec); [auto with calm|]. intros u.
  apply calm_ret.
Qed.

Lemma calm_parseColumnDef : calm parseColumnDef.
Proof.
  unfold parseColumnDef.
  apply calm_bind; [auto with calm|]. intros u.
  apply calm_bind; [auto with calm|]. intros nameTok. apply calm_columnRest.
Qed.

Lemma calm_parseColumns_loop (fuel : nat) : calm (parseColumns_loop fuel).
Proof.
  induction fuel as [|fuel IH]; [apply calm_throw|].
  cbn [parseColumns_loop].
  apply calm_bind; [apply calm_parseColumnDef|]. intros column. calm_auto.
Qed.

Lemma calm_columns : calm (fun st => parseColumns_loop (S (length (rest st))) st).
Proof. intros st. apply calm_parseColumns_loop. Qed.

#[local] Hint Resolve calm_columns : calm.

Lemma calm_parseOptionalColumns : calm parseOptionalColumns.
Proof. unfold parseOptionalColumns. calm_auto. Qed.

#[local] Hint Resolve calm_parseOptionalColumns : calm.

Lemma calm_createTable : calm createTable.
Proof. unfold createTable. calm_auto. Qed.

(** ** What the actions return *)

Lemma named_after {A} (p : Parser A) (st st' : ParserState) (r : result A) :
  calm p -> named st -> p st = (r, st') -> named st'.
Proof.
  intros Hp Hst H. unfold named in *. specialize (Hp st). rewrite H in Hp. cbn [snd] in Hp.
  apply (incl_Forall Hp Hst).
Qed.

Lemma consumeToken_named (ty : TokenType) (expected : string) (st st' : ParserState)
    (t : IToken) :
  named st -> consumeToken ty expected st = (Ok t, st') -> namedToken t.
Proof.
  unfold consumeToken, named. intros Hst H.
  destruct (rest st) as [|t0 r]; [discriminate|].
  destruct (isType ty t0); [|discriminate]. injection H as <- _.
  apply List.Forall_cons_iff in Hst. apply Hst.
Qed.

Ltac step H a s Ha Hs :=
  apply bind_inv in H; destruct H as [a [s [Ha H]]];
  match type of Ha with
  | ?p ?st0 = _ =>
      assert (Hs : named s) by (apply (named_after p st0 s (Ok a)); [auto with calm|assumption|exact Ha])
  end.

Lemma parseQualifiedName_named (st st' : ParserState) (n : string) :
  named st -> parseQualifiedName st = (Ok n, st') -> Js.nonEmpty n = true.
Proof.
  unfold parseQualifiedName. intros Hst H.
  step H firstTok s1 Hfirst Hs1. apply (consumeToken_named _ _ _ _ _ Hst) in Hfirst.
  step H dot s2 Hdot Hs2. destruct dot.
  - step H second s3 Hsecond Hs3. apply (consumeToken_named _ _ _ _ _ Hs2) in Hsecond.
    apply ret_inv in H. destruct H as [<- _]. exact Hsecond.
  - apply ret_inv in H. destruct H as [<- _]. exact Hfirst.
Qed.

Lemma parseColumnDef_named (st st' : ParserState) (column : ColumnAst) :
  named st -> parseColumnDef st = (Ok column, st') -> Js.nonEmpty (col_name column) = true.
Proof.
  unfold parseColumnDef. intros Hst H.
  step H u s1 Hu Hs1. step H nameTok s2 Hname Hs2.
  apply (consumeToken_named _ _ _ _ _ Hs1) in Hname. cbv beta in H.
  apply bind_inv in H. destruct H as [type [s3 [_ H]]]. cbv beta in H.
  apply bind_inv in H. destruct H as [comment [s4 [_ H]]].
  apply bind_inv in H. destruct H as [defaultValue [s5 [_ H]]].
  apply bind_inv in H. destruct H as [u' [s6 [_ H]]].
  apply ret_inv in H. destruct H as [<- _]. exact Hname.
Qed.

Lemma parseColumns_loop_named (fuel : nat) :
  forall (st st' : ParserState) (columns : list ColumnAst),
    named st -> parseColumns_loop fuel st = (Ok columns, st') ->
    Forall (fun column => Js.nonEmpty (col_name column) = true) columns.
Proof.
  induction fuel as [|fuel IH]; intros st st' columns Hst H; [discriminate|].
  cbn [parseColumns_loop] in H.
  apply bind_inv in H. destruct H as [column [s1 [Hcolumn H]]].
  assert (Hs1 : named s1)
    by (apply (named_after parseColumnDef st s1 (Ok column) calm_parseColumnDef Hst Hcolumn)).
  apply (parseColumnDef_named _ _ _ Hst) in Hcolumn.
  step H more s2 Hmore Hs2. destruct more.
  - apply bind_inv in H. destruct H as [rest [s3 [Hrest H]]].
    apply ret_inv in H. destruct H as [<- _].
    constructor; [exact Hcolumn|]. apply (IH _ _ _ Hs2 Hrest).
  - apply ret_inv in H. destruct H as [<- _]. constructor; [exact Hcolumn|constructor].
Qed.

Lemma parseOptionalColumns_named (st st' : ParserState) (columns : list ColumnAst) :
  named st -> parseOptionalColumns st = (Ok columns, st') ->
  Forall (fun column => Js.nonEmpty (col_name column) = true) columns.
Proof.
  unfold parseOptionalColumns. intros Hst H.
  step H lp s1 Hlp Hs1. destruct lp; [|apply ret_inv in H; destruct H as [<- _]; constructor].
  step H rp s2 Hrp Hs2. destruct rp; [apply ret_inv in H; destruct H as [<- _]; constructor|].
  apply bind_inv in H. destruct H as [cs [s3 [Hcs H]]].
  apply (parseColumns_loop_named _ _ _ _ Hs2) in Hcs.
  apply bind_inv in H. destruct H as [closed [s4 [_ H]]].
  apply bind_inv in H. destruct H as [u [s5 [_ H]]].
  apply ret_inv in H. destruct H as [<- _]. exact Hcs.
Qed.

Lemma parseSelectItem_named (st st' : ParserState) (item : SelectItem) :
  named st -> parseSelectItem st = (Ok item, st') ->
  Js.nonEmpty (itemColumnName item) = true.
Proof.
  unfold parseSelectItem. intros Hst H.
  step H id1 s1 Hid1 Hs1. apply (consumeToken_named _ _ _ _ _ Hst) in Hid1.
  step H dot s2 Hdot Hs2.
  apply bind_inv in H. destruct H as [n [s3 [Hn H]]].
  assert (Hs3 : named s3 /\ Js.nonEmpty n = true).
  { destruct dot.
    - step Hn id2 s3' Hid2 Hs3'. apply (consumeToken_named _ _ _ _ _ Hs2) in Hid2.
      apply ret_inv in Hn. destruct Hn as [<- <-]. split; assumption.
    - apply ret_inv in Hn. destruct Hn as [<- <-]. split; assumption. }
  destruct Hs3 as [Hs3 Hname].
  step H lp s4 Hlp Hs4.
  apply bind_inv in H. destruct H as [fs [s5 [Hfs H]]].
  assert (Hs5 : named s5).
  { destruct lp.
    - step Hfs src s5' Hsrc Hs5'. apply ret_inv in Hfs. destruct Hfs as [_ <-]. exact Hs5'.
    - apply ret_inv in Hfs. destruct Hfs as [_ <-]. exact Hs4. }
  step H as_ s6 Has Hs6.
  apply bind_inv in H. destruct H as [alias [s7 [Halias H]]].
  apply ret_inv in H. destruct H as [<- _]. unfold itemColumnName. cbn [item_alias item_name].
  destruct as_.
  - step Halias a s7' Ha Hs7'. apply (consumeToken_named _ _ _ _ _ Hs6) in Ha.
    apply ret_inv in Halias. destruct Halias as [<- _]. exact Ha.
  - apply ret_inv in Halias. destruct Halias as [<- _]. exact Hname.
Qed.

Lemma named_advance (st : ParserState) : named st -> named (advance st).
Proof. intros H. apply (incl_Forall (incl_advance st) H). Qed.

Lemma parseSelectList_loop_named (fuel : nat) :
  forall (itemCount : nat) (st st' : ParserState) (items : list SelectItem),
    named st -> parseSelectList_loop fuel itemCount st = (Ok items, st') ->
    Forall (fun item => Js.nonEmpty (itemColumnName item) = true) items.
Proof.
  induction fuel as [|fuel IH]; intros itemCount st st' items Hst H; [discriminate|].
  cbn [parseSelectList_loop] in H.
  destruct (Nat.ltb itemCount 100); [|injection H as <- _; constructor].
  destruct (rest st) as [|t r] eqn:E; [injection H as <- _; constructor|].
  destruct (isType From t); [injection H as <- _; constructor|].
  destruct (isType Comma t); [apply (IH _ _ _ _ (named_advance st Hst) H)|].
  destruct (isType Identifier t); [|apply (IH _ _ _ _ (named_advance st Hst) H)].
  apply bind_inv in H. destruct H as [item [s1 [Hitem H]]].
  assert (Hs1 : named s1)
    by (apply (named_after parseSelectItem st s1 (Ok item) calm_parseSelectItem Hst Hitem)).
  apply (parseSelectItem_named _ _ _ Hst) in Hitem.
  apply bind_inv in H. destruct H as [rest' [s2 [Hrest H]]].
  apply ret_inv in H. destruct H as [<- _].
  constructor; [exact Hitem|]. apply (IH _ _ _ _ Hs1 Hrest).
Qed.

Lemma placeholders_named (items : list SelectItem) :
  Forall (fun item => Js.nonEmpty (itemColumnName item) = true) items ->
  Forall (fun column => Js.nonEmpty (col_name column) = true)
         (List.map placeholderColumn items).
Proof. induction 1; constructor; assumption. Qed.

Lemma parseMaterializedViewBody_named (n : string) (partitionBy orderBy : option string)
    (st st' : ParserState) (table : TableAst) :
  Js.nonEmpty n = true -> named st ->
  parseMaterializedViewBody n partitionBy orderBy st = (Ok table, st') ->
  namedTable table /\ parsedShape table.
Proof.
  unfold parseMaterializedViewBody. intros Hn Hst H.
  step H as_ s1 Has Hs1.
  apply bind_inv in H. destruct H as [u1 [s2 [Hu1 H]]].
  assert (Hs2 : named s2).
  { destruct as_.
    - apply ret_inv in Hu1. destruct Hu1 as [_ <-]. exact Hs1.
    - apply (named_after (skipToToken As) s1 s2 (Ok u1) (calm_skipToToken As) Hs1 Hu1). }
  step H cteInfo s3 Hcte Hs3.
  apply bind_inv in H. destruct H as [u2 [s4 [Hu2 H]]].
  assert (Hs4 : named s4)
    by (apply (named_after
                 (fun st => if peekIs Select 0 st then (Ok tt, st) else skipToToken Select st)
                 s3 s4 (Ok u2) calm_toSelect Hs3 Hu2)).
  step H u3 s5 Hu3 Hs5.
  apply bind_inv in H. destruct H as [selectCols [s6 [Hlist H]]].
  apply (parseSelectList_loop_named _ _ _ _ _ Hs5) in Hlist.
  apply bind_inv in H. destruct H as [src [s7 [_ H]]].
  apply ret_inv in H. destruct H as [<- _].
  split; [split; [exact Hn|apply placeholders_named; exact Hlist]|reflexivity].
Qed.

Lemma createTable_named (st st' : ParserState) (table : TableAst) :
  named st -> createTable st = (Ok table, st') -> namedTable table /\ parsedShape table.
Proof.
  unfold createTable. intros Hst H.
  step H c s1 Hc Hs1. step H isMV s2 HisMV Hs2. step H u s3 Hu Hs3.
  apply bind_inv in H. destruct H as [n [s4 [Hn H]]].
  assert (Hs4 : named s4)
    by (apply (named_after parseQualifiedName s3 s4 (Ok n) calm_parseQualifiedName Hs3 Hn)).
  apply (parseQualifiedName_named _ _ _ Hs3) in Hn.
  apply bind_inv in H. destruct H as [columns [s5 [Hcolumns H]]].
  assert (Hs5 : named s5)
    by (apply (named_after parseOptionalColumns s4 s5 (Ok columns)
                 calm_parseOptionalColumns Hs4 Hcolumns)).
  apply (parseOptionalColumns_named _ _ _ Hs4) in Hcolumns.
  step H u' s6 Hu' Hs6. step H partitionBy s7 Hp Hs7. step H orderBy s8 Ho Hs8.
  destruct (isMV && Nat.eqb (length columns) 0).
  - apply (parseMaterializedViewBody_named _ _ _ _ _ _ Hn Hs8 H).
  - apply ret_inv in H. destruct H as [<- _].
    split; [split; assumption|split; reflexivity].
Qed.

Lemma incl_skipToCreate (r : list IToken) (pos : nat) :
  List.incl (rest (skipToCreate r pos)) r.
Proof.
  revert pos. induction r as [|t r IH]; intros pos; cbn [skipToCreate]; [apply incl_refl|].
  destruct (isType Create t); [apply incl_refl|apply incl_tl, IH].
Qed.

Lemma parse_loop_named (fuel : nat) :
  forall (tableCount : nat) (st : ParserState) (tables : list TableAst),
    named st -> parse_loop fuel tableCount st = Ok tables ->
    Forall (fun table => namedTable table /\ parsedShape table) tables.
Proof.
  induction fuel as [|fuel IH]; intros tableCount st tables Hst H; [discriminate|].
  cbn [parse_loop] in H.
  destruct (negb (isAtEnd st) && Nat.ltb tableCount 50); [|injection H as <-; constructor].
  assert (Hs1 : named (skipToCreate (rest st) (position st)))
    by (apply (incl_Forall (incl_skipToCreate _ _) Hst)).
  destruct (negb (isAtEnd _)); [|injection H as <-; constructor].
  destruct (createTable _) as [[table|e] s2] eqn:Hcreate.
  - assert (Hs2 : named s2)
      by (apply (named_after createTable _ s2 (Ok table) calm_createTable Hs1 Hcreate)).
    apply rbind_inv in H. destruct H as [rest' [Hrest H]]. injection H as <-.
    constructor; [apply (createTable_named _ _ _ Hs1 Hcreate)|apply (IH _ _ _ Hs2 Hrest)].
  - assert (Hs2 : named s2)
      by (apply (named_after createTable _ s2 (Err e) calm_createTable Hs1 Hcreate)).
    apply (IH _ _ _ (incl_Forall (incl_skipToCreate _ _) Hs2) H).
Qed.

Lemma tokenize_named (text : string) : Forall namedToken (tokens (tokenize text)).
Proof.
  eapply Forall_impl; [apply (tokensFrom_tokenAt text _ 0), tokenize_tokensFrom|].
  intros t [len [_ [_ [Hn _]]]]. exact Hn.
Qed.

Lemma parse_named (ddl : string) (tables : list TableAst) :
  Parser.parse ddl = Ok tables ->
  Forall (fun table => namedTable table /\ parsedShape table) tables.
Proof.
  unfold Parser.parse. destruct (errors (tokenize ddl)); [|discriminate].
  intros H. apply rbind_inv in H. destruct H as [state [Hstate H]].
  unfold createParserState in Hstate.
  apply rbind_inv in Hstate. destruct Hstate as [u [_ Hstate]]. injection Hstate as <-.
  apply (parse_loop_named _ _ (mkState (tokens (tokenize ddl)) 0) _ (tokenize_named ddl) H).
Qed.

Lemma parseStatements_Forall (Q : TableAst -> Prop)
    (_parse : string -> result (list TableAst)) (parts : list string) :
  (forall stmt tables, _parse stmt = Ok tables -> Forall Q tables) ->
  Forall Q (Index.parseStatements _parse parts).
Proof.
  intros Hparse. induction parts as [|stmt parts IH]; [constructor|].
  cbn [Index.parseStatements]. destruct (_parse stmt) as [tables|] eqn:E; [|exact IH].
  apply Forall_app. split; [apply (Hparse stmt); exact E|exact IH].
Qed.

Lemma index_parse_tables (ddl : string) :
  Forall (fun table => namedTable table /\ parsedShape table) (Index.parse ddl).
Proof.
  unfold Index.parse, Index.parseWith. apply parseStatements_Forall.
  intros stmt tables. apply parse_named.
Qed.

Lemma Forall_and_l {A} (P Q : A -> Prop) (l : list A) :
  Forall (fun x => P x /\ Q x) l -> Forall P l.
Proof. intros H. eapply Forall_impl; [exact H|]. intros x [Hx _]. exact Hx. Qed.

Lemma Forall_and_r {A} (P Q : A -> Prop) (l : list A) :
  Forall (fun x => P x /\ Q x) l -> Forall Q l.
Proof. intros H. eapply Forall_impl; [exact H|]. intros x [_ Hx]. exact Hx. Qed.

(** X14: the parser records no empty name.  Every table that [parse]
    returns has a name, and so has each of its columns, declared or taken
    from the select list of a view; so the assertions of [map] on the names
    of tables and columns never fail on what the parser returns. *)
Theorem X14_parsed_names (ddl : string) :
  Forall namedTable (Index.parse ddl) /\
  (forall tables, Parser.parse ddl = Ok tables -> Forall namedTable tables) /\
  Forall (fun table => Forall (fun column => Mapping.validateColumn column = Ok tt)
                              (tbl_columns table))
         (Index.parse ddl) /\
  (Forall (fun table => N.leb (N.of_nat (length (tbl_columns table)))
                              Mapping.MAX_COLUMNS_PER_TABLE = true) (Index.parse ddl) ->
   Mapping.validateTableArray (Index.parse ddl) = Ok tt).
Proof.
  pose proof (Forall_and_l _ _ _ (index_parse_tables ddl)) as Hnamed.
  split; [exact Hnamed|]. split; [|split].
  - intros tables H. apply (Forall_and_l _ _ _ (parse_named ddl tables H)).
  - eapply Forall_impl; [exact Hnamed|]. intros table [_ Hcolumns].
    eapply Forall_impl; [exact Hcolumns|]. intros column Hc.
    unfold Mapping.validateColumn, assert. rewrite Hc. reflexivity.
  - intros Hcount. unfold Mapping.validateTableArray.
    destruct (Forall_mapM_ok
                (fun table =>
                   let* _ := assert (Js.nonEmpty (tbl_name table)) "Table name cannot be empty" in
                   assert (N.leb (N.of_nat (length (tbl_columns table)))
                                 Mapping.MAX_COLUMNS_PER_TABLE)
                          ("Too many columns in table " +:+ tbl_name table +:+ ": " +:+
                           Js.natToString (length (tbl_columns table))))
                (Index.parse ddl)) as [us ->]; [|reflexivity].
    rewrite List.Forall_forall in *. intros table Hin.
    destruct (Hnamed table Hin) as [Hname _]. unfold assert.
    rewrite Hname, (Hcount table Hin). reflexivity.
Qed.

(** X15: a table that [parse] returns is either a plain table, without
    source and select list, or a view whose columns are exactly the
    placeholders of its select items: one column per item, in order, named
    by the alias of the item or else by its name, of type Unknown. *)
Theorem X15_parsed_shape (ddl : string) :
  Forall parsedShape (Index.parse ddl) /\
  (forall tables, Parser.parse ddl = Ok tables -> Forall parsedShape tables).
Proof.
  split; [apply (Forall_and_r _ _ _ (index_parse_tables ddl))|].
  intros tables H. apply (Forall_and_r _ _ _ (parse_named ddl tables H)).
Qed.

End RecordedNames.

Lemma X14_parsed_names_witness :
  List.map tbl_name (Index.parse viewDdl) = ["src"; "mv"] /\
  Mapping.validateTableArray (Index.parse viewDdl) = Ok tt.
Proof.
  split; [vm_compute; reflexivity|].
  apply (proj2 (proj2 (proj2 (X14_parsed_names viewDdl)))).
  vm_compute. repeat constructor.
Defined.

Lemma X15_parsed_shape_witness :
  Parser.parse viewDdl = Ok (Index.parse viewDdl) /\
  Forall parsedShape (Index.parse viewDdl) /\
  List.map (fun table => List.map col_name (tbl_columns table)) (Index.parse viewDdl) =
    [["id"; "v"]; ["id"; "total"]].
Proof.
  assert (H : Parser.parse viewDdl = Ok (Index.parse viewDdl)) by (vm_compute; reflexivity).
  split; [exact H|]. split; [|vm_compute; reflexivity].
  apply (proj2 (X15_parsed_shape viewDdl) _ H).
Defined.

(* ================================================================== *)
(** * The failures of the mapper *)
(* ================================================================== *)

Section MapFailures.
Import Mapping.

Variable options : MappingOptions.

Lemma mapM_err {A B} (f : A -> result B) (l : list A) (e : error) :
  mapM f l = Err e -> exists x, In x l /\ f x = Err e.
Proof.
  induction l as [|x l IH]; [discriminate|]. cbn [mapM]. intros H.
  apply rbind_inv_err in H. destruct H as [H | [y [_ H]]].
  - exists x. split; [left; reflexivity|exact H].
  - apply rbind_inv_err in H. destruct H as [H | [ys [_ H]]]; [|discriminate].
    destruct (IH H) as [x' [Hin Hx]]. exists x'. split; [right; exact Hin|exact Hx].
Qed.

Lemma tupleParts_failure (self : TypeAst -> result string) (l : list TypeArg) (e : error) :
  (forall t, self t = Err e -> typeFailure options e) ->
  forall i, tupleParts self i l = Err e -> typeFailure options e.
Proof.
  intros Hself. induction l as [|a l IH]; intros i H; [discriminate|].
  cbn [tupleParts] in H.
  apply rbind_inv_err in H. destruct H as [H | [s [_ H]]]; [apply (Hself _ H)|].
  apply rbind_inv_err in H. destruct H as [H | [ss [_ H]]]; [apply (IH _ H)|discriminate].
Qed.

Lemma mapTypeAstToTs_rec_failure (fuel : nat) :
  forall (t : TypeAst) (d : nat) (e : error),
    MAX_TYPE_DEPTH + 2 <= fuel + d -> d <= S MAX_TYPE_DEPTH ->
    mapTypeAstToTs_rec fuel t options d = Err e -> typeFailure options e.
Proof.
  induction fuel as [|fuel IH]; intros t d e Hfuel Hd H;
    [unfold MAX_TYPE_DEPTH in *; lia|].
  cbn [mapTypeAstToTs_rec] in H.
  destruct (Nat.ltb MAX_TYPE_DEPTH d) eqn:Hlt.
  { injection H as <-. right. left. reflexivity. }
  apply Nat.ltb_ge in Hlt.
  assert (Hrec : forall t', mapTypeAstToTs_rec fuel t' options (d + 1) = Err e ->
                            typeFailure options e)
    by (intros t'; apply IH; unfold MAX_TYPE_DEPTH in *; lia).
  apply rbind_inv_err in H. destruct H as [H | [u [_ H]]].
  { right. right. left. exists t. exact H. }
  apply rbind_inv_err in H. destruct H as [H | [u' [_ H]]].
  { left. exact H. }
  destruct (tryPluginMapping t options) as [[|c r]|]; try discriminate.
  all: destruct (typeKind (name t)); try discriminate;
    try (apply rbind_inv_err in H; destruct H as [H | [s [_ H]]];
         [first [apply (Hrec _ H) | apply (tupleParts_failure _ _ _ Hrec _ H)]|discriminate]);
    try (apply (Hrec _ H));
    unfold handleUnknownType in H;
    destruct (failOnUnknown options) eqn:Hfail; try discriminate;
    injection H as <-; right; right; right; split; [exact Hfail|eexists; reflexivity].
Qed.

Lemma mapTypeAstToTs_failure (t : TypeAst) (e : error) :
  mapTypeAstToTs t options = Err e -> typeFailure options e.
Proof.
  intros H. rewrite mapTypeAstToTs_start in H.
  apply (mapTypeAstToTs_rec_failure (S (MAX_TYPE_DEPTH + 1)) t 0 e);
    [unfold MAX_TYPE_DEPTH; lia|unfold MAX_TYPE_DEPTH; lia|exact H].
Qed.

(** The lookups of the resolution assert that the name they are given is
    not empty; their callers test it first. *)
Lemma findTableByName_total (tables : list TableAst) (c : ascii) (r : string) :
  exists found, findTableByName tables (String c r) = Ok found.
Proof.
  unfold findTableByName, assert. cbn [Js.nonEmpty rbind].
  destruct (find _ tables); eexists; reflexivity.
Qed.

Lemma findColumnByName_total (table : TableAst) (n : string) :
  Js.nonEmpty n = true -> exists found, findColumnByName table n = Ok found.
Proof.
  intros Hn. unfold findColumnByName, assert. rewrite Hn. cbn [rbind].
  destruct (find _ (tbl_columns table)); eexists; reflexivity.
Qed.

Lemma createMappingContext_total (table : TableAst) (allTables : list TableAst) :
  exists context, createMappingContext table allTables = Ok context.
Proof.
  unfold createMappingContext.
  assert (Hfrom : forall o : option string,
            exists found,
              match o with
              | Some (String c r as from) => findTableByName allTables from
              | _ => Ok None
              end = Ok found).
  { intros [[|c r]|]; try (eexists; reflexivity). apply findTableByName_total. }
  destruct (Hfrom (tbl_mvFrom table)) as [src ->]. cbn [rbind].
  destruct (tbl_mvCte table) as [cte|].
  - destruct (Hfrom (cte_src cte)) as [cteSrc ->]. eexists. reflexivity.
  - eexists. reflexivity.
Qed.

Lemma mapFuncToType_total (c : ascii) (r : string) :
  exists t, mapFuncToType (String c r) = Ok t.
Proof.
  unfold mapFuncToType, assert. cbn [Js.nonEmpty rbind].
  repeat match goal with
         | |- context [if ?b then _ else _] => destruct b
         end; eexists; reflexivity.
Qed.

Lemma resolveAggReturnType_total (funcName : option string) (baseType : option TypeAst) :
  exists t, resolveAggReturnType funcName baseType = Ok t.
Proof.
  unfold resolveAggReturnType, assert.
  destruct funcName as [[|c r]|]; try (eexists; reflexivity).
  cbn [Js.nonEmpty rbind].
  repeat match goal with
         | |- context [if ?b then _ else _] => destruct b
         end; eexists; reflexivity.
Qed.

Lemma resolveCTEBaseType_total (cteInfo : FuncSrc) (context : MappingContext) :
  exists t, resolveCTEBaseType cteInfo context = Ok t.
Proof.
  unfold resolveCTEBaseType.
  assert (Hfunc : exists fromFunc,
            match fs_func cteInfo with
            | Some (String c r as fn) =>
                let* funcType := mapFuncToType fn in
                if negb (String.eqb (name funcType) "Unknown") then Ok (Some funcType) else Ok None
            | _ => Ok None
            end = Ok fromFunc).
  { destruct (fs_func cteInfo) as [[|c r]|]; try (eexists; reflexivity).
    destruct (mapFuncToType_total c r) as [t ->]. cbn [rbind].
    destruct (negb _); eexists; reflexivity. }
  destruct Hfunc as [fromFunc ->]. cbn [rbind].
  destruct fromFunc; [eexists; reflexivity|].
  destruct (fs_src cteInfo) as [[|c r]|]; try (eexists; reflexivity).
  destruct (cteSourceTable context) as [table|]; [|eexists; reflexivity].
  destruct (findColumnByName_total table (String c r) eq_refl) as [found ->].
  eexists. reflexivity.
Qed.

(** The resolution of a view column never throws. *)
Lemma resolveColumnType_total (column : ColumnAst) (context : MappingContext) :
  Js.nonEmpty (col_name column) = true ->
  exists resolved, resolveColumnType column context = Ok resolved.
Proof.
  intros Hname. unfold resolveColumnType.
  destruct (String.eqb (name (col_type column)) "Unknown"); [|eexists; reflexivity].
  assert (H : exists resolved, resolveUnknownType column context = Ok resolved).
  { unfold resolveUnknownType, resolveFromSourceTable, resolveFromCTE.
    destruct (sourceTable context) as [table|].
    - assert (Hsrc : Js.nonEmpty
                       match aliasMap context !! col_name column with
                       | Some (String c r as aliasedName) => aliasedName
                       | _ => col_name column
                       end = true)
        by (destruct (aliasMap context !! col_name column) as [[|c r]|];
            first [exact Hname | reflexivity]).
      destruct (findColumnByName_total table _ Hsrc) as [found ->]. cbn [rbind].
      destruct found; eexists; reflexivity.
    - destruct (mvInfoMap context !! col_name column) as [mvInfo|];
        [|eexists; reflexivity].
      assert (Hbase : exists baseType, lookupBaseType mvInfo context = Ok baseType).
      { unfold lookupBaseType.
        destruct (match fs_src mvInfo with
                  | Some (String c r as src) => cteAliasMap context !! src
                  | _ => None
                  end); [apply resolveCTEBaseType_total|eexists; reflexivity]. }
      destruct Hbase as [baseType ->]. cbn [rbind].
      destruct (resolveAggReturnType_total (fs_func mvInfo) baseType) as [resolved ->].
      cbn [rbind]. destruct resolved; [eexists; reflexivity|].
      destruct (negb _); eexists; reflexivity. }
  destruct H as [resolved ->]. cbn [rbind]. destruct resolved; eexists; reflexivity.
Qed.

Lemma nonEmpty_false (s : string) : Js.nonEmpty s = false -> s = EmptyString.
Proof. destruct s; intros H; [reflexivity|discriminate H]. Qed.

Lemma mapTableColumns_failure (table : TableAst) (context : MappingContext) (e : error) :
  mapTableColumns table context options = Err e ->
  Exists (fun column => col_name column = EmptyString) (tbl_columns table) \/
  exists t, mapTypeAstToTs t options = Err e.
Proof.
  unfold mapTableColumns. intros H. apply mapM_err in H.
  destruct H as [column [Hin H]].
  apply rbind_inv_err in H. destruct H as [H | [u [Hvalid H]]].
  - left. apply List.Exists_exists. exists column. split; [exact Hin|].
    unfold validateColumn, assert in H. apply nonEmpty_false.
    destruct (Js.nonEmpty (col_name column)); [discriminate|reflexivity].
  - right. unfold validateColumn, assert in Hvalid.
    destruct (Js.nonEmpty (col_name column)) eqn:Hname; [|discriminate Hvalid].
    unfold mapSingleColumn in H.
    apply rbind_inv_err in H. destruct H as [H | [resolved [_ H]]].
    { destruct (resolveColumnType_total column context Hname) as [resolved Hr].
      rewrite Hr in H. discriminate H. }
    apply rbind_inv_err in H. destruct H as [H | [ts [_ H]]]; [|discriminate H].
    exists (fst resolved). exact H.
Qed.

Lemma validateTableArray_failure (tables : list TableAst) (e : error) :
  validateTableArray tables = Err e ->
  Exists (fun table => tbl_name table = EmptyString \/
                       (MAX_COLUMNS_PER_TABLE < N.of_nat (length (tbl_columns table)))%N)
         tables.
Proof.
  unfold validateTableArray. intros H.
  apply rbind_inv_err in H. destruct H as [H | [us [_ H]]]; [|discriminate H].
  apply mapM_err in H. destruct H as [table [Hin H]].
  apply List.Exists_exists. exists table. split; [exact Hin|].
  unfold assert in H. destruct (Js.nonEmpty (tbl_name table)) eqn:Hname.
  - right. cbn [rbind] in H.
    destruct (N.leb (N.of_nat (length (tbl_columns table))) MAX_COLUMNS_PER_TABLE) eqn:Hlen;
      [discriminate|].
    apply N.leb_gt in Hlen. exact Hlen.
  - left. apply nonEmpty_false. exact Hname.
Qed.

Lemma map_failure (tables : list TableAst) (e : error) :
  map tables options = Err e ->
  MAX_TABLES < length tables \/
  Exists rejectedTable tables \/
  exists t, mapTypeAstToTs t options = Err e.
Proof.
  unfold map. intros H.
  apply rbind_inv_err in H. destruct H as [H | [u [_ H]]].
  { left. unfold assert in H.
    destruct (Nat.leb (length tables) MAX_TABLES) eqn:Hlen; [discriminate|].
    apply Nat.leb_gt in Hlen. exact Hlen. }
  right.
  apply rbind_inv_err in H. destruct H as [H | [u' [_ H]]].
  { left. apply validateTableArray_failure in H.
    eapply List.Exists_impl; [|exact H]. intros table [Hn | Hc].
    - left. exact Hn.
    - right. left. exact Hc. }
  apply mapM_err in H. destruct H as [table [Hin H]].
  unfold mapSingleTable in H.
  apply rbind_inv_err in H. destruct H as [H | [context [_ H]]].
  { destruct (createMappingContext_total table tables) as [context Hc].
    rewrite Hc in H. discriminate H. }
  apply rbind_inv_err in H. destruct H as [H | [columns [_ H]]]; [|discriminate H].
  apply mapTableColumns_failure in H. destruct H as [H | H].
  - left. apply List.Exists_exists. exists table. split; [exact Hin|].
    right. right. exact H.
  - right. exact H.
Qed.

(** X16: what makes [map] throw.  It throws for more than 1000 tables, for
    a table without name or with more than 10000 columns, for a column
    without name, and when the type mapper throws on the type of a column:
    for invalid options, a nesting deeper than 20, a type without name or
    with more than 100 arguments, or an unknown type under
    [failOnUnknown].  Nothing else throws: the resolution of view columns
    never does, although its lookups carry assertions of their own. *)
Theorem X16_map_failures (tables : list TableAst) (e : error) :
  map tables options = Err e ->
  MAX_TABLES < length tables \/
  Exists rejectedTable tables \/
  (exists t, mapTypeAstToTs t options = Err e) /\ typeFailure options e.
Proof.
  intros H. apply map_failure in H.
  destruct H as [H | [H | [t H]]]; [left; exact H|right; left; exact H|].
  right. right. split; [exists t; exact H|].
  apply (mapTypeAstToTs_failure t e H).
Qed.

End MapFailures.

Lemma X16_map_failures_witness :
  Mapping.map (Index.parse unknownTypeDdl) strictOptions = Err (UnknownTypeError "Polygon") /\
  (Mapping.MAX_TABLES < length (Index.parse unknownTypeDdl) \/
   Exists rejectedTable (Index.parse unknownTypeDdl) \/
   (exists t, Mapping.mapTypeAstToTs t strictOptions = Err (UnknownTypeError "Polygon")) /\
   typeFailure strictOptions (UnknownTypeError "Polygon")).
Proof.
  assert (H : Mapping.map (Index.parse unknownTypeDdl) strictOptions =
              Err (UnknownTypeError "Polygon")) by (vm_compute; reflexivity).
  split; [exact H|]. apply (X16_map_failures strictOptions _ _ H).
Defined.

(* ================================================================== *)
(** * The failures of the pipeline *)
(* ================================================================== *)

Lemma map_column_counts (tables : list TableAst) (options : MappingOptions)
    (mapped : list MappedTable) :
  Mapping.map tables options = Ok mapped ->
  Forall2 (fun table m => length (mt_columns m) = length (tbl_columns table)) tables mapped.
Proof.
  unfold Mapping.map. intros H.
  apply rbind_inv in H. destruct H as [u [_ H]].
  apply rbind_inv in H. destruct H as [u' [_ H]].
  apply mapM_Forall2 in H.
  eapply Forall2_impl; [exact H|]. intros table m Hm. cbv beta in Hm.
  unfold Mapping.mapSingleTable in Hm.
  apply rbind_inv in Hm. destruct Hm as [context [_ Hm]].
  apply rbind_inv in Hm. destruct Hm as [columns [Hcolumns Hm]].
  injection Hm as <-. cbn [mt_columns].
  unfold Mapping.mapTableColumns in Hcolumns.
  apply mapM_Forall2 in Hcolumns. apply Forall2_length in Hcolumns.
  symmetry. exact Hcolumns.
Qed.

Lemma Forall2_Exists_r {A B} (R : A -> B -> Prop) (P : A -> Prop) (Q : B -> Prop)
    (l : list A) (l' : list B) :
  (forall a b, R a b -> Q b -> P a) ->
  Forall2 R l l' -> Exists Q l' -> Exists P l.
Proof.
  intros HR H. induction H as [|a b l l' Hab _ IH]; intros HE.
  - apply List.Exists_nil in HE. destruct HE.
  - apply List.Exists_cons in HE. destruct HE as [HE | HE].
    + apply List.Exists_cons_hd. apply (HR a b Hab HE).
    + apply List.Exists_cons_tl. apply IH. exact HE.
Qed.

(** X17: what makes [generateSource] throw when no plugin is configured:
    more than 1000 parsed tables, a parsed table with more than 1000
    columns, a failure of the type mapper on the type of a column (invalid
    options, a nesting deeper than 20, more than 100 type arguments, an
    unknown type under [failOnUnknown]), or an error inside ts-morph while
    the file is built.  No assertion on a name fails on what the parser
    returns, and neither the resolution of views nor the generation of the
    Zod schemas throws. *)
Theorem X17_generateSource_failures
    (tsMorph : list Emitter.Statement -> Emitter.Statement -> bool)
    (ddl : string) (mapping : MappingOptions)
    (emission : Emitter.EmissionOptions) (e : error) :
  plugins mapping = None ->
  generateSource tsMorph ddl mapping emission = Err e ->
  Mapping.MAX_TABLES < length (Index.parse ddl) \/
  Exists (fun table => Emitter.MAX_COLUMNS < length (tbl_columns table)) (Index.parse ddl) \/
  ((exists t, Mapping.mapTypeAstToTs t mapping = Err e) /\ typeFailure mapping e) \/
  e = TsMorphError.
Proof.
  intros Hplugins H. unfold generateSource in H. cbv zeta in H.
  pose proof (Forall_and_l _ _ _ (index_parse_tables ddl)) as Hnamed.
  apply rbind_inv_err in H. destruct H as [H | [mapped [Hmap H]]].
  - apply map_failure in H. destruct H as [H | [H | [t H]]].
    + left. exact H.
    + right. left. apply List.Exists_exists in H. destruct H as [table [Hin H]].
      apply List.Exists_exists. exists table. split; [exact Hin|].
      rewrite List.Forall_forall in Hnamed. destruct (Hnamed table Hin) as [Hname Hcolumns].
      destruct H as [H | [H | H]].
      * rewrite H in Hname. discriminate Hname.
      * unfold Mapping.MAX_COLUMNS_PER_TABLE in H. unfold Emitter.MAX_COLUMNS. lia.
      * apply List.Exists_exists in H. destruct H as [column [Hc H]].
        rewrite List.Forall_forall in Hcolumns. specialize (Hcolumns column Hc).
        rewrite H in Hcolumns. discriminate Hcolumns.
    + right. right. left. split; [exists t; exact H|].
      apply (mapTypeAstToTs_failure mapping t e H).
  - destruct (List.Forall_Exists_dec
                (fun m => length (mt_columns m) <= Emitter.MAX_COLUMNS)
                (fun m => le_dec (length (mt_columns m)) Emitter.MAX_COLUMNS) mapped)
      as [Hall | Hsome].
    + right. right. right.
      exact (mapped_emit_failure mapping Hplugins tsMorph _ _ _ _ Hmap Hall H).
    + right. left.
      apply (Forall2_Exists_r _ _ _ _ _
               (fun table m (Hlen : length (mt_columns m) = length (tbl_columns table))
                    (Hm : ~ length (mt_columns m) <= Emitter.MAX_COLUMNS) =>
                  ltac:(lia) : Emitter.MAX_COLUMNS < length (tbl_columns table))
               (map_column_counts _ _ _ Hmap) Hsome).
Qed.

Lemma X17_generateSource_failures_witness :
  generateSource acceptAll unknownTypeDdl strictOptions zodOptions =
    Err (UnknownTypeError "Polygon") /\
  (Mapping.MAX_TABLES < length (Index.parse unknownTypeDdl) \/
   Exists (fun table => Emitter.MAX_COLUMNS < length (tbl_columns table))
          (Index.parse unknownTypeDdl) \/
   ((exists t, Mapping.mapTypeAstToTs t strictOptions = Err (UnknownTypeError "Polygon")) /\
    typeFailure strictOptions (UnknownTypeError "Polygon")) \/
   UnknownTypeError "Polygon" = TsMorphError).
Proof.
  assert (H : generateSource acceptAll unknownTypeDdl strictOptions zodOptions =
              Err (UnknownTypeError "Polygon")) by (vm_compute; reflexivity).
  split; [exact H|].
  apply (X17_generateSource_failures acceptAll unknownTypeDdl strictOptions zodOptions _
           eq_refl H).
Defined.

(* ================================================================== *)
(** * The imports of the emitted file *)
(* ================================================================== *)

Section Imports.
Import Mapping Emitter.

Variable options : MappingOptions.
Hypothesis no_plugins : plugins options = None.

Lemma not_by_suffix (a p s : string) :
  Js.endsWith s p = false -> a +:+ p <> s.
Proof. intros H <-. rewrite endsWith_append in H. discriminate H. Qed.

(** Only a bare Decimal is rendered as [Decimal], and only for decimal.js. *)
Lemma decimal_text_rec (fuel : nat) :
  forall (t : TypeAst) (d : nat),
    mapTypeAstToTs_rec fuel t options d = Ok "Decimal" ->
    decimal options = "decimal.js" /\ bareDecimal t.
Proof.
  induction fuel as [|fuel IH]; intros t d H; [discriminate H|].
  cbn [mapTypeAstToTs_rec] in H.
  destruct (Nat.ltb MAX_TYPE_DEPTH d); [discriminate H|].
  apply rbind_inv in H. destruct H as [u [_ H]].
  apply rbind_inv in H. destruct H as [u' [_ H]].
  unfold tryPluginMapping in H. rewrite no_plugins in H.
  destruct (typeKind (name t)) eqn:Hkind.
  - apply rbind_inv in H. destruct H as [inner [_ H]]. injection H as H.
    exfalso. revert H. apply not_by_suffix. reflexivity.
  - destruct (IH _ _ H) as [Hd Hb]. split; [exact Hd|].
    apply bare_lowCardinality; assumption.
  - apply rbind_inv in H. destruct H as [inner [_ H]]. injection H as H.
    exfalso. revert H. apply not_by_suffix. reflexivity.
  - apply rbind_inv in H. destruct H as [parts [_ H]]. discriminate H.
  - apply rbind_inv in H. destruct H as [valueTs [_ H]]. discriminate H.
  - injection H as H. exfalso. unfold mapEnumType in H.
    destruct (extractEnumKeys (args t)) as [|k keys]; [discriminate H|].
    assert (Hlast : Js.lastChar "Decimal" = Some "'"%char)
      by (rewrite <- H; apply join_quoted_last; discriminate).
    discriminate Hlast.
  - injection H as H. unfold mapDecimalType in H.
    destruct (String.eqb (decimal options) "decimal.js") eqn:Hd; [|discriminate H].
    apply String.eqb_eq in Hd. split; [exact Hd|]. apply bare_decimal. exact Hkind.
  - discriminate H.
  - injection H as H. unfold mapBigIntType in H.
    destruct (String.eqb (int64As options) "bigint"); discriminate H.
  - discriminate H.
  - injection H as H. unfold mapDateTimeType in H.
    destruct (String.eqb (datetimeAs options) "Date"); discriminate H.
  - unfold handleUnknownType in H. destruct (failOnUnknown options); discriminate H.
Qed.

Lemma bare_decimal_text (t : TypeAst) :
  bareDecimal t -> decimal options = "decimal.js" ->
  forall (fuel d : nat) (tsType : string),
    mapTypeAstToTs_rec fuel t options d = Ok tsType -> tsType = "Decimal".
Proof.
  intros Hb Hd. induction Hb as [t Hkind | t Hkind _ IH]; intros fuel d tsType H;
    (destruct fuel as [|fuel]; [discriminate H|]);
    cbn [mapTypeAstToTs_rec] in H;
    (destruct (Nat.ltb MAX_TYPE_DEPTH d); [discriminate H|]);
    apply rbind_inv in H; destruct H as [u [_ H]];
    apply rbind_inv in H; destruct H as [u' [_ H]];
    unfold tryPluginMapping in H; rewrite no_plugins, Hkind in H.
  - injection H as <-. unfold mapDecimalType. rewrite Hd. reflexivity.
  - apply (IH _ _ _ H).
Qed.

Lemma importsOf_app (a b : list Statement) :
  importsOf (a ++ b) = (importsOf a ++ importsOf b)%list.
Proof.
  induction a as [|s a IH]; [reflexivity|].
  destruct s; cbn [app importsOf]; rewrite IH; reflexivity.
Qed.

Lemma preamble_no_import (statements : list Statement) :
  preambleOf statements = [] -> importsOf statements = [].
Proof.
  induction statements as [|s rest IH]; [reflexivity|].
  destruct s; cbn [preambleOf importsOf]; try discriminate; exact IH.
Qed.

Lemma analyzedColumns_all (tables : list MappedTable) :
  length tables <= MAX_TABLES -> Forall emittable tables ->
  analyzedColumns tables = flat_map mt_columns tables.
Proof.
  intros Hmax Hvalid. unfold analyzedColumns. rewrite firstn_all2 by exact Hmax.
  induction Hvalid as [|m tables [_ [Hlen _]] _ IH]; [reflexivity|].
  cbn [flat_map]. rewrite firstn_all2 by exact Hlen. rewrite IH; [reflexivity|].
  cbn [length] in Hmax. lia.
Qed.

(** The imports of a file [emit] has built. *)
Lemma emit_imports (tsMorph : list Statement -> Statement -> bool)
    (tables : list MappedTable) (emission : EmissionOptions)
    (statements : list Statement) :
  emit tsMorph tables emission = Ok statements ->
  importsOf statements =
    ((if emitZod emission then ["zod"] else []) ++
     (if hasTsType "Decimal" (flat_map mt_columns tables) then ["decimal.js"] else []))%list.
Proof.
  intros H. apply emit_inv in H. destruct H as [Hvalid [body [Hbody ->]]].
  apply validateEmissionInput_iff in Hvalid. destruct Hvalid as [Hmax Hvalid].
  destruct (bodyStatements_shape _ _ _ Hmax Hvalid Hbody) as [_ [_ Hp]].
  cbn [app importsOf].
  rewrite !importsOf_app, (preamble_no_import body Hp), app_nil_r.
  unfold importsFor, aliasesFor, analyzeDependencies.
  cbn [needsIPv4 needsIPv6 needsZod needsDecimal].
  rewrite (analyzedColumns_all _ Hmax Hvalid).
  destruct (emitZod emission), (hasTsType "Decimal" (flat_map mt_columns tables)),
    (hasTsType "IPv4" (flat_map mt_columns tables)),
    (hasTsType "IPv6" (flat_map mt_columns tables)); reflexivity.
Qed.

(** X18: the imports of the generated file.  [emit] imports zod when Zod
    schemas are asked for, and decimal.js exactly when some column has the
    type text [Decimal]; for a result of [map] without plugin, that is when
    decimal.js is the Decimal mapping and some column is a Decimal, bare or
    under LowCardinality.  A Decimal inside Nullable, Array, Tuple or Map
    does not bring the import, although the type text names [Decimal]. *)
Theorem X18_decimal_import (tsMorph : list Statement -> Statement -> bool)
    (tables : list TableAst) (mapped : list MappedTable)
    (emission : EmissionOptions) (statements : list Statement) :
  map tables options = Ok mapped ->
  emit tsMorph mapped emission = Ok statements ->
  importsOf statements =
    ((if emitZod emission then ["zod"] else []) ++
     (if hasTsType "Decimal" (flat_map mt_columns mapped) then ["decimal.js"] else []))%list /\
  (In "decimal.js" (importsOf statements) <->
   decimal options = "decimal.js" /\
   exists m column,
     In m mapped /\ In column (mt_columns m) /\ bareDecimal (mc_typeAst column)).
Proof.
  intros Hmap Hemit. pose proof (emit_imports _ _ _ _ Hemit) as Himports.
  split; [exact Himports|]. rewrite Himports.
  assert (Hin : In "decimal.js"
                   ((if emitZod emission then ["zod"] else []) ++
                    (if hasTsType "Decimal" (flat_map mt_columns mapped)
                     then ["decimal.js"] else []))%list <->
                hasTsType "Decimal" (flat_map mt_columns mapped) = true).
  { destruct (emitZod emission), (hasTsType "Decimal" (flat_map mt_columns mapped));
      cbn [app In]; split; intros H; try reflexivity; try discriminate H;
      try (left; reflexivity); try (right; left; reflexivity);
      repeat (destruct H as [H | H]; try discriminate H); destruct H. }
  rewrite Hin. unfold hasTsType. rewrite existsb_exists. split.
  - intros [column [Hc Hts]]. apply String.eqb_eq in Hts.
    apply in_flat_map in Hc. destruct Hc as [m [Hm Hc]].
    destruct (map_columns _ _ _ Hmap m Hm column Hc) as [Hmapped _].
    rewrite Hts, mapTypeAstToTs_start in Hmapped.
    destruct (decimal_text_rec _ _ _ Hmapped) as [Hd Hb].
    split; [exact Hd|]. exists m, column. repeat split; assumption.
  - intros [Hd [m [column [Hm [Hc Hb]]]]]. exists column.
    split; [apply in_flat_map; exists m; split; assumption|].
    destruct (map_columns _ _ _ Hmap m Hm column Hc) as [Hmapped _].
    rewrite mapTypeAstToTs_start in Hmapped.
    rewrite (bare_decimal_text _ Hb Hd _ _ _ Hmapped). reflexivity.
Qed.

End Imports.

Lemma X18_decimal_import_witness :
  Mapping.map (Index.parse addressesDdl) decimalOptions = Ok addressesMapped /\
  List.map interfaceFor addressesMapped =
    [("Hosts", [("ip", "string"); ("ip6", "string"); ("price", "Decimal | null")])] /\
  importsOf (fileOf (Emitter.emit acceptAll addressesMapped zodOptions)) = ["zod"].
Proof.
  assert (Hmap : Mapping.map (Index.parse addressesDdl) decimalOptions = Ok addressesMapped)
    by (vm_compute; reflexivity).
  assert (Hemit : Emitter.emit acceptAll addressesMapped zodOptions =
                  Ok (fileOf (Emitter.emit acceptAll addressesMapped zodOptions)))
    by (vm_compute; reflexivity).
  split; [exact Hmap|]. split; [vm_compute; reflexivity|].
  destruct (X18_decimal_import decimalOptions eq_refl _ _ _ _ _ Hmap Hemit) as [Himports _].
  rewrite Himports. vm_compute. reflexivity.
Defined.

(* ================================================================== *)
(** * From the DDL to the interfaces *)
(* ================================================================== *)

Section GeneratedInterfaces.
Import Mapping Emitter.

Variable options : MappingOptions.

Lemma mapSingleColumn_property (column : ColumnAst) (context : MappingContext)
    (m : MappedColumn) :
  mapSingleColumn column context options = Ok m ->
  propertyOfColumn options column (mc_name m, mc_tsType m).
Proof.
  unfold mapSingleColumn. intros H.
  apply rbind_inv in H. destruct H as [resolved [Hr H]].
  apply rbind_inv in H. destruct H as [tsType [Hts H]].
  injection H as <-. split; [reflexivity|].
  cbn [snd mc_tsType]. intros Hknown.
  unfold resolveColumnType in Hr. rewrite Hknown in Hr. injection Hr as <-.
  exact Hts.
Qed.

Lemma mapSingleTable_interface (table : TableAst) (allTables : list TableAst)
    (m : MappedTable) :
  mapSingleTable table allTables options = Ok m ->
  interfaceOfTable options table (interfaceFor m).
Proof.
  unfold mapSingleTable. intros H.
  apply rbind_inv in H. destruct H as [context [_ H]].
  apply rbind_inv in H. destruct H as [columns [Hcolumns H]].
  injection H as <-. split; [reflexivity|].
  unfold interfaceFor. cbn [snd mt_columns].
  unfold mapTableColumns in Hcolumns. apply mapM_Forall2 in Hcolumns.
  induction Hcolumns as [|column m l ms Hm _ IH]; [constructor|].
  cbn [List.map]. constructor; [|exact IH].
  apply rbind_inv in Hm. destruct Hm as [u [_ Hm]].
  apply (mapSingleColumn_property _ _ _ Hm).
Qed.

Lemma map_interfaces (tables : list TableAst) (mapped : list MappedTable) :
  map tables options = Ok mapped ->
  Forall2 (interfaceOfTable options) tables (List.map interfaceFor mapped).
Proof.
  unfold map. intros H.
  apply rbind_inv in H. destruct H as [u [_ H]].
  apply rbind_inv in H. destruct H as [u' [_ H]].
  apply mapM_Forall2 in H.
  induction H as [|table m l ms Hm _ IH]; [constructor|].
  cbn [List.map]. constructor; [|exact IH].
  apply (mapSingleTable_interface _ _ _ Hm).
Qed.

Lemma emit_interfaces (tsMorph : list Statement -> Statement -> bool)
    (tables : list MappedTable) (emission : EmissionOptions)
    (statements : list Statement) :
  emit tsMorph tables emission = Ok statements ->
  interfacesOf statements = List.map interfaceFor tables.
Proof.
  intros H. apply emit_inv in H. destruct H as [Hvalid [body [Hbody ->]]].
  apply validateEmissionInput_iff in Hvalid. destruct Hvalid as [Hmax Hvalid].
  destruct (bodyStatements_shape _ _ _ Hmax Hvalid Hbody) as [Hi _].
  destruct (imports_statements (analyzeDependencies tables emission)) as [Ii _].
  destruct (aliases_statements (analyzeDependencies tables emission)) as [Ai _].
  cbn [app interfacesOf]. rewrite !interfacesOf_app, Ii, Ai, Hi. reflexivity.
Qed.

(** X19: from the DDL to the interfaces.  When [generateSource] returns,
    the file declares one interface for each table [parse] finds in the
    DDL, in order, under the PascalCase name of the table, with one
    property for each column, in order, under the (optionally camelCased)
    name of the column; the type of the property of a column with a known
    declared type is the text the type mapper gives for that type. *)
Theorem X19_generated_interfaces (tsMorph : list Statement -> Statement -> bool)
    (ddl : string) (emission : EmissionOptions) (statements : list Statement) :
  generateSource tsMorph ddl options emission = Ok statements ->
  Forall2 (interfaceOfTable options) (Index.parse ddl) (interfacesOf statements).
Proof.
  unfold generateSource. cbv zeta. intros H.
  apply rbind_inv in H. destruct H as [mapped [Hmap H]].
  rewrite (emit_interfaces _ _ _ _ H).
  apply map_interfaces. exact Hmap.
Qed.

End GeneratedInterfaces.

Lemma X19_generated_interfaces_witness :
  generateSource acceptAll snakeDdl camelOptions plainOptions =
    Ok (fileOf (generateSource acceptAll snakeDdl camelOptions plainOptions)) /\
  interfacesOf (fileOf (generateSource acceptAll snakeDdl camelOptions plainOptions)) =
    [("UserEvents", [("userId", "bigint"); ("eventTime", "string")])] /\
  Forall2 (interfaceOfTable camelOptions) (Index.parse snakeDdl)
          (interfacesOf (fileOf (generateSource acceptAll snakeDdl camelOptions plainOptions))).
Proof.
  assert (H : generateSource acceptAll snakeDdl camelOptions plainOptions =
              Ok (fileOf (generateSource acceptAll snakeDdl camelOptions plainOptions)))
    by (vm_compute; reflexivity).
  split; [exact H|]. split; [vm_compute; reflexivity|].
  apply (X19_generated_interfaces camelOptions acceptAll snakeDdl plainOptions _ H).
Defined.

(* ================================================================== *)
(** * The text of the JSON-Schema document (C7) *)
(* ================================================================== *)

Section JsonText.
Import JsonSchema.











(** *** Quoted strings *)
















(** *** The values of the renderer *)













(** *** The match at the [required] list *)





(** *** White space around the items *)







(** *** Commas and brackets *)





(** *** The items of the group *)





(** *** The text of the document *)











End JsonText.


